(** * PhishGuard: the content-risk scoring engine

    A shallow embedding of the scoring pipeline of the PhishGuard browser
    extension: [utils/constants.js] (the pattern tables), [utils/helpers.js]
    (shared helpers), [scripts/scanner.js] (URL and sender analysis) and
    [ai-engine.js] (text analysis, category detection, aggregation and
    explanation), followed by the properties the design document states
    about them.

    Conventions of the embedding.
    - A JavaScript string is the list of its UTF-16 code units ([jsstring]);
      [.length] is [length], indexing is [nth_error].
    - Scores are integers ([Z]).  The fractional quantities (weights,
      calibrated scores, ratios, confidence, clock readings) are binary64
      numbers, as in JavaScript: Rocq's primitive [float], with the same
      rounding of every operation.  [Math.round] gives an integer for
      finite Numbers only; what is proved of a rounded score for arbitrary
      weights and calibration is proved for a finite weighted sum.
    - [undefined]/[null] arguments and absent object properties are [None].
    - Built-ins of the JavaScript runtime that the repository calls but does
      not define (Unicode case mapping and the WHATWG URL parser) are fields
      of [Platform]; the regular expressions of the source are the
      backtracking matchers of [RegExp].
    - [console.log] output is not part of the model.

    The storage of results and the toolbar badge of [background.js], the
    colour the popup picks in [popup.js] and the extraction helpers of
    [utils/helpers.js] are modelled after the engine; their properties, and
    further properties of the engine that the code shows, close the file. *)

From Stdlib Require Import String Ascii DecimalString.
From Stdlib Require Import ZArith NArith Lia Bool List.
From Stdlib Require Import Floats Uint63.
Import ListNotations.

Set Implicit Arguments.
Set Warnings "-inexact-float".
Open Scope Z_scope.

(* ================================================================== *)
(** * JavaScript strings and built-ins *)
(* ================================================================== *)

Module JS.

Definition jsstring := list N.

(** ** Literals: UTF-8 source text to UTF-16 code units *)

Definition continuation (b : ascii) : N := N.land (N_of_ascii b) 63.

Definition code_units (cp : N) : jsstring :=
  if (cp <? 65536)%N then [cp]
  else let v := (cp - 65536)%N in
       [(55296 + N.shiftr v 10)%N; (56320 + N.land v 1023)%N].

Fixpoint utf16 (s : string) : jsstring :=
  match s with
  | EmptyString => []
  | String b1 r1 =>
    let n1 := N_of_ascii b1 in
    if (n1 <? 128)%N then n1 :: utf16 r1 else
    match r1 with
    | EmptyString => [65533%N]
    | String b2 r2 =>
      if (n1 <? 224)%N
      then (N.land n1 31 * 64 + continuation b2)%N :: utf16 r2 else
      match r2 with
      | EmptyString => [65533%N]
      | String b3 r3 =>
        if (n1 <? 240)%N
        then (N.land n1 15 * 4096 + continuation b2 * 64
              + continuation b3)%N :: utf16 r3 else
        match r3 with
        | EmptyString => [65533%N]
        | String b4 r4 =>
          code_units (N.land n1 7 * 262144 + continuation b2 * 4096
                      + continuation b3 * 64 + continuation b4)%N
          ++ utf16 r4
        end
      end
    end
  end.

(** The double-quote character, which template literals of the source embed
    in several messages. *)
Definition dquote : jsstring := [34%N].

(** ** Comparison and search *)

Fixpoint eqb (a b : jsstring) : bool :=
  match a, b with
  | [], [] => true
  | x :: a', y :: b' => N.eqb x y && eqb a' b'
  | _, _ => false
  end.

Fixpoint startsWith (s x : jsstring) : bool :=
  match x, s with
  | [], _ => true
  | c :: x', d :: s' => N.eqb c d && startsWith s' x'
  | _ :: _, [] => false
  end.

(** [s.includes(x)] *)
Fixpoint includes (s x : jsstring) : bool :=
  startsWith s x ||
  match s with
  | [] => false
  | _ :: s' => includes s' x
  end.

(** [s.endsWith(x)] *)
Definition endsWith (s x : jsstring) : bool :=
  (length x <=? length s)%nat && eqb (skipn (length s - length x) s) x.

(** [list.includes(x)] on an array of strings. *)
Definition Array_includes (l : list jsstring) (x : jsstring) : bool :=
  existsb (fun y => eqb y x) l.

(** ** Splitting and joining *)

(** [s.split(sep)] for a one-character separator. *)
Fixpoint split (sep : N) (s : jsstring) : list jsstring :=
  match s with
  | [] => [[]]
  | c :: s' =>
    if N.eqb c sep then [] :: split sep s'
    else match split sep s' with
         | [] => [[c]]
         | w :: ws => (c :: w) :: ws
         end
  end.

(** [parts.join(sep)] *)
Fixpoint join (sep : jsstring) (parts : list jsstring) : jsstring :=
  match parts with
  | [] => []
  | [p] => p
  | p :: ps => p ++ sep ++ join sep ps
  end.

(** [parts.slice(0, -1)] and [parts.pop()] on the array [split] returns. *)
Definition slice_0_m1 (parts : list jsstring) : list jsstring := removelast parts.
Definition pop (parts : list jsstring) : jsstring := last parts [].

(** [s.substring(0, n)] *)
Definition substring_0 (n : nat) (s : jsstring) : jsstring := firstn n s.

(** [s.substr(start, len)] *)
Definition substr (start len : nat) (s : jsstring) : jsstring :=
  firstn len (skipn start s).

(** ** White space *)

(** ECMAScript [WhiteSpace] and [LineTerminator] code points: what [trim]
    strips and what [\s] matches. *)
Definition isWhiteSpace (c : N) : bool :=
  ((9 <=? c) && (c <=? 13) || (c =? 32) || (c =? 160) || (c =? 5760)
   || (8192 <=? c) && (c <=? 8202) || (c =? 8232) || (c =? 8233)
   || (c =? 8239) || (c =? 8287) || (c =? 12288) || (c =? 65279))%N.

Fixpoint trimStart (s : jsstring) : jsstring :=
  match s with
  | c :: s' => if isWhiteSpace c then trimStart s' else s
  | [] => []
  end.

Definition trim (s : jsstring) : jsstring :=
  rev (trimStart (rev (trimStart s))).

(** ** Character classes of the regular expressions in the source *)

Definition isDigit (c : N) : bool := ((48 <=? c) && (c <=? 57))%N.
Definition isUpper (c : N) : bool := ((65 <=? c) && (c <=? 90))%N.
Definition isLower (c : N) : bool := ((97 <=? c) && (c <=? 122))%N.
Definition isLetter (c : N) : bool := isUpper c || isLower c.
Definition isHexDigit (c : N) : bool :=
  (isDigit c || (65 <=? c) && (c <=? 70) || (97 <=? c) && (c <=? 102))%N.

(** ASCII lower-casing of one code unit. *)
Definition asciiLower (c : N) : N := if isUpper c then (c + 32)%N else c.

(** ** Numbers *)

(** An integer as a Number; exact below 2^53. *)
Definition Number (z : Z) : float :=
  if z <? 0 then PrimFloat.opp (PrimFloat.of_uint63 (Uint63.of_Z (- z)))
  else PrimFloat.of_uint63 (Uint63.of_Z z).

(** [Math.round] of a finite Number: the nearest integer, ties towards plus
    infinity, computed exactly from the sign, mantissa and exponent of the
    argument, whose value is [m * 2^e]: the result is
    [floor (m * 2^e + 1/2)].  [Math.round] of a NaN or an infinity is the
    argument itself, which is no integer; the 0 given for it here stands for
    nothing, and a statement about a rounded Number holds of the source
    where that Number is finite ([is_finite]). *)
Definition Math_round (x : float) : Z :=
  match Prim2SF x with
  | S754_finite s m e =>
    let num := if s then Z.neg m else Z.pos m in
    if 0 <=? e then Z.shiftl num e
    else Z.shiftr (2 * num + Z.shiftl 1 (- e)) (1 - e)
  | _ => 0
  end.

(** [a > b] on Numbers. *)
Definition gt (a b : float) : bool := PrimFloat.ltb b a.

(** A Number used as a condition: 0 and NaN are falsy. *)
Definition truthyNumber (x : float) : bool :=
  negb (PrimFloat.eqb x 0 || PrimFloat.is_nan x).

(** Decimal rendering of an integer inside a template literal. *)
Definition Number_toString (z : Z) : jsstring :=
  utf16 (NilZero.string_of_int (Z.to_int z)).

End JS.
Import JS.

(* ================================================================== *)
(** * Regular expressions of the source, as backtracking matchers *)
(* ================================================================== *)

(** Every regular expression literal of the engine is built from single
    characters, character classes, greedy repetition of a class, sequence,
    alternation, an optional group, one capture group and the word-boundary
    assertion.  A matcher maps a position to the positions at which a match
    starting there can end, most preferred first, which is the order in which
    a backtracking engine tries them. *)
Module RegExp.

Record Pos := { before : option N;      (* the character just consumed *)
                rest : jsstring;        (* the input still to read *)
                group1 : jsstring }.    (* capture group 1 *)

Definition Matcher := Pos -> list Pos.

Definition eps : Matcher := fun p => [p].

Definition cls (ok : N -> bool) : Matcher := fun p =>
  match rest p with
  | c :: r => if ok c then [{| before := Some c; rest := r; group1 := group1 p |}]
              else []
  | [] => []
  end.

Definition chr (c : N) : Matcher := cls (N.eqb c).

(** A letter under the [i] flag. *)
Definition chr_i (c : N) : Matcher :=
  cls (fun d => N.eqb (asciiLower d) (asciiLower c)).

Definition seq (a b : Matcher) : Matcher := fun p => flat_map b (a p).
Definition alt (a b : Matcher) : Matcher := fun p => a p ++ b p.

(** [(?: a )?] *)
Definition opt (a : Matcher) : Matcher := alt a eps.

Fixpoint lit (s : jsstring) : Matcher :=
  match s with
  | [] => eps
  | c :: s' => seq (chr c) (lit s')
  end.

Fixpoint lit_i (s : jsstring) : Matcher :=
  match s with
  | [] => eps
  | c :: s' => seq (chr_i c) (lit_i s')
  end.

Fixpoint seqs (ms : list Matcher) : Matcher :=
  match ms with
  | [] => eps
  | m :: ms' => seq m (seqs ms')
  end.

Fixpoint alts (ms : list Matcher) : Matcher :=
  match ms with
  | [] => fun _ => []
  | m :: ms' => alt m (alts ms')
  end.

(** Greedy [ [class]{lo,hi} ]; [hi = None] is no upper bound. *)
Fixpoint rep_from (ok : N -> bool) (lo : nat) (hi : option nat)
         (b : option N) (s : jsstring) (g : jsstring) : list Pos :=
  let stop := match lo with
              | O => [{| before := b; rest := s; group1 := g |}]
              | S _ => []
              end in
  match s with
  | c :: r =>
    let more := match hi with Some O => false | _ => ok c end in
    if more
    then rep_from ok (Nat.pred lo) (option_map Nat.pred hi) (Some c) r g ++ stop
    else stop
  | [] => stop
  end.

Definition rep (ok : N -> bool) (lo : nat) (hi : option nat) : Matcher :=
  fun p => rep_from ok lo hi (before p) (rest p) (group1 p).

(** [( a )], recording what [a] consumed. *)
Definition group (a : Matcher) : Matcher := fun p =>
  map (fun q => {| before := before q; rest := rest q;
                   group1 := firstn (length (rest p) - length (rest q)) (rest p) |})
      (a p).

Definition isWordChar (c : N) : bool := isLetter c || isDigit c || N.eqb c 95.

(** [\b] *)
Definition wordBoundary : Matcher := fun p =>
  let left := match before p with Some c => isWordChar c | None => false end in
  let right := match rest p with c :: _ => isWordChar c | [] => false end in
  if xorb left right then [p] else [].

(** The first match starting exactly at a position. *)
Definition matchAt (m : Matcher) (b : option N) (s : jsstring) : option Pos :=
  hd_error (m {| before := b; rest := s; group1 := [] |}).

(** [re.test(s)] for a regular expression without the [g] flag. *)
Fixpoint test_from (m : Matcher) (b : option N) (s : jsstring) : bool :=
  match matchAt m b s with
  | Some _ => true
  | None => match s with
            | c :: s' => test_from m (Some c) s'
            | [] => false
            end
  end.

Definition test (m : Matcher) (s : jsstring) : bool := test_from m None s.

(** The successive matches of a [g] regular expression, left to right and
    without overlap.  Each is returned with the unmatched text before it;
    the last component is the unmatched tail. *)
Fixpoint matches_from (fuel : nat) (m : Matcher) (b : option N) (s : jsstring)
         (skipped : jsstring) : list (jsstring * jsstring * jsstring) * jsstring :=
  match fuel with
  | O => ([], skipped ++ s)
  | S fuel' =>
    match matchAt m b s, s with
    | Some q, _ =>
      let matched := firstn (length s - length (rest q)) s in
      (match matched, s with
       | [], c :: s' =>
         let '(ms, tail) := matches_from fuel' m (Some c) s' [c] in
         ((skipped, matched, group1 q) :: ms, tail)
       | [], [] => ([(skipped, matched, group1 q)], [])
       | _ :: _, _ =>
         let '(ms, tail) := matches_from fuel' m (before q) (rest q) [] in
         ((skipped, matched, group1 q) :: ms, tail)
       end)
    | None, c :: s' => matches_from fuel' m (Some c) s' (skipped ++ [c])
    | None, [] => ([], skipped)
    end
  end.

Definition matches (m : Matcher) (s : jsstring) :=
  matches_from (S (length s)) m None s [].

(** [(s.match(re) || []).length] for a [g] regular expression. *)
Definition match_count (m : Matcher) (s : jsstring) : nat :=
  length (fst (matches m s)).

(** [s.replace(re, replacement)] for a [g] regular expression; the
    replacement may use [$1], passed here as the argument. *)
Definition replace (m : Matcher) (replacement : jsstring -> jsstring)
           (s : jsstring) : jsstring :=
  let '(ms, tail) := matches m s in
  flat_map (fun x => let '(skipped, _, g) := x in skipped ++ replacement g) ms
  ++ tail.

End RegExp.

(* ================================================================== *)
(** * The runtime the engine runs on *)
(* ================================================================== *)

Definition isASCII (s : jsstring) : Prop := Forall (fun c => (c < 128)%N) s.

(** Built-ins whose definition is the runtime's, not the repository's:
    [String.prototype.toLowerCase] (Unicode case mapping) and the [hostname]
    of [new URL(s)], [None] when the constructor throws.  Two facts about
    them are used: on ASCII text lower-casing maps [A]-[Z] to [a]-[z] and
    leaves the rest, and the empty string is not a URL. *)
Class Platform := {
  toLowerCase : jsstring -> jsstring;
  URL_hostname : jsstring -> option jsstring;
  toLowerCase_ascii : forall s, isASCII s -> toLowerCase s = map asciiLower s;
  URL_empty : URL_hostname [] = None
}.

(* ================================================================== *)
(** * constants.js: the scam pattern database *)
(* ================================================================== *)

Module SCAM_CONSTANTS.

Record RiskLevel := {
  min : Z; max : Z; label : jsstring; color : jsstring
}.

Module RISK_LEVELS.
Definition SAFE : RiskLevel :=
  {| min := 0; max := 29; label := utf16 "Safe"; color := utf16 "#22c55e" |}.
Definition CAUTION : RiskLevel :=
  {| min := 30; max := 69; label := utf16 "Caution"; color := utf16 "#f59e0b" |}.
Definition DANGER : RiskLevel :=
  {| min := 70; max := 100; label := utf16 "High Risk"; color := utf16 "#ef4444" |}.
End RISK_LEVELS.

Definition URGENCY_KEYWORDS : list jsstring := map utf16 [
  "act now"; "act immediately"; "urgent action required";
  "immediate attention"; "expires today"; "last chance";
  "limited time"; "only hours left"; "deadline";
  "suspend"; "suspended"; "will be closed";
  "within 24 hours"; "within 48 hours";
  "account will be locked"; "account compromised";
  "unauthorized access"; "unusual activity";
  "verify immediately"; "confirm your identity";
  "failure to respond"; "legal action" ]%string.

Definition THREAT_KEYWORDS : list jsstring := map utf16 [
  "legal action"; "police report"; "court order";
  "arrest warrant"; "criminal charges"; "lawsuit";
  "penalty"; "fine"; "prosecution";
  "account terminated"; "permanently banned";
  "report to authorities"; "federal investigation" ]%string.

Definition FINANCIAL_KEYWORDS : list jsstring := map utf16 [
  "congratulations you've won"; "you are selected";
  "claim your prize"; "lottery winner";
  "million dollars"; "inheritance";
  "beneficiary"; "unclaimed funds";
  "wire transfer"; "western union"; "moneygram";
  "bitcoin payment"; "cryptocurrency";
  "investment opportunity"; "guaranteed returns";
  "double your money"; "risk free";
  "credit card required"; "ssn"; "social security";
  "bank account details"; "routing number";
  "pin number"; "cvv" ]%string.

Definition IMPERSONATION_KEYWORDS : list jsstring := map utf16 [
  "dear customer"; "dear user"; "dear member";
  "valued customer"; "account holder";
  "we have detected"; "we noticed";
  "your account has been"; "as per our records";
  "security department"; "fraud department";
  "technical support"; "helpdesk";
  "official notice"; "important notification" ]%string.

Definition ACTION_KEYWORDS : list jsstring := map utf16 [
  "click here"; "click below"; "click the link";
  "log in here"; "sign in"; "verify your account";
  "update your information"; "confirm your details";
  "download attachment"; "open attached";
  "fill out the form"; "submit your";
  "reply with your"; "send your details";
  "call this number"; "contact us immediately" ]%string.

Definition HINGLISH_KEYWORDS : list jsstring := map utf16 [
  "aapka account"; "aapka khata";
  "block ho jayega"; "band ho jayega";
  "kyc update"; "kyc verification";
  "aadhar card"; "aadhaar";
  "pan card link"; "pan card update";
  "upi id"; "paytm kyc";
  "phonepe"; "google pay";
  "sbi bank"; "rbi notice";
  "income tax notice"; "gst notice";
  "custom duty"; "parcel roka gaya";
  "lottery jeet"; "prize jeeta";
  "crore rupees"; "lakh rupees" ]%string.

Definition GRAMMAR_INDICATORS : list jsstring := map utf16 [
  "kindly do the needful"; "revert back";
  "please to"; "we was"; "you has been";
  "your been selected"; "informations";
  "dears"; "sir/madam"; "respected sir";
  "aborting your"; "aborting the transaction" ]%string.

(** A scam category.  The engine reads [weights], [severity] and [minMatch]
    with a default each; the table below defines none of the three. *)
Record Category := {
  cat_label : jsstring;
  icon : jsstring;
  keywords : list jsstring;
  weights : option (list (jsstring * Z));
  severity : option Z;
  minMatch : option Z
}.

Definition category (l i : string) (kws : list string) : Category :=
  {| cat_label := utf16 l; icon := utf16 i; keywords := map utf16 kws;
     weights := None; severity := None; minMatch := None |}.

(** [Object.entries(SCAM_CATEGORIES)], in insertion order. *)
Definition SCAM_CATEGORIES : list (jsstring * Category) := [
  (utf16 "BANKING", category "Banking/Financial Scam" "🏦"
     ["bank"; "account"; "credit"; "debit"; "transaction"; "payment"; "transfer"]);
  (utf16 "DELIVERY", category "Package/Delivery Scam" "📦"
     ["package"; "delivery"; "shipment"; "tracking"; "fedex"; "ups"; "amazon"; "order"]);
  (utf16 "JOB", category "Job/Employment Scam" "💼"
     ["job offer"; "work from home"; "earn money"; "hiring"; "salary"; "income"; "opportunity"]);
  (utf16 "GOVERNMENT", category "Government Impersonation" "🏛️"
     ["irs"; "tax"; "government"; "court"; "legal"; "police"; "federal"; "social security"]);
  (utf16 "LOTTERY", category "Lottery/Prize Scam" "🎰"
     ["winner"; "prize"; "lottery"; "congratulations"; "selected"; "lucky"; "claim"]);
  (utf16 "ROMANCE", category "Romance/Dating Scam" "💕"
     ["lonely"; "love"; "relationship"; "dating"; "beautiful"; "handsome"; "meet me"]);
  (utf16 "TECH_SUPPORT", category "Tech Support Scam" "🖥️"
     ["virus detected"; "computer infected"; "tech support"; "microsoft"; "apple support"; "security alert"]);
  (utf16 "CRYPTO", category "Cryptocurrency Scam" "🪙"
     ["bitcoin"; "ethereum"; "crypto"; "blockchain"; "nft"; "token"; "wallet"; "mining"])
  ]%string.

Definition SUSPICIOUS_TLDS : list jsstring := map utf16 [
  ".xyz"; ".top"; ".club"; ".online"; ".site";
  ".icu"; ".buzz"; ".tk"; ".ml"; ".ga";
  ".cf"; ".gq"; ".win"; ".loan"; ".click";
  ".link"; ".work"; ".date"; ".racing";
  ".download"; ".stream"; ".bid" ]%string.

Definition TRUSTED_DOMAINS : list jsstring := map utf16 [
  "google.com"; "gmail.com"; "microsoft.com";
  "outlook.com"; "apple.com"; "amazon.com";
  "paypal.com"; "chase.com"; "bankofamerica.com";
  "wellsfargo.com"; "usps.com"; "fedex.com";
  "ups.com"; "irs.gov"; "sbi.co.in";
  "hdfcbank.com"; "icicibank.com"; "rbi.org.in";
  "gov.in"; "india.gov.in" ]%string.

(** The members of [URL_RED_FLAGS] that the scanner uses. *)
Module URL_RED_FLAGS.
Import RegExp.
Definition dot : N := 46.
Definition octet : Matcher := rep isDigit 1 (Some 3%nat).

(** [/https?:\/\/\d{1,3}\.\d{1,3}\.\d{1,3}\.\d{1,3}/] *)
Definition IP_ADDRESS : Matcher :=
  seqs [lit (utf16 "http"); opt (chr 115); lit (utf16 "://");
        octet; chr dot; octet; chr dot; octet; chr dot; octet].

(** [/\/(secure|login|verify|update|confirm|account|banking|signin)/i] *)
Definition SUSPICIOUS_PATHS : Matcher :=
  seq (chr 47)
      (group (alts (map (fun w => lit_i (utf16 w))
         ["secure"; "login"; "verify"; "update"; "confirm"; "account";
          "banking"; "signin"]%string))).

(** [/@/] *)
Definition AT_SYMBOL : Matcher := chr 64.
End URL_RED_FLAGS.

(** [Object.entries(TYPOSQUAT_MAP)], in insertion order. *)
Definition TYPOSQUAT_MAP : list (jsstring * list jsstring) :=
  map (fun e => (utf16 (fst e), map utf16 (snd e))) [
  ("google", ["g00gle"; "gogle"; "googl"; "gooogle"; "googIe"]);
  ("amazon", ["amaz0n"; "amazn"; "amazom"; "arnazon"; "amazón"]);
  ("paypal", ["paypa1"; "paypai"; "paypaI"; "peypal"; "paypa"]);
  ("apple", ["app1e"; "appie"; "appIe"; "aple"; "appl"]);
  ("microsoft", ["micr0soft"; "mircosoft"; "microsft"; "microsoft"]);
  ("facebook", ["faceb00k"; "facebok"; "facbook"]);
  ("netflix", ["netf1ix"; "netfIix"; "netflix"]);
  ("sbi", ["sb1"; "sbì"]);
  ("hdfc", ["hdf c"; "hdtc"])
  ]%string.

End SCAM_CONSTANTS.

(* ================================================================== *)
(** * Clock and random generator *)
(* ================================================================== *)

(** [Date.now()], [performance.now()] and [Math.random()] are the only
    sources of non-determinism the engine consults.  A [World] fixes what the
    n-th such call observes; an effectful computation threads the number of
    calls made so far. *)
Module Effect.

Record Reading := {
  clock_ms : Z;                  (* Date.now() *)
  monotonic_ms : float;          (* performance.now() *)
  random_base36 : jsstring       (* Math.random().toString(36) *)
}.

Definition World := nat -> Reading.

Definition Eff (A : Type) := World -> nat -> A * nat.

Definition ret {A} (a : A) : Eff A := fun _ n => (a, n).

Definition bind {A B} (m : Eff A) (k : A -> Eff B) : Eff B :=
  fun w n => let '(a, n') := m w n in k a w n'.

Definition observe {A} (f : Reading -> A) : Eff A := fun w n => (f (w n), S n).

Definition Date_now : Eff Z := observe clock_ms.
Definition performance_now : Eff float := observe monotonic_ms.
Definition Math_random_toString36 : Eff jsstring := observe random_base36.

Definition run {A} (m : Eff A) (w : World) : A := fst (m w O).

End Effect.

Notation "x <- m ;; k" := (Effect.bind m (fun x => k))
  (at level 61, m at next level, right associativity).

(* ================================================================== *)
(** * helpers.js *)
(* ================================================================== *)

Module PhishGuardHelpers.
Import SCAM_CONSTANTS RegExp.

(** ** Members the engine expects but [helpers.js] and [constants.js] lack *)

Inductive Component := TEXT | URL | SENDER.

Record Weights := { w_TEXT : float; w_URL : float; w_SENDER : float }.

(** [ai-engine.js] calls [PhishGuardHelpers.calibrateScore] and
    [PhishGuardHelpers.getAdaptiveWeights], uses
    [PhishGuardHelpers.fuzzyMatch] when it is defined and reads
    [SCAM_CONSTANTS.BRAND_KEYWORDS]; none of the four is defined by the
    repository's [helpers.js] or [constants.js].  They are parameters of the
    engine. *)
Class Extensions := {
  calibrateScore : float -> Component -> float;
  getAdaptiveWeights : option jsstring -> option Weights;
  fuzzyMatch : option (jsstring -> jsstring -> bool);
  BRAND_KEYWORDS : option (list jsstring)
}.

(** The fallbacks the repository's runner script installs before it loads
    the engine: [score => score], [tenantId => null] and
    [(text, kw) => (text || '').includes(kw)]. *)
Definition runner : Extensions := {|
  calibrateScore := fun score _ => score;
  getAdaptiveWeights := fun _ => None;
  fuzzyMatch := Some (fun text kw => includes text kw);
  BRAND_KEYWORDS := None
|}.

Section WithPlatform.
Context {P : Platform}.

(** [try { return new URL(url).hostname.toLowerCase() } catch { return null }] *)
Definition getDomain (url : jsstring) : option jsstring :=
  match URL_hostname url with
  | Some hostname => Some (toLowerCase hostname)
  | None => None
  end.

End WithPlatform.

(** ** anonymizeText *)

Definition oneOf (cs : string) (c : N) : bool :=
  existsb (N.eqb c) (utf16 cs).

(** [/[a-zA-Z0-9._%+-]+@[a-zA-Z0-9.-]+\.[a-zA-Z]{2,}/g] *)
Definition EMAIL : Matcher :=
  seqs [rep (fun c => isLetter c || isDigit c || oneOf "._%+-" c) 1 None;
        chr 64;
        rep (fun c => isLetter c || isDigit c || oneOf ".-" c) 1 None;
        chr 46;
        rep isLetter 2 None].

Definition digits (n : nat) : Matcher := rep isDigit n (Some n).
Definition spaceOrDash : Matcher := cls (oneOf " -").

(** [/(?:\+?\d{1,3}[ -]?)?\(?\d{3}\)?[ -]?\d{3}[ -]?\d{4}/g] *)
Definition PHONE : Matcher :=
  seqs [opt (seqs [opt (chr 43); rep isDigit 1 (Some 3%nat); opt spaceOrDash]);
        opt (chr 40); digits 3; opt (chr 41); opt spaceOrDash;
        digits 3; opt spaceOrDash; digits 4].

(** [/\b(?:\d{4}[ -]?){3}\d{4}\b/g] *)
Definition CARD : Matcher :=
  let quad := seq (digits 4) (opt spaceOrDash) in
  seqs [wordBoundary; quad; quad; quad; digits 4; wordBoundary].

(** [/(Hi|Hello|Dear)\s+([A-Z][a-z]+)/g] *)
Definition GREETING : Matcher :=
  seqs [group (alts [lit (utf16 "Hi"); lit (utf16 "Hello"); lit (utf16 "Dear")]);
        rep isWhiteSpace 1 None;
        cls isUpper; rep isLower 1 None].

Definition anonymizeText (text : option jsstring) : jsstring :=
  match text with
  | None | Some [] => []
  | Some text =>
    let text := replace EMAIL (fun _ => utf16 "[REDACTED_EMAIL]") text in
    let text := replace PHONE (fun _ => utf16 "[REDACTED_PHONE]") text in
    let text := replace CARD (fun _ => utf16 "[REDACTED_CARD]") text in
    replace GREETING (fun g1 => g1 ++ utf16 " [REDACTED_NAME]") text
  end.

(** ** levenshteinDistance *)

(** Cells [dp[i][1..n]] of one row of the table, left to right: [above] is
    [dp[i-1][j..n]], [diag] is [dp[i-1][j-1]] and [left] is [dp[i][j-1]]. *)
Fixpoint fill_row (ch : N) (str2 : jsstring) (above : list nat)
         (diag left : nat) : list nat :=
  match str2, above with
  | c2 :: str2', up :: above' =>
    let cost := if N.eqb ch c2 then 0%nat else 1%nat in
    let cell := Nat.min (Nat.min (up + 1) (left + 1)) (diag + cost) in
    cell :: fill_row ch str2' above' up cell
  | _, _ => []
  end%nat.

(** Row [i] of the table from row [i-1]; [dp[i][0] = i]. *)
Definition next_row (str2 : jsstring) (prev : list nat) (ch : N) : list nat :=
  match prev with
  | d :: above => S d :: fill_row ch str2 above d (S d)
  | [] => []
  end.

(** Row [0] is [0, 1, ..., n]; the result is [dp[m][n]]. *)
Definition levenshteinDistance (str1 str2 : jsstring) : nat :=
  last (fold_left (next_row str2) str1 (List.seq 0 (S (length str2)))) 0%nat.

(** ** formatRiskResult *)

Definition formatRiskResult (score : Z) : RiskLevel * Z :=
  if score <=? max RISK_LEVELS.SAFE then (RISK_LEVELS.SAFE, score)
  else if score <=? max RISK_LEVELS.CAUTION then (RISK_LEVELS.CAUTION, score)
  else (RISK_LEVELS.DANGER, score).

(** ** generateScanId *)

(** [`scan_${Date.now()}_${Math.random().toString(36).substr(2, 9)}`] *)
Definition generateScanId : Effect.Eff jsstring :=
  now <- Effect.Date_now ;;
  r <- Effect.Math_random_toString36 ;;
  Effect.ret (utf16 "scan_" ++ Number_toString now ++ utf16 "_" ++ substr 2 9 r).

End PhishGuardHelpers.

(* ================================================================== *)
(** * scanner.js: URL and sender analysis *)
(* ================================================================== *)

(** What [analyzeURL] and [analyzeSender] return: [{ score, flags }]. *)
Module Analysis.
Record t := { score : Z; flags : list jsstring }.

(** [result.score += points; result.flags.push(flag)] *)
Definition hit (points : Z) (flag : jsstring) (result : t) : t :=
  {| score := score result + points; flags := flags result ++ [flag] |}.

(** [if (condition) { result.score += points; result.flags.push(flag) }] *)
Definition check (condition : bool) (points : Z) (flag : jsstring)
           (result : t) : t :=
  if condition then hit points flag result else result.

(** [result.score = Math.min(result.score, 100); return result] *)
Definition capped (result : t) : t :=
  {| score := Z.min (score result) 100; flags := flags result |}.
End Analysis.

(** What [analyzeAllURLs] returns.  [flaggedURLs] is absent from the result
    for an empty or missing list; an entry of it is
    [{ url: truncated, ...analysis }]. *)
Module UrlReport.
Record entry := { url : jsstring; analysis : Analysis.t }.
Record t := {
  score : Z;
  flags : list jsstring;
  urlCount : nat;
  flaggedURLs : option (list entry)
}.
End UrlReport.

Module PhishScanner.
Import SCAM_CONSTANTS PhishGuardHelpers.

(** [[...new Set(items)]]: the distinct items, in order of first occurrence. *)
Definition Set_values (items : list jsstring) : list jsstring :=
  fold_left (fun seen x => if Array_includes seen x then seen else seen ++ [x])
            items [].

Definition _isTrustedDomain (domain : jsstring) : bool :=
  existsb (fun trusted =>
             eqb domain trusted || endsWith domain (utf16 "." ++ trusted))
          TRUSTED_DOMAINS.

Definition _isURLShortener (domain : jsstring) : bool :=
  Array_includes
    (map utf16 ["bit.ly"; "tinyurl.com"; "t.co"; "goo.gl";
                "ow.ly"; "is.gd"; "buff.ly"; "adf.ly";
                "bl.ink"; "lnkd.in"; "rb.gy"; "shorturl.at";
                "cutt.ly"; "t.ly"]%string)
    domain.

Definition _truncateURL (url : jsstring) (maxLength : nat) : jsstring :=
  if (length url <=? maxLength)%nat then url
  else substring_0 maxLength url ++ utf16 "...".

Section WithPlatform.
Context {P : Platform}.

(** [{ isTyposquat: true, intendedDomain: real }] is [Some real],
    [{ isTyposquat: false }] is [None]. *)
Fixpoint typosquat_scan (domainBase : jsstring)
         (entries : list (jsstring * list jsstring)) : option jsstring :=
  match entries with
  | [] => None
  | (real, fakes) :: entries' =>
    if existsb (fun f => includes domainBase f) fakes then Some real
    else if includes domainBase (substring_0 3 real)
            && (let distance := levenshteinDistance domainBase real in
                (0 <? distance)%nat && (distance <=? 2)%nat)
    then Some real
    else typosquat_scan domainBase entries'
  end.

Definition _checkTyposquatting (domain : jsstring) : option jsstring :=
  let domainBase :=
    toLowerCase (join (utf16 ".") (slice_0_m1 (split 46 domain))) in
  typosquat_scan domainBase TYPOSQUAT_MAP.

(** [(url.match(/%[0-9a-f]{2}/gi) || []).length] *)
Definition encodedCount (url : jsstring) : nat :=
  RegExp.match_count
    (RegExp.seq (RegExp.chr 37) (RegExp.rep isHexDigit 2 (Some 2%nat))) url.

Definition analyzeURL (url : option jsstring) : Analysis.t :=
  let result := {| Analysis.score := 0; Analysis.flags := [] |} in
  match url with
  | None | Some [] => result
  | Some url =>
    match getDomain url with
    | None | Some [] =>
      {| Analysis.score := 50;
         Analysis.flags := [utf16 "Invalid or malformed URL"] |}
    | Some domain =>
      if _isTrustedDomain domain then
        {| Analysis.score := 0;
           Analysis.flags := [utf16 "Verified trusted domain"] |}
      else
        let result :=
          Analysis.check (RegExp.test URL_RED_FLAGS.IP_ADDRESS url) 40
            (utf16 "Uses IP address instead of domain name") result in
        let tld := utf16 "." ++ pop (split 46 domain) in
        let result :=
          Analysis.check (Array_includes SUSPICIOUS_TLDS tld) 25
            (utf16 "Suspicious domain extension: " ++ tld) result in
        let subdomainCount := Z.of_nat (length (split 46 domain)) - 2 in
        let result :=
          Analysis.check (3 <=? subdomainCount) 20
            (utf16 "Excessive subdomains (" ++ Number_toString subdomainCount
             ++ utf16 " levels deep)") result in
        let result :=
          match _checkTyposquatting domain with
          | Some intendedDomain =>
            Analysis.hit 35
              (utf16 "Possible typosquatting: looks like " ++ dquote
               ++ intendedDomain ++ dquote) result
          | None => result
          end in
        let result :=
          Analysis.check (_isURLShortener domain) 15
            (utf16 "URL shortener detected — destination hidden") result in
        let result :=
          Analysis.check (RegExp.test URL_RED_FLAGS.SUSPICIOUS_PATHS url) 15
            (utf16 "URL path contains login/verification keywords") result in
        let result :=
          Analysis.check (RegExp.test URL_RED_FLAGS.AT_SYMBOL url) 30
            (utf16 "Contains @ symbol — may redirect to different site") result in
        let result :=
          Analysis.check (150 <? length url)%nat 10
            (utf16 "Unusually long URL") result in
        let result :=
          Analysis.check (3 <? encodedCount url)%nat 15
            (utf16 "Contains multiple encoded characters (obfuscation)") result in
        Analysis.capped result
    end
  end.

(** The body of the [forEach] callback of [analyzeAllURLs], on the three
    variables it updates: [worstScore], [allFlags] and [flaggedURLs]. *)
Definition visit (acc : Z * list jsstring * list UrlReport.entry)
           (url : jsstring) : Z * list jsstring * list UrlReport.entry :=
  let '(worstScore, allFlags, flaggedURLs) := acc in
  let analysis := analyzeURL (Some url) in
  let flaggedURLs :=
    if 0 <? Analysis.score analysis
    then flaggedURLs ++ [{| UrlReport.url := _truncateURL url 60;
                            UrlReport.analysis := analysis |}]
    else flaggedURLs in
  let worstScore :=
    if worstScore <? Analysis.score analysis then Analysis.score analysis
    else worstScore in
  (worstScore, allFlags ++ Analysis.flags analysis, flaggedURLs).

Definition analyzeAllURLs (urls : option (list jsstring)) : UrlReport.t :=
  match urls with
  | None | Some [] =>
    {| UrlReport.score := 0; UrlReport.flags := [];
       UrlReport.urlCount := 0; UrlReport.flaggedURLs := None |}
  | Some urls =>
    let '(worstScore, allFlags, flaggedURLs) :=
      fold_left visit urls (0, [], []) in
    {| UrlReport.score := worstScore;
       UrlReport.flags := Set_values allFlags;
       UrlReport.urlCount := length urls;
       UrlReport.flaggedURLs := Some flaggedURLs |}
  end.

(** [companyNames] of [_checkSenderMismatch]. *)
Definition companyNames : list jsstring :=
  map utf16 ["amazon"; "paypal"; "apple"; "microsoft"; "google";
             "netflix"; "chase"; "wells fargo"; "bank of america";
             "sbi"; "hdfc"; "icici"; "rbi"]%string.

(** [s.replace(/[^a-z]/g, '')] and [s.replace(/\s/g, '')] *)
Definition keepLower (s : jsstring) : jsstring :=
  RegExp.replace (RegExp.cls (fun c => negb (isLower c))) (fun _ => []) s.
Definition dropSpaces (s : jsstring) : jsstring :=
  RegExp.replace (RegExp.cls isWhiteSpace) (fun _ => []) s.

(** [{ isMismatch: true, company }] is [Some company].  [email] has an [@]
    followed by a non-empty domain when this is called. *)
Definition _checkSenderMismatch (email displayName : jsstring) : option jsstring :=
  let displayLower := keepLower (toLowerCase displayName) in
  let emailDomain :=
    toLowerCase (nth 0 (split 46 (nth 1 (split 64 email) [])) []) in
  find (fun company =>
          let companyClean := dropSpaces company in
          includes displayLower companyClean
          && negb (includes emailDomain companyClean))
       companyNames.

Definition freeProviders : list jsstring :=
  map utf16 ["gmail.com"; "yahoo.com"; "hotmail.com";
             "outlook.com"; "aol.com"; "mail.com";
             "protonmail.com"; "yandex.com"]%string.

Definition orgKeywords : list jsstring :=
  map utf16 ["bank"; "paypal"; "amazon"; "microsoft";
             "apple"; "google"; "irs"; "government";
             "support"; "security"; "admin"]%string.

(** A JavaScript string used as a condition: [undefined], [null] and the
    empty string are falsy. *)
Definition truthy (s : option jsstring) : option jsstring :=
  match s with
  | Some (_ :: _) => s
  | _ => None
  end.

Definition analyzeSender (senderEmail displayName : option jsstring) : Analysis.t :=
  let result := {| Analysis.score := 0; Analysis.flags := [] |} in
  match truthy senderEmail with
  | None => result
  | Some senderEmail =>
    let email := trim (toLowerCase senderEmail) in
    match truthy (nth_error (split 64 email) 1) with
    | None =>
      {| Analysis.score := 30;
         Analysis.flags := [utf16 "Invalid sender email format"] |}
    | Some domain =>
      let result :=
        match truthy displayName with
        | Some displayName =>
          Analysis.check
            (match _checkSenderMismatch email displayName with
             | Some _ => true | None => false end) 30
            (utf16 "Sender mismatch: displays as " ++ dquote ++ displayName
             ++ dquote ++ utf16 " but email is " ++ email) result
        | None => result
        end in
      let result :=
        match truthy displayName with
        | Some displayName =>
          if Array_includes freeProviders domain then
            let lowerDisplay := toLowerCase displayName in
            Analysis.check
              (existsb (fun k => includes lowerDisplay k) orgKeywords) 35
              (dquote ++ displayName ++ dquote ++ utf16 " using free email ("
               ++ domain ++ utf16 ") — likely impersonation") result
          else result
        | None => result
        end in
      let senderTLD := utf16 "." ++ pop (split 46 domain) in
      let result :=
        Analysis.check (Array_includes SUSPICIOUS_TLDS senderTLD) 20
          (utf16 "Sender domain uses suspicious extension: " ++ senderTLD)
          result in
      let domainWithoutTLD := join (utf16 ".") (slice_0_m1 (split 46 domain)) in
      let result :=
        Analysis.check (RegExp.test (RegExp.rep isDigit 3 None) domainWithoutTLD)
          15 (utf16 "Sender domain contains excessive numbers") result in
      let result :=
        Analysis.check (30 <? length domain)%nat 10
          (utf16 "Unusually long sender domain") result in
      Analysis.capped result
    end
  end.

End WithPlatform.
End PhishScanner.

(* ================================================================== *)
(** * ai-engine.js: text analysis, category, aggregation, explanation *)
(* ================================================================== *)

(** A flag of the text analyzer: [{ code, message }]. *)
Record Flag := { code : jsstring; message : jsstring }.

(** What [analyzeText] returns: [{ score, flags, confidence }]. *)
Module TextAnalysis.
Record t := { score : Z; flags : list Flag; confidence : float }.

Definition hit (points : Z) (flag : Flag) (result : t) : t :=
  {| score := score result + points; flags := flags result ++ [flag];
     confidence := confidence result |}.

Definition check (condition : bool) (points : Z) (flag : Flag)
           (result : t) : t :=
  if condition then hit points flag result else result.
End TextAnalysis.

(** The category [_detectCategory] returns:
    [{ ...cat, matchedKeywords, matchScore, confidence, signals }]. *)
Module CategoryMatch.
Record signals_t := {
  textScore : Z; urlScore : Z; senderScore : Z;
  urlFlags : list jsstring; senderFlags : list jsstring
}.
Record best_t := {
  cat : SCAM_CONSTANTS.Category;
  matchedKeywords : list jsstring;
  matchScore : Z
}.
Record t := { best : best_t; confidence : float; signals : signals_t }.
End CategoryMatch.

(** What [_generateExplanation] returns.  An entry of [educationalTips] is
    [None] where the source would store [undefined]; [severity] is [None]
    both for [null] and when the property is not set. *)
Module Explanation.
Record metadata_t := {
  textScore : Z; urlScore : Z; senderScore : Z;
  categoryConfidence : option float;
  severity : option Z
}.
Record t := {
  summary : jsstring;
  details : list jsstring;
  educationalTips : list (option jsstring);
  metadata : metadata_t
}.
End Explanation.

(** The argument of [analyze]. *)
Module EmailData.
Record t := {
  body : jsstring;
  subject : option jsstring;
  sender : option jsstring;
  displayName : option jsstring;
  urls : option (list jsstring);
  tenantId : option jsstring
}.
End EmailData.

(** The result of [analyze]. *)
Module ScanResult.
Record details_t := {
  textScore : Z; urlScore : Z; senderScore : Z;
  textFlags : list Flag;
  urlFlags : list jsstring;
  senderFlags : list jsstring;
  urlCount : nat;
  flaggedURLs : list UrlReport.entry
}.
Record t := {
  scanId : jsstring;
  score : Z;
  riskLevel : jsstring;
  color : jsstring;
  category : jsstring;
  categoryIcon : jsstring;
  explanation : Explanation.t;
  details : details_t;
  confidence : float;
  processingTime : Z;
  timestamp : Z
}.
End ScanResult.

Module PhishAIEngine.
Import SCAM_CONSTANTS PhishGuardHelpers PhishScanner.

(** The engine only tests whether [this.phishingModel] is set. *)
Definition LayersModel := unit.

(** [{ ratio, totalLetters, totalCaps }] *)
Record CapsInfo := { ratio : float; totalLetters : nat; totalCaps : nat }.

Definition _calculateCapsRatio (text : jsstring) : CapsInfo :=
  let none := {| ratio := 0; totalLetters := 0; totalCaps := 0 |} in
  if (length text <? 5)%nat then none else
  let letters :=
    RegExp.replace (RegExp.cls (fun c => negb (isLetter c))) (fun _ => []) text in
  match letters with
  | [] => none
  | _ :: _ =>
    let caps :=
      RegExp.replace (RegExp.cls (fun c => negb (isUpper c))) (fun _ => []) letters in
    {| ratio := (Number (Z.of_nat (length caps))
                 / Number (Z.of_nat (length letters)))%float;
       totalLetters := length letters; totalCaps := length caps |}
  end.

Section Engine.
Context {P : Platform} {X : Extensions}.
Variable phishingModel : option LayersModel.

(** Both paths of the stub return [0]; so does its [catch]. *)
Definition _nlpPhishingScore (text : jsstring) : float :=
  match phishingModel with
  | None => 0
  | Some _ => 0
  end.

(** [PhishGuardHelpers.fuzzyMatch ? PhishGuardHelpers.fuzzyMatch(text, kw)
                                  : text.includes(kw)] *)
Definition keywordIn (lowerText kw : jsstring) : bool :=
  match fuzzyMatch with
  | Some f => f lowerText kw
  | None => includes lowerText kw
  end.

Definition _findKeywordMatches (text : jsstring)
           (keywords : option (list jsstring)) : list jsstring :=
  match text with
  | [] => []
  | _ :: _ =>
    let lowerText := toLowerCase text in
    filter (fun keyword => keywordIn lowerText (toLowerCase keyword))
           (match keywords with Some ks => ks | None => [] end)
  end.

(** [`${label}: "${matches.join(", ")}"`] *)
Definition quoted (label : string) (matches : list jsstring) : jsstring :=
  utf16 label ++ dquote ++ join (utf16 ", ") matches ++ dquote.

(** A keyword check of [analyzeText]: when the list has matches, add
    [Math.min(matches.length * each, cap)] and push the flag. *)
Definition keywordCheck (matches : list jsstring) (each cap : Z)
           (flag : Flag) (result : TextAnalysis.t) : TextAnalysis.t :=
  TextAnalysis.check (0 <? length matches)%nat
    (Z.min (Z.of_nat (length matches) * each) cap) flag result.

Definition analyzeText (body subject senderDomain : jsstring) : TextAnalysis.t :=
  let result := {| TextAnalysis.score := 0; TextAnalysis.flags := [];
                   TextAnalysis.confidence := 0 |} in
  let cleanBody := anonymizeText (Some body) in
  let cleanSubject := anonymizeText (Some subject) in
  let fullText := toLowerCase (cleanSubject ++ utf16 " " ++ cleanBody) in
  match trim fullText with
  | [] => result
  | _ :: _ =>
    let nlpScore := _nlpPhishingScore fullText in
    let result :=
      TextAnalysis.check (gt nlpScore 0.6) (Math_round (nlpScore * 40))
        {| code := utf16 "NLP_MODEL";
           message := utf16 "AI model flagged this as phishing with "
                      ++ Number_toString (Math_round (nlpScore * 100))
                      ++ utf16 "% confidence" |} result in
    (* 1. Urgency keywords *)
    let urgencyMatches := _findKeywordMatches fullText (Some URGENCY_KEYWORDS) in
    let result :=
      keywordCheck urgencyMatches 12 30
        {| code := utf16 "URGENCY";
           message := quoted "Urgency tactics: " urgencyMatches |} result in
    (* 2. Threat keywords *)
    let threatMatches := _findKeywordMatches fullText (Some THREAT_KEYWORDS) in
    let result :=
      keywordCheck threatMatches 15 30
        {| code := utf16 "THREAT";
           message := quoted "Threatening language: " threatMatches |} result in
    (* 3. Financial bait *)
    let financialMatches := _findKeywordMatches fullText (Some FINANCIAL_KEYWORDS) in
    let result :=
      keywordCheck financialMatches 10 27
        {| code := utf16 "FINANCIAL";
           message := quoted "Financial bait: " financialMatches |} result in
    (* 4. Impersonation patterns *)
    let impersonationMatches :=
      _findKeywordMatches fullText (Some IMPERSONATION_KEYWORDS) in
    let result :=
      TextAnalysis.check (2 <=? length impersonationMatches)%nat 15
        {| code := utf16 "IMPERSONATION";
           message := utf16 "Generic impersonation language (e.g., 'Dear Customer')" |}
        result in
    (* 5. Action requests *)
    let actionMatches := _findKeywordMatches fullText (Some ACTION_KEYWORDS) in
    let result :=
      keywordCheck actionMatches 8 25
        {| code := utf16 "ACTION";
           message := quoted "Pushes you to act: " actionMatches |} result in
    (* 6. Regional scam patterns *)
    let hinglishMatches := _findKeywordMatches fullText (Some HINGLISH_KEYWORDS) in
    let result :=
      keywordCheck hinglishMatches 10 20
        {| code := utf16 "HINGLISH";
           message := quoted "Regional scam pattern: " hinglishMatches |} result in
    (* 7. Grammar errors *)
    let grammarMatches := _findKeywordMatches fullText (Some GRAMMAR_INDICATORS) in
    let result :=
      keywordCheck grammarMatches 8 10
        {| code := utf16 "GRAMMAR";
           message := utf16 "Contains grammar errors common in scam emails" |}
        result in
    (* 8. Excessive capitalization *)
    let capsInfo := _calculateCapsRatio body in
    let result :=
      TextAnalysis.check (gt (ratio capsInfo) 0.3 && (50 <? length body)%nat)
        10
        {| code := utf16 "CAPS";
           message := utf16 "Excessive use of CAPITAL LETTERS (shouting tactic)" |}
        result in
    (* 9. Excessive punctuation *)
    let exclamationCount := RegExp.match_count (RegExp.rep (N.eqb 33) 2 None) body in
    let questionCount := RegExp.match_count (RegExp.rep (N.eqb 63) 2 None) body in
    let result :=
      TextAnalysis.check (3 <=? exclamationCount + questionCount)%nat 8
        {| code := utf16 "PUNCTUATION";
           message := utf16 "Excessive punctuation (!! or ??) — common in scams" |}
        result in
    (* 10. Domain/text mismatch *)
    let brandMatches := _findKeywordMatches fullText BRAND_KEYWORDS in
    let result :=
      match brandMatches, senderDomain with
      | _ :: _, _ :: _ =>
        TextAnalysis.check
          (existsb (fun brand => negb (includes senderDomain (toLowerCase brand)))
                   brandMatches) 20
          {| code := utf16 "DOMAIN_MISMATCH";
             message := quoted "Mentions " brandMatches
                        ++ utf16 " but sender domain is " ++ senderDomain |}
          result
      | _, _ => result
      end in
    (* Cap score at 100; confidence = triggered checks / total checks *)
    let totalChecks := 10 in
    let triggeredChecks := Z.of_nat (length (TextAnalysis.flags result)) in
    {| TextAnalysis.score := Z.min (TextAnalysis.score result) 100;
       TextAnalysis.flags := TextAnalysis.flags result;
       TextAnalysis.confidence := (Number triggeredChecks / Number totalChecks)%float |}
  end.

(** ** Category detection *)

(** [cat.weights?.[kw] || 1] *)
Definition weightOf (cat : Category) (kw : jsstring) : Z :=
  match weights cat with
  | Some table =>
    match find (fun e => eqb (fst e) kw) table with
    | Some (_, w) => if w =? 0 then 1 else w
    | None => 1
    end
  | None => 1
  end.

(** The [reduce] over [cat.keywords]. *)
Definition matchScoreOf (lowerText : jsstring) (cat : Category) : Z :=
  fold_left (fun sum kw => if keywordIn lowerText kw then sum + weightOf cat kw
                           else sum)
            (keywords cat) 0.

(** [x.severity || 0] *)
Definition severityOf (cat : Category) : Z :=
  match severity cat with Some s => s | None => 0 end.

(** The body of the loop over the categories, on [bestCategory] and
    [bestMatchScore]. *)
Definition consider (lowerText : jsstring)
           (acc : option CategoryMatch.best_t * Z) (entry : jsstring * Category)
  : option CategoryMatch.best_t * Z :=
  let '(bestCategory, bestMatchScore) := acc in
  let cat := snd entry in
  let matchScore := matchScoreOf lowerText cat in
  if (bestMatchScore <? matchScore)
     || ((matchScore =? bestMatchScore)
         && (match bestCategory with
             | Some b => severityOf (CategoryMatch.cat b)
             | None => 0
             end <? severityOf cat))
  then (Some {| CategoryMatch.cat := cat;
                CategoryMatch.matchedKeywords :=
                  filter (fun kw => keywordIn lowerText kw) (keywords cat);
                CategoryMatch.matchScore := matchScore |},
        matchScore)
  else acc.

(** [bestCategory.minMatch || 2] *)
Definition thresholdOf (cat : Category) : Z :=
  match minMatch cat with
  | Some m => if m =? 0 then 2 else m
  | None => 2
  end.

Definition _detectCategory (text : jsstring) (textResult : TextAnalysis.t)
           (urlResult : UrlReport.t) (senderResult : Analysis.t)
  : option CategoryMatch.t :=
  match text with
  | [] => None
  | _ :: _ =>
    let lowerText := toLowerCase text in
    let '(bestCategory, bestMatchScore) :=
      fold_left (consider lowerText) SCAM_CATEGORIES (None, 0) in
    match bestCategory with
    | None => None
    | Some bestCategory =>
      let threshold := thresholdOf (CategoryMatch.cat bestCategory) in
      let hasExtraSignals :=
        (0 <? length (UrlReport.flags urlResult))%nat
        || (0 <? length (Analysis.flags senderResult))%nat in
      let effectiveThreshold :=
        if hasExtraSignals then threshold - 1 else threshold in
      if (effectiveThreshold <=? bestMatchScore)
         || ((bestMatchScore =? 1) && (50 <=? TextAnalysis.score textResult))
      then Some {|
        CategoryMatch.best := bestCategory;
        CategoryMatch.confidence :=
          (Number bestMatchScore
           / Number (Z.of_nat (length (keywords (CategoryMatch.cat bestCategory)))))%float;
        CategoryMatch.signals := {|
          CategoryMatch.textScore := TextAnalysis.score textResult;
          CategoryMatch.urlScore := UrlReport.score urlResult;
          CategoryMatch.senderScore := Analysis.score senderResult;
          CategoryMatch.urlFlags := UrlReport.flags urlResult;
          CategoryMatch.senderFlags := Analysis.flags senderResult |} |}
      else None
    end
  end.

(** ** Explanation *)

(** An element of [allFlags]: a text flag object or a scanner flag string.
    [f.message || f] renders either. *)
Definition rendered (f : Flag + jsstring) : jsstring :=
  match f with
  | inl flag => message flag
  | inr s => s
  end.

(** [f.code === wanted]; a primitive string has no [code]. *)
Definition hasCode (wanted : string) (f : Flag + jsstring) : bool :=
  match f with
  | inl flag => eqb (code flag) (utf16 wanted)
  | inr _ => false
  end.

Definition educationalTipsMap (key : jsstring) : option jsstring :=
  option_map (fun e => utf16 (snd e))
    (find (fun e => eqb (utf16 (fst e)) key) [
      ("BANKING", "Real banks NEVER ask for passwords, PINs, or OTPs via email.");
      ("DELIVERY", "Check your actual order history on the retailer's official site.");
      ("JOB", "Legitimate employers never ask for money upfront.");
      ("GOVERNMENT", "Government agencies never threaten immediate arrest via email.");
      ("LOTTERY", "You can't win a lottery you never entered.");
      ("ROMANCE", "Never send money to someone you've only met online.");
      ("TECH_SUPPORT", "Microsoft, Apple, and Google will never email you about viruses.");
      ("CRYPTO", "No legitimate investment guarantees returns.")
    ]%string).

(** [Math.round(text * 0.4 + url * 0.4 + sender * 0.2)] *)
Definition totalScore (text url sender : Z) : Z :=
  Math_round (Number text * 0.4 + Number url * 0.4 + Number sender * 0.2)%float.

Definition hasStrongNonTextSignals (url sender : Z) : bool :=
  (20 <? url) || (15 <? sender).

(** [category?.severity || 0] *)
Definition severityBoost (category : option CategoryMatch.t) : Z :=
  match category with
  | Some c => severityOf (CategoryMatch.cat (CategoryMatch.best c))
  | None => 0
  end.

Definition adjustedScore (text url sender : Z)
           (category : option CategoryMatch.t) : Z :=
  totalScore text url sender + severityBoost category * 10.

(** [if (fires) flagTips.push(text)] *)
Definition tip (fires : bool) (text : string) : list jsstring :=
  if fires then [utf16 text] else [].

(** [x || null] on a number. *)
Definition orNull (x : float) : option float := if truthyNumber x then Some x else None.
Definition orNullZ (x : Z) : option Z := if x =? 0 then None else Some x.

Definition _generateExplanation (textResult : TextAnalysis.t)
           (urlResult : UrlReport.t) (senderResult : Analysis.t)
           (category : option CategoryMatch.t) : Explanation.t :=
  let textFlags := map inl (TextAnalysis.flags textResult) in
  let urlFlags := map inr (UrlReport.flags urlResult) in
  let senderFlags := map inr (Analysis.flags senderResult) in
  let allFlags : list (Flag + jsstring) := textFlags ++ urlFlags ++ senderFlags in
  let categoryConfidence :=
    match category with
    | Some c => orNull (CategoryMatch.confidence c)
    | None => None
    end in
  match allFlags with
  | [] =>
    {| Explanation.summary := utf16 "✅ SAFE: No scam indicators detected.";
       Explanation.details := [];
       Explanation.educationalTips :=
         [Some (utf16 "Always verify unexpected requests through official channels.")];
       Explanation.metadata :=
         {| Explanation.textScore := TextAnalysis.score textResult;
            Explanation.urlScore := UrlReport.score urlResult;
            Explanation.senderScore := Analysis.score senderResult;
            Explanation.categoryConfidence := categoryConfidence;
            Explanation.severity := None |} |}
  | _ :: _ =>
    let adjusted :=
      adjustedScore (TextAnalysis.score textResult) (UrlReport.score urlResult)
                    (Analysis.score senderResult) category in
    let strong :=
      hasStrongNonTextSignals (UrlReport.score urlResult)
                              (Analysis.score senderResult) in
    let summary :=
      if (70 <=? adjusted) && strong then
        utf16 "⚠️ HIGH RISK: "
        ++ match category with
           | Some c => cat_label (CategoryMatch.cat (CategoryMatch.best c))
           | None => utf16 "Potential Scam"
           end
        ++ utf16 " Detected"
      else if 70 <=? adjusted then
        utf16 "⚡ CAUTION: Suspicious text patterns detected, but no strong sender/URL evidence"
      else if 30 <=? adjusted then
        utf16 "⚡ CAUTION: Some suspicious elements found"
      else
        utf16 "✅ LOW RISK: Minor concerns detected" in
    let flagTips :=
      tip (existsb (hasCode "URGENCY") textFlags)
          "Scammers often pressure you with urgency. Pause and verify before acting."
      ++ tip (existsb (hasCode "THREAT") textFlags)
          "Threatening language is a scare tactic. Legitimate organizations don’t threaten arrest or fines via email."
      ++ tip (existsb (hasCode "SUSPICIOUS_URL") urlFlags)
          "Hover over links to check the real domain before clicking."
      ++ tip (existsb (hasCode "MISMATCH") senderFlags)
          "Sender address doesn’t match display name — a common impersonation trick." in
    let categoryKey :=
      match category with
      | Some c =>
        option_map fst
          (find (fun e => eqb (cat_label (snd e))
                              (cat_label (CategoryMatch.cat (CategoryMatch.best c))))
                SCAM_CATEGORIES)
      | None => None
      end in
    {| Explanation.summary := summary;
       Explanation.details :=
         map rendered allFlags
         ++ match category with
            | Some c =>
              [utf16 "Category keywords: "
               ++ join (utf16 ", ")
                       (CategoryMatch.matchedKeywords (CategoryMatch.best c))]
            | None => []
            end;
       Explanation.educationalTips :=
         match flagTips, truthy categoryKey with
         | _ :: _, _ => map Some flagTips
         | [], Some key => [educationalTipsMap key]
         | [], None =>
           [Some (utf16 "When in doubt, contact the organization directly using their official website or phone number.")]
         end;
       Explanation.metadata :=
         {| Explanation.textScore := TextAnalysis.score textResult;
            Explanation.urlScore := UrlReport.score urlResult;
            Explanation.senderScore := Analysis.score senderResult;
            Explanation.categoryConfidence := categoryConfidence;
            Explanation.severity :=
              match category with
              | Some c => orNullZ (severityOf (CategoryMatch.cat (CategoryMatch.best c)))
              | None => None
              end |} |}
  end.

(** ** The main entry *)

(** [getAdaptiveWeights(tenantId) || { TEXT: 0.35, URL: 0.40, SENDER: 0.25 }] *)
Definition weightsFor (tenantId : option jsstring) : Weights :=
  match getAdaptiveWeights tenantId with
  | Some w => w
  | None => {| w_TEXT := 0.35; w_URL := 0.40; w_SENDER := 0.25 |}
  end.

(** Step 4 of [analyze]: calibrate the three component scores, weigh them
    and scale the sum to 0-100. *)
Definition finalScoreOf (tenantId : option jsstring)
           (textScore urlScore senderScore : Z) : Z :=
  let calibratedText := calibrateScore (Number textScore / 100)%float TEXT in
  let calibratedURL := calibrateScore (Number urlScore / 100)%float URL in
  let calibratedSender := calibrateScore (Number senderScore / 100)%float SENDER in
  let weights := weightsFor tenantId in
  let rawScore := (calibratedText * w_TEXT weights
                   + calibratedURL * w_URL weights
                   + calibratedSender * w_SENDER weights)%float in
  Math_round (rawScore * 100)%float.

Definition analyze (emailData : EmailData.t) : Effect.Eff ScanResult.t :=
  scanId <- generateScanId ;;
  startTime <- Effect.performance_now ;;
  (* Step 1: text analysis *)
  let textResult :=
    analyzeText (EmailData.body emailData)
      (match truthy (EmailData.subject emailData) with
       | Some subject => subject
       | None => []
       end)
      (match truthy (EmailData.sender emailData) with
       | Some sender =>
         match nth_error (split 64 sender) 1 with
         | Some domain => domain
         | None => []
         end
       | None => []
       end) in
  (* Step 2: URL analysis *)
  let urlResult := analyzeAllURLs (EmailData.urls emailData) in
  (* Step 3: sender analysis *)
  let senderResult :=
    analyzeSender (EmailData.sender emailData) (EmailData.displayName emailData) in
  (* Step 4: weighted score *)
  let finalScore :=
    finalScoreOf (EmailData.tenantId emailData) (TextAnalysis.score textResult)
                 (UrlReport.score urlResult) (Analysis.score senderResult) in
  (* Step 5: category *)
  let category :=
    _detectCategory (EmailData.body emailData) textResult urlResult senderResult in
  (* Step 6: explanation *)
  let explanation := _generateExplanation textResult urlResult senderResult category in
  (* Step 7: result *)
  let riskLevel := fst (formatRiskResult finalScore) in
  endTime <- Effect.performance_now ;;
  let processingTime := Math_round (endTime - startTime)%float in
  timestamp <- Effect.Date_now ;;
  Effect.ret {|
    ScanResult.scanId := scanId;
    ScanResult.score := finalScore;
    ScanResult.riskLevel := label riskLevel;
    ScanResult.color := color riskLevel;
    ScanResult.category :=
      match category with
      | Some c => cat_label (CategoryMatch.cat (CategoryMatch.best c))
      | None => utf16 "General"
      end;
    ScanResult.categoryIcon :=
      match category with
      | Some c => icon (CategoryMatch.cat (CategoryMatch.best c))
      | None => utf16 "📧"
      end;
    ScanResult.explanation := explanation;
    ScanResult.details := {|
      ScanResult.textScore := TextAnalysis.score textResult;
      ScanResult.urlScore := UrlReport.score urlResult;
      ScanResult.senderScore := Analysis.score senderResult;
      ScanResult.textFlags := TextAnalysis.flags textResult;
      ScanResult.urlFlags := UrlReport.flags urlResult;
      ScanResult.senderFlags := Analysis.flags senderResult;
      ScanResult.urlCount := UrlReport.urlCount urlResult;
      ScanResult.flaggedURLs :=
        match UrlReport.flaggedURLs urlResult with
        | Some l => l
        | None => []
        end |};
    ScanResult.confidence := TextAnalysis.confidence textResult;
    ScanResult.processingTime := processingTime;
    ScanResult.timestamp := timestamp |}.

End Engine.
End PhishAIEngine.

(* ================================================================== *)
(** * background.js and popup.js: what happens to a scan result *)
(* ================================================================== *)

(** The part of [chrome.storage.local] the extension keeps: [scanHistory]
    and [stats].  A key that was never set is [None].  The counters are
    integers, which the Numbers holding them represent exactly below 2^53.
    [categoryCounts] is an object used as a map from category to count; it
    is the list of its entries here. *)
Module Storage.
Record Stats := {
  totalScans : Z;
  scamsDetected : Z;
  safeEmails : Z;
  categoryCounts : option (list (jsstring * Z));
  installDate : option Z
}.
Record t := {
  scanHistory : option (list ScanResult.t);
  stats : option Stats
}.
End Storage.

Module Background.
Import Storage.

(** What [onInstalled] stores. *)
Definition installed (now : Z) : Storage.t :=
  {| scanHistory := Some [];
     stats := Some {| totalScans := 0; scamsDetected := 0; safeEmails := 0;
                      categoryCounts := Some []; installDate := Some now |} |}.

(** The names every plain object inherits from [Object.prototype].  Read
    from [counts] before it has an entry of its own, such a name gives the
    inherited member, which is no count. *)
Definition inheritedNames : list jsstring :=
  map utf16 ["constructor"; "hasOwnProperty"; "isPrototypeOf";
             "propertyIsEnumerable"; "toLocaleString"; "toString"; "valueOf";
             "__proto__"; "__defineGetter__"; "__defineSetter__";
             "__lookupGetter__"; "__lookupSetter__"]%string.

Definition inherited (key : jsstring) : bool := Array_includes inheritedNames key.

(** [counts[key] = (counts[key] || 0) + 1], for a [key] that is not
    [inherited]: with such a key the source stores the inherited member
    turned into text, or nothing, and this model does not follow it. *)
Fixpoint increment (key : jsstring) (counts : list (jsstring * Z))
  : list (jsstring * Z) :=
  match counts with
  | [] => [(key, 1)]
  | (k, n) :: counts' =>
    if eqb k key then (k, n + 1) :: counts'
    else (k, n) :: increment key counts'
  end.

(** [{ ...result, timestamp: Date.now() }] *)
Definition stamped (result : ScanResult.t) (now : Z) : ScanResult.t :=
  {| ScanResult.scanId := ScanResult.scanId result;
     ScanResult.score := ScanResult.score result;
     ScanResult.riskLevel := ScanResult.riskLevel result;
     ScanResult.color := ScanResult.color result;
     ScanResult.category := ScanResult.category result;
     ScanResult.categoryIcon := ScanResult.categoryIcon result;
     ScanResult.explanation := ScanResult.explanation result;
     ScanResult.details := ScanResult.details result;
     ScanResult.confidence := ScanResult.confidence result;
     ScanResult.processingTime := ScanResult.processingTime result;
     ScanResult.timestamp := now |}.

(** [saveResultToStorage], which is also the body of
    [PhishGuardHelpers.saveScanResult]: from what [chrome.storage.local.get]
    answered to what is passed to [chrome.storage.local.set].  Both calls
    succeed here; when one throws, the source logs the error and stores
    nothing. *)
Definition saveResultToStorage (result : ScanResult.t) (data : Storage.t)
  : Effect.Eff Storage.t :=
  let history := match scanHistory data with Some h => h | None => [] end in
  let stats :=
    match stats data with
    | Some s => s
    | None => {| totalScans := 0; scamsDetected := 0; safeEmails := 0;
                 categoryCounts := Some []; installDate := None |}
    end in
  (* Self-healing *)
  let counts := match categoryCounts stats with Some c => c | None => [] end in
  (* Add to history *)
  now <- Effect.Date_now ;;
  let history := stamped result now :: history in
  let history :=
    if (100 <? length history)%nat then removelast history else history in
  (* Update stats *)
  let scam := 70 <=? ScanResult.score result in
  let counts :=
    match ScanResult.category result with
    | [] => counts
    | category => increment category counts
    end in
  Effect.ret
    {| scanHistory := Some history;
       stats := Some {|
         totalScans := totalScans stats + 1;
         scamsDetected :=
           if scam then scamsDetected stats + 1 else scamsDetected stats;
         safeEmails := if scam then safeEmails stats else safeEmails stats + 1;
         categoryCounts := Some counts;
         installDate := installDate stats |} |}.

(** The tab a message came from; [id] may be missing. *)
Record Tab := { id : option Z }.

(** The two calls [handleScanComplete] makes on [chrome.action]. *)
Record Badge := { text : jsstring; backgroundColor : jsstring; tabId : Z }.

Definition handleScanComplete (result : ScanResult.t) (tab : option Tab)
  : option Badge :=
  match tab with
  | None => None
  | Some tab =>
    match id tab with
    | None | Some 0 => None
    | Some tabId =>
      Some (if 70 <=? ScanResult.score result then
              {| text := utf16 "!"; backgroundColor := utf16 "#ef4444";
                 tabId := tabId |}
            else if 30 <=? ScanResult.score result then
              {| text := utf16 "⚡"; backgroundColor := utf16 "#f59e0b";
                 tabId := tabId |}
            else
              {| text := utf16 "✓"; backgroundColor := utf16 "#22c55e";
                 tabId := tabId |})
    end
  end.

End Background.

Module Popup.

(** [scoreColor] of [loadLastScan]. *)
Definition scoreColor (lastScan : ScanResult.t) : jsstring :=
  if 70 <=? ScanResult.score lastScan then utf16 "#ef4444"
  else if 30 <=? ScanResult.score lastScan then utf16 "#f59e0b"
  else utf16 "#22c55e".

End Popup.

(* ================================================================== *)
(** * helpers.js: the helpers of the content script *)
(* ================================================================== *)

Module TextHelpers.
Import RegExp PhishGuardHelpers PhishScanner.

(** The strings [text.match(re)] returns for a [g] regular expression, in
    order; none when it returns [null]. *)
Definition String_match (m : Matcher) (text : jsstring) : list jsstring :=
  map (fun found => snd (fst found)) (fst (matches m text)).

(** The characters the class of [urlRegex] excludes: white space, angle
    brackets, the double quote, braces, the bar, the backslash, the caret,
    the backquote and square brackets. *)
Definition endsURL (c : N) : bool :=
  isWhiteSpace c || existsb (N.eqb c) [60; 62; 34; 123; 125; 124; 92; 94; 96; 91; 93]%N.

(** [urlRegex]: [http], an optional [s], [://] and one or more characters
    outside that class, letters in either case. *)
Definition urlRegex : Matcher :=
  seqs [lit_i (utf16 "http"); opt (chr_i 115); lit (utf16 "://");
        rep (fun c => negb (endsURL c)) 1 None].

(** [matches ? [...new Set(matches)] : []] *)
Definition extractURLs (text : jsstring) : list jsstring :=
  Set_values (String_match urlRegex text).

(** The regular expression of [extractEmails] is the one [anonymizeText]
    redacts. *)
Definition emailRegex : Matcher := EMAIL.

Definition extractEmails (text : jsstring) : list jsstring :=
  Set_values (String_match emailRegex text).

(** ** cleanText *)

(** [/<[^>]*>/g], [/&nbsp;/g] and [/\s+/g] *)
Definition tagRegex : Matcher :=
  seqs [chr 60; rep (fun c => negb (N.eqb c 62)) 0 None; chr 62].
Definition nbspRegex : Matcher := lit (utf16 "&nbsp;").
Definition spacesRegex : Matcher := rep isWhiteSpace 1 None.

Definition cleanText (text : jsstring) : jsstring :=
  let text := replace tagRegex (fun _ => utf16 " ") text in
  let text := replace nbspRegex (fun _ => utf16 " ") text in
  let text := replace spacesRegex (fun _ => utf16 " ") text in
  trim text.

End TextHelpers.

(* ================================================================== *)
(** * A reference runtime for running examples *)
(* ================================================================== *)

(** A small instance of [Platform] on which the engine can be evaluated.
    Lower-casing is the ASCII one; the URL parser accepts [http://] and
    [https://] followed by an authority, from which it drops the user
    information and the port.  On ASCII URLs of that plain shape this is what
    a browser answers; it makes no attempt at the rest of the URL standard. *)
Module Reference.

Definition isAuthorityEnd (c : N) : bool :=
  (N.eqb c 47 || N.eqb c 63 || N.eqb c 35)%bool.

Fixpoint authority (s : jsstring) : jsstring :=
  match s with
  | c :: s' => if isAuthorityEnd c then [] else c :: authority s'
  | [] => []
  end.

Definition hostname (url : jsstring) : option jsstring :=
  let afterScheme :=
    if startsWith url (utf16 "https://") then Some (skipn 8 url)
    else if startsWith url (utf16 "http://") then Some (skipn 7 url)
    else None in
  match afterScheme with
  | Some s =>
    match nth 0 (split 58 (pop (split 64 (authority s)))) [] with
    | [] => None
    | host => Some (map asciiLower host)
    end
  | None => None
  end.

Definition platform : Platform := {|
  toLowerCase := map asciiLower;
  URL_hostname := hostname;
  toLowerCase_ascii := fun s _ => eq_refl;
  URL_empty := eq_refl
|}.

(** A world whose clock advances by one millisecond per reading. *)
Definition world (start : Z) : Effect.World := fun n =>
  {| Effect.clock_ms := start + Z.of_nat n;
     Effect.monotonic_ms := Number (Z.of_nat n);
     Effect.random_base36 := utf16 "0.4fzyo82mvyr" |}.

End Reference.

(* ================================================================== *)
(** * Properties *)
(* ================================================================== *)

Import SCAM_CONSTANTS PhishGuardHelpers PhishScanner PhishAIEngine.

(** ** Strings *)

Lemma eqb_eq (a b : jsstring) : eqb a b = true <-> a = b.
Proof.
  revert b; induction a as [|x a IH]; intros [|y b]; simpl; split;
    try congruence; try reflexivity.
  - intros H. apply andb_true_iff in H as [Hx Hr].
    apply N.eqb_eq in Hx. apply IH in Hr. congruence.
  - intros H. injection H as -> ->.
    rewrite N.eqb_refl. simpl. now apply IH.
Qed.

Lemma eqb_refl (a : jsstring) : eqb a a = true.
Proof. now apply eqb_eq. Qed.

Lemma Array_includes_In (l : list jsstring) (x : jsstring) :
  Array_includes l x = true <-> In x l.
Proof.
  unfold Array_includes. rewrite existsb_exists. split.
  - intros (y & Hy & E). apply eqb_eq in E. now subst.
  - intros H. exists x. split; [assumption | apply eqb_refl].
Qed.

Lemma endsWith_app (prefix suffix : jsstring) :
  endsWith (prefix ++ suffix) suffix = true.
Proof.
  unfold endsWith. rewrite length_app.
  apply andb_true_iff. split.
  - apply Nat.leb_le. lia.
  - replace (length prefix + length suffix - length suffix)%nat
      with (length prefix + 0)%nat by lia.
    rewrite skipn_app, Nat.add_0_r, skipn_all.
    replace (length prefix - length prefix)%nat with 0%nat by lia.
    simpl. apply eqb_refl.
Qed.

(** ** Scores stay within 0..100 *)

Definition inRange (score : Z) : Prop := 0 <= score <= 100.

Lemma Analysis_check_nonneg c points flag r :
  0 <= points -> 0 <= Analysis.score r ->
  0 <= Analysis.score (Analysis.check c points flag r).
Proof. unfold Analysis.check, Analysis.hit. destruct c; simpl; lia. Qed.

Lemma Analysis_hit_nonneg points flag r :
  0 <= points -> 0 <= Analysis.score r ->
  0 <= Analysis.score (Analysis.hit points flag r).
Proof. unfold Analysis.hit. simpl. lia. Qed.

Lemma Analysis_capped_inRange r :
  0 <= Analysis.score r -> inRange (Analysis.score (Analysis.capped r)).
Proof. unfold inRange, Analysis.capped. simpl. lia. Qed.

Lemma TextAnalysis_check_nonneg c points flag r :
  0 <= points -> 0 <= TextAnalysis.score r ->
  0 <= TextAnalysis.score (TextAnalysis.check c points flag r).
Proof. unfold TextAnalysis.check, TextAnalysis.hit. destruct c; simpl; lia. Qed.

Section Ranges.
Context {P : Platform} {X : Extensions}.
Variable phishingModel : option LayersModel.

Lemma analyzeURL_inRange url : inRange (Analysis.score (analyzeURL url)).
Proof.
  unfold analyzeURL.
  destruct url as [[|c url]|]; try (unfold inRange; simpl; lia).
  destruct (getDomain (c :: url)) as [[|d domain]|];
    try (unfold inRange; simpl; lia).
  destruct (_isTrustedDomain (d :: domain)); [unfold inRange; simpl; lia|].
  apply Analysis_capped_inRange.
  repeat apply Analysis_check_nonneg; try lia.
  destruct (_checkTyposquatting (d :: domain));
    [apply Analysis_hit_nonneg; [lia|]|];
    repeat apply Analysis_check_nonneg; simpl; lia.
Qed.

Lemma analyzeSender_inRange senderEmail displayName :
  inRange (Analysis.score (analyzeSender senderEmail displayName)).
Proof.
  unfold analyzeSender.
  destruct (truthy senderEmail) as [email|]; [|unfold inRange; simpl; lia].
  destruct (truthy (nth_error _ 1)) as [domain|]; [|unfold inRange; simpl; lia].
  apply Analysis_capped_inRange.
  repeat apply Analysis_check_nonneg; try lia.
  - destruct (truthy displayName) as [name|]; [|simpl; lia].
    destruct (Array_includes freeProviders domain);
      repeat apply Analysis_check_nonneg; try lia;
      destruct (truthy displayName);
      repeat apply Analysis_check_nonneg; simpl; lia.
Qed.

Lemma visit_worst_inRange acc url :
  inRange (fst (fst acc)) -> inRange (fst (fst (visit acc url))).
Proof.
  destruct acc as [[w fs] es]. unfold visit. cbn [fst]. intros Hw.
  pose proof (analyzeURL_inRange (Some url)) as Hs.
  destruct (w <? Analysis.score (analyzeURL (Some url))); assumption.
Qed.

Lemma fold_visit_inRange urls acc :
  inRange (fst (fst acc)) -> inRange (fst (fst (fold_left visit urls acc))).
Proof.
  revert acc; induction urls as [|u urls IH]; intros acc H; simpl; [assumption|].
  apply IH, visit_worst_inRange, H.
Qed.

Lemma analyzeAllURLs_inRange urls : inRange (UrlReport.score (analyzeAllURLs urls)).
Proof.
  unfold analyzeAllURLs.
  destruct urls as [[|u urls]|]; try (unfold inRange; simpl; lia).
  pose proof (fold_visit_inRange (u :: urls) (0, [], [])) as H.
  destruct (fold_left visit (u :: urls) (0, [], [])) as [[w fs] es].
  simpl in *. apply H. unfold inRange; lia.
Qed.

Lemma nlp_never_fires text r :
  TextAnalysis.check (gt (_nlpPhishingScore phishingModel text) 0.6)
    (Math_round (_nlpPhishingScore phishingModel text * 40))
    {| code := utf16 "NLP_MODEL";
       message := utf16 "AI model flagged this as phishing with "
                  ++ Number_toString
                       (Math_round (_nlpPhishingScore phishingModel text * 100))
                  ++ utf16 "% confidence" |} r = r.
Proof. unfold _nlpPhishingScore. destruct phishingModel; reflexivity. Qed.

Lemma keywordCheck_nonneg matches each cap flag r :
  0 <= each -> 0 <= cap -> 0 <= TextAnalysis.score r ->
  0 <= TextAnalysis.score (keywordCheck matches each cap flag r).
Proof.
  intros. unfold keywordCheck. apply TextAnalysis_check_nonneg; [|assumption].
  apply Z.min_glb; [|assumption]. apply Z.mul_nonneg_nonneg; lia.
Qed.

Lemma analyzeText_inRange body subject senderDomain :
  inRange (TextAnalysis.score (analyzeText phishingModel body subject senderDomain)).
Proof.
  unfold analyzeText.
  destruct (trim _); [unfold inRange; simpl; lia|].
  rewrite nlp_never_fires.
  cbv zeta. unfold inRange. cbn [TextAnalysis.score].
  match goal with |- 0 <= Z.min ?s 100 <= 100 => assert (0 <= s) end; [|lia].
  destruct (_findKeywordMatches _ BRAND_KEYWORDS); [|destruct senderDomain];
  repeat first [ apply TextAnalysis_check_nonneg; [lia|]
               | apply keywordCheck_nonneg; [lia|lia|] ];
  simpl; lia.
Qed.

End Ranges.

(** ** The aggregate score, as the engine computes it *)

(** The configuration the repository runs with: calibration is the identity
    and no tenant has weights of its own, so the default weights apply. *)
Definition repositoryConfiguration (X : Extensions) : Prop :=
  (forall x c, calibrateScore x c = x) /\
  (forall tenantId, getAdaptiveWeights tenantId = None).

Lemma runner_repositoryConfiguration : repositoryConfiguration runner.
Proof. split; reflexivity. Qed.

(** The aggregate under that configuration. *)
Definition defaultAggregate (text url sender : Z) : Z :=
  @finalScoreOf runner None text url sender.

Lemma finalScoreOf_default (X : Extensions) tenantId text url sender :
  repositoryConfiguration X ->
  finalScoreOf tenantId text url sender = defaultAggregate text url sender.
Proof.
  intros [Hcal Hw]. unfold defaultAggregate, finalScoreOf, weightsFor.
  now rewrite Hw, !Hcal.
Qed.

(** Binary64 arithmetic is checked by evaluation: the aggregate of every
    triple of scores between 0 and 100 is tabulated, and the table is
    inspected for its range and for its growth along each axis. *)
Definition scores : list Z := map Z.of_nat (seq 0 101).

Definition aggregateTable : list (list (list Z)) :=
  map (fun t => map (fun u => map (fun s => defaultAggregate t u s) scores) scores)
      scores.

(** Consecutive elements are related. *)
Fixpoint chain {A : Type} (R : A -> A -> bool) (l : list A) : bool :=
  match l with
  | x :: (y :: _) as rest => R x y && chain R rest
  | _ => true
  end.

(** Elements at the same position are related. *)
Fixpoint pointwise {A : Type} (R : A -> A -> bool) (a b : list A) : bool :=
  match a, b with
  | x :: a', y :: b' => R x y && pointwise R a' b'
  | _, _ => true
  end.

Lemma and4 (a b c d : bool) :
  a && b && c && d = true -> a = true /\ b = true /\ c = true /\ d = true.
Proof. destruct a, b, c, d; simpl; intros H; auto; discriminate H. Qed.

(** Every entry lies between 0 and 100; every row is ascending (the sender
    axis); consecutive rows ascend pointwise (the URL axis); consecutive
    planes ascend pointwise (the text axis). *)
Lemma aggregateTable_checked :
  forallb (forallb (forallb (fun v => (0 <=? v) && (v <=? 100)))) aggregateTable = true /\
  forallb (forallb (chain Z.leb)) aggregateTable = true /\
  forallb (chain (pointwise Z.leb)) aggregateTable = true /\
  chain (pointwise (pointwise Z.leb)) aggregateTable = true.
Proof. apply and4. vm_compute. reflexivity. Qed.

Lemma scores_In (x : Z) : inRange x -> In x scores.
Proof.
  intros Hx. unfold inRange in Hx. unfold scores. apply in_map_iff.
  exists (Z.to_nat x). split; [lia|]. apply in_seq. lia.
Qed.

Lemma chain_step {A : Type} (R : A -> A -> bool) (g : Z -> A) (n a : nat) (i : Z) :
  chain R (map g (map Z.of_nat (seq a n))) = true ->
  Z.of_nat a <= i -> i + 1 < Z.of_nat a + Z.of_nat n ->
  R (g i) (g (i + 1)) = true.
Proof.
  revert a. induction n as [|n IH]; intros a H Ha Hi; [lia|].
  destruct n as [|n]; [lia|].
  cbn [seq map chain] in H. apply andb_true_iff in H as [Hhead Hrest].
  destruct (Z.eq_dec i (Z.of_nat a)) as [->|Hne].
  - replace (Z.of_nat a + 1) with (Z.of_nat (S a)) by lia. exact Hhead.
  - apply (IH (S a)); [exact Hrest | lia | lia].
Qed.

Lemma pointwise_map {A B : Type} (R : B -> B -> bool) (f f' : A -> B) (l : list A) :
  pointwise R (map f l) (map f' l) = true ->
  forall x, In x l -> R (f x) (f' x) = true.
Proof.
  induction l as [|y l IH]; intros H x Hx; [contradiction|].
  cbn [map pointwise] in H. apply andb_true_iff in H as [Hy Hl].
  destruct Hx as [->|Hx]; [exact Hy | now apply IH].
Qed.

Section DefaultAggregate.
Variables text url sender : Z.
Hypotheses (Ht : inRange text) (Hu : inRange url) (Hs : inRange sender).

Let row (t u : Z) : list Z := map (fun s => defaultAggregate t u s) scores.
Let plane (t : Z) : list (list Z) := map (fun u => row t u) scores.

Lemma plane_In : In (plane text) aggregateTable.
Proof. unfold aggregateTable. apply in_map_iff. exists text. split; [reflexivity|]. now apply scores_In. Qed.

Lemma row_In : In (row text url) (plane text).
Proof. unfold plane. apply in_map_iff. exists url. split; [reflexivity|]. now apply scores_In. Qed.

Lemma defaultAggregate_inRange : inRange (defaultAggregate text url sender).
Proof.
  destruct aggregateTable_checked as (H & _).
  rewrite forallb_forall in H. specialize (H _ plane_In).
  rewrite forallb_forall in H. specialize (H _ row_In).
  rewrite forallb_forall in H.
  assert (In (defaultAggregate text url sender) (row text url)) as Hin.
  { unfold row. apply in_map_iff. exists sender. split; [reflexivity|]. now apply scores_In. }
  specialize (H _ Hin). apply andb_true_iff in H as [H0 H1].
  apply Z.leb_le in H0, H1. split; assumption.
Qed.

Lemma defaultAggregate_step_sender :
  sender < 100 ->
  defaultAggregate text url sender <= defaultAggregate text url (sender + 1).
Proof.
  intros Hlt. destruct aggregateTable_checked as (_ & H & _).
  rewrite forallb_forall in H. specialize (H _ plane_In).
  rewrite forallb_forall in H. specialize (H _ row_In).
  apply Z.leb_le.
  apply (@chain_step _ Z.leb (fun s => defaultAggregate text url s) 101 0 sender H);
    unfold inRange in Hs; lia.
Qed.

Lemma defaultAggregate_step_url :
  url < 100 ->
  defaultAggregate text url sender <= defaultAggregate text (url + 1) sender.
Proof.
  intros Hlt. destruct aggregateTable_checked as (_ & _ & H & _).
  rewrite forallb_forall in H. specialize (H _ plane_In).
  assert (pointwise Z.leb (row text url) (row text (url + 1)) = true) as Hrows.
  { apply (@chain_step _ (pointwise Z.leb) (fun u => row text u) 101 0 url H);
      unfold inRange in Hu; lia. }
  apply Z.leb_le.
  exact (@pointwise_map _ _ Z.leb (fun s => defaultAggregate text url s)
           (fun s => defaultAggregate text (url + 1) s) scores Hrows
           sender (scores_In Hs)).
Qed.

Lemma defaultAggregate_step_text :
  text < 100 ->
  defaultAggregate text url sender <= defaultAggregate (text + 1) url sender.
Proof.
  intros Hlt. destruct aggregateTable_checked as (_ & _ & _ & H).
  assert (pointwise (pointwise Z.leb) (plane text) (plane (text + 1)) = true) as Hplanes.
  { apply (@chain_step _ (pointwise (pointwise Z.leb)) (fun t => plane t) 101 0 text H);
      unfold inRange in Ht; lia. }
  pose proof (@pointwise_map _ _ (pointwise Z.leb) (fun u => row text u)
                (fun u => row (text + 1) u) scores Hplanes url (scores_In Hu)) as Hrows.
  apply Z.leb_le.
  exact (@pointwise_map _ _ Z.leb (fun s => defaultAggregate text url s)
           (fun s => defaultAggregate (text + 1) url s) scores Hrows
           sender (scores_In Hs)).
Qed.

End DefaultAggregate.

(** From one step to any increase, along one axis. *)
Lemma climbs (f : Z -> Z) (a b : Z) :
  (forall x, inRange x -> x < 100 -> f x <= f (x + 1)) ->
  inRange a -> inRange b -> a <= b -> f a <= f b.
Proof.
  intros Hstep Ha Hb Hab.
  replace b with (a + Z.of_nat (Z.to_nat (b - a))) in * by lia.
  induction (Z.to_nat (b - a)) as [|n IH].
  - rewrite Z.add_0_r. lia.
  - unfold inRange in *.
    assert (f a <= f (a + Z.of_nat n)) as H1 by (apply IH; lia).
    assert (f (a + Z.of_nat n) <= f (a + Z.of_nat n + 1)) as H2
        by (apply Hstep; unfold inRange; lia).
    replace (a + Z.of_nat (S n)) with (a + Z.of_nat n + 1) by lia. lia.
Qed.

Lemma defaultAggregate_monotone text url sender text' url' sender' :
  inRange text -> inRange url -> inRange sender ->
  inRange text' -> inRange url' -> inRange sender' ->
  text <= text' -> url <= url' -> sender <= sender' ->
  defaultAggregate text url sender <= defaultAggregate text' url' sender'.
Proof.
  intros Ht Hu Hs Ht' Hu' Hs' Htt Huu Hss.
  transitivity (defaultAggregate text' url sender).
  { apply (climbs (fun t => defaultAggregate t url sender)); auto.
    intros x Hx Hlt. now apply defaultAggregate_step_text. }
  transitivity (defaultAggregate text' url' sender).
  { apply (climbs (fun u => defaultAggregate text' u sender)); auto.
    intros x Hx Hlt. now apply defaultAggregate_step_url. }
  apply (climbs (fun s => defaultAggregate text' url' s)); auto.
  intros x Hx Hlt. now apply defaultAggregate_step_sender.
Qed.

(** The three component results [analyze] computes in its steps 1 to 3. *)
Section Steps.
Context {P : Platform} {X : Extensions}.
Variable phishingModel : option LayersModel.

Definition textResultOf (emailData : EmailData.t) : TextAnalysis.t :=
  analyzeText phishingModel (EmailData.body emailData)
    (match truthy (EmailData.subject emailData) with
     | Some subject => subject
     | None => []
     end)
    (match truthy (EmailData.sender emailData) with
     | Some sender =>
       match nth_error (split 64 sender) 1 with
       | Some domain => domain
       | None => []
       end
     | None => []
     end).

Definition urlResultOf (emailData : EmailData.t) : UrlReport.t :=
  analyzeAllURLs (EmailData.urls emailData).

Definition senderResultOf (emailData : EmailData.t) : Analysis.t :=
  analyzeSender (EmailData.sender emailData) (EmailData.displayName emailData).

Lemma analyze_score emailData w :
  ScanResult.score (Effect.run (analyze phishingModel emailData) w)
  = finalScoreOf (EmailData.tenantId emailData)
      (TextAnalysis.score (textResultOf emailData))
      (UrlReport.score (urlResultOf emailData))
      (Analysis.score (senderResultOf emailData)).
Proof. reflexivity. Qed.

Lemma analyze_details emailData w :
  let r := Effect.run (analyze phishingModel emailData) w in
  ScanResult.textScore (ScanResult.details r)
    = TextAnalysis.score (textResultOf emailData) /\
  ScanResult.urlScore (ScanResult.details r)
    = UrlReport.score (urlResultOf emailData) /\
  ScanResult.senderScore (ScanResult.details r)
    = Analysis.score (senderResultOf emailData).
Proof. repeat split; reflexivity. Qed.

Definition categoryOf (emailData : EmailData.t) : option CategoryMatch.t :=
  _detectCategory (EmailData.body emailData) (textResultOf emailData)
                  (urlResultOf emailData) (senderResultOf emailData).

Lemma analyze_category emailData w :
  let r := Effect.run (analyze phishingModel emailData) w in
  ScanResult.category r
  = match categoryOf emailData with
    | Some c => cat_label (CategoryMatch.cat (CategoryMatch.best c))
    | None => utf16 "General"
    end /\
  ScanResult.categoryIcon r
  = match categoryOf emailData with
    | Some c => icon (CategoryMatch.cat (CategoryMatch.best c))
    | None => utf16 "📧"
    end.
Proof. split; reflexivity. Qed.

End Steps.

(** The sample message of the repository's runner script. *)
Definition sampleEmail : EmailData.t := {|
  EmailData.body :=
    utf16 "Urgent: Your account will be suspended. Click here to verify.";
  EmailData.subject := Some (utf16 "Account Suspension Notice");
  EmailData.sender := Some (utf16 "notice@bank-example.com");
  EmailData.displayName := Some (utf16 "Bank Support");
  EmailData.urls := Some [utf16 "http://malicious.example/verify"];
  EmailData.tenantId := Some (utf16 "default")
|}.

(** C1.  Whatever the input, the text, URL (single and aggregate) and sender
    analyses return a score between 0 and 100, and so is the final score of
    the result of [analyze] under the configuration the repository runs with
    (identity calibration, default weights), computed in binary64. *)
Theorem scores_in_range (P : Platform) (X : Extensions)
        (phishingModel : option LayersModel) :
  repositoryConfiguration X ->
  forall (emailData : EmailData.t) (w : Effect.World)
         (body subject senderDomain : jsstring) (url : option jsstring)
         (urls : option (list jsstring)) (senderEmail displayName : option jsstring),
    inRange (TextAnalysis.score (analyzeText phishingModel body subject senderDomain)) /\
    inRange (Analysis.score (analyzeURL url)) /\
    inRange (UrlReport.score (analyzeAllURLs urls)) /\
    inRange (Analysis.score (analyzeSender senderEmail displayName)) /\
    inRange (ScanResult.score (Effect.run (analyze phishingModel emailData) w)).
Proof.
  intros Hconf emailData w body subject senderDomain url urls senderEmail displayName.
  split; [apply analyzeText_inRange|]. split; [apply analyzeURL_inRange|].
  split; [apply analyzeAllURLs_inRange|]. split; [apply analyzeSender_inRange|].
  rewrite analyze_score, (finalScoreOf_default _ _ _ _ Hconf).
  apply defaultAggregate_inRange;
    [apply analyzeText_inRange | apply analyzeAllURLs_inRange
     | apply analyzeSender_inRange].
Qed.

Lemma scores_in_range_witness :
  repositoryConfiguration runner /\
  inRange (ScanResult.score
             (Effect.run (@analyze Reference.platform runner None sampleEmail)
                         (Reference.world 1700000000000))).
Proof.
  split; [exact runner_repositoryConfiguration|].
  exact (proj2 (proj2 (proj2 (proj2
    (@scores_in_range Reference.platform runner None
       runner_repositoryConfiguration
       sampleEmail (Reference.world 1700000000000)
       [] [] [] None None None None))))).
Defined.

(* ================================================================== *)
(** * Binary64 arithmetic keeps the order *)
(* ================================================================== *)

(** The weighted sum of [analyze] is computed in binary64.  That a larger
    operand never gives a smaller product, sum or rounded integer is derived
    here from the specification of binary64 that comes with the primitive
    numbers: every operation returns the value of the exact result rounded
    to nearest, ties to even, and rounding keeps the order.  Values are
    counted as integers, in units of a power of two small enough for every
    number that takes part. *)

(** ** Rounding to binary64, on integers *)

(** A non-negative integer [V] rounded to the nearest multiple of [2^sh],
    ties going to the even multiple. *)
Definition toGrid (sh V : Z) : Z :=
  let q := V / 2 ^ sh in
  let r := V mod 2 ^ sh in
  let up := if 2 * r <? 2 ^ sh then false
            else if 2 ^ sh <? 2 * r then true
            else Z.odd q in
  (if up then q + 1 else q) * 2 ^ sh.

Lemma toGrid_exact (sh V : Z) :
  0 <= sh -> V mod 2 ^ sh = 0 -> toGrid sh V = V.
Proof.
  intros Hsh Hr. unfold toGrid. rewrite Hr.
  assert (0 < 2 ^ sh) as Hp by (apply Z.pow_pos_nonneg; lia).
  rewrite (proj2 (Z.ltb_lt (2 * 0) (2 ^ sh))) by lia.
  pose proof (Z.div_mod V (2 ^ sh)) as E. rewrite Hr in E. lia.
Qed.

Lemma toGrid_multiple (sh k : Z) :
  0 <= sh -> toGrid sh (k * 2 ^ sh) = k * 2 ^ sh.
Proof.
  intros Hsh. apply toGrid_exact; [exact Hsh|].
  apply Z.mod_mul. apply Z.pow_nonzero; lia.
Qed.

Lemma toGrid_monotone (sh V W : Z) :
  0 <= sh -> V <= W -> toGrid sh V <= toGrid sh W.
Proof.
  intros Hsh Hle. unfold toGrid.
  assert (0 < 2 ^ sh) as Hp by (apply Z.pow_pos_nonneg; lia).
  pose proof (Z.div_mod V (2 ^ sh)) as EV. pose proof (Z.div_mod W (2 ^ sh)) as EW.
  pose proof (Z.mod_pos_bound V (2 ^ sh) Hp) as BV.
  pose proof (Z.mod_pos_bound W (2 ^ sh) Hp) as BW.
  pose proof (Z.div_le_mono V W (2 ^ sh) Hp Hle) as Hq.
  set (p := 2 ^ sh) in *. set (q := V / p) in *. set (q' := W / p) in *.
  set (r := V mod p) in *. set (r' := W mod p) in *.
  apply Z.mul_le_mono_nonneg_r; [lia|].
  destruct (Z.eq_dec q q') as [E|N].
  - rewrite <- E in *. assert (r <= r') by nia.
    destruct (Z.ltb_spec (2 * r) p), (Z.ltb_spec (2 * r') p); try lia;
      destruct (Z.ltb_spec p (2 * r)), (Z.ltb_spec p (2 * r')); try lia;
      destruct (Z.odd q); lia.
  - assert (q + 1 <= q') by lia.
    destruct (2 * r <? p), (p <? 2 * r), (Z.odd q),
      (2 * r' <? p), (p <? 2 * r'), (Z.odd q'); lia.
Qed.

(** Rounding a scaled number on the scaled grid. *)
Lemma toGrid_scaled (sh k V : Z) :
  0 <= sh -> 0 <= k -> toGrid (sh + k) (V * 2 ^ k) = toGrid sh V * 2 ^ k.
Proof.
  intros Hsh Hk. unfold toGrid.
  assert (0 < 2 ^ sh) as Hp by (apply Z.pow_pos_nonneg; lia).
  assert (0 < 2 ^ k) as Hpk by (apply Z.pow_pos_nonneg; lia).
  rewrite Z.pow_add_r by lia.
  rewrite Z.div_mul_cancel_r by lia.
  rewrite Z.mul_mod_distr_r by lia.
  set (p := 2 ^ sh) in *. set (c := 2 ^ k) in *.
  set (q := V / p). set (r := V mod p).
  assert ((2 * (r * c) <? p * c) = (2 * r <? p)) as ->.
  { destruct (Z.ltb_spec (2 * r) p), (Z.ltb_spec (2 * (r * c)) (p * c)); try reflexivity; nia. }
  assert ((p * c <? 2 * (r * c)) = (p <? 2 * r)) as ->.
  { destruct (Z.ltb_spec p (2 * r)), (Z.ltb_spec (p * c) (2 * (r * c))); try reflexivity; nia. }
  ring.
Qed.

(** The grid of binary64 at a number: 53 significant bits, or the grid of
    the subnormal numbers.  Numbers are counted in units of [2^-K]. *)
Definition gridOf (K V : Z) : Z := Z.max (Z.log2 V - 52) (K - 1074).

(** [V] rounded to binary64, with everything from [2^1024] on standing for
    infinity. *)
Definition rounded (K V : Z) : Z :=
  Z.min (toGrid (gridOf K V) V) (2 ^ (1024 + K)).

Lemma rounded_monotone (K V W : Z) :
  1074 <= K -> 0 <= V -> V <= W -> rounded K V <= rounded K W.
Proof.
  intros HK HV Hle. unfold rounded.
  apply Z.min_le_compat_r.
  assert (Z.log2 V <= Z.log2 W) as Hlog by (apply Z.log2_le_mono; exact Hle).
  assert (0 <= gridOf K V) as H0 by (unfold gridOf; lia).
  assert (gridOf K V <= gridOf K W) as Hg by (unfold gridOf; lia).
  destruct (Z.eq_dec (gridOf K V) (gridOf K W)) as [E|N].
  - rewrite E. apply toGrid_monotone; lia.
  - assert (gridOf K W = Z.log2 W - 52 /\ Z.log2 V < Z.log2 W) as [EW Hlt]
        by (unfold gridOf in *; lia).
    assert (0 < W) as HW.
    { destruct (Z.le_gt_cases W 0) as [H|H]; [|exact H].
      rewrite (Z.log2_nonpos W H) in Hlt. pose proof (Z.log2_nonneg V). lia. }
    pose proof (Z.log2_spec W HW) as [HB _].
    set (B := 2 ^ Z.log2 W) in *.
    assert (V <= B) as HVB.
    { destruct (Z.eq_dec V 0) as [->|HV0]; [apply Z.pow_nonneg; lia|].
      pose proof (Z.log2_spec V ltac:(lia)) as [_ HV2].
      unfold B. transitivity (2 ^ Z.succ (Z.log2 V)); [lia|].
      apply Z.pow_le_mono_r; lia. }
    assert (forall sh, 0 <= sh <= Z.log2 W -> toGrid sh B = B) as Hfix.
    { intros sh Hsh. unfold B.
      replace (Z.log2 W) with ((Z.log2 W - sh) + sh) by lia.
      rewrite Z.pow_add_r by lia. apply toGrid_multiple. lia. }
    transitivity B.
    + rewrite <- (Hfix (gridOf K V)) at 1 by lia. apply toGrid_monotone; lia.
    + rewrite <- (Hfix (gridOf K W)) at 1 by lia. apply toGrid_monotone; lia.
Qed.

Lemma toGrid_nonneg (sh V : Z) : 0 <= sh -> 0 <= V -> 0 <= toGrid sh V.
Proof.
  intros Hsh HV. pose proof (toGrid_multiple 0 Hsh) as E. rewrite Z.mul_0_l in E.
  rewrite <- E at 1. apply toGrid_monotone; lia.
Qed.

Lemma rounded_nonneg (K V : Z) : 1074 <= K -> 0 <= V -> 0 <= rounded K V.
Proof.
  intros HK HV. unfold rounded. apply Z.min_glb.
  - apply toGrid_nonneg; [unfold gridOf; lia | exact HV].
  - apply Z.pow_nonneg; lia.
Qed.

Lemma rounded_0 (K : Z) : 1074 <= K -> rounded K 0 = 0.
Proof.
  intros HK. unfold rounded.
  assert (0 <= gridOf K 0) as Hg by (unfold gridOf; lia).
  pose proof (toGrid_multiple 0 Hg) as E. rewrite Z.mul_0_l in E. rewrite E.
  apply Z.min_l. apply Z.pow_nonneg; lia.
Qed.
(** ** The shift-and-round of the binary64 specification *)

Lemma iter_pos_nat {A : Type} (f : A -> A) (p : positive) (x : A) :
  iter_pos f p x = Nat.iter (Pos.to_nat p) f x.
Proof.
  revert x. induction p as [p IH|p IH|]; intros x; cbn [iter_pos].
  - rewrite !IH, Pos2Nat.inj_xI.
    replace (S (2 * Pos.to_nat p)) with (Pos.to_nat p + (Pos.to_nat p + 1))%nat by lia.
    rewrite !Nat.iter_add. reflexivity.
  - rewrite !IH, Pos2Nat.inj_xO.
    replace (2 * Pos.to_nat p)%nat with (Pos.to_nat p + Pos.to_nat p)%nat by lia.
    rewrite Nat.iter_add. reflexivity.
  - reflexivity.
Qed.

Lemma shr_1_spec (m : Z) (r s : bool) :
  0 <= m ->
  shr_1 {| shr_m := m; shr_r := r; shr_s := s |}
  = {| shr_m := m / 2; shr_r := Z.odd m; shr_s := r || s |}.
Proof.
  intros Hm. destruct m as [|p|p]; [reflexivity| |lia].
  destruct p as [p|p|]; cbn [shr_1].
  - f_equal. rewrite Pos2Z.inj_xI. rewrite Z.mul_comm, Z.div_add_l by lia.
    change (1 / 2) with 0. lia.
  - f_equal. rewrite Pos2Z.inj_xO. rewrite Z.mul_comm, Z.div_mul by lia. reflexivity.
  - reflexivity.
Qed.

(** After [k + 1] steps: the quotient, the last bit shifted out, and whether
    any bit before it was set. *)
Lemma shr_iter (M : Z) (k : nat) :
  0 <= M ->
  Nat.iter (S k) shr_1 {| shr_m := M; shr_r := false; shr_s := false |}
  = {| shr_m := M / 2 ^ (Z.of_nat k + 1);
       shr_r := Z.odd (M / 2 ^ Z.of_nat k);
       shr_s := negb (M mod 2 ^ Z.of_nat k =? 0) |}.
Proof.
  intros HM. induction k as [|k IH].
  - cbn [Nat.iter]. rewrite shr_1_spec by exact HM.
    change (2 ^ (Z.of_nat 0 + 1)) with 2. change (2 ^ Z.of_nat 0) with 1.
    rewrite Z.div_1_r, Z.mod_1_r. reflexivity.
  - change (Nat.iter (S (S k)) shr_1 ?x) with (shr_1 (Nat.iter (S k) shr_1 x)).
    rewrite IH.
    assert (0 < 2 ^ Z.of_nat k) as Hp by (apply Z.pow_pos_nonneg; lia).
    assert (0 < 2 ^ (Z.of_nat k + 1)) as Hp1 by (apply Z.pow_pos_nonneg; lia).
    rewrite shr_1_spec by (apply Z.div_pos; lia).
    rewrite Nat2Z.inj_succ. unfold Z.succ.
    f_equal.
    + rewrite Z.div_div by lia. f_equal.
      rewrite (Z.pow_add_r 2 (Z.of_nat k + 1) 1) by lia. reflexivity.
    + rewrite (Z.pow_add_r 2 (Z.of_nat k) 1) by lia. change (2 ^ 1) with 2.
      rewrite Z.rem_mul_r by lia.
      pose proof (Z.mod_pos_bound M (2 ^ Z.of_nat k) Hp) as B.
      rewrite (Zodd_mod (M / 2 ^ Z.of_nat k)).
      pose proof (Z.mod_pos_bound (M / 2 ^ Z.of_nat k) 2 ltac:(lia)) as B2.
      destruct (Z.eqb_spec ((M / 2 ^ Z.of_nat k) mod 2) 1) as [E|E];
        destruct (Z.eqb_spec (M mod 2 ^ Z.of_nat k) 0) as [E0|E0];
        cbn [negb orb];
        match goal with |- _ = negb (?a =? 0) => destruct (Z.eqb_spec a 0) end;
        try reflexivity; exfalso; nia.
Qed.

(** Shifting [n] bits out of [M] and rounding to nearest even is rounding
    [M] on the grid [2^n]. *)
Lemma shr_rounds (M : Z) (p : positive) :
  0 <= M ->
  let rec := iter_pos shr_1 p {| shr_m := M; shr_r := false; shr_s := false |} in
  round_nearest_even (shr_m rec) (loc_of_shr_record rec) * 2 ^ Z.pos p
  = toGrid (Z.pos p) M.
Proof.
  intros HM. cbv zeta. rewrite iter_pos_nat.
  destruct (Pos2Nat.is_succ p) as (k & Ek). rewrite Ek.
  rewrite (shr_iter k HM).
  assert (Z.pos p = Z.of_nat k + 1) as -> by lia.
  unfold toGrid.
  assert (0 < 2 ^ Z.of_nat k) as Hp by (apply Z.pow_pos_nonneg; lia).
  rewrite (Z.pow_add_r 2 (Z.of_nat k) 1) by lia. change (2 ^ 1) with 2.
  rewrite Z.rem_mul_r by lia.
  rewrite <- Z.div_div by lia.
  set (c := 2 ^ Z.of_nat k) in *.
  pose proof (Z.mod_pos_bound M c Hp) as B.
  pose proof (Z.mod_pos_bound (M / c) 2 ltac:(lia)) as B2.
  set (lo := M mod c) in *. set (h := M / c) in *.
  rewrite (Zodd_mod h).
  f_equal.
  unfold loc_of_shr_record, round_nearest_even. cbn [shr_m].
  destruct (Z.eqb_spec (h mod 2) 1) as [E|E];
    destruct (Z.eqb_spec lo 0) as [E0|E0]; cbn [negb].
  - rewrite (proj2 (Z.ltb_ge _ _)) by lia. rewrite (proj2 (Z.ltb_ge _ _)) by lia.
    rewrite <- Z.negb_odd. destruct (Z.odd (h / 2)); reflexivity.
  - rewrite (proj2 (Z.ltb_ge _ _)) by lia. rewrite (proj2 (Z.ltb_lt _ _)) by lia.
    reflexivity.
  - rewrite (proj2 (Z.ltb_lt _ _)) by lia. reflexivity.
  - rewrite (proj2 (Z.ltb_lt _ _)) by lia. reflexivity.
Qed.
(** ** What [binary_round_aux] returns *)

Lemma digits2_pos_bounds (m : positive) :
  2 ^ (Z.pos (digits2_pos m) - 1) <= Z.pos m < 2 ^ Z.pos (digits2_pos m).
Proof.
  induction m as [m IH|m IH|]; cbn [digits2_pos].
  - rewrite Pos2Z.inj_succ.
    replace (Z.succ (Z.pos (digits2_pos m)) - 1) with ((Z.pos (digits2_pos m) - 1) + 1) by lia.
    rewrite Z.pow_succ_r, Z.pow_add_r by lia. change (2 ^ 1) with 2. lia.
  - rewrite Pos2Z.inj_succ.
    replace (Z.succ (Z.pos (digits2_pos m)) - 1) with ((Z.pos (digits2_pos m) - 1) + 1) by lia.
    rewrite Z.pow_succ_r, Z.pow_add_r by lia. change (2 ^ 1) with 2. lia.
  - simpl. lia.
Qed.

Lemma digits2_log2 (m : positive) :
  Z.log2 (Z.pos m) = Z.pos (digits2_pos m) - 1.
Proof.
  apply Z.log2_unique; [lia|].
  replace (Z.succ (Z.pos (digits2_pos m) - 1)) with (Z.pos (digits2_pos m)) by lia.
  apply digits2_pos_bounds.
Qed.

Lemma fexp_binary64 (z : Z) : fexp prec emax z = Z.max (z - 53) (- 1074).
Proof. reflexivity. Qed.

Lemma toGrid_bounds (sh V : Z) :
  0 <= sh ->
  exists m, toGrid sh V = m * 2 ^ sh /\ V / 2 ^ sh <= m <= V / 2 ^ sh + 1.
Proof.
  intros Hsh. unfold toGrid.
  match goal with |- context [if ?c then _ + 1 else _] => destruct c end;
    eexists; (split; [reflexivity|lia]).
Qed.

(** The magnitude of a number of the specification, in units of [2^-K];
    infinity counts as [2^1024]. *)
Definition uval (K : Z) (x : spec_float) : Z :=
  match x with
  | S754_finite _ m e => Z.pos m * 2 ^ (e + K)
  | S754_infinity _ => 2 ^ (1024 + K)
  | _ => 0
  end.

(** [x] is a number, and carries the sign [s]. *)
Definition signed (s : bool) (x : spec_float) : Prop :=
  match x with
  | S754_nan => False
  | S754_zero s' | S754_infinity s' | S754_finite s' _ _ => s' = s
  end.

(** The second half of [binary_round_aux]: a rounded mantissa that has
    grown to [2^53] is shifted once more, and an exponent above the largest
    gives infinity. *)
Lemma renormalised (s : bool) (m2 e1 K : Z) :
  1074 <= K -> 0 <= m2 <= 2 ^ 53 -> - 1074 <= e1 ->
  (971 < e1 -> 2 ^ 52 <= m2) ->
  let x :=
    let '(mrs, e) := shr_fexp prec emax m2 e1 loc_Exact in
    match shr_m mrs with
    | Z0 => S754_zero s
    | Zpos m => if e <=? emax - prec then S754_finite s m e else S754_infinity s
    | _ => S754_nan
    end in
  signed s x /\ uval K x = Z.min (m2 * 2 ^ (e1 + K)) (2 ^ (1024 + K)).
Proof.
  intros HK Hm He Hbig. cbv zeta.
  assert (0 < 2 ^ (e1 + K)) as Hp by (apply Z.pow_pos_nonneg; lia).
  unfold shr_fexp. rewrite fexp_binary64. cbn [shr_record_of_loc].
  change (emax - prec) with 971.
  destruct m2 as [|m|m]; [| |lia].
  - cbn [Zdigits2]. replace (Z.max (0 + e1 - 53) (- 1074) - e1) with
        (Z.max (- 53) (- 1074 - e1)) by lia.
    assert (Z.max (- 53) (- 1074 - e1) <= 0) as Hn by lia.
    destruct (Z.max (- 53) (- 1074 - e1)) as [|p|p]; [| lia |];
      cbn [shr shr_m signed uval]; (split; [reflexivity|]);
      rewrite Z.mul_0_l; symmetry; apply Z.min_l; apply Z.pow_nonneg; lia.
  - cbn [Zdigits2].
    pose proof (digits2_pos_bounds m) as [Hlo Hhi].
    set (d := Z.pos (digits2_pos m)) in *.
    assert (d <= 54) as Hd.
    { destruct (Z.le_gt_cases d 54) as [H|H]; [exact H|].
      assert (2 ^ 54 <= 2 ^ (d - 1)) by (apply Z.pow_le_mono_r; lia). lia. }
    destruct (Z.le_gt_cases d 53) as [H53|H54].
    + assert (Z.pos m < 2 ^ 53) as Hlt
          by (eapply Z.lt_le_trans; [exact Hhi | apply Z.pow_le_mono_r; lia]).
      assert (Z.max (d + e1 - 53) (- 1074) - e1 <= 0) as Hn by lia.
      assert (shr {| shr_m := Z.pos m; shr_r := false; shr_s := false |} e1
                  (Z.max (d + e1 - 53) (- 1074) - e1)
              = ({| shr_m := Z.pos m; shr_r := false; shr_s := false |}, e1)) as ->
          by (destruct (Z.max (d + e1 - 53) (- 1074) - e1); [reflexivity|lia|reflexivity]).
      cbn [shr_m]. destruct (Z.leb_spec e1 971) as [Hfin|Hinf]; cbn [signed uval].
      * split; [reflexivity|]. symmetry. apply Z.min_l.
        transitivity (2 ^ 53 * 2 ^ (e1 + K)); [nia|].
        rewrite <- Z.pow_add_r by lia. apply Z.pow_le_mono_r; lia.
      * split; [reflexivity|]. symmetry. apply Z.min_r.
        specialize (Hbig Hinf).
        transitivity (2 ^ 52 * 2 ^ (e1 + K)); [|nia].
        rewrite <- Z.pow_add_r by lia. apply Z.pow_le_mono_r; lia.
    + assert (d = 54) as Ed by lia.
      assert (Z.pos m = 2 ^ 53) as Em by (rewrite Ed in Hlo; change (54 - 1) with 53 in Hlo; lia).
      assert (Z.max (d + e1 - 53) (- 1074) - e1 = 1) as -> by lia.
      assert (m = Z.to_pos (2 ^ 53)) as -> by (rewrite <- Em; reflexivity).
      cbn [shr iter_pos]. change (Z.to_pos (2 ^ 53)) with (9007199254740992%positive).
      cbn [shr_1 shr_m orb].
      destruct (Z.leb_spec (e1 + 1) 971) as [Hfin|Hinf]; cbn [signed uval].
      * split; [reflexivity|].
        replace (e1 + 1 + K) with (1 + (e1 + K)) by lia.
        rewrite (Z.pow_add_r 2 1 (e1 + K)) by lia.
        change (Z.pos 4503599627370496 * (2 ^ 1 * 2 ^ (e1 + K)))
          with (2 ^ 52 * (2 * 2 ^ (e1 + K))).
        change (Z.pos 9007199254740992) with (2 ^ 53).
        replace (2 ^ 52 * (2 * 2 ^ (e1 + K))) with (2 ^ 53 * 2 ^ (e1 + K))
          by (change (2 ^ 53) with (2 ^ 52 * 2); ring).
        symmetry. apply Z.min_l.
        rewrite <- Z.pow_add_r by lia. apply Z.pow_le_mono_r; lia.
      * split; [reflexivity|]. symmetry. apply Z.min_r.
        change (Z.pos 9007199254740992) with (2 ^ 53).
        rewrite <- Z.pow_add_r by lia. apply Z.pow_le_mono_r; lia.
Qed.
Lemma binary_round_aux_spec (s : bool) (M : positive) (E K : Z) :
  1074 <= K -> 0 <= E + K ->
  (fexp prec emax (Z.pos (digits2_pos M) + E) < E -> E <= 971) ->
  let x := binary_round_aux prec emax s (Z.pos M) E loc_Exact in
  signed s x /\ uval K x = rounded K (Z.pos M * 2 ^ (E + K)).
Proof.
  intros HK HE Hover. cbv zeta. rewrite fexp_binary64 in Hover.
  pose proof (digits2_pos_bounds M) as [Hlo Hhi].
  pose proof (digits2_log2 M) as Hlog.
  set (d := Z.pos (digits2_pos M)) in *.
  set (fe := Z.max (d + E - 53) (- 1074)) in *.
  assert (0 < 2 ^ (E + K)) as Hp by (apply Z.pow_pos_nonneg; lia).
  assert (gridOf K (Z.pos M * 2 ^ (E + K)) = fe + K) as Hgrid.
  { unfold gridOf. rewrite Z.log2_mul_pow2 by lia. rewrite Hlog. unfold fe. lia. }
  unfold rounded. rewrite Hgrid.
  unfold binary_round_aux.
  assert (shr_fexp prec emax (Z.pos M) E loc_Exact
          = shr {| shr_m := Z.pos M; shr_r := false; shr_s := false |} E (fe - E)) as ->
      by reflexivity.
  destruct (fe - E) as [|p|p] eqn:En.
  - (* nothing to shift out *)
    cbn [shr loc_of_shr_record round_nearest_even shr_m].
    assert (d <= 53) as Hd by lia.
    assert (Z.pos M < 2 ^ 53) as Hlt
        by (eapply Z.lt_le_trans; [exact Hhi | apply Z.pow_le_mono_r; lia]).
    destruct (@renormalised s (Z.pos M) E K HK) as [Hs Hv]; [lia|lia| |].
    { intros Hbig. assert (d = 53) as Ed by lia. rewrite Ed in Hlo. exact Hlo. }
    split; [exact Hs|]. cbv zeta in Hv. rewrite Hv. f_equal.
    symmetry. replace (fe + K) with (E + K) by lia. apply toGrid_multiple. lia.
  - (* [p] bits are shifted out *)
    cbn [shr].
    pose proof (@shr_rounds (Z.pos M) p ltac:(lia)) as Hr. cbv zeta in Hr.
    set (rec := iter_pos shr_1 p {| shr_m := Z.pos M; shr_r := false; shr_s := false |}) in *.
    set (m2 := round_nearest_even (shr_m rec) (loc_of_shr_record rec)) in *.
    assert (0 < 2 ^ Z.pos p) as Hpp by (apply Z.pow_pos_nonneg; lia).
    destruct (@toGrid_bounds (Z.pos p) (Z.pos M) ltac:(lia)) as (m & Em & Hm).
    assert (m2 = m) as E2 by (rewrite Em in Hr; nia).
    assert (Z.pos M / 2 ^ Z.pos p < 2 ^ 53) as Hq.
    { apply Z.div_lt_upper_bound; [lia|].
      eapply Z.lt_le_trans; [exact Hhi|].
      rewrite <- Z.pow_add_r by lia. apply Z.pow_le_mono_r; lia. }
    assert (0 <= Z.pos M / 2 ^ Z.pos p) as Hq0 by (apply Z.div_pos; lia).
    destruct (@renormalised s m2 (E + Z.pos p) K HK) as [Hs Hv]; [lia|lia| |].
    { intros Hbig. assert (Z.pos p = d - 53) as Ep by lia.
      assert (2 ^ 52 <= Z.pos M / 2 ^ Z.pos p); [|lia].
      apply Z.div_le_lower_bound; [lia|].
      rewrite <- Z.pow_add_r by lia. rewrite Ep.
      replace (d - 53 + 52) with (d - 1) by lia. exact Hlo. }
    split; [exact Hs|]. cbv zeta in Hv. rewrite Hv. f_equal.
    replace (fe + K) with (Z.pos p + (E + K)) by lia.
    rewrite toGrid_scaled by lia. rewrite <- Hr.
    replace (E + Z.pos p + K) with (Z.pos p + (E + K)) by lia.
    rewrite Z.pow_add_r by lia. ring.
  - (* the exponent is above the grid already *)
    cbn [shr loc_of_shr_record round_nearest_even shr_m].
    assert (d <= 53) as Hd by lia.
    assert (Z.pos M < 2 ^ 53) as Hlt
        by (eapply Z.lt_le_trans; [exact Hhi | apply Z.pow_le_mono_r; lia]).
    destruct (@renormalised s (Z.pos M) E K HK) as [Hs Hv]; [lia|lia| |].
    { intros Hbig. lia. }
    split; [exact Hs|]. cbv zeta in Hv. rewrite Hv. f_equal.
    symmetry.
    replace (E + K) with ((E - fe) + (fe + K)) by lia.
    rewrite Z.pow_add_r by lia. rewrite Z.mul_assoc. apply toGrid_multiple. lia.
Qed.
(** ** The order of binary64 numbers is the order of their values *)

(** [2^1024], in units of [2^-1074]: above every binary64 number. *)
Definition huge : Z := 2 ^ 2098.

(** The value of a number of the specification, in units of [2^-1074]; the
    infinities count as plus and minus [2^1024]. *)
Definition sval (x : spec_float) : Z :=
  match x with
  | S754_zero _ | S754_nan => 0
  | S754_infinity s => if s then - huge else huge
  | S754_finite s m e =>
    if s then - (Z.pos m * 2 ^ (e + 1074)) else Z.pos m * 2 ^ (e + 1074)
  end.

Definition isNumber (x : spec_float) : bool :=
  match x with S754_nan => false | _ => true end.

(** A valid binary64 mantissa has at most 53 digits, and exactly 53 above the
    least exponent. *)
Lemma bounded_mantissa (m : positive) (e : Z) :
  bounded prec emax m e = true ->
  Z.pos m < 2 ^ 53 /\ - 1074 <= e <= 971 /\ (- 1074 < e -> 2 ^ 52 <= Z.pos m) /\
  e = Z.max (Z.pos (digits2_pos m) + e - 53) (- 1074).
Proof.
  unfold bounded, canonical_mantissa. rewrite fexp_binary64.
  change (emax - prec) with 971.
  intros H. apply andb_true_iff in H as [H H']. apply Z.eqb_eq in H.
  apply Z.leb_le in H'.
  pose proof (digits2_pos_bounds m) as [Hlo Hhi].
  assert (Z.pos (digits2_pos m) <= 53) as Hd by lia.
  split; [|split; [|split]].
  - eapply Z.lt_le_trans; [exact Hhi|]. apply Z.pow_le_mono_r; lia.
  - lia.
  - intros He. assert (Z.pos (digits2_pos m) = 53) as E by lia.
    rewrite E in Hlo. exact Hlo.
  - lia.
Qed.

Lemma finite_value_bounds (m : positive) (e : Z) :
  bounded prec emax m e = true ->
  1 <= Z.pos m * 2 ^ (e + 1074) < huge.
Proof.
  intros H. apply bounded_mantissa in H as (Hm & He & _). unfold huge.
  assert (0 < 2 ^ (e + 1074)) as Hp by (apply Z.pow_pos_nonneg; lia).
  split; [nia|].
  apply Z.lt_le_trans with (2 ^ 53 * 2 ^ (e + 1074)); [nia|].
  rewrite <- Z.pow_add_r by lia. apply Z.pow_le_mono_r; lia.
Qed.

Lemma huge_positive : 0 < huge.
Proof. reflexivity. Qed.

Lemma sval_bounds (x : spec_float) :
  valid_binary x = true -> - huge <= sval x <= huge.
Proof.
  intros V. pose proof huge_positive.
  destruct x as [s|s| |s m e]; cbn [sval].
  - lia.
  - destruct s; lia.
  - lia.
  - apply finite_value_bounds in V. destruct s; lia.
Qed.

(** Only the infinities reach the bounds. *)
Lemma sval_greatest (x : spec_float) :
  valid_binary x = true -> huge <= sval x -> x = S754_infinity false.
Proof.
  intros V H. pose proof huge_positive.
  destruct x as [s|s| |s m e]; cbn [sval] in H; try lia.
  - destruct s; [lia|reflexivity].
  - apply finite_value_bounds in V. destruct s; lia.
Qed.

Lemma sval_least (x : spec_float) :
  valid_binary x = true -> sval x <= - huge -> x = S754_infinity true.
Proof.
  intros V H. pose proof huge_positive.
  destruct x as [s|s| |s m e]; cbn [sval] in H; try lia.
  - destruct s; [reflexivity|lia].
  - apply finite_value_bounds in V. destruct s; lia.
Qed.

(** Two valid positive numbers compare as their values do. *)
Lemma finite_compare (m1 m2 : positive) (e1 e2 : Z) :
  bounded prec emax m1 e1 = true -> bounded prec emax m2 e2 = true ->
  match e1 ?= e2 with
  | Lt => Lt
  | Gt => Gt
  | Eq => Pos.compare_cont Eq m1 m2
  end = (Z.pos m1 * 2 ^ (e1 + 1074) ?= Z.pos m2 * 2 ^ (e2 + 1074)).
Proof.
  intros H1 H2.
  apply bounded_mantissa in H1 as (H1m & H1e & H1n & _).
  apply bounded_mantissa in H2 as (H2m & H2e & H2n & _).
  assert (forall ma mb ea eb, Z.pos ma < 2 ^ 53 -> 2 ^ 52 <= Z.pos mb ->
            - 1074 <= ea -> ea < eb ->
            Z.pos ma * 2 ^ (ea + 1074) < Z.pos mb * 2 ^ (eb + 1074)) as Hlt.
  { intros ma mb ea eb Ha Hb Hea Heab.
    assert (0 < 2 ^ (ea + 1074)) by (apply Z.pow_pos_nonneg; lia).
    assert (0 < 2 ^ (eb + 1074)) by (apply Z.pow_pos_nonneg; lia).
    apply Z.lt_le_trans with (2 ^ 53 * 2 ^ (ea + 1074)); [nia|].
    apply Z.le_trans with (2 ^ 52 * 2 ^ (eb + 1074)); [|nia].
    rewrite <- !Z.pow_add_r by lia. apply Z.pow_le_mono_r; lia. }
  symmetry. destruct (Z.compare_spec e1 e2) as [->|Hc|Hc].
  - fold (Pos.compare m1 m2).
    assert (0 < 2 ^ (e2 + 1074)) by (apply Z.pow_pos_nonneg; lia).
    destruct (Pos.compare_spec m1 m2) as [->|Hm|Hm].
    + apply Z.compare_refl.
    + apply Z.compare_lt_iff. nia.
    + apply Z.compare_gt_iff. nia.
  - apply Z.compare_lt_iff. apply Hlt; lia.
  - apply Z.compare_gt_iff. apply Hlt; lia.
Qed.

Lemma SFcompare_sval (x y : spec_float) :
  valid_binary x = true -> valid_binary y = true ->
  isNumber x = true -> isNumber y = true ->
  SFcompare x y = Some (sval x ?= sval y).
Proof.
  intros Vx Vy Nx Ny. pose proof huge_positive.
  destruct x as [sx|sx| |sx mx ex]; try discriminate Nx;
    destruct y as [sy|sy| |sy my ey]; try discriminate Ny;
    cbn [SFcompare sval valid_binary] in *;
    try (pose proof (finite_value_bounds _ _ Vx));
    try (pose proof (finite_value_bounds _ _ Vy));
    try destruct sx; try destruct sy; f_equal;
    try (symmetry;
         first [ apply Z.compare_eq_iff; lia
               | apply Z.compare_lt_iff; lia
               | apply Z.compare_gt_iff; lia ]).
  - rewrite Z.compare_opp. rewrite <- (finite_compare _ _ _ _ Vy Vx).
    rewrite (Z.compare_antisym ex ey).
    destruct (ex ?= ey); cbn [CompOpp]; try reflexivity.
    rewrite Pos.compare_cont_antisym. reflexivity.
  - apply finite_compare; assumption.
Qed.

Lemma SFleb_sval (x y : spec_float) :
  valid_binary x = true -> valid_binary y = true ->
  isNumber x = true -> isNumber y = true ->
  SFleb x y = (sval x <=? sval y).
Proof.
  intros Vx Vy Nx Ny. unfold SFleb. rewrite (SFcompare_sval _ _ Vx Vy Nx Ny).
  unfold Z.leb. destruct (sval x ?= sval y); reflexivity.
Qed.

Lemma SFleb_numbers (x y : spec_float) :
  SFleb x y = true -> isNumber x = true /\ isNumber y = true.
Proof.
  destruct x as [sx|sx| |sx mx ex]; destruct y as [sy|sy| |sy my ey];
    cbn; intros H; try discriminate H; split; reflexivity.
Qed.
(** ** Products and sums of binary64 numbers, by value *)

(** A signed number of units of [2^-K] rounded to binary64, in units of
    [2^-1074]. *)
Definition roundedSigned (K V : Z) : Z :=
  Z.sgn V * (rounded K (Z.abs V) / 2 ^ (K - 1074)).

Lemma roundedSigned_monotone (K V W : Z) :
  1074 <= K -> V <= W -> roundedSigned K V <= roundedSigned K W.
Proof.
  intros HK Hle. unfold roundedSigned.
  assert (0 < 2 ^ (K - 1074)) as Hp by (apply Z.pow_pos_nonneg; lia).
  assert (forall A, 0 <= A -> 0 <= rounded K A / 2 ^ (K - 1074)) as Hnn
      by (intros A HA; apply Z.div_pos; [apply rounded_nonneg; lia | lia]).
  assert (forall A B, 0 <= A -> A <= B ->
            rounded K A / 2 ^ (K - 1074) <= rounded K B / 2 ^ (K - 1074)) as Hmono
      by (intros A B HA HAB; apply Z.div_le_mono; [lia | apply rounded_monotone; lia]).
  destruct (Z.sgn_spec V) as [[HV ->]|[[HV ->]|[HV ->]]];
    destruct (Z.sgn_spec W) as [[HW ->]|[[HW ->]|[HW ->]]]; try lia.
  - rewrite !Z.abs_eq by lia. specialize (Hmono V W). lia.
  - specialize (Hnn (Z.abs W)). lia.
  - pose proof (Hnn (Z.abs V)). pose proof (Hnn (Z.abs W)). lia.
  - specialize (Hnn (Z.abs V)). lia.
  - rewrite !Z.abs_neq by lia. specialize (Hmono (- W) (- V)). lia.
Qed.

Lemma sval_signed (s : bool) (r : spec_float) :
  signed s r -> sval r = (if s then - uval 1074 r else uval 1074 r).
Proof.
  destruct r as [s'|s'| |s' m e]; cbn [signed sval uval]; intros H;
    try contradiction; subst s'; destruct s; reflexivity.
Qed.

Lemma uval_scaled (r : spec_float) (K : Z) :
  valid_binary r = true -> 1074 <= K ->
  uval K r = uval 1074 r * 2 ^ (K - 1074).
Proof.
  intros V HK. destruct r as [s|s| |s m e]; cbn [uval]; try reflexivity.
  - rewrite <- Z.pow_add_r by lia. f_equal. lia.
  - cbn [valid_binary] in V. apply bounded_mantissa in V as (_ & He & _).
    rewrite <- Z.mul_assoc, <- Z.pow_add_r by lia. do 2 f_equal. lia.
Qed.

(** A result of [binary_round_aux], by value. *)
Lemma rounded_sval (s : bool) (r : spec_float) (K A : Z) :
  1074 <= K -> 0 <= A ->
  valid_binary r = true -> signed s r -> uval K r = rounded K A ->
  isNumber r = true /\
  sval r = roundedSigned K (if s then - A else A).
Proof.
  intros HK HA V Hs Hv.
  assert (0 < 2 ^ (K - 1074)) as Hp by (apply Z.pow_pos_nonneg; lia).
  split; [destruct r; [reflexivity|reflexivity|contradiction|reflexivity]|].
  rewrite (sval_signed _ _ Hs). rewrite (uval_scaled _ V HK) in Hv.
  assert (uval 1074 r = rounded K A / 2 ^ (K - 1074)) as ->
      by (rewrite <- Hv; symmetry; apply Z.div_mul; lia).
  unfold roundedSigned.
  destruct (Z.eq_dec A 0) as [->|HA0].
  - rewrite (rounded_0 HK). destruct s; reflexivity.
  - destruct s.
    + rewrite Z.sgn_neg, Z.abs_neq by lia. rewrite Z.opp_involutive. lia.
    + rewrite Z.sgn_pos, Z.abs_eq by lia. lia.
Qed.

Lemma digits2_product (mx my : positive) :
  Z.pos (digits2_pos mx) + Z.pos (digits2_pos my) - 1
  <= Z.pos (digits2_pos (mx * my)).
Proof.
  pose proof (digits2_pos_bounds mx) as [Hx _].
  pose proof (digits2_pos_bounds my) as [Hy _].
  pose proof (digits2_pos_bounds (mx * my)) as [_ Hxy].
  rewrite Pos2Z.inj_mul in Hxy.
  set (dx := Z.pos (digits2_pos mx)) in *. set (dy := Z.pos (digits2_pos my)) in *.
  set (d := Z.pos (digits2_pos (mx * my))) in *.
  destruct (Z.le_gt_cases (dx + dy - 1) d) as [H|H]; [exact H|exfalso].
  assert (2 ^ d <= 2 ^ (dx - 1 + (dy - 1))) as Hpow by (apply Z.pow_le_mono_r; lia).
  rewrite Z.pow_add_r in Hpow by lia.
  assert (0 < 2 ^ (dx - 1)) by (apply Z.pow_pos_nonneg; lia).
  assert (0 < 2 ^ (dy - 1)) by (apply Z.pow_pos_nonneg; lia).
  nia.
Qed.

(** The product of two numbers that are finite or zero. *)
Lemma SFmul_sval (x y : spec_float) :
  valid_binary x = true -> valid_binary y = true ->
  valid_binary (SFmul prec emax x y) = true ->
  match x with S754_zero _ | S754_finite _ _ _ => True | _ => False end ->
  match y with S754_zero _ | S754_finite _ _ _ => True | _ => False end ->
  isNumber (SFmul prec emax x y) = true /\
  sval (SFmul prec emax x y) = roundedSigned 2148 (sval x * sval y).
Proof.
  intros Vx Vy Vr Fx Fy.
  assert (roundedSigned 2148 0 = 0) as R0 by reflexivity.
  destruct x as [sx|sx| |sx mx ex]; try contradiction;
    destruct y as [sy|sy| |sy my ey]; try contradiction;
    cbn [SFmul sval] in *.
  - split; reflexivity.
  - split; reflexivity.
  - rewrite Z.mul_0_r. split; reflexivity.
  - pose proof (bounded_mantissa _ _ Vx) as (_ & Hex & _ & Ecx).
    pose proof (bounded_mantissa _ _ Vy) as (_ & Hey & _ & _).
    destruct (@binary_round_aux_spec (xorb sx sy) (mx * my) (ex + ey) 2148)
      as [Hs Hv]; [lia|lia| |].
    { rewrite fexp_binary64. intros Hlt.
      pose proof (digits2_product mx my).
      pose proof (Pos2Z.is_pos (digits2_pos my)). lia. }
    cbv zeta in Hs, Hv.
    assert (Z.pos (mx * my) * 2 ^ (ex + ey + 2148)
            = Z.pos mx * 2 ^ (ex + 1074) * (Z.pos my * 2 ^ (ey + 1074))) as EV.
    { replace (ex + ey + 2148) with ((ex + 1074) + (ey + 1074)) by lia.
      rewrite Z.pow_add_r by lia. rewrite Pos2Z.inj_mul. ring. }
    rewrite EV in Hv.
    assert (0 < Z.pos mx * 2 ^ (ex + 1074)) as Px
        by (apply Z.mul_pos_pos; [lia | apply Z.pow_pos_nonneg; lia]).
    assert (0 < Z.pos my * 2 ^ (ey + 1074)) as Py
        by (apply Z.mul_pos_pos; [lia | apply Z.pow_pos_nonneg; lia]).
    assert (0 <= Z.pos mx * 2 ^ (ex + 1074) * (Z.pos my * 2 ^ (ey + 1074))) as HA by nia.
    assert (1074 <= 2148) as HK by lia.
    destruct (@rounded_sval (xorb sx sy) _ 2148 _ HK HA Vr Hs Hv) as [Hn Hsv].
    split; [exact Hn|]. rewrite Hsv. f_equal.
    destruct sx, sy; cbn [xorb]; ring.
Qed.
Lemma Pos_iter_xO (m d : positive) :
  Z.pos (Pos.iter xO m d) = Z.pos m * 2 ^ Z.pos d.
Proof.
  induction d as [|d IH] using Pos.peano_ind.
  - cbn [Pos.iter]. rewrite Pos2Z.inj_xO. change (2 ^ 1) with 2. ring.
  - rewrite Pos.iter_succ, Pos2Z.inj_xO, IH, Pos2Z.inj_succ, Z.pow_succ_r by lia. ring.
Qed.

Lemma shl_align_spec (m : positive) (e e' : Z) :
  e' <= e ->
  Z.pos (fst (shl_align m e e')) = Z.pos m * 2 ^ (e - e') /\
  snd (shl_align m e e') = e'.
Proof.
  intros Hle. unfold shl_align. destruct (e' - e) as [|d|d] eqn:Ed; cbn [fst snd].
  - replace (e - e') with 0 by lia. split; lia.
  - lia.
  - rewrite Pos_iter_xO. replace (e - e') with (Z.pos d) by lia. split; reflexivity.
Qed.

Lemma shl_align_above (m : positive) (e e' : Z) :
  e <= e' -> shl_align m e e' = (m, e).
Proof.
  intros Hle. unfold shl_align. destruct (e' - e) as [|d|d] eqn:Ed; try reflexivity. lia.
Qed.

Lemma binary_round_spec (s : bool) (m : positive) (e K : Z) :
  1074 <= K -> - 1074 <= e ->
  let r := binary_round prec emax s m e in
  signed s r /\ uval K r = rounded K (Z.pos m * 2 ^ (e + K)).
Proof.
  intros HK He. cbv zeta. unfold binary_round.
  set (fe := fexp prec emax (Z.pos (digits2_pos m) + e)).
  assert (fe = Z.max (Z.pos (digits2_pos m) + e - 53) (- 1074)) as Efe
      by (unfold fe; apply fexp_binary64).
  destruct (Z.le_gt_cases e fe) as [Hle|Hgt].
  - rewrite (shl_align_above m Hle).
    apply binary_round_aux_spec; [lia|lia|]. fold fe. lia.
  - destruct (@shl_align_spec m e fe ltac:(lia)) as [Em Ee].
    destruct (shl_align m e fe) as [mz ez]. cbn [fst snd] in Em, Ee. subst ez.
    assert (Z.pos (digits2_pos mz) + fe = Z.pos (digits2_pos m) + e) as Ed.
    { pose proof (digits2_log2 mz) as Lz. pose proof (digits2_log2 m) as L.
      rewrite Em, Z.log2_mul_pow2 in Lz by lia. lia. }
    destruct (@binary_round_aux_spec s mz fe K HK) as [Hs Hv]; [lia| |].
    { rewrite Ed. fold fe. lia. }
    split; [exact Hs|]. cbv zeta in Hv. rewrite Hv. f_equal. rewrite Em.
    rewrite <- Z.mul_assoc, <- Z.pow_add_r by lia. do 2 f_equal. lia.
Qed.

(** A binary64 number rounds to itself. *)
Lemma rounded_exact (m : positive) (e : Z) :
  bounded prec emax m e = true ->
  rounded 1074 (Z.pos m * 2 ^ (e + 1074)) = Z.pos m * 2 ^ (e + 1074).
Proof.
  intros V. pose proof (finite_value_bounds _ _ V) as B.
  apply bounded_mantissa in V as (_ & He & _ & Ec).
  unfold rounded.
  assert (gridOf 1074 (Z.pos m * 2 ^ (e + 1074)) = e + 1074) as ->.
  { unfold gridOf. rewrite Z.log2_mul_pow2, digits2_log2 by lia. lia. }
  rewrite toGrid_multiple by lia. apply Z.min_l.
  change (2 ^ (1024 + 1074)) with huge. lia.
Qed.

Lemma roundedSigned_exact (s : bool) (m : positive) (e : Z) :
  bounded prec emax m e = true ->
  roundedSigned 1074 (sval (S754_finite s m e)) = sval (S754_finite s m e).
Proof.
  intros V. pose proof (finite_value_bounds _ _ V) as B.
  pose proof (rounded_exact _ _ V) as R.
  unfold roundedSigned. change (2 ^ (1074 - 1074)) with 1. rewrite Z.div_1_r.
  cbn [sval]. destruct s.
  - rewrite Z.sgn_neg, Z.abs_neq, Z.opp_involutive, R by lia. lia.
  - rewrite Z.sgn_pos, Z.abs_eq, R by lia. lia.
Qed.

(** The sum of two numbers that are finite or zero. *)
Lemma SFadd_sval (x y : spec_float) :
  valid_binary x = true -> valid_binary y = true ->
  valid_binary (SFadd prec emax x y) = true ->
  match x with S754_zero _ | S754_finite _ _ _ => True | _ => False end ->
  match y with S754_zero _ | S754_finite _ _ _ => True | _ => False end ->
  isNumber (SFadd prec emax x y) = true /\
  sval (SFadd prec emax x y) = roundedSigned 1074 (sval x + sval y).
Proof.
  intros Vx Vy Vr Fx Fy.
  assert (roundedSigned 1074 0 = 0) as R0 by reflexivity.
  destruct x as [sx|sx| |sx mx ex]; try contradiction;
    destruct y as [sy|sy| |sy my ey]; try contradiction.
  - cbn [SFadd]. destruct sx, sy; split; reflexivity.
  - cbn [SFadd]. split; [reflexivity|].
    change (sval (S754_zero sx)) with 0. rewrite Z.add_0_l.
    symmetry. apply roundedSigned_exact. exact Vy.
  - cbn [SFadd]. split; [reflexivity|].
    change (sval (S754_zero sy)) with 0. rewrite Z.add_0_r.
    symmetry. apply roundedSigned_exact. exact Vx.
  - cbn [SFadd] in *. cbv zeta in *.
    pose proof (bounded_mantissa _ _ Vx) as (_ & Hex & _).
    pose proof (bounded_mantissa _ _ Vy) as (_ & Hey & _).
    set (ez := Z.min ex ey) in *.
    destruct (@shl_align_spec mx ex ez ltac:(lia)) as [Emx _].
    destruct (@shl_align_spec my ey ez ltac:(lia)) as [Emy _].
    set (mx' := fst (shl_align mx ex ez)) in *.
    set (my' := fst (shl_align my ey ez)) in *.
    set (S := cond_Zopp sx (Z.pos mx') + cond_Zopp sy (Z.pos my')) in *.
    assert (0 < 2 ^ (ez + 1074)) as Hp by (apply Z.pow_pos_nonneg; lia).
    assert (S * 2 ^ (ez + 1074)
            = sval (S754_finite sx mx ex) + sval (S754_finite sy my ey)) as ES.
    { assert (Z.pos mx' * 2 ^ (ez + 1074) = Z.pos mx * 2 ^ (ex + 1074)) as Ex
          by (rewrite Emx, <- Z.mul_assoc, <- Z.pow_add_r by lia; do 2 f_equal; lia).
      assert (Z.pos my' * 2 ^ (ez + 1074) = Z.pos my * 2 ^ (ey + 1074)) as Ey
          by (rewrite Emy, <- Z.mul_assoc, <- Z.pow_add_r by lia; do 2 f_equal; lia).
      unfold S, cond_Zopp. cbn [sval]. destruct sx, sy; lia. }
    rewrite <- ES.
    destruct S as [|m|m]; cbn [binary_normalize] in *.
    + split; reflexivity.
    + destruct (@binary_round_spec false m ez 1074 ltac:(lia) ltac:(lia)) as [Hs Hv].
      cbv zeta in Hs, Hv.
      assert (0 <= Z.pos m * 2 ^ (ez + 1074)) as HA by lia.
      assert (1074 <= 1074) as HK by lia.
      exact (@rounded_sval false _ 1074 _ HK HA Vr Hs Hv).
    + destruct (@binary_round_spec true m ez 1074 ltac:(lia) ltac:(lia)) as [Hs Hv].
      cbv zeta in Hs, Hv.
      assert (0 <= Z.pos m * 2 ^ (ez + 1074)) as HA by lia.
      assert (1074 <= 1074) as HK by lia.
      destruct (@rounded_sval true _ 1074 _ HK HA Vr Hs Hv) as [Hn Hsv].
      split; [exact Hn|]. rewrite Hsv. f_equal.
      change (Z.neg m) with (- Z.pos m). lia.
Qed.
(** ** Multiplication and addition are monotone *)

Definition finiteOrZero (x : spec_float) : Prop :=
  match x with S754_zero _ | S754_finite _ _ _ => True | _ => False end.

Lemma SFleb_values (x y : spec_float) :
  valid_binary x = true -> valid_binary y = true ->
  SFleb x y = true -> sval x <= sval y.
Proof.
  intros Vx Vy H. destruct (SFleb_numbers _ _ H) as [Nx Ny].
  rewrite (SFleb_sval _ _ Vx Vy Nx Ny) in H. now apply Z.leb_le.
Qed.

Lemma values_SFleb (x y : spec_float) :
  valid_binary x = true -> valid_binary y = true ->
  isNumber x = true -> isNumber y = true ->
  sval x <= sval y -> SFleb x y = true.
Proof.
  intros Vx Vy Nx Ny H. rewrite (SFleb_sval _ _ Vx Vy Nx Ny). now apply Z.leb_le.
Qed.

(** A number is finite or zero, or an infinity. *)
Lemma number_cases (x : spec_float) :
  isNumber x = true ->
  finiteOrZero x \/ x = S754_infinity true \/ x = S754_infinity false.
Proof.
  destruct x as [s|s| |s m e]; intros H; try discriminate H; cbn; auto.
  destruct s; auto.
Qed.

Lemma operands_numbers (op : spec_float -> spec_float -> spec_float)
      (x y : spec_float) :
  (forall z, op S754_nan z = S754_nan) -> (forall z, op z S754_nan = S754_nan) ->
  isNumber (op x y) = true -> isNumber x = true /\ isNumber y = true.
Proof.
  intros Hl Hr H. destruct x as [s|s| |s m e]; destruct y as [s'|s'| |s' m' e'];
    try (split; reflexivity); rewrite ?Hl, ?Hr in H; discriminate H.
Qed.

Lemma SFmul_numbers (x y : spec_float) :
  isNumber (SFmul prec emax x y) = true -> isNumber x = true /\ isNumber y = true.
Proof.
  apply operands_numbers; [reflexivity|]. intros z. destruct z; reflexivity.
Qed.

Lemma SFadd_numbers (x y : spec_float) :
  isNumber (SFadd prec emax x y) = true -> isNumber x = true /\ isNumber y = true.
Proof.
  apply operands_numbers; [reflexivity|]. intros z. destruct z; reflexivity.
Qed.

(** Products and sums in which an infinity takes part. *)
Lemma SFmul_infinity_l (s : bool) (w : spec_float) :
  valid_binary w = true -> finiteOrZero w -> 0 <= sval w ->
  isNumber (SFmul prec emax (S754_infinity s) w) = true ->
  SFmul prec emax (S754_infinity s) w = S754_infinity s.
Proof.
  intros Vw Fw Hw N.
  destruct w as [sw|sw| |sw mw ew]; try contradiction; cbn [SFmul] in *.
  - discriminate N.
  - pose proof (finite_value_bounds _ _ Vw). cbn [sval] in Hw.
    destruct sw; [lia|]. now destruct s.
Qed.

Lemma SFmul_infinity_r (x : spec_float) :
  valid_binary x = true ->
  isNumber (SFmul prec emax x (S754_infinity false)) = true ->
  (0 < sval x /\ SFmul prec emax x (S754_infinity false) = S754_infinity false) \/
  (sval x < 0 /\ SFmul prec emax x (S754_infinity false) = S754_infinity true).
Proof.
  intros Vx N. pose proof huge_positive.
  destruct x as [s|s| |s m e]; cbn [SFmul sval] in *; try discriminate N.
  - destruct s; [right|left]; (split; [lia|reflexivity]).
  - pose proof (finite_value_bounds _ _ Vx).
    destruct s; [right|left]; (split; [lia|reflexivity]).
Qed.

Lemma SFadd_infinity_l (s : bool) (c : spec_float) :
  isNumber (SFadd prec emax (S754_infinity s) c) = true ->
  SFadd prec emax (S754_infinity s) c = S754_infinity s.
Proof.
  destruct c as [sc|sc| |sc mc ec]; cbn [SFadd]; intros N; try reflexivity;
    try discriminate N.
  destruct s, sc; try reflexivity; discriminate N.
Qed.

Lemma SFadd_infinity_r (x : spec_float) (s : bool) :
  isNumber (SFadd prec emax x (S754_infinity s)) = true ->
  SFadd prec emax x (S754_infinity s) = S754_infinity s.
Proof.
  destruct x as [sx|sx| |sx mx ex]; cbn [SFadd]; intros N; try reflexivity;
    try discriminate N.
  destruct sx, s; try reflexivity; discriminate N.
Qed.

Lemma SFmul_monotone (x1 x2 w : spec_float) :
  valid_binary x1 = true -> valid_binary x2 = true -> valid_binary w = true ->
  valid_binary (SFmul prec emax x1 w) = true ->
  valid_binary (SFmul prec emax x2 w) = true ->
  SFleb x1 x2 = true -> SFleb (S754_zero false) w = true ->
  isNumber (SFmul prec emax x1 w) = true ->
  isNumber (SFmul prec emax x2 w) = true ->
  SFleb (SFmul prec emax x1 w) (SFmul prec emax x2 w) = true.
Proof.
  intros V1 V2 Vw Vr1 Vr2 Hx Hw N1 N2.
  apply values_SFleb; try assumption.
  pose proof (SFleb_values _ _ V1 V2 Hx) as Hle.
  pose proof (SFleb_values (S754_zero false) _ eq_refl Vw Hw) as Hw0.
  change (sval (S754_zero false)) with 0 in Hw0.
  pose proof (sval_bounds _ Vr1) as B1. pose proof (sval_bounds _ Vr2) as B2.
  pose proof huge_positive as Hh.
  destruct (SFleb_numbers _ _ Hx) as [Nx1 Nx2].
  destruct (SFleb_numbers _ _ Hw) as [_ Nw].
  destruct (number_cases _ Nw) as [Fw|[->| ->]].
  - destruct (number_cases _ Nx1) as [F1|[->| ->]].
    + destruct (number_cases _ Nx2) as [F2|[->| ->]].
      * rewrite (proj2 (SFmul_sval x1 w V1 Vw Vr1 F1 Fw)),
          (proj2 (SFmul_sval x2 w V2 Vw Vr2 F2 Fw)).
        apply roundedSigned_monotone; [lia|].
        apply Z.mul_le_mono_nonneg_r; assumption.
      * apply sval_least in Hle; [|exact V1]. subst x1. contradiction.
      * rewrite (@SFmul_infinity_l false w Vw Fw Hw0 N2). cbn [sval]. lia.
    + rewrite (@SFmul_infinity_l true w Vw Fw Hw0 N1). cbn [sval]. lia.
    + apply sval_greatest in Hle; [|exact V2]. subst x2. lia.
  - cbn [sval] in Hw0. lia.
  - destruct (@SFmul_infinity_r x1 V1 N1) as [[P1 ->]|[P1 ->]];
      destruct (@SFmul_infinity_r x2 V2 N2) as [[P2 ->]|[P2 ->]]; cbn [sval]; lia.
Qed.

Lemma SFadd_monotone_l (x1 x2 c : spec_float) :
  valid_binary x1 = true -> valid_binary x2 = true -> valid_binary c = true ->
  valid_binary (SFadd prec emax x1 c) = true ->
  valid_binary (SFadd prec emax x2 c) = true ->
  SFleb x1 x2 = true ->
  isNumber (SFadd prec emax x1 c) = true ->
  isNumber (SFadd prec emax x2 c) = true ->
  SFleb (SFadd prec emax x1 c) (SFadd prec emax x2 c) = true.
Proof.
  intros V1 V2 Vc Vr1 Vr2 Hx N1 N2.
  apply values_SFleb; try assumption.
  pose proof (SFleb_values _ _ V1 V2 Hx) as Hle.
  pose proof (sval_bounds _ Vr1) as B1. pose proof (sval_bounds _ Vr2) as B2.
  pose proof huge_positive as Hh.
  destruct (SFleb_numbers _ _ Hx) as [Nx1 Nx2].
  destruct (SFadd_numbers _ _ N1) as [_ Nc].
  destruct (number_cases _ Nc) as [Fc|[->| ->]].
  - destruct (number_cases _ Nx1) as [F1|[->| ->]].
    + destruct (number_cases _ Nx2) as [F2|[->| ->]].
      * rewrite (proj2 (SFadd_sval x1 c V1 Vc Vr1 F1 Fc)),
          (proj2 (SFadd_sval x2 c V2 Vc Vr2 F2 Fc)).
        apply roundedSigned_monotone; lia.
      * apply sval_least in Hle; [|exact V1]. subst x1. contradiction.
      * rewrite (@SFadd_infinity_l _ _ N2). cbn [sval]. lia.
    + rewrite (@SFadd_infinity_l _ _ N1). cbn [sval]. lia.
    + apply sval_greatest in Hle; [|exact V2]. subst x2. lia.
  - rewrite (@SFadd_infinity_r _ _ N1), (@SFadd_infinity_r _ _ N2). lia.
  - rewrite (@SFadd_infinity_r _ _ N1), (@SFadd_infinity_r _ _ N2). lia.
Qed.

Lemma SFadd_monotone_r (c x1 x2 : spec_float) :
  valid_binary x1 = true -> valid_binary x2 = true -> valid_binary c = true ->
  valid_binary (SFadd prec emax c x1) = true ->
  valid_binary (SFadd prec emax c x2) = true ->
  SFleb x1 x2 = true ->
  isNumber (SFadd prec emax c x1) = true ->
  isNumber (SFadd prec emax c x2) = true ->
  SFleb (SFadd prec emax c x1) (SFadd prec emax c x2) = true.
Proof.
  intros V1 V2 Vc Vr1 Vr2 Hx N1 N2.
  apply values_SFleb; try assumption.
  pose proof (SFleb_values _ _ V1 V2 Hx) as Hle.
  pose proof (sval_bounds _ Vr1) as B1. pose proof (sval_bounds _ Vr2) as B2.
  pose proof huge_positive as Hh.
  destruct (SFleb_numbers _ _ Hx) as [Nx1 Nx2].
  destruct (SFadd_numbers _ _ N1) as [Nc _].
  destruct (number_cases _ Nc) as [Fc|[->| ->]].
  - destruct (number_cases _ Nx1) as [F1|[->| ->]].
    + destruct (number_cases _ Nx2) as [F2|[->| ->]].
      * rewrite (proj2 (SFadd_sval c x1 Vc V1 Vr1 Fc F1)),
          (proj2 (SFadd_sval c x2 Vc V2 Vr2 Fc F2)).
        apply roundedSigned_monotone; lia.
      * apply sval_least in Hle; [|exact V1]. subst x1. contradiction.
      * rewrite (@SFadd_infinity_r _ _ N2). cbn [sval]. lia.
    + rewrite (@SFadd_infinity_r _ _ N1). cbn [sval]. lia.
    + apply sval_greatest in Hle; [|exact V2]. subst x2. lia.
  - rewrite (@SFadd_infinity_l _ _ N1), (@SFadd_infinity_l _ _ N2). lia.
  - rewrite (@SFadd_infinity_l _ _ N1), (@SFadd_infinity_l _ _ N2). lia.
Qed.
(** ** Binary64 numbers of the runtime *)

Lemma is_nan_spec (x : float) : is_nan x = negb (isNumber (Prim2SF x)).
Proof.
  unfold is_nan. rewrite FloatAxioms.eqb_spec. unfold SFeqb.
  pose proof (Prim2SF_valid x) as V.
  destruct (isNumber (Prim2SF x)) eqn:N.
  - rewrite (SFcompare_sval _ _ V V N N), Z.compare_refl. reflexivity.
  - destruct (Prim2SF x); try discriminate N. reflexivity.
Qed.

Lemma is_finite_spec (x : float) :
  is_finite x = true <-> finiteOrZero (Prim2SF x).
Proof.
  unfold is_finite, is_infinity.
  rewrite is_nan_spec, FloatAxioms.eqb_spec, FloatAxioms.abs_spec.
  change (Prim2SF infinity) with (S754_infinity false).
  destruct (Prim2SF x) as [s|s| |s m e]; cbn; intuition discriminate.
Qed.

Lemma product_valid (x y : float) :
  valid_binary (SFmul prec emax (Prim2SF x) (Prim2SF y)) = true.
Proof.
  change (SFmul prec emax) with SF64mul. rewrite <- FloatAxioms.mul_spec. apply Prim2SF_valid.
Qed.

Lemma sum_valid (x y : float) :
  valid_binary (SFadd prec emax (Prim2SF x) (Prim2SF y)) = true.
Proof.
  change (SFadd prec emax) with SF64add. rewrite <- FloatAxioms.add_spec. apply Prim2SF_valid.
Qed.

Lemma number_spec (x : float) : is_nan x = false <-> isNumber (Prim2SF x) = true.
Proof. rewrite is_nan_spec. destruct (isNumber (Prim2SF x)); cbn; intuition discriminate. Qed.

(** Multiplying by a number that is not negative keeps the order, as long
    as both products are numbers. *)
Lemma mul_monotone (x1 x2 w : float) :
  PrimFloat.leb x1 x2 = true -> PrimFloat.leb 0 w = true ->
  is_nan (x1 * w) = false -> is_nan (x2 * w) = false ->
  PrimFloat.leb (x1 * w) (x2 * w) = true.
Proof.
  rewrite !number_spec, !FloatAxioms.leb_spec, !FloatAxioms.mul_spec.
  change (Prim2SF 0) with (S754_zero false). unfold SF64mul.
  intros Hx Hw N1 N2.
  apply SFmul_monotone; try apply Prim2SF_valid; try apply product_valid; assumption.
Qed.

(** Adding a number on either side keeps the order, as long as both sums
    are numbers. *)
Lemma add_monotone_l (x1 x2 c : float) :
  PrimFloat.leb x1 x2 = true ->
  is_nan (x1 + c) = false -> is_nan (x2 + c) = false ->
  PrimFloat.leb (x1 + c) (x2 + c) = true.
Proof.
  rewrite !number_spec, !FloatAxioms.leb_spec, !FloatAxioms.add_spec. unfold SF64add.
  intros Hx N1 N2.
  apply SFadd_monotone_l; try apply Prim2SF_valid; try apply sum_valid; assumption.
Qed.

Lemma add_monotone_r (c x1 x2 : float) :
  PrimFloat.leb x1 x2 = true ->
  is_nan (c + x1) = false -> is_nan (c + x2) = false ->
  PrimFloat.leb (c + x1) (c + x2) = true.
Proof.
  rewrite !number_spec, !FloatAxioms.leb_spec, !FloatAxioms.add_spec. unfold SF64add.
  intros Hx N1 N2.
  apply SFadd_monotone_r; try apply Prim2SF_valid; try apply sum_valid; assumption.
Qed.

(** The operands of a product or a sum that is a number are numbers. *)
Lemma mul_numbers (x y : float) :
  is_nan (x * y) = false -> is_nan x = false /\ is_nan y = false.
Proof. rewrite !number_spec, FloatAxioms.mul_spec. apply SFmul_numbers. Qed.

Lemma add_numbers (x y : float) :
  is_nan (x + y) = false -> is_nan x = false /\ is_nan y = false.
Proof. rewrite !number_spec, FloatAxioms.add_spec. apply SFadd_numbers. Qed.

Lemma finite_number (x : float) : is_finite x = true -> is_nan x = false.
Proof.
  unfold is_finite. destruct (is_nan x); [discriminate|reflexivity].
Qed.

(** ** Rounding to an integer *)

(** [Math_round] of the number [m * 2^e], on a common scale [2^d]. *)
Lemma round_scaled (m e d : Z) :
  0 <= d -> - e <= d ->
  (if 0 <=? e then Z.shiftl m e
   else Z.shiftr (2 * m + Z.shiftl 1 (- e)) (1 - e))
  = (2 * (m * 2 ^ (e + d)) + 2 ^ d) / 2 ^ (d + 1).
Proof.
  intros Hd He. destruct (0 <=? e) eqn:E.
  - apply Z.leb_le in E. rewrite Z.shiftl_mul_pow2 by lia.
    rewrite Z.pow_add_r by lia.
    replace (2 * (m * (2 ^ e * 2 ^ d)) + 2 ^ d)
      with (m * 2 ^ e * 2 ^ (d + 1) + 2 ^ d)
      by (rewrite (Z.pow_add_r 2 d 1) by lia; change (2 ^ 1) with 2; ring).
    rewrite Z.div_add_l by (apply Z.pow_nonzero; lia).
    rewrite Z.div_small; [lia|].
    split; [apply Z.pow_nonneg; lia|]. apply Z.pow_lt_mono_r; lia.
  - apply Z.leb_gt in E.
    rewrite Z.shiftr_div_pow2, Z.shiftl_mul_pow2 by lia.
    replace d with ((e + d) + - e) at 2 3 by lia.
    rewrite (Z.pow_add_r 2 (e + d) (- e)) by lia.
    replace (e + d + - e + 1) with ((e + d) + (1 - e)) by lia.
    rewrite (Z.pow_add_r 2 (e + d) (1 - e)) by lia.
    replace (2 * (m * 2 ^ (e + d)) + 2 ^ (e + d) * 2 ^ (- e))
      with (2 ^ (e + d) * (2 * m + 1 * 2 ^ (- e))) by ring.
    rewrite Z.div_mul_cancel_l; try (apply Z.pow_nonzero; lia). reflexivity.
Qed.

Lemma Math_round_value (x : float) :
  is_finite x = true ->
  Math_round x = (2 * sval (Prim2SF x) + 2 ^ 1074) / 2 ^ 1075.
Proof.
  intros F. apply is_finite_spec in F. unfold Math_round.
  pose proof (Prim2SF_valid x) as V.
  destruct (Prim2SF x) as [s|s| |s m e]; try contradiction.
  - reflexivity.
  - cbn [valid_binary] in V. apply bounded_mantissa in V as (_ & He & _).
    cbv zeta. rewrite (@round_scaled _ e 1074) by lia.
    change (1074 + 1) with 1075. cbn [sval]. destruct s; [|reflexivity].
    do 3 f_equal. change (Z.neg m) with (- Z.pos m). ring.
Qed.

(** [Math.round] keeps the order of finite numbers. *)
Lemma Math_round_monotone (x y : float) :
  is_finite x = true -> is_finite y = true ->
  PrimFloat.leb x y = true -> Math_round x <= Math_round y.
Proof.
  intros Fx Fy H. rewrite (Math_round_value _ Fx), (Math_round_value _ Fy).
  rewrite FloatAxioms.leb_spec in H.
  apply SFleb_values in H; try apply Prim2SF_valid.
  apply Z.div_le_mono; [reflexivity|lia].
Qed.

(** Between 0 and 1 there are only finite numbers, and their product with
    a finite number is a number. *)
Lemma leb_transitive (x y z : float) :
  PrimFloat.leb x y = true -> PrimFloat.leb y z = true -> PrimFloat.leb x z = true.
Proof.
  rewrite !FloatAxioms.leb_spec. intros Hxy Hyz.
  destruct (SFleb_numbers _ _ Hxy) as [Nx _]. destruct (SFleb_numbers _ _ Hyz) as [_ Nz].
  apply SFleb_values in Hxy, Hyz; try apply Prim2SF_valid.
  apply values_SFleb; try apply Prim2SF_valid; try assumption. lia.
Qed.

Lemma unit_interval_finite (x : float) :
  PrimFloat.leb 0 x = true -> PrimFloat.leb x 1 = true -> is_finite x = true.
Proof.
  rewrite !FloatAxioms.leb_spec, is_finite_spec.
  change (Prim2SF 0) with (S754_zero false).
  intros H0 H1. pose proof (Prim2SF_valid x) as Vx.
  destruct (SFleb_numbers _ _ H0) as [_ Nx].
  apply SFleb_values in H0, H1; try assumption; try reflexivity;
    try apply Prim2SF_valid.
  assert (sval (Prim2SF 1) < huge) as Hone by (vm_compute; reflexivity).
  change (sval (S754_zero false)) with 0 in H0. pose proof huge_positive.
  destruct (Prim2SF x) as [s|s| |s m e]; cbn [sval] in *; try exact I;
    try discriminate Nx.
  destruct s; lia.
Qed.

Lemma finite_product_number (x w : float) :
  is_finite x = true -> is_finite w = true -> is_nan (x * w) = false.
Proof.
  rewrite number_spec, !is_finite_spec, FloatAxioms.mul_spec. unfold SF64mul.
  intros Fx Fw.
  apply SFmul_sval; try apply Prim2SF_valid; try apply product_valid; assumption.
Qed.

(** ** Numbers between bounds *)

Lemma leb_reflexive (x : float) : is_nan x = false -> PrimFloat.leb x x = true.
Proof.
  rewrite number_spec, FloatAxioms.leb_spec. intros N.
  apply values_SFleb; try apply Prim2SF_valid; try assumption. lia.
Qed.

Lemma leb_number_l (x y : float) : PrimFloat.leb x y = true -> is_nan x = false.
Proof.
  rewrite number_spec, FloatAxioms.leb_spec. intros H. apply (SFleb_numbers _ _ H).
Qed.

Lemma leb_number_r (x y : float) : PrimFloat.leb x y = true -> is_nan y = false.
Proof.
  rewrite number_spec, FloatAxioms.leb_spec. intros H. apply (SFleb_numbers _ _ H).
Qed.

(** A number between two finite numbers is finite. *)
Lemma between_finite (lo x hi : float) :
  is_finite lo = true -> is_finite hi = true ->
  PrimFloat.leb lo x = true -> PrimFloat.leb x hi = true -> is_finite x = true.
Proof.
  rewrite !is_finite_spec, !FloatAxioms.leb_spec. intros Flo Fhi Hlo Hhi.
  pose proof (Prim2SF_valid lo) as Vlo. pose proof (Prim2SF_valid hi) as Vhi.
  pose proof (Prim2SF_valid x) as Vx.
  destruct (SFleb_numbers _ _ Hlo) as [_ Nx].
  apply SFleb_values in Hlo, Hhi; try assumption.
  pose proof huge_positive.
  assert (- huge < sval (Prim2SF lo)) as Blo.
  { destruct (Prim2SF lo) as [s|s| |s m e]; try contradiction; cbn [sval]; [lia|].
    apply finite_value_bounds in Vlo. destruct s; lia. }
  assert (sval (Prim2SF hi) < huge) as Bhi.
  { destruct (Prim2SF hi) as [s|s| |s m e]; try contradiction; cbn [sval]; [lia|].
    apply finite_value_bounds in Vhi. destruct s; lia. }
  destruct (Prim2SF x) as [s|s| |s m e]; try exact I; try discriminate Nx.
  cbn [sval] in *. destruct s; lia.
Qed.

Lemma finite_sum_number (x y : float) :
  is_finite x = true -> is_finite y = true -> is_nan (x + y) = false.
Proof.
  rewrite number_spec, !is_finite_spec, FloatAxioms.add_spec. unfold SF64add.
  intros Fx Fy.
  apply SFadd_sval; try apply Prim2SF_valid; try apply sum_valid; assumption.
Qed.

(** The operands of a finite product or sum are finite. *)
Lemma finite_factors (x y : float) :
  is_finite (x * y) = true -> is_finite x = true /\ is_finite y = true.
Proof.
  rewrite !is_finite_spec, FloatAxioms.mul_spec. unfold SF64mul.
  destruct (Prim2SF x) as [s|s| |s m e]; destruct (Prim2SF y) as [s'|s'| |s' m' e'];
    cbn [SFmul finiteOrZero]; intros H; try contradiction; split; exact I.
Qed.

Lemma finite_terms (x y : float) :
  is_finite (x + y) = true -> is_finite x = true /\ is_finite y = true.
Proof.
  rewrite !is_finite_spec, FloatAxioms.add_spec. unfold SF64add.
  destruct (Prim2SF x) as [s|s| |s m e]; destruct (Prim2SF y) as [s'|s'| |s' m' e'];
    cbn [SFadd finiteOrZero]; intros H; try contradiction; try (split; exact I);
    destruct s, s'; contradiction.
Qed.

(** [x] lies between 0 and the finite number [hi]. *)
Definition upTo (hi x : float) : Prop :=
  PrimFloat.leb 0 x = true /\ PrimFloat.leb x hi = true /\ is_finite hi = true.

Lemma upTo_finite (hi x : float) : upTo hi x -> is_finite x = true.
Proof.
  intros (H0 & H1 & F). apply (@between_finite 0 x hi); try assumption. reflexivity.
Qed.

Lemma zero_product (w : float) : is_finite w = true -> PrimFloat.leb 0 (0 * w) = true.
Proof.
  intros Fw. pose proof (@finite_product_number 0 w eq_refl Fw) as N.
  revert N. rewrite number_spec, FloatAxioms.leb_spec, FloatAxioms.mul_spec.
  unfold SF64mul. apply is_finite_spec in Fw.
  change (Prim2SF 0) with (S754_zero false). intros N.
  apply values_SFleb; try reflexivity; try apply (product_valid 0 w); try assumption.
  pose proof (@SFmul_sval (S754_zero false) (Prim2SF w) eq_refl (Prim2SF_valid w)
                (product_valid 0 w) I Fw) as [_ E].
  rewrite E. cbn [sval]. rewrite Z.mul_0_l. reflexivity.
Qed.

Lemma upTo_product (hi x w : float) :
  upTo hi x -> PrimFloat.leb 0 w = true -> is_finite (hi * w) = true ->
  upTo (hi * w) (x * w).
Proof.
  intros Hx Hw F. pose proof (upTo_finite Hx) as Fx.
  destruct Hx as (H0 & H1 & Fhi).
  destruct (finite_factors _ _ F) as [_ Fw].
  pose proof (@finite_product_number x w Fx Fw) as N.
  split; [|split; [|exact F]].
  - apply leb_transitive with (0 * w)%float; [now apply zero_product|].
    apply mul_monotone; try assumption. now apply finite_product_number.
  - apply mul_monotone; try assumption. now apply finite_number.
Qed.

Lemma upTo_sum (hi hi' x y : float) :
  upTo hi x -> upTo hi' y -> is_finite (hi + hi') = true ->
  upTo (hi + hi') (x + y).
Proof.
  intros Hx Hy F. pose proof (upTo_finite Hx) as Fx. pose proof (upTo_finite Hy) as Fy.
  destruct Hx as (Hx0 & Hx1 & Fhi). destruct Hy as (Hy0 & Hy1 & Fhi').
  split; [|split; [|exact F]].
  - apply leb_transitive with (x + 0)%float.
    + apply leb_transitive with (0 + 0)%float; [reflexivity|].
      apply add_monotone_l; [assumption|reflexivity|].
      now apply finite_sum_number.
    + apply add_monotone_r; [assumption| |]; now apply finite_sum_number.
  - apply leb_transitive with (hi + y)%float.
    + apply add_monotone_l; [assumption| |]; now apply finite_sum_number.
    + apply add_monotone_r; [assumption| |]; now apply finite_sum_number.
Qed.

(* ================================================================== *)
(** * The aggregate score never falls when a component rises *)
(* ================================================================== *)

(** The Number [analyze] hands to [Math.round]: [rawScore * 100]. *)
Definition weightedScoreOf {X : Extensions} (tenantId : option jsstring)
           (textScore urlScore senderScore : Z) : float :=
  ((calibrateScore (Number textScore / 100) TEXT * w_TEXT (weightsFor tenantId)
    + calibrateScore (Number urlScore / 100) URL * w_URL (weightsFor tenantId)
    + calibrateScore (Number senderScore / 100) SENDER * w_SENDER (weightsFor tenantId))
   * 100)%float.

Lemma finalScoreOf_rounds (X : Extensions) tenantId text url sender :
  finalScoreOf tenantId text url sender
  = Math_round (weightedScoreOf tenantId text url sender).
Proof. reflexivity. Qed.

(** The calibration keeps the order of normalised scores, which lie between
    0 and 1. *)
Definition monotoneCalibration (X : Extensions) : Prop :=
  forall (x y : float) (c : Component),
    PrimFloat.leb 0 x = true -> PrimFloat.leb x y = true ->
    PrimFloat.leb y 1 = true ->
    PrimFloat.leb (calibrateScore x c) (calibrateScore y c) = true.

(** No weight is negative, whatever the tenant. *)
Definition nonnegativeWeights (X : Extensions) : Prop :=
  forall tenantId,
    PrimFloat.leb 0 (w_TEXT (weightsFor tenantId)) = true /\
    PrimFloat.leb 0 (w_URL (weightsFor tenantId)) = true /\
    PrimFloat.leb 0 (w_SENDER (weightsFor tenantId)) = true.

(** The calibration keeps normalised scores between 0 and 1. *)
Definition unitCalibration (X : Extensions) : Prop :=
  forall (x : float) (c : Component),
    PrimFloat.leb 0 x = true -> PrimFloat.leb x 1 = true ->
    PrimFloat.leb 0 (calibrateScore x c) = true /\
    PrimFloat.leb (calibrateScore x c) 1 = true.

(** The weights add up to a finite Number, also when scaled to 0-100:
    the weighted sum of three scores of 1 does not overflow. *)
Definition finiteWeights (X : Extensions) : Prop :=
  forall tenantId,
    is_finite ((1 * w_TEXT (weightsFor tenantId)
                + 1 * w_URL (weightsFor tenantId)
                + 1 * w_SENDER (weightsFor tenantId)) * 100) = true.

Lemma repositoryConfiguration_monotone (X : Extensions) :
  repositoryConfiguration X -> monotoneCalibration X /\ nonnegativeWeights X.
Proof.
  intros [Hcal Hw]. split.
  - intros x y c _ H _. now rewrite !Hcal.
  - intros tenantId. unfold weightsFor. rewrite Hw. repeat split; reflexivity.
Qed.

Lemma repositoryConfiguration_bounded (X : Extensions) :
  repositoryConfiguration X -> unitCalibration X /\ finiteWeights X.
Proof.
  intros [Hcal Hw]. split.
  - intros x c H0 H1. rewrite Hcal. split; assumption.
  - intros tenantId. unfold weightsFor. rewrite Hw. reflexivity.
Qed.

(** Normalised scores, [score / 100], are ordered as the scores are and lie
    between 0 and 1; checked on every pair of scores. *)
Lemma normalised_monotone (a b : Z) :
  inRange a -> inRange b -> a <= b ->
  PrimFloat.leb 0 (Number a / 100) = true /\
  PrimFloat.leb (Number a / 100) (Number b / 100) = true /\
  PrimFloat.leb (Number b / 100) 1 = true.
Proof.
  intros Ha Hb Hab.
  assert (forallb (fun a =>
            forallb (fun b =>
              negb (a <=? b)
              || (PrimFloat.leb 0 (Number a / 100)
                  && PrimFloat.leb (Number a / 100) (Number b / 100)
                  && PrimFloat.leb (Number b / 100) 1)) scores) scores = true) as T
      by (vm_compute; reflexivity).
  rewrite forallb_forall in T. specialize (T a (scores_In Ha)).
  rewrite forallb_forall in T. specialize (T b (scores_In Hb)).
  rewrite (proj2 (Z.leb_le a b) Hab) in T. cbn [negb orb] in T.
  apply andb_true_iff in T as [T T3]. apply andb_true_iff in T as [T1 T2].
  repeat split; assumption.
Qed.

Section Monotone.
Context {X : Extensions}.
Hypothesis Hcal : monotoneCalibration X.
Hypothesis Hweights : nonnegativeWeights X.

Lemma calibrated_monotone (a b : Z) (c : Component) :
  inRange a -> inRange b -> a <= b ->
  PrimFloat.leb (calibrateScore (Number a / 100) c)
                (calibrateScore (Number b / 100) c) = true.
Proof.
  intros Ha Hb Hab. destruct (normalised_monotone Ha Hb Hab) as (H0 & H & H1).
  now apply Hcal.
Qed.

(** The weighted sum along its three axes. *)
Lemma weighted_text (a a' b c w : float) :
  PrimFloat.leb a a' = true -> PrimFloat.leb 0 w = true ->
  is_finite ((a * w + b + c) * 100) = true ->
  is_finite ((a' * w + b + c) * 100) = true ->
  Math_round ((a * w + b + c) * 100) <= Math_round ((a' * w + b + c) * 100).
Proof.
  intros Ha Hw F F'. apply Math_round_monotone; try assumption.
  apply finite_number in F, F'.
  destruct (mul_numbers _ _ F) as [N _]. destruct (mul_numbers _ _ F') as [N' _].
  destruct (add_numbers _ _ N) as [M _]. destruct (add_numbers _ _ N') as [M' _].
  destruct (add_numbers _ _ M) as [L _]. destruct (add_numbers _ _ M') as [L' _].
  apply mul_monotone; [|reflexivity|assumption|assumption].
  apply add_monotone_l; [|assumption|assumption].
  apply add_monotone_l; [|assumption|assumption].
  apply mul_monotone; assumption.
Qed.

Lemma weighted_url (a b b' c w : float) :
  PrimFloat.leb b b' = true -> PrimFloat.leb 0 w = true ->
  is_finite ((a + b * w + c) * 100) = true ->
  is_finite ((a + b' * w + c) * 100) = true ->
  Math_round ((a + b * w + c) * 100) <= Math_round ((a + b' * w + c) * 100).
Proof.
  intros Hb Hw F F'. apply Math_round_monotone; try assumption.
  apply finite_number in F, F'.
  destruct (mul_numbers _ _ F) as [N _]. destruct (mul_numbers _ _ F') as [N' _].
  destruct (add_numbers _ _ N) as [M _]. destruct (add_numbers _ _ N') as [M' _].
  destruct (add_numbers _ _ M) as [_ L]. destruct (add_numbers _ _ M') as [_ L'].
  apply mul_monotone; [|reflexivity|assumption|assumption].
  apply add_monotone_l; [|assumption|assumption].
  apply add_monotone_r; [|assumption|assumption].
  apply mul_monotone; assumption.
Qed.

Lemma weighted_sender (a b c c' w : float) :
  PrimFloat.leb c c' = true -> PrimFloat.leb 0 w = true ->
  is_finite ((a + b + c * w) * 100) = true ->
  is_finite ((a + b + c' * w) * 100) = true ->
  Math_round ((a + b + c * w) * 100) <= Math_round ((a + b + c' * w) * 100).
Proof.
  intros Hc Hw F F'. apply Math_round_monotone; try assumption.
  apply finite_number in F, F'.
  destruct (mul_numbers _ _ F) as [N _]. destruct (mul_numbers _ _ F') as [N' _].
  destruct (add_numbers _ _ N) as [_ L]. destruct (add_numbers _ _ N') as [_ L'].
  apply mul_monotone; [|reflexivity|assumption|assumption].
  apply add_monotone_r; [|assumption|assumption].
  apply mul_monotone; assumption.
Qed.

Lemma finalScoreOf_text tenantId text url sender text' :
  inRange text -> inRange text' -> text <= text' ->
  is_finite (weightedScoreOf tenantId text url sender) = true ->
  is_finite (weightedScoreOf tenantId text' url sender) = true ->
  finalScoreOf tenantId text url sender <= finalScoreOf tenantId text' url sender.
Proof.
  intros Ht Ht' Hle F F'. rewrite !finalScoreOf_rounds.
  destruct (Hweights tenantId) as (HT & _).
  unfold weightedScoreOf in *.
  apply weighted_text; try assumption. now apply calibrated_monotone.
Qed.

Lemma finalScoreOf_url tenantId text url sender url' :
  inRange url -> inRange url' -> url <= url' ->
  is_finite (weightedScoreOf tenantId text url sender) = true ->
  is_finite (weightedScoreOf tenantId text url' sender) = true ->
  finalScoreOf tenantId text url sender <= finalScoreOf tenantId text url' sender.
Proof.
  intros Hu Hu' Hle F F'. rewrite !finalScoreOf_rounds.
  destruct (Hweights tenantId) as (_ & HU & _).
  unfold weightedScoreOf in *.
  apply weighted_url; try assumption. now apply calibrated_monotone.
Qed.

Lemma finalScoreOf_sender tenantId text url sender sender' :
  inRange sender -> inRange sender' -> sender <= sender' ->
  is_finite (weightedScoreOf tenantId text url sender) = true ->
  is_finite (weightedScoreOf tenantId text url sender') = true ->
  finalScoreOf tenantId text url sender <= finalScoreOf tenantId text url sender'.
Proof.
  intros Hs Hs' Hle F F'. rewrite !finalScoreOf_rounds.
  destruct (Hweights tenantId) as (_ & _ & HS).
  unfold weightedScoreOf in *.
  apply weighted_sender; try assumption. now apply calibrated_monotone.
Qed.

(** With a calibration into 0..1 and weights that do not overflow, the
    weighted sum of scores within 0..100 is finite. *)
Lemma weightedScoreOf_finite tenantId text url sender :
  unitCalibration X -> finiteWeights X ->
  inRange text -> inRange url -> inRange sender ->
  is_finite (weightedScoreOf tenantId text url sender) = true.
Proof.
  intros Hunit Hfin Ht Hu Hs.
  destruct (Hweights tenantId) as (HT & HU & HS). specialize (Hfin tenantId).
  assert (forall a c, inRange a -> upTo 1 (calibrateScore (Number a / 100) c)) as Hc.
  { intros a c Ha.
    destruct (normalised_monotone Ha Ha (Z.le_refl a)) as (H0 & _ & H1).
    destruct (Hunit _ c H0 H1) as [L U].
    split; [exact L|split; [exact U|reflexivity]]. }
  unfold weightedScoreOf.
  destruct (finite_factors _ _ Hfin) as [F3 _].
  destruct (finite_terms _ _ F3) as [F2 FS].
  destruct (finite_terms _ _ F2) as [FT FU].
  eapply upTo_finite.
  apply upTo_product; [|reflexivity|exact Hfin].
  apply upTo_sum; [|apply upTo_product; auto|exact F3].
  apply upTo_sum; [apply upTo_product; auto|apply upTo_product; auto|exact F2].
Qed.

Lemma finalScoreOf_monotone tenantId text url sender text' url' sender' :
  unitCalibration X -> finiteWeights X ->
  inRange text -> inRange url -> inRange sender ->
  inRange text' -> inRange url' -> inRange sender' ->
  text <= text' -> url <= url' -> sender <= sender' ->
  finalScoreOf tenantId text url sender <= finalScoreOf tenantId text' url' sender'.
Proof.
  intros Hunit Hfin Ht Hu Hs Ht' Hu' Hs' Htt Huu Hss.
  transitivity (finalScoreOf tenantId text' url sender).
  { apply finalScoreOf_text; try assumption; now apply weightedScoreOf_finite. }
  transitivity (finalScoreOf tenantId text' url' sender).
  { apply finalScoreOf_url; try assumption; now apply weightedScoreOf_finite. }
  apply finalScoreOf_sender; try assumption; now apply weightedScoreOf_finite.
Qed.

End Monotone.

(** In binary64 the weighted sum can fall short of the exact one: for a text
    score of 0, a URL score of 30 and a sender score of 10 the exact sum is
    14.5, which would round to 15. *)
Example binary64_aggregate_rounds_down : defaultAggregate 0 30 10 = 14.
Proof. vm_compute. reflexivity. Qed.

(** C8.  The final score of [analyze] is the aggregate of the three component
    scores it reports.  For every calibration that keeps the order of
    normalised scores and all weights that are not negative, the aggregate,
    computed in binary64 as the code computes it, never decreases when one
    component score increases within 0..100 and the other two are kept,
    provided the weighted sum is a finite Number before and after, so that
    [Math.round] returns an integer.  It is finite whenever the calibration
    keeps normalised scores between 0 and 1 and the weights do not overflow;
    the aggregate then never decreases when any of the three scores
    increase.  So it is under the configuration the repository runs with. *)
Theorem final_score_monotone (P : Platform) (X : Extensions)
        (phishingModel : option LayersModel) :
  monotoneCalibration X -> nonnegativeWeights X ->
  (forall emailData w,
     let r := Effect.run (analyze phishingModel emailData) w in
     ScanResult.score r
     = finalScoreOf (EmailData.tenantId emailData)
         (ScanResult.textScore (ScanResult.details r))
         (ScanResult.urlScore (ScanResult.details r))
         (ScanResult.senderScore (ScanResult.details r))) /\
  (forall tenantId text url sender text',
     inRange text -> inRange text' -> text <= text' ->
     is_finite (weightedScoreOf tenantId text url sender) = true ->
     is_finite (weightedScoreOf tenantId text' url sender) = true ->
     finalScoreOf tenantId text url sender <= finalScoreOf tenantId text' url sender) /\
  (forall tenantId text url sender url',
     inRange url -> inRange url' -> url <= url' ->
     is_finite (weightedScoreOf tenantId text url sender) = true ->
     is_finite (weightedScoreOf tenantId text url' sender) = true ->
     finalScoreOf tenantId text url sender <= finalScoreOf tenantId text url' sender) /\
  (forall tenantId text url sender sender',
     inRange sender -> inRange sender' -> sender <= sender' ->
     is_finite (weightedScoreOf tenantId text url sender) = true ->
     is_finite (weightedScoreOf tenantId text url sender') = true ->
     finalScoreOf tenantId text url sender <= finalScoreOf tenantId text url sender') /\
  (unitCalibration X -> finiteWeights X ->
   forall tenantId text url sender text' url' sender',
     inRange text -> inRange url -> inRange sender ->
     inRange text' -> inRange url' -> inRange sender' ->
     text <= text' -> url <= url' -> sender <= sender' ->
     is_finite (weightedScoreOf tenantId text url sender) = true /\
     finalScoreOf tenantId text url sender
     <= finalScoreOf tenantId text' url' sender') /\
  (repositoryConfiguration X ->
   forall tenantId text url sender text' url' sender',
     inRange text -> inRange url -> inRange sender ->
     inRange text' -> inRange url' -> inRange sender' ->
     text <= text' -> url <= url' -> sender <= sender' ->
     finalScoreOf tenantId text url sender
     <= finalScoreOf tenantId text' url' sender').
Proof.
  intros Hcal Hweights. split; [reflexivity|].
  split; [intros; now apply finalScoreOf_text|].
  split; [intros; now apply finalScoreOf_url|].
  split; [intros; now apply finalScoreOf_sender|].
  split.
  { intros Hunit Hfin tenantId text url sender text' url' sender'
           Ht Hu Hs Ht' Hu' Hs' Htt Huu Hss.
    split; [now apply weightedScoreOf_finite|now apply finalScoreOf_monotone]. }
  intros Hconf tenantId text url sender text' url' sender' Ht Hu Hs Ht' Hu' Hs' Htt Huu Hss.
  rewrite !(finalScoreOf_default _ _ _ _ Hconf).
  now apply defaultAggregate_monotone.
Qed.

(** A configuration with a calibration and weights of its own: every
    normalised score is halved, and every tenant weighs text, URL and
    sender by 0.5, 0.3 and 0.2. *)
Definition halvingConfiguration : Extensions := {|
  calibrateScore := fun score _ => (score * 0.5)%float;
  getAdaptiveWeights :=
    fun _ => Some {| w_TEXT := 0.5; w_URL := 0.3; w_SENDER := 0.2 |};
  fuzzyMatch := None;
  BRAND_KEYWORDS := None
|}.

Lemma halvingConfiguration_monotone :
  monotoneCalibration halvingConfiguration /\ nonnegativeWeights halvingConfiguration.
Proof.
  split.
  - intros x y c H0 Hxy H1. cbn [calibrateScore halvingConfiguration].
    apply mul_monotone; [exact Hxy | reflexivity | |];
      (apply finite_product_number; [apply unit_interval_finite|reflexivity]);
      try assumption; eapply leb_transitive; eassumption.
  - intros tenantId. repeat split; reflexivity.
Qed.

Lemma final_score_monotone_witness :
  (monotoneCalibration halvingConfiguration /\
   nonnegativeWeights halvingConfiguration) /\
  (inRange 40 /\ inRange 41 /\ 40 <= 41) /\
  (is_finite (@weightedScoreOf halvingConfiguration None 40 15 0) = true /\
   is_finite (@weightedScoreOf halvingConfiguration None 41 15 0) = true) /\
  @finalScoreOf halvingConfiguration None 40 15 0
  <= @finalScoreOf halvingConfiguration None 41 15 0.
Proof.
  split; [exact halvingConfiguration_monotone|].
  split; [unfold inRange; lia|].
  split; [split; vm_compute; reflexivity|].
  apply (proj1 (proj2 (@final_score_monotone Reference.platform halvingConfiguration
                         None (proj1 halvingConfiguration_monotone)
                         (proj2 halvingConfiguration_monotone))));
    try (unfold inRange; lia); vm_compute; reflexivity.
Defined.

(** ** Trusted domains *)

Lemma trusted_nonempty trusted : In trusted TRUSTED_DOMAINS -> trusted <> [].
Proof.
  intros H E. subst.
  assert (forallb (fun t => negb (eqb t [])) TRUSTED_DOMAINS = true) as F
      by (vm_compute; reflexivity).
  rewrite forallb_forall in F. specialize (F _ H). discriminate.
Qed.

Lemma isTrustedDomain_intro domain trusted :
  In trusted TRUSTED_DOMAINS ->
  domain = trusted \/ (exists sub, domain = sub ++ utf16 "." ++ trusted) ->
  _isTrustedDomain domain = true.
Proof.
  intros Hin Hm. unfold _isTrustedDomain. apply existsb_exists.
  exists trusted. split; [assumption|]. apply orb_true_iff.
  destruct Hm as [->|[sub ->]].
  - left. apply eqb_refl.
  - right. apply endsWith_app.
Qed.

Lemma getDomain_nonempty_url {P : Platform} url domain :
  getDomain url = Some domain -> url <> [].
Proof.
  intros H ->. unfold getDomain in H. rewrite URL_empty in H. discriminate.
Qed.

(** C2.  When the lower-cased host name of a URL is a trusted domain or ends
    with a dot followed by a trusted domain, [analyzeURL] returns score 0 and
    the single flag "Verified trusted domain", whatever else the URL
    contains. *)
Theorem trusted_domain_scores_zero (P : Platform)
        (url domain trusted : jsstring) :
  getDomain url = Some domain ->
  In trusted TRUSTED_DOMAINS ->
  domain = trusted \/ (exists sub, domain = sub ++ utf16 "." ++ trusted) ->
  analyzeURL (Some url)
  = {| Analysis.score := 0;
       Analysis.flags := [utf16 "Verified trusted domain"] |}.
Proof.
  intros Hd Hin Hm.
  pose proof (getDomain_nonempty_url Hd) as Hurl.
  pose proof (trusted_nonempty Hin) as Ht.
  pose proof (isTrustedDomain_intro Hin Hm) as Htrust.
  unfold analyzeURL.
  destruct url as [|c url]; [congruence|].
  rewrite Hd.
  destruct domain as [|d domain].
  - destruct Hm as [E|[sub E]]; [congruence|].
    destruct sub; discriminate.
  - now rewrite Htrust.
Qed.

(** A URL under [mail.google.com] that is longer than 150 characters, has an
    [@], a login path and five percent-escapes. *)
Definition busyTrustedURL : jsstring :=
  utf16 "https://user@mail.google.com/login/verify?next=%2F%2F%2F%2F%2F"
  ++ repeat 97%N 120.

Lemma trusted_domain_scores_zero_witness :
  @getDomain Reference.platform busyTrustedURL = Some (utf16 "mail.google.com") /\
  In (utf16 "google.com") TRUSTED_DOMAINS /\
  @analyzeURL Reference.platform (Some busyTrustedURL)
  = {| Analysis.score := 0;
       Analysis.flags := [utf16 "Verified trusted domain"] |}.
Proof.
  assert (@getDomain Reference.platform busyTrustedURL
          = Some (utf16 "mail.google.com")) as Hd by (vm_compute; reflexivity).
  assert (In (utf16 "google.com") TRUSTED_DOMAINS) as Hin
      by (vm_compute; left; reflexivity).
  split; [exact Hd|]. split; [exact Hin|].
  apply (@trusted_domain_scores_zero Reference.platform busyTrustedURL
           (utf16 "mail.google.com") (utf16 "google.com") Hd Hin).
  right. exists (utf16 "mail"). vm_compute. reflexivity.
Defined.

(** ** Absent and malformed URLs *)

Definition invalidURLFlag : jsstring := utf16 "Invalid or malformed URL".

Lemma Analysis_check_flags c points flag r f :
  In f (Analysis.flags (Analysis.check c points flag r)) ->
  In f (Analysis.flags r) \/ f = flag.
Proof.
  unfold Analysis.check, Analysis.hit. destruct c; simpl; [|tauto].
  rewrite in_app_iff. simpl. intuition.
Qed.

Lemma Analysis_hit_flags points flag r f :
  In f (Analysis.flags (Analysis.hit points flag r)) ->
  In f (Analysis.flags r) \/ f = flag.
Proof. unfold Analysis.hit. simpl. rewrite in_app_iff. simpl. intuition. Qed.

Lemma differs (a b : jsstring) : eqb a b = false -> a <> b.
Proof. intros H E. apply eqb_eq in E. congruence. Qed.

(** Peels the checks of an analysis off a membership hypothesis, leaving one
    goal per flag that can have been pushed. *)
Ltac peel_flags H :=
  repeat first
    [ apply Analysis_check_flags in H; destruct H as [H|H]
    | apply Analysis_hit_flags in H; destruct H as [H|H] ].

Lemma untrusted_path_never_invalid {P : Platform} (url domain : jsstring) :
  getDomain url = Some domain -> url <> [] -> domain <> [] ->
  ~ In invalidURLFlag (Analysis.flags (analyzeURL (Some url))).
Proof.
  intros Hd Hu Hn H. unfold analyzeURL in H.
  destruct url as [|c url]; [congruence|]. rewrite Hd in H.
  destruct domain as [|d domain]; [congruence|].
  destruct (_isTrustedDomain (d :: domain)).
  - cbn [Analysis.flags In] in H. destruct H as [H|[]].
    symmetry in H. revert H. apply differs; vm_compute; reflexivity.
  - unfold Analysis.capped in H. cbn [Analysis.flags] in H.
    destruct (_checkTyposquatting (d :: domain));
      peel_flags H; try contradiction;
      revert H; apply differs; vm_compute; reflexivity.
Qed.

(** C10.  [analyzeURL] of a missing or empty URL returns score 0 and no flag.
    The invalid-URL result (score 50, one flag) is what a non-empty string
    whose host name cannot be extracted gets, and the invalid-URL flag is
    raised for no other input. *)
Theorem analyzeURL_absent_input (P : Platform) :
  analyzeURL None = {| Analysis.score := 0; Analysis.flags := [] |} /\
  analyzeURL (Some []) = {| Analysis.score := 0; Analysis.flags := [] |} /\
  (forall url, url <> [] ->
     getDomain url = None \/ getDomain url = Some [] ->
     analyzeURL (Some url)
     = {| Analysis.score := 50; Analysis.flags := [invalidURLFlag] |}) /\
  (forall url, In invalidURLFlag (Analysis.flags (analyzeURL url)) ->
     exists s, url = Some s /\ s <> [] /\
               (getDomain s = None \/ getDomain s = Some [])).
Proof.
  split; [reflexivity|]. split; [reflexivity|]. split.
  - intros url Hu Hd. unfold analyzeURL, invalidURLFlag.
    destruct url as [|c url]; [congruence|].
    destruct (getDomain (c :: url)) as [[|d domain]|];
      [reflexivity | exfalso; destruct Hd; discriminate | reflexivity].
  - intros [[|c url]|] H; try (simpl in H; contradiction).
    exists (c :: url). split; [reflexivity|]. split; [discriminate|].
    destruct (getDomain (c :: url)) as [[|d domain]|] eqn:Hd;
      [right; reflexivity | | left; reflexivity].
    exfalso. revert H.
    apply (untrusted_path_never_invalid Hd); discriminate.
Qed.

Lemma analyzeURL_absent_input_witness :
  utf16 "not a url" <> [] /\
  @getDomain Reference.platform (utf16 "not a url") = None /\
  @analyzeURL Reference.platform (Some (utf16 "not a url"))
  = {| Analysis.score := 50; Analysis.flags := [invalidURLFlag] |}.
Proof.
  assert (utf16 "not a url" <> []) as Hu by (vm_compute; discriminate).
  assert (@getDomain Reference.platform (utf16 "not a url") = None) as Hd
      by (vm_compute; reflexivity).
  split; [exact Hu|]. split; [exact Hd|].
  exact (proj1 (proj2 (proj2 (analyzeURL_absent_input Reference.platform)))
               (utf16 "not a url") Hu (or_introl Hd)).
Defined.

(** ** Reduction over several URLs *)

Lemma Set_values_from (items seen : list jsstring) :
  NoDup seen ->
  let result :=
    fold_left (fun seen x => if Array_includes seen x then seen else seen ++ [x])
              items seen in
  NoDup result /\ forall x, In x result <-> In x seen \/ In x items.
Proof.
  revert seen. induction items as [|y items IH]; intros seen Hnd; simpl.
  - split; [assumption|]. intros x. tauto.
  - destruct (Array_includes seen y) eqn:E.
    + destruct (IH seen Hnd) as [Hr Hin]. split; [assumption|].
      intros x. rewrite Hin. apply Array_includes_In in E.
      split; [tauto|]. intros [H|[->|H]]; auto.
    + assert (NoDup (seen ++ [y])) as Hnd'.
      { apply NoDup_app; [assumption | repeat constructor; intros [] |].
        intros a Ha [<-|[]]. apply Array_includes_In in Ha. congruence. }
      destruct (IH (seen ++ [y]) Hnd') as [Hr Hin]. split; [assumption|].
      intros x. rewrite Hin, in_app_iff. simpl. tauto.
Qed.

Lemma Set_values_spec (items : list jsstring) :
  NoDup (Set_values items) /\ forall x, In x (Set_values items) <-> In x items.
Proof.
  destruct (Set_values_from items (NoDup_nil _)) as [Hnd Hin].
  split; [exact Hnd|]. intros x. unfold Set_values. rewrite Hin. simpl. tauto.
Qed.

Lemma truncateURL_length (url : jsstring) : (length (_truncateURL url 60) <= 63)%nat.
Proof.
  unfold _truncateURL. destruct (length url <=? 60)%nat eqn:E.
  - apply Nat.leb_le in E. lia.
  - unfold substring_0. rewrite length_app, length_firstn.
    change (length (utf16 "...")) with 3%nat. lia.
Qed.

(** What [_truncateURL] keeps: a URL of at most 60 code units as it is, of a
    longer one the first 60 code units, followed by three dots. *)
Lemma truncateURL_cases (url : jsstring) :
  ((length url <= 60)%nat -> _truncateURL url 60 = url) /\
  ((60 < length url)%nat ->
   _truncateURL url 60 = firstn 60 url ++ [46; 46; 46]%N /\
   length (_truncateURL url 60) = 63%nat).
Proof.
  unfold _truncateURL, substring_0. split; intros H.
  - now rewrite (proj2 (Nat.leb_le _ _) H).
  - rewrite (proj2 (Nat.leb_gt _ _) H). split; [reflexivity|].
    rewrite length_app, length_firstn. change (length (utf16 "...")) with 3%nat. lia.
Qed.

Section Reduction.
Context {P : Platform}.

Definition scoreOfURL (url : jsstring) : Z := Analysis.score (analyzeURL (Some url)).
Definition flagsOfURL (url : jsstring) : list jsstring :=
  Analysis.flags (analyzeURL (Some url)).

(** The entry recorded for a flagged URL. *)
Definition entryOf (url : jsstring) : UrlReport.entry :=
  {| UrlReport.url := _truncateURL url 60;
     UrlReport.analysis := analyzeURL (Some url) |}.

Lemma fold_visit (urls : list jsstring) (worst : Z) (allFlags : list jsstring)
      (flagged : list UrlReport.entry) :
  0 <= worst ->
  fold_left visit urls (worst, allFlags, flagged)
  = (Z.max worst (fold_right Z.max 0 (map scoreOfURL urls)),
     allFlags ++ flat_map flagsOfURL urls,
     flagged ++ map entryOf (filter (fun u => 0 <? scoreOfURL u) urls)).
Proof.
  revert worst allFlags flagged.
  induction urls as [|u urls IH]; intros worst allFlags flagged Hw.
  - simpl. rewrite !app_nil_r, Z.max_l by lia. reflexivity.
  - cbn [fold_left map fold_right flat_map filter].
    unfold visit at 2. fold (scoreOfURL u). fold (flagsOfURL u). fold (entryOf u).
    assert (0 <= (if worst <? scoreOfURL u then scoreOfURL u else worst)) as Hw'
        by (destruct (worst <? scoreOfURL u) eqn:E; [apply Z.ltb_lt in E|]; lia).
    rewrite (IH _ _ _ Hw'). f_equal; [f_equal|].
    + destruct (worst <? scoreOfURL u) eqn:E;
        [apply Z.ltb_lt in E | apply Z.ltb_ge in E]; lia.
    + now rewrite <- app_assoc.
    + destruct (0 <? scoreOfURL u); [|reflexivity].
      now rewrite <- app_assoc.
Qed.

Lemma maximum_upper (scores : list Z) (x : Z) :
  In x scores -> x <= fold_right Z.max 0 scores.
Proof.
  induction scores as [|y scores IH]; simpl; [tauto|].
  intros [->|H]; [|specialize (IH H)]; lia.
Qed.

Lemma maximum_attained (scores : list Z) :
  Forall (fun x => 0 <= x) scores -> scores <> [] ->
  In (fold_right Z.max 0 scores) scores.
Proof.
  induction scores as [|y scores IH]; [congruence|].
  intros Hpos _. inversion Hpos as [|? ? Hy Hrest]; subst. simpl.
  destruct scores as [|z scores].
  - left. simpl. lia.
  - destruct (Z.max_spec y (fold_right Z.max 0 (z :: scores))) as [[_ E]|[_ E]];
      rewrite E; [right; apply IH; [assumption|discriminate] | now left].
Qed.

(** C6.  For every list of URLs (none for a missing list), [analyzeAllURLs]
    returns: as score the maximum of the per-URL scores, 0 when there is no
    URL; as flags every flag of every URL, each once; one entry, holding the
    URL for display and the URL's own analysis, for exactly the URLs that
    score above 0, in order; and the number of URLs.  The URL for display is
    the URL itself when it has at most 60 code units, and otherwise its first
    60 code units followed by three dots, 63 code units in all. *)
Theorem analyzeAllURLs_reduction (urls : option (list jsstring)) :
  let urlList := match urls with Some l => l | None => [] end in
  let report := analyzeAllURLs urls in
  let entries := match UrlReport.flaggedURLs report with
                 | Some l => l
                 | None => []
                 end in
  (forall u, UrlReport.analysis (entryOf u) = analyzeURL (Some u) /\
             ((length u <= 60)%nat -> UrlReport.url (entryOf u) = u) /\
             ((60 < length u)%nat ->
              UrlReport.url (entryOf u) = firstn 60 u ++ [46; 46; 46]%N /\
              length (UrlReport.url (entryOf u)) = 63%nat)) /\
  (forall u, In u urlList -> scoreOfURL u <= UrlReport.score report) /\
  (urlList = [] -> UrlReport.score report = 0) /\
  (urlList <> [] -> exists u, In u urlList /\ UrlReport.score report = scoreOfURL u) /\
  NoDup (UrlReport.flags report) /\
  (forall f, In f (UrlReport.flags report)
             <-> exists u, In u urlList /\ In f (flagsOfURL u)) /\
  entries = map entryOf (filter (fun u => 0 <? scoreOfURL u) urlList) /\
  Forall (fun e => (length (UrlReport.url e) <= 63)%nat) entries /\
  UrlReport.urlCount report = length urlList.
Proof.
  cbv zeta. split.
  { intros v. split; [reflexivity|]. exact (truncateURL_cases v). }
  destruct urls as [[|u urls]|].
  1, 3: (simpl; repeat split; try tauto; try congruence; try constructor;
         intros; try contradiction; destruct H as (? & [] & _)).
  set (urlList := u :: urls). unfold analyzeAllURLs. fold urlList.
  assert (0 <= 0) as H0 by lia.
  rewrite (fold_visit urlList [] [] H0).
  cbn [UrlReport.score UrlReport.flags UrlReport.urlCount UrlReport.flaggedURLs].
  rewrite !app_nil_l.
  assert (Forall (fun x => 0 <= x) (map scoreOfURL urlList)) as Hpos.
  { apply Forall_forall. intros x Hx. apply in_map_iff in Hx as (v & <- & _).
    apply (analyzeURL_inRange (Some v)). }
  assert (0 <= fold_right Z.max 0 (map scoreOfURL urlList)) as Hmax
      by (clear; induction (map scoreOfURL urlList); simpl; lia).
  rewrite Z.max_r by exact Hmax.
  destruct (Set_values_spec (flat_map flagsOfURL urlList)) as [Hnd Hin].
  repeat split.
  - intros v Hv. apply maximum_upper. now apply in_map.
  - discriminate.
  - intros _.
    assert (map scoreOfURL urlList <> []) as Hne by discriminate.
    pose proof (maximum_attained Hpos Hne) as Hat.
    apply in_map_iff in Hat as (v & Hv & Hinv). exists v. split; [assumption | symmetry; exact Hv].
  - exact Hnd.
  - intros H. apply Hin, in_flat_map in H. exact H.
  - intros H. apply Hin, in_flat_map. exact H.
  - apply Forall_forall. intros e He. apply in_map_iff in He as (v & <- & _).
    apply truncateURL_length.
Qed.

End Reduction.

(** ** Typosquatting *)

(** When the scan over the typosquat table reports a brand: a listed fake
    occurs in the label, or the label contains the first three characters of
    the brand and is at edit distance 1 or 2 from it. *)
Definition looksLike (domainBase : jsstring) (entry : jsstring * list jsstring) : Prop :=
  let (real, fakes) := entry in
  (exists fake, In fake fakes /\ includes domainBase fake = true) \/
  (includes domainBase (substring_0 3 real) = true /\
   (1 <= levenshteinDistance domainBase real <= 2)%nat).

Lemma typosquat_scan_spec (domainBase : jsstring)
      (entries : list (jsstring * list jsstring)) :
  typosquat_scan domainBase entries <> None
  <-> exists entry, In entry entries /\ looksLike domainBase entry.
Proof.
  induction entries as [|[real fakes] entries IH];
    cbn [typosquat_scan In]; cbv zeta.
  - split; [congruence|]. intros (e & [] & _).
  - destruct (existsb (fun f => includes domainBase f) fakes) eqn:Efake.
    { split; [|discriminate]. intros _. exists (real, fakes).
      split; [now left|]. left.
      apply existsb_exists in Efake as (f & Hf & Hi). now exists f. }
    destruct (includes domainBase (substring_0 3 real)
              && ((0 <? levenshteinDistance domainBase real)%nat
                  && (levenshteinDistance domainBase real <=? 2)%nat)) eqn:Elev.
    { split; [|discriminate]. intros _. exists (real, fakes).
      split; [now left|]. right.
      apply andb_true_iff in Elev as [Hp Hd].
      apply andb_true_iff in Hd as [Hlo Hhi].
      apply Nat.ltb_lt in Hlo. apply Nat.leb_le in Hhi. split; [assumption|lia]. }
    rewrite IH. split.
    + intros (e & He & Hl). exists e. split; [now right | assumption].
    + intros (e & [<-|He] & Hl); [|now exists e].
      exfalso. destruct Hl as [(f & Hf & Hi)|[Hp Hd]].
      * assert (existsb (fun f => includes domainBase f) fakes = true) as C
            by (apply existsb_exists; now exists f).
        congruence.
      * rewrite Hp in Elev. simpl in Elev.
        apply andb_false_iff in Elev as [E|E];
          [apply Nat.ltb_ge in E | apply Nat.leb_gt in E]; lia.
Qed.

Lemma Analysis_check_keeps c points flag r f :
  In f (Analysis.flags r) -> In f (Analysis.flags (Analysis.check c points flag r)).
Proof.
  unfold Analysis.check, Analysis.hit. destruct c; simpl; [|tauto].
  intros H. apply in_app_iff. now left.
Qed.

Lemma Analysis_check_grows c points flag r k :
  0 <= points -> k <= Analysis.score r ->
  k <= Analysis.score (Analysis.check c points flag r).
Proof. unfold Analysis.check, Analysis.hit. destruct c; simpl; lia. Qed.

Definition typosquatFlag (intendedDomain : jsstring) : jsstring :=
  utf16 "Possible typosquatting: looks like " ++ dquote ++ intendedDomain ++ dquote.

Section Typosquat.
Context {P : Platform}.

(** The domain without its last label, lower-cased: what
    [_checkTyposquatting] scans. *)
Definition domainBaseOf (domain : jsstring) : jsstring :=
  toLowerCase (join (utf16 ".") (slice_0_m1 (split 46 domain))).

(** [_checkTyposquatting] reports a typosquat exactly when some entry of the
    table matches literally or by edit distance. *)
Lemma checkTyposquatting_iff (domain : jsstring) :
  _checkTyposquatting domain <> None
  <-> exists entry, In entry TYPOSQUAT_MAP /\ looksLike (domainBaseOf domain) entry.
Proof. apply typosquat_scan_spec. Qed.

Lemma typosquat_penalty (url domain intended : jsstring) :
  getDomain url = Some domain ->
  _isTrustedDomain domain = false ->
  _checkTyposquatting domain = Some intended ->
  In (typosquatFlag intended) (Analysis.flags (analyzeURL (Some url))) /\
  35 <= Analysis.score (analyzeURL (Some url)).
Proof.
  intros Hd Ht Hc.
  pose proof (getDomain_nonempty_url Hd) as Hu.
  assert (domain <> []) as Hn.
  { intros ->. revert Hc. unfold _checkTyposquatting.
    change (join (utf16 ".") (slice_0_m1 (split 46 []))) with (@nil N).
    rewrite (toLowerCase_ascii (s := [])) by constructor.
    vm_compute. discriminate. }
  unfold analyzeURL.
  destruct url as [|c url]; [congruence|]. rewrite Hd.
  destruct domain as [|d domain]; [congruence|]. rewrite Ht, Hc.
  unfold Analysis.capped. cbn [Analysis.flags Analysis.score]. split.
  - repeat apply Analysis_check_keeps.
    unfold Analysis.hit, typosquatFlag. cbn [Analysis.flags].
    apply in_app_iff. right. left. reflexivity.
  - apply Z.min_glb; [|lia].
    repeat (apply Analysis_check_grows; [lia|]).
    unfold Analysis.hit. cbn [Analysis.score].
    assert (0 <= Analysis.score
                   (Analysis.check (3 <=? Z.of_nat (length (split 46 (d :: domain))) - 2) 20
                      (utf16 "Excessive subdomains ("
                       ++ Number_toString (Z.of_nat (length (split 46 (d :: domain))) - 2)
                       ++ utf16 " levels deep)")
                      (Analysis.check
                         (Array_includes SUSPICIOUS_TLDS
                            (utf16 "." ++ pop (split 46 (d :: domain)))) 25
                         (utf16 "Suspicious domain extension: "
                          ++ utf16 "." ++ pop (split 46 (d :: domain)))
                         (Analysis.check
                            (RegExp.test URL_RED_FLAGS.IP_ADDRESS (c :: url)) 40
                            (utf16 "Uses IP address instead of domain name")
                            {| Analysis.score := 0; Analysis.flags := [] |}))));
      [|lia].
    repeat (apply Analysis_check_nonneg; [lia|]). simpl. lia.
Qed.

Lemma netflix_domainBase : domainBaseOf (utf16 "netflix.com") = utf16 "netflix".
Proof.
  unfold domainBaseOf.
  replace (join (utf16 ".") (slice_0_m1 (split 46 (utf16 "netflix.com"))))
    with (utf16 "netflix") by (vm_compute; reflexivity).
  rewrite toLowerCase_ascii.
  - vm_compute. reflexivity.
  - vm_compute. repeat constructor.
Qed.

(** C3 (failing input).  [netflix.com] is not on the trusted list and its
    label [netflix] is at edit distance 0 from the brand [netflix], yet
    [_checkTyposquatting] reports it, because the table lists ["netflix"]
    among the fakes of [netflix]; so [analyzeURL] adds the 35-point penalty
    and the typosquatting flag to every URL of that host. *)
Theorem typosquat_flags_exact_brand :
  levenshteinDistance (utf16 "netflix") (utf16 "netflix") = 0%nat /\
  _isTrustedDomain (utf16 "netflix.com") = false /\
  _checkTyposquatting (utf16 "netflix.com") = Some (utf16 "netflix") /\
  forall url,
    getDomain url = Some (utf16 "netflix.com") ->
    In (typosquatFlag (utf16 "netflix")) (Analysis.flags (analyzeURL (Some url))) /\
    35 <= Analysis.score (analyzeURL (Some url)).
Proof.
  assert (_isTrustedDomain (utf16 "netflix.com") = false) as Ht
      by (vm_compute; reflexivity).
  assert (_checkTyposquatting (utf16 "netflix.com") = Some (utf16 "netflix")) as Hc.
  { unfold _checkTyposquatting. fold (domainBaseOf (utf16 "netflix.com")).
    rewrite netflix_domainBase. vm_compute. reflexivity. }
  split; [vm_compute; reflexivity|]. split; [exact Ht|]. split; [exact Hc|].
  intros url Hd. exact (@typosquat_penalty url _ _ Hd Ht Hc).
Qed.

End Typosquat.

Lemma typosquat_flags_exact_brand_witness :
  @getDomain Reference.platform (utf16 "https://netflix.com/")
  = Some (utf16 "netflix.com") /\
  @analyzeURL Reference.platform (Some (utf16 "https://netflix.com/"))
  = {| Analysis.score := 35; Analysis.flags := [typosquatFlag (utf16 "netflix")] |} /\
  35 <= Analysis.score (@analyzeURL Reference.platform (Some (utf16 "https://netflix.com/"))).
Proof.
  assert (@getDomain Reference.platform (utf16 "https://netflix.com/")
          = Some (utf16 "netflix.com")) as Hd by (vm_compute; reflexivity).
  split; [exact Hd|]. split; [vm_compute; reflexivity|].
  exact (proj2 (proj2 (proj2 (proj2 (@typosquat_flags_exact_brand Reference.platform)))
                      (utf16 "https://netflix.com/") Hd)).
Defined.

(** ** Category detection *)


Section Category.
Context {P : Platform} {X : Extensions}.

(** What the loop over the categories maintains about [bestCategory] and
    [bestMatchScore], for the entries of [table] visited so far. *)
Definition bestSoFar (lowerText : jsstring) (table visited : list (jsstring * Category))
           (acc : option CategoryMatch.best_t * Z) : Prop :=
  0 <= snd acc /\
  (forall e, In e visited -> matchScoreOf lowerText (snd e) <= snd acc) /\
  match fst acc with
  | None => True
  | Some b =>
    snd acc = CategoryMatch.matchScore b /\
    (exists key, In (key, CategoryMatch.cat b) table) /\
    CategoryMatch.matchScore b = matchScoreOf lowerText (CategoryMatch.cat b) /\
    CategoryMatch.matchedKeywords b
    = filter (fun kw => keywordIn lowerText kw) (keywords (CategoryMatch.cat b))
  end.

Lemma consider_bestSoFar lowerText table visited acc entry :
  In entry table ->
  bestSoFar lowerText table visited acc ->
  bestSoFar lowerText table (visited ++ [entry]) (consider lowerText acc entry).
Proof.
  intros Hin (Hpos & Hmax & Hbest). destruct acc as [best score].
  destruct entry as [key cat]. unfold consider. cbn [snd fst] in *.
  set (cond := (score <? matchScoreOf lowerText cat)
               || ((matchScoreOf lowerText cat =? score)
                   && (match best with
                       | Some b => severityOf (CategoryMatch.cat b)
                       | None => 0
                       end <? severityOf cat))).
  assert (cond = true -> score <= matchScoreOf lowerText cat) as Hup.
  { unfold cond. intros H. apply orb_true_iff in H as [H|H].
    - apply Z.ltb_lt in H. lia.
    - apply andb_true_iff in H as [H _]. apply Z.eqb_eq in H. lia. }
  assert (cond = false -> matchScoreOf lowerText cat <= score) as Hdown.
  { unfold cond. intros H. apply orb_false_iff in H as [H _].
    apply Z.ltb_ge in H. exact H. }
  destruct cond; unfold bestSoFar; cbn [fst snd].
  - specialize (Hup eq_refl). split; [lia|]. split.
    + intros e He. apply in_app_iff in He as [He|[<-|[]]].
      * specialize (Hmax _ He). lia.
      * simpl. lia.
    + cbn [CategoryMatch.matchScore CategoryMatch.cat CategoryMatch.matchedKeywords].
      repeat split. now exists key.
  - specialize (Hdown eq_refl). split; [lia|]. split.
    + intros e He. apply in_app_iff in He as [He|[<-|[]]].
      * now apply Hmax.
      * simpl. lia.
    + exact Hbest.
Qed.

Lemma fold_consider_bestSoFar lowerText table entries visited acc :
  (forall e, In e entries -> In e table) ->
  bestSoFar lowerText table visited acc ->
  bestSoFar lowerText table (visited ++ entries)
            (fold_left (consider lowerText) entries acc).
Proof.
  revert visited acc. induction entries as [|e entries IH]; intros visited acc Hsub H.
  - now rewrite app_nil_r.
  - simpl. replace (visited ++ e :: entries) with ((visited ++ [e]) ++ entries)
      by (now rewrite <- app_assoc).
    apply IH.
    + intros e' He'. apply Hsub. now right.
    + apply consider_bestSoFar; [apply Hsub; now left | assumption].
Qed.



Variable phishingModel : option LayersModel.


End Category.


(** ** Confidence of the text analysis *)

(** The codes of the ten checks of [analyzeText], in the order in which they
    run. *)
Definition checkCodes : list jsstring :=
  map utf16 ["URGENCY"; "THREAT"; "FINANCIAL"; "IMPERSONATION"; "ACTION";
             "HINGLISH"; "GRAMMAR"; "CAPS"; "PUNCTUATION"; "DOMAIN_MISMATCH"]%string.

(** The codes of the checks that fired, given which did. *)
Fixpoint select (fired : list bool) (codes : list jsstring) : list jsstring :=
  match fired, codes with
  | b :: fired', c :: codes' => (if b then [c] else []) ++ select fired' codes'
  | _, _ => []
  end.

Lemma select_snoc fired codes b c :
  nth_error codes (length fired) = Some c ->
  select (fired ++ [b]) codes = select fired codes ++ (if b then [c] else []).
Proof.
  revert codes. induction fired as [|a fired IH]; intros [|d codes] H; simpl in *;
    try discriminate.
  - injection H as ->. now rewrite app_nil_r.
  - rewrite (IH _ H). now rewrite app_assoc.
Qed.

Lemma select_length fired codes : (length (select fired codes) <= length fired)%nat.
Proof.
  revert codes. induction fired as [|b fired IH]; intros [|c codes]; simpl; try lia.
  specialize (IH codes). rewrite length_app. destruct b; simpl; lia.
Qed.

Lemma select_incl fired codes x : In x (select fired codes) -> In x codes.
Proof.
  revert codes. induction fired as [|b fired IH]; intros [|c codes]; simpl; try tauto.
  rewrite in_app_iff. intros [H|H]; [|right; now apply IH].
  destruct b; simpl in H; tauto.
Qed.

Lemma select_NoDup fired codes : NoDup codes -> NoDup (select fired codes).
Proof.
  revert codes. induction fired as [|b fired IH]; intros [|c codes] H; simpl;
    try constructor.
  inversion H as [|? ? Hc Hrest]; subst.
  destruct b; simpl; [|now apply IH].
  constructor; [|now apply IH]. intros Hin. apply Hc. eapply select_incl, Hin.
Qed.

Lemma checkCodes_NoDup : NoDup checkCodes.
Proof.
  unfold checkCodes. cbn [map].
  repeat (constructor;
          [cbn [In]; intros H;
           repeat (destruct H as [H|H];
                   [revert H; apply differs; vm_compute; reflexivity|]);
           exact H|]).
  constructor.
Qed.

Lemma select_count fired codes :
  (length fired <= length codes)%nat ->
  length (select fired codes) = count_occ Bool.bool_dec fired true.
Proof.
  revert codes. induction fired as [|b fired IH]; intros [|c codes] H;
    cbn [length] in H; try lia; try reflexivity.
  cbn [select count_occ]. rewrite length_app, (IH codes) by lia.
  destruct b; cbn [length Nat.add]; destruct (Bool.bool_dec _ true) as [E|E];
    try reflexivity; try discriminate E; exfalso; apply E; reflexivity.
Qed.

(** The flags of [r] are those of the checks that fired, the checks run so
    far being listed last first. *)
Definition raisedBy (ran : list bool) (r : TextAnalysis.t) : Prop :=
  map code (TextAnalysis.flags r) = select (rev ran) checkCodes.

Lemma raisedBy_check ran c points flag r :
  nth_error checkCodes (length ran) = Some (code flag) ->
  raisedBy ran r -> raisedBy (c :: ran) (TextAnalysis.check c points flag r).
Proof.
  unfold raisedBy. intros Hn Hsel. cbn [rev].
  rewrite <- length_rev in Hn. rewrite (select_snoc _ _ c Hn), <- Hsel.
  unfold TextAnalysis.check, TextAnalysis.hit.
  destruct c; cbn [TextAnalysis.flags].
  - now rewrite map_app.
  - now rewrite app_nil_r.
Qed.

Lemma raisedBy_skip ran r flag :
  nth_error checkCodes (length ran) = Some flag ->
  raisedBy ran r -> raisedBy (false :: ran) r.
Proof.
  unfold raisedBy. intros Hn Hsel. cbn [rev].
  rewrite <- length_rev in Hn. rewrite (select_snoc _ _ false Hn), Hsel.
  now rewrite app_nil_r.
Qed.

Lemma raisedBy_rev fired r :
  raisedBy (rev fired) r ->
  map code (TextAnalysis.flags r) = select fired checkCodes.
Proof. unfold raisedBy. now rewrite rev_involutive. Qed.

(** A count of at most ten, over ten, is between 0 and 1 in binary64. *)
Lemma tenths_in_unit_interval (n : nat) :
  (n <= 10)%nat ->
  PrimFloat.leb 0 (Number (Z.of_nat n) / 10) = true /\
  PrimFloat.leb (Number (Z.of_nat n) / 10) 1 = true.
Proof.
  intros H.
  assert (forallb (fun k => PrimFloat.leb 0 (Number (Z.of_nat k) / 10)
                            && PrimFloat.leb (Number (Z.of_nat k) / 10) 1)
                  (seq 0 11) = true) as F by (vm_compute; reflexivity).
  rewrite forallb_forall in F.
  assert (In n (seq 0 11)) as Hin by (apply in_seq; lia).
  specialize (F n Hin). now apply andb_true_iff in F.
Qed.

Section Confidence.
Context {P : Platform} {X : Extensions}.
Variable phishingModel : option LayersModel.

(** The text [analyzeText] searches: subject and body, each redacted, joined
    by a space, in lower case. *)
Definition fullTextOf (body subject : jsstring) : jsstring :=
  toLowerCase (anonymizeText (Some subject) ++ utf16 " " ++ anonymizeText (Some body)).

(** The conditions under which the ten checks of [analyzeText] add their
    points and push their flag, in the order in which the checks run: one or
    more keywords found for urgency, threat, financial bait, action requests,
    regional patterns and grammar, two or more for impersonation; more than
    three letters in ten in upper case in a body of more than 50 code units;
    three or more runs of [!!] or [??]; a brand found in the text that the
    sender's domain, when there is one, does not contain. *)
Definition checkConditions (body subject senderDomain : jsstring) : list bool :=
  let fullText := fullTextOf body subject in
  let found keywords := _findKeywordMatches fullText keywords in
  [ (0 <? length (found (Some URGENCY_KEYWORDS)))%nat;
    (0 <? length (found (Some THREAT_KEYWORDS)))%nat;
    (0 <? length (found (Some FINANCIAL_KEYWORDS)))%nat;
    (2 <=? length (found (Some IMPERSONATION_KEYWORDS)))%nat;
    (0 <? length (found (Some ACTION_KEYWORDS)))%nat;
    (0 <? length (found (Some HINGLISH_KEYWORDS)))%nat;
    (0 <? length (found (Some GRAMMAR_INDICATORS)))%nat;
    gt (ratio (_calculateCapsRatio body)) 0.3 && (50 <? length body)%nat;
    (3 <=? RegExp.match_count (RegExp.rep (N.eqb 33) 2 None) body
           + RegExp.match_count (RegExp.rep (N.eqb 63) 2 None) body)%nat;
    match found BRAND_KEYWORDS, senderDomain with
    | _ :: _, _ :: _ =>
      existsb (fun brand => negb (includes senderDomain (toLowerCase brand)))
              (found BRAND_KEYWORDS)
    | _, _ => false
    end ].

(** Which of the ten checks fire: none when the text is blank, since
    [analyzeText] then returns before the first of them. *)
Definition firedChecks (body subject senderDomain : jsstring) : list bool :=
  match trim (fullTextOf body subject) with
  | [] => repeat false 10
  | _ :: _ => checkConditions body subject senderDomain
  end.

Definition triggeredChecks (body subject senderDomain : jsstring) : nat :=
  count_occ Bool.bool_dec (firedChecks body subject senderDomain) true.

Lemma firedChecks_length body subject senderDomain :
  length (firedChecks body subject senderDomain) = 10%nat.
Proof. unfold firedChecks. destruct (trim _); reflexivity. Qed.

Lemma analyzeText_raisedBy body subject senderDomain :
  map code (TextAnalysis.flags (analyzeText phishingModel body subject senderDomain))
  = select (firedChecks body subject senderDomain) checkCodes.
Proof.
  unfold analyzeText, firedChecks, fullTextOf.
  destruct (trim _); [reflexivity|].
  rewrite nlp_never_fires. unfold checkConditions, fullTextOf. cbv zeta.
  cbn [TextAnalysis.flags].
  apply raisedBy_rev. cbn [rev app].
  destruct (_findKeywordMatches _ BRAND_KEYWORDS) as [|brand brands];
    [|destruct senderDomain as [|d senderDomain]].
  3: apply raisedBy_check; [reflexivity|].
  1, 2: apply (@raisedBy_skip _ _ (utf16 "DOMAIN_MISMATCH")); [reflexivity|].
  all: repeat (apply raisedBy_check; [reflexivity|]).
  all: reflexivity.
Qed.

(** C5.  Whatever the input, the flags [analyzeText] returns are those of the
    checks whose condition holds, one flag per check, in the order of the
    ten checks, and none when the text is blank; the confidence is the
    number of those checks over ten, as a binary64 quotient; and it lies
    between 0 and 1. *)
Theorem confidence_is_fired_over_ten (body subject senderDomain : jsstring) :
  let r := analyzeText phishingModel body subject senderDomain in
  let fired := firedChecks body subject senderDomain in
  (length fired = 10%nat /\
   map code (TextAnalysis.flags r) = select fired checkCodes /\
   length (TextAnalysis.flags r) = triggeredChecks body subject senderDomain /\
   TextAnalysis.confidence r
   = (Number (Z.of_nat (triggeredChecks body subject senderDomain)) / 10)%float) /\
  TextAnalysis.confidence r
  = (Number (Z.of_nat (length (TextAnalysis.flags r))) / 10)%float /\
  (exists fired : list bool,
     length fired = 10%nat /\
     map code (TextAnalysis.flags r) = select fired checkCodes) /\
  NoDup (map code (TextAnalysis.flags r)) /\
  PrimFloat.leb 0 (TextAnalysis.confidence r) = true /\
  PrimFloat.leb (TextAnalysis.confidence r) 1 = true.
Proof.
  intros r fired.
  assert (TextAnalysis.confidence r
          = (Number (Z.of_nat (length (TextAnalysis.flags r))) / 10)%float) as Hconf.
  { subst r. unfold analyzeText. destruct (trim _); reflexivity. }
  pose proof (analyzeText_raisedBy body subject senderDomain) as Hsel.
  pose proof (firedChecks_length body subject senderDomain) as Hlen.
  fold r in Hsel. fold fired in Hsel, Hlen.
  assert (length (TextAnalysis.flags r) = triggeredChecks body subject senderDomain)
    as Hcount.
  { rewrite <- (length_map code), Hsel. unfold triggeredChecks. fold fired.
    apply select_count. rewrite Hlen. reflexivity. }
  assert (length (TextAnalysis.flags r) <= 10)%nat as Hle.
  { rewrite <- (length_map code), Hsel, <- Hlen. apply select_length. }
  split; [|split; [exact Hconf|split; [now exists fired|split]]].
  - split; [exact Hlen|]. split; [exact Hsel|]. split; [exact Hcount|].
    now rewrite <- Hcount.
  - rewrite Hsel. apply select_NoDup, checkCodes_NoDup.
  - rewrite Hconf. apply tenths_in_unit_interval. exact Hle.
Qed.

End Confidence.

Lemma confidence_is_fired_over_ten_witness :
  let body := utf16 "Urgent: Your account will be suspended. Click here to verify." in
  let subject := utf16 "Account Suspension Notice" in
  let senderDomain := utf16 "bank-example.com" in
  let r := @analyzeText Reference.platform runner None body subject senderDomain in
  @firedChecks Reference.platform runner body subject senderDomain
  = [true; false; false; false; true; false; false; false; false; false] /\
  map code (TextAnalysis.flags r) = [utf16 "URGENCY"; utf16 "ACTION"] /\
  TextAnalysis.confidence r = (2 / 10)%float.
Proof.
  cbv zeta.
  destruct (@confidence_is_fired_over_ten Reference.platform runner None
              (utf16 "Urgent: Your account will be suspended. Click here to verify.")
              (utf16 "Account Suspension Notice") (utf16 "bank-example.com"))
    as ((_ & Hsel & _ & Hconf) & _).
  split; [vm_compute; reflexivity|]. split.
  - rewrite Hsel. vm_compute. reflexivity.
  - rewrite Hconf. vm_compute. reflexivity.
Defined.

(** ** Tone of the explanation *)

Definition isHighRisk (summary : jsstring) : bool :=
  startsWith summary (utf16 "⚠️ HIGH RISK").

Definition uncorroboratedCaution : jsstring :=
  utf16 "⚡ CAUTION: Suspicious text patterns detected, but no strong sender/URL evidence".

(** C7.  The summary of the explanation says HIGH RISK only when the blended
    score, 0.4 text + 0.4 url + 0.2 sender rounded, plus ten times the
    category severity, is at least 70 and the URL score exceeds 20 or the
    sender score exceeds 15.  When some flag was raised and that boosted
    score is at least 70 without such a URL or sender score, the summary is
    the caution about uncorroborated text patterns, not HIGH RISK. *)
Theorem high_risk_needs_corroboration
        (textResult : TextAnalysis.t) (urlResult : UrlReport.t)
        (senderResult : Analysis.t) (category : option CategoryMatch.t) :
  let text := TextAnalysis.score textResult in
  let url := UrlReport.score urlResult in
  let sender := Analysis.score senderResult in
  let blended :=
    Math_round (Number text * 0.4 + Number url * 0.4 + Number sender * 0.2)%float in
  let boosted := blended + severityBoost category * 10 in
  let strong := (20 <? url) || (15 <? sender) in
  let summary :=
    Explanation.summary
      (_generateExplanation textResult urlResult senderResult category) in
  (isHighRisk summary = true -> 70 <= boosted /\ strong = true) /\
  (TextAnalysis.flags textResult <> [] \/ UrlReport.flags urlResult <> []
   \/ Analysis.flags senderResult <> [] ->
   70 <= boosted -> strong = false ->
   summary = uncorroboratedCaution /\ isHighRisk summary = false).
Proof.
  cbv zeta. unfold _generateExplanation, uncorroboratedCaution.
  fold (totalScore (TextAnalysis.score textResult) (UrlReport.score urlResult)
                   (Analysis.score senderResult)).
  fold (adjustedScore (TextAnalysis.score textResult) (UrlReport.score urlResult)
                      (Analysis.score senderResult) category).
  fold (hasStrongNonTextSignals (UrlReport.score urlResult)
                                (Analysis.score senderResult)).
  set (adjusted := adjustedScore _ _ _ _).
  set (strong := hasStrongNonTextSignals _ _).
  destruct (map inl (TextAnalysis.flags textResult)
            ++ map inr (UrlReport.flags urlResult)
            ++ map inr (Analysis.flags senderResult)) as [|f allFlags] eqn:Eflags.
  - cbn [Explanation.summary]. split.
    + intros H. vm_compute in H. discriminate H.
    + intros Hflags. exfalso.
      apply app_eq_nil in Eflags as [Et Eus]. apply app_eq_nil in Eus as [Eu Es].
      apply map_eq_nil in Et, Eu, Es. tauto.
  - cbn [Explanation.summary].
    destruct (70 <=? adjusted) eqn:E70; destruct strong eqn:Es; cbn [andb].
    + apply Z.leb_le in E70. split; [auto|]. intros _ _ C. discriminate C.
    + apply Z.leb_le in E70. split.
      * intros H. vm_compute in H. discriminate H.
      * intros _ _ _. split; [reflexivity | vm_compute; reflexivity].
    + apply Z.leb_gt in E70. split.
      * intros H. destruct (30 <=? adjusted); vm_compute in H; discriminate H.
      * intros _ C. lia.
    + apply Z.leb_gt in E70. split.
      * intros H. destruct (30 <=? adjusted); vm_compute in H; discriminate H.
      * intros _ C. lia.
Qed.

(** A text result with one flag and the maximal score, a clean URL report
    and sender analysis, and a category of severity 3. *)
Definition loudText : TextAnalysis.t :=
  {| TextAnalysis.score := 100;
     TextAnalysis.flags := [{| code := utf16 "URGENCY"; message := utf16 "Urgency tactics" |}];
     TextAnalysis.confidence := 0.1 |}.
Definition cleanURLs : UrlReport.t :=
  {| UrlReport.score := 0; UrlReport.flags := []; UrlReport.urlCount := 0;
     UrlReport.flaggedURLs := None |}.
Definition cleanSender : Analysis.t := {| Analysis.score := 0; Analysis.flags := [] |}.
Definition severeCategory : CategoryMatch.t :=
  {| CategoryMatch.best :=
       {| CategoryMatch.cat :=
            {| cat_label := utf16 "Banking/Financial Scam"; icon := utf16 "🏦";
               keywords := [utf16 "bank"]; weights := None;
               severity := Some 3; minMatch := None |};
          CategoryMatch.matchedKeywords := [utf16 "bank"];
          CategoryMatch.matchScore := 1 |};
     CategoryMatch.confidence := 1;
     CategoryMatch.signals :=
       {| CategoryMatch.textScore := 100; CategoryMatch.urlScore := 0;
          CategoryMatch.senderScore := 0; CategoryMatch.urlFlags := [];
          CategoryMatch.senderFlags := [] |} |}.

Lemma high_risk_needs_corroboration_witness :
  TextAnalysis.flags loudText <> [] /\
  70 <= adjustedScore 100 0 0 (Some severeCategory) /\
  hasStrongNonTextSignals 0 0 = false /\
  Explanation.summary
    (_generateExplanation loudText cleanURLs cleanSender (Some severeCategory))
  = uncorroboratedCaution.
Proof.
  assert (TextAnalysis.flags loudText <> []) as Hf by discriminate.
  assert (70 <= adjustedScore 100 0 0 (Some severeCategory)) as H70
      by (vm_compute; discriminate).
  assert (hasStrongNonTextSignals 0 0 = false) as Hs by reflexivity.
  split; [exact Hf|]. split; [exact H70|]. split; [exact Hs|].
  exact (proj1 (proj2 (high_risk_needs_corroboration loudText cleanURLs cleanSender
                         (Some severeCategory))
                      (or_introl Hf) H70 Hs)).
Defined.

(** ** Determinism *)

(** Everything in a scan result but [scanId], [processingTime] and
    [timestamp]. *)
Definition verdict (r : ScanResult.t) :=
  (ScanResult.score r, ScanResult.riskLevel r, ScanResult.color r,
   ScanResult.category r, ScanResult.categoryIcon r, ScanResult.explanation r,
   ScanResult.details r, ScanResult.confidence r).

Lemma analyzeText_model_irrelevant {P : Platform} {X : Extensions}
      (m1 m2 : option LayersModel) body subject senderDomain :
  analyzeText m1 body subject senderDomain = analyzeText m2 body subject senderDomain.
Proof.
  unfold analyzeText. destruct (trim _); [reflexivity|].
  now rewrite !nlp_never_fires.
Qed.

Lemma verdict_independent {P : Platform} {X : Extensions}
      (emailData : EmailData.t) (model1 model2 : option LayersModel)
      (w1 w2 : Effect.World) :
  verdict (Effect.run (analyze model1 emailData) w1)
  = verdict (Effect.run (analyze model2 emailData) w2).
Proof.
  unfold verdict, Effect.run, analyze.
  cbn -[analyzeText analyzeAllURLs analyzeSender _detectCategory
        _generateExplanation formatRiskResult finalScoreOf utf16 split].
  now rewrite !(analyzeText_model_irrelevant model1 model2).
Qed.

(** C9.  Two runs of [analyze] on the same input agree on the score, the
    component scores and flags, the risk level, the category and the
    explanation, whatever the clock and the random generator answer in each
    run and whether or not a model has been loaded in between.  The scan
    identifier, the processing time and the timestamp are the fields that
    read the clock and the random generator. *)
Theorem analyze_deterministic (P : Platform) (X : Extensions)
        (emailData : EmailData.t) (model1 model2 : option LayersModel)
        (w1 w2 : Effect.World) :
  verdict (Effect.run (analyze model1 emailData) w1)
  = verdict (Effect.run (analyze model2 emailData) w2) /\
  (let r := Effect.run (analyze model1 emailData) w1 in
   ScanResult.scanId r
   = utf16 "scan_" ++ Number_toString (Effect.clock_ms (w1 0%nat)) ++ utf16 "_"
     ++ substr 2 9 (Effect.random_base36 (w1 1%nat)) /\
   ScanResult.processingTime r
   = Math_round (Effect.monotonic_ms (w1 3%nat) - Effect.monotonic_ms (w1 2%nat))%float /\
   ScanResult.timestamp r = Effect.clock_ms (w1 4%nat)).
Proof.
  split; [apply verdict_independent | repeat split].
Qed.

(** Two runs whose clocks differ do get different identifiers and
    timestamps. *)
Example scan_ids_differ :
  let r1 := Effect.run (@analyze Reference.platform runner None sampleEmail)
                       (Reference.world 1700000000000) in
  let r2 := Effect.run (@analyze Reference.platform runner None sampleEmail)
                       (Reference.world 1700000000777) in
  ScanResult.scanId r1 <> ScanResult.scanId r2 /\
  ScanResult.timestamp r1 <> ScanResult.timestamp r2 /\
  verdict r1 = verdict r2.
Proof.
  cbv zeta. split; [|split].
  - apply differs. vm_compute. reflexivity.
  - vm_compute. discriminate.
  - apply verdict_independent.
Qed.

(* ================================================================== *)
(** * Further properties of the code *)
(* ================================================================== *)

(** ** Edit distance *)

(** The Levenshtein recurrence, peeling the first characters. *)
Fixpoint edit (s : jsstring) : jsstring -> nat :=
  match s with
  | [] => fun t => length t
  | a :: s' =>
    fix along (t : jsstring) : nat :=
      match t with
      | [] => S (length s')
      | b :: t' =>
        Nat.min (Nat.min (edit s' t + 1) (along t' + 1))
                (edit s' t' + (if N.eqb a b then 0 else 1))
      end
  end%nat.

(** The entry [dp[i][j]] of the table: the distance between the first [i]
    characters of [str1] (here [p]) and the first [j] of [str2] (here [q]). *)
Definition cell (p q : jsstring) : nat := edit (rev p) (rev q).

(** The cells to the right of column [length q] in the row of [p]. *)
Fixpoint cellsAfter (p q rest : jsstring) : list nat :=
  match rest with
  | [] => []
  | c :: rest' => cell p (q ++ [c]) :: cellsAfter p (q ++ [c]) rest'
  end.

Lemma cell_nil_r (p : jsstring) : cell p [] = length p.
Proof.
  unfold cell. simpl. rewrite <- (length_rev p).
  destruct (rev p); reflexivity.
Qed.

Lemma cell_nil_l (q : jsstring) : cell [] q = length q.
Proof. unfold cell. simpl. apply length_rev. Qed.

Lemma cell_snoc (p q : jsstring) (a b : N) :
  cell (p ++ [a]) (q ++ [b])
  = Nat.min (Nat.min (cell p (q ++ [b]) + 1) (cell (p ++ [a]) q + 1))
            (cell p q + (if N.eqb a b then 0 else 1))%nat.
Proof. unfold cell. rewrite !rev_unit. reflexivity. Qed.

Lemma fill_row_cells (ch : N) (p rest q : jsstring) :
  fill_row ch rest (cellsAfter p q rest) (cell p q) (cell (p ++ [ch]) q)
  = cellsAfter (p ++ [ch]) q rest.
Proof.
  revert q. induction rest as [|c rest IH]; intros q; [reflexivity|].
  cbn [cellsAfter fill_row]. rewrite <- cell_snoc. f_equal. apply IH.
Qed.

Lemma next_row_cells (str2 p : jsstring) (ch : N) :
  next_row str2 (cell p [] :: cellsAfter p [] str2) ch
  = cell (p ++ [ch]) [] :: cellsAfter (p ++ [ch]) [] str2.
Proof.
  assert (S (cell p []) = cell (p ++ [ch]) []) as E
      by (rewrite !cell_nil_r, length_app, Nat.add_1_r; reflexivity).
  unfold next_row. rewrite E. f_equal. apply fill_row_cells.
Qed.

Lemma rows_cells (str2 s p : jsstring) :
  fold_left (next_row str2) s (cell p [] :: cellsAfter p [] str2)
  = cell (p ++ s) [] :: cellsAfter (p ++ s) [] str2.
Proof.
  revert p. induction s as [|ch s IH]; intros p; cbn [fold_left].
  - now rewrite app_nil_r.
  - rewrite next_row_cells, IH, <- app_assoc. reflexivity.
Qed.

Lemma first_row (q rest : jsstring) :
  cellsAfter [] q rest = List.seq (S (length q)) (length rest).
Proof.
  revert q. induction rest as [|c rest IH]; intros q; [reflexivity|].
  cbn [cellsAfter length List.seq]. rewrite cell_nil_l, IH, length_app, Nat.add_1_r.
  reflexivity.
Qed.

Lemma last_cell (p q rest : jsstring) :
  last (cell p q :: cellsAfter p q rest) 0%nat = cell p (q ++ rest).
Proof.
  revert q. induction rest as [|c rest IH]; intros q.
  - now rewrite app_nil_r.
  - cbn [cellsAfter]. specialize (IH (q ++ [c])).
    rewrite <- app_assoc in IH. simpl in IH. rewrite <- IH. reflexivity.
Qed.

Lemma levenshteinDistance_cell (str1 str2 : jsstring) :
  levenshteinDistance str1 str2 = cell str1 str2.
Proof.
  unfold levenshteinDistance.
  change (List.seq 0 (S (length str2)))
    with (cell [] [] :: List.seq (S (length (@nil N))) (length str2)).
  rewrite <- (first_row [] str2).
  rewrite (rows_cells str2 str1 []). apply (last_cell str1 [] str2).
Qed.

Lemma edit_nil_r (s : jsstring) : edit s [] = length s.
Proof. destruct s; reflexivity. Qed.

Lemma edit_cons (a b : N) (s t : jsstring) :
  edit (a :: s) (b :: t)
  = Nat.min (Nat.min (edit s (b :: t) + 1) (edit (a :: s) t + 1))
            (edit s t + (if N.eqb a b then 0 else 1))%nat.
Proof. reflexivity. Qed.

Lemma edit_zero (s t : jsstring) : edit s t = 0%nat <-> s = t.
Proof.
  revert t. induction s as [|a s IH]; intros [|b t].
  - simpl. tauto.
  - simpl. split; discriminate.
  - simpl. split; discriminate.
  - rewrite edit_cons. specialize (IH t).
    destruct (N.eqb_spec a b) as [->|Hab]; split.
    + intros H. f_equal. apply IH. lia.
    + intros H. injection H as H. apply IH in H. lia.
    + intros H. lia.
    + intros H. injection H as H _. contradiction.
Qed.

Lemma edit_sym (s t : jsstring) : edit s t = edit t s.
Proof.
  revert t. induction s as [|a s IHs]; intros t.
  - simpl. now rewrite edit_nil_r.
  - induction t as [|b t IHt]; [reflexivity|].
    rewrite !edit_cons, IHt, (IHs (b :: t)), (IHs t), (N.eqb_sym a b). lia.
Qed.

Lemma edit_bounds (s t : jsstring) :
  (length s - length t <= edit s t /\ length t - length s <= edit s t
   /\ edit s t <= Nat.max (length s) (length t))%nat.
Proof.
  revert t. induction s as [|a s IHs]; intros t.
  - simpl. lia.
  - induction t as [|b t IHt]; [simpl; lia|].
    rewrite edit_cons. specialize (IHs (b :: t)) as H1. specialize (IHs t) as H2.
    cbn [length] in *. destruct (N.eqb a b); lia.
Qed.

(** X1.  [levenshteinDistance] fills its table by the Levenshtein
    recurrence: against the empty string the distance is the length of the
    other string, and the distance of two strings that end in [a] and [b] is
    the least of a deletion, an insertion and a substitution, which is free
    when [a] and [b] are the same code unit. *)
Theorem levenshteinDistance_recurrence :
  (forall str2, levenshteinDistance [] str2 = length str2) /\
  (forall str1, levenshteinDistance str1 [] = length str1) /\
  (forall str1 str2 a b,
     levenshteinDistance (str1 ++ [a]) (str2 ++ [b])
     = Nat.min (Nat.min (levenshteinDistance str1 (str2 ++ [b]) + 1)
                        (levenshteinDistance (str1 ++ [a]) str2 + 1))
               (levenshteinDistance str1 str2 + (if N.eqb a b then 0 else 1))%nat).
Proof.
  split; [|split]; intros.
  - rewrite levenshteinDistance_cell. apply cell_nil_l.
  - rewrite levenshteinDistance_cell. apply cell_nil_r.
  - rewrite !levenshteinDistance_cell. apply cell_snoc.
Qed.

(** X2.  The distance [levenshteinDistance] computes is zero exactly for
    equal strings, so the guard [distance > 0] of the typosquatting check
    holds exactly when the domain differs from the brand. *)
Theorem levenshteinDistance_zero_iff (str1 str2 : jsstring) :
  levenshteinDistance str1 str2 = 0%nat <-> str1 = str2.
Proof.
  rewrite levenshteinDistance_cell. unfold cell. rewrite edit_zero.
  split; [|now intros ->].
  intros H. apply (f_equal (@rev N)) in H. now rewrite !rev_involutive in H.
Qed.

(** X3.  [levenshteinDistance] is symmetric in its two arguments. *)
Theorem levenshteinDistance_symmetric (str1 str2 : jsstring) :
  levenshteinDistance str1 str2 = levenshteinDistance str2 str1.
Proof. rewrite !levenshteinDistance_cell. apply edit_sym. Qed.

(** X4.  [levenshteinDistance] lies between the difference of the two
    lengths and the greater length. *)
Theorem levenshteinDistance_bounds (str1 str2 : jsstring) :
  (length str1 - length str2 <= levenshteinDistance str1 str2
   /\ length str2 - length str1 <= levenshteinDistance str1 str2
   /\ levenshteinDistance str1 str2 <= Nat.max (length str1) (length str2))%nat.
Proof.
  rewrite levenshteinDistance_cell. unfold cell.
  pose proof (edit_bounds (rev str1) (rev str2)) as H.
  now rewrite !length_rev in H.
Qed.

Lemma edit_triangle (s t u : jsstring) : (edit s u <= edit s t + edit t u)%nat.
Proof.
  remember (length s + length t + length u)%nat as n eqn:En.
  assert (length s + length t + length u <= n)%nat as Hn by lia. clear En.
  revert s t u Hn. induction n as [|n IH]; intros s t u Hn.
  - destruct s, t, u; simpl in *; lia.
  - destruct s as [|a s].
    + pose proof (edit_bounds t u). simpl. lia.
    + destruct u as [|c u].
      * pose proof (edit_bounds (a :: s) t). rewrite (edit_nil_r t), edit_nil_r. lia.
      * destruct t as [|b t].
        { pose proof (edit_bounds (a :: s) (c :: u)). rewrite edit_nil_r.
          cbn [edit length] in *. lia. }
        cbn [length] in Hn.
        assert (edit s (c :: u) <= edit s (b :: t) + edit (b :: t) (c :: u))%nat
          by (apply IH; cbn [length]; lia).
        assert (edit (a :: s) u <= edit (a :: s) (b :: t) + edit (b :: t) u)%nat
          by (apply IH; cbn [length]; lia).
        assert (edit (a :: s) (c :: u) <= edit (a :: s) t + edit t (c :: u))%nat
          by (apply IH; cbn [length]; lia).
        assert (edit (a :: s) u <= edit (a :: s) t + edit t u)%nat
          by (apply IH; cbn [length]; lia).
        assert (edit s (c :: u) <= edit s t + edit t (c :: u))%nat
          by (apply IH; cbn [length]; lia).
        assert (edit s u <= edit s t + edit t u)%nat
          by (apply IH; cbn [length]; lia).
        rewrite (edit_cons a b), (edit_cons b c), (edit_cons a c) in *.
        destruct (N.eqb_spec a b) as [Hab|Hab], (N.eqb_spec b c) as [Hbc|Hbc],
                 (N.eqb_spec a c) as [Hac|Hac]; try lia; congruence.
Qed.

(** X5.  [levenshteinDistance] obeys the triangle inequality: going through
    a third string is never shorter. *)
Theorem levenshteinDistance_triangle (str1 str2 str3 : jsstring) :
  (levenshteinDistance str1 str3
   <= levenshteinDistance str1 str2 + levenshteinDistance str2 str3)%nat.
Proof. rewrite !levenshteinDistance_cell. apply edit_triangle. Qed.

(** ** Points and flags go together *)

(** Before the cap, every flag of an analysis stands for between [lo] and
    [hi] points. *)
Definition perFlag (lo hi : Z) (r : Analysis.t) : Prop :=
  lo * Z.of_nat (length (Analysis.flags r)) <= Analysis.score r
  <= hi * Z.of_nat (length (Analysis.flags r)).

Lemma perFlag_hit lo hi points flag r :
  lo <= points <= hi -> perFlag lo hi r ->
  perFlag lo hi (Analysis.hit points flag r).
Proof.
  unfold perFlag, Analysis.hit. cbn [Analysis.score Analysis.flags].
  rewrite length_app. cbn [length]. nia.
Qed.

Lemma perFlag_check lo hi c points flag r :
  lo <= points <= hi -> perFlag lo hi r ->
  perFlag lo hi (Analysis.check c points flag r).
Proof.
  intros Hp Hr. unfold Analysis.check. destruct c; [|assumption].
  now apply perFlag_hit.
Qed.

Lemma perFlag_capped lo hi r :
  0 <= lo -> perFlag lo hi r ->
  Z.min 100 (lo * Z.of_nat (length (Analysis.flags (Analysis.capped r))))
  <= Analysis.score (Analysis.capped r)
  <= hi * Z.of_nat (length (Analysis.flags (Analysis.capped r))).
Proof.
  unfold perFlag, Analysis.capped. cbn [Analysis.score Analysis.flags]. lia.
Qed.

Section Accounting.
Context {P : Platform}.

Lemma analyzeSender_perFlag (senderEmail displayName : option jsstring) :
  let r := analyzeSender senderEmail displayName in
  let n := Z.of_nat (length (Analysis.flags r)) in
  Z.min 100 (10 * n) <= Analysis.score r <= 35 * n.
Proof.
  cbv zeta. unfold analyzeSender.
  destruct (truthy senderEmail) as [email|]; [|simpl; lia].
  destruct (truthy (nth_error _ 1)) as [domain|]; [|simpl; lia].
  apply perFlag_capped; [lia|].
  repeat (apply perFlag_check; [lia|]).
  destruct (truthy displayName) as [name|].
  - destruct (Array_includes freeProviders domain);
      repeat (apply perFlag_check; [lia|]); unfold perFlag; simpl; lia.
  - unfold perFlag; simpl; lia.
Qed.

Lemma analyzeURL_perFlag (url : option jsstring) :
  let r := analyzeURL url in
  let n := Z.of_nat (length (Analysis.flags r)) in
  Analysis.score r <= 50 * n /\
  (r = {| Analysis.score := 0;
          Analysis.flags := [utf16 "Verified trusted domain"] |}
   \/ Z.min 100 (10 * n) <= Analysis.score r).
Proof.
  cbv zeta. unfold analyzeURL.
  destruct url as [[|c url]|]; try (simpl; split; [lia | right; lia]).
  destruct (getDomain (c :: url)) as [[|d domain]|];
    try (simpl; split; [lia | right; lia]).
  destruct (_isTrustedDomain (d :: domain)); [split; [simpl; lia | left; reflexivity]|].
  match goal with |- context [Analysis.capped ?r] => assert (perFlag 10 40 r) as H end.
  { repeat (apply perFlag_check; [lia|]).
    destruct (_checkTyposquatting (d :: domain));
      [apply perFlag_hit; [lia|]|];
      repeat (apply perFlag_check; [lia|]); unfold perFlag; simpl; lia. }
  apply perFlag_capped in H; [|lia]. split; [lia | right; lia].
Qed.

(** X6.  In [analyzeSender] a flag and its points always come together:
    the score is at least 10 per flag, up to the cap of 100, and at most 35
    per flag.  So the sender score is 0 exactly when no flag was raised. *)
Theorem analyzeSender_points_per_flag (senderEmail displayName : option jsstring) :
  let r := analyzeSender senderEmail displayName in
  let n := Z.of_nat (length (Analysis.flags r)) in
  Z.min 100 (10 * n) <= Analysis.score r <= 35 * n /\
  (Analysis.score r = 0 <-> Analysis.flags r = []).
Proof.
  cbv zeta. pose proof (analyzeSender_perFlag senderEmail displayName) as H.
  cbv zeta in H. split; [exact H|].
  destruct (Analysis.flags (analyzeSender senderEmail displayName)) as [|f fs];
    cbn [length] in H; split; intros E; try discriminate; try reflexivity; lia.
Qed.

(** X7.  In [analyzeURL] no point is scored without a flag: the score is at
    most 50 per flag.  Apart from the result for a trusted domain, which
    carries a flag and no points, it is also at least 10 per flag, up to the
    cap of 100; so a URL without points is either trusted or unflagged. *)
Theorem analyzeURL_points_per_flag (url : option jsstring) :
  let r := analyzeURL url in
  let n := Z.of_nat (length (Analysis.flags r)) in
  Analysis.score r <= 50 * n /\
  (r = {| Analysis.score := 0;
          Analysis.flags := [utf16 "Verified trusted domain"] |}
   \/ Z.min 100 (10 * n) <= Analysis.score r) /\
  (Analysis.score r = 0 ->
   Analysis.flags r = [] \/ Analysis.flags r = [utf16 "Verified trusted domain"]).
Proof.
  cbv zeta. destruct (analyzeURL_perFlag url) as [Hhi Hlo].
  split; [exact Hhi|]. split; [exact Hlo|]. intros E.
  destruct Hlo as [->|Hlo]; [right; reflexivity|left].
  destruct (Analysis.flags (analyzeURL url)) as [|f fs]; [reflexivity|].
  cbn [length] in Hlo. lia.
Qed.

(** A report without flags has no points. *)
Lemma analyzeAllURLs_unflagged (urls : option (list jsstring)) :
  UrlReport.flags (analyzeAllURLs urls) = [] ->
  UrlReport.score (analyzeAllURLs urls) = 0.
Proof.
  destruct urls as [[|u urls]|]; try reflexivity.
  unfold analyzeAllURLs.
  assert (0 <= 0) as H0 by lia. rewrite (fold_visit (u :: urls) [] [] H0).
  cbn [UrlReport.score UrlReport.flags]. rewrite !app_nil_l.
  generalize (u :: urls). intros urlList Hf.
  assert (forall v, In v urlList -> scoreOfURL v = 0) as Hz.
  { intros v Hv. unfold scoreOfURL.
    destruct (analyzeURL_perFlag (Some v)) as [Hhi _].
    pose proof (analyzeURL_inRange (Some v)) as [Hlo _].
    assert (flagsOfURL v = []) as Hv0.
    { destruct (flagsOfURL v) as [|f fs] eqn:E; [reflexivity|exfalso].
      assert (In f (Set_values (flat_map flagsOfURL urlList))) as Hin.
      { apply Set_values_spec, in_flat_map. exists v. split; [exact Hv|].
        rewrite E. now left. }
      rewrite Hf in Hin. exact Hin. }
    unfold flagsOfURL in Hv0. rewrite Hv0 in Hhi. cbn [length] in Hhi. lia. }
  clear Hf. induction urlList as [|v vs IH]; [reflexivity|].
  cbn [map fold_right]. rewrite (Hz v) by now left.
  assert (Z.max 0 (fold_right Z.max 0 (map scoreOfURL vs)) = 0) as E
      by (apply IH; intros x Hx; apply Hz; now right).
  lia.
Qed.

End Accounting.

Definition textPerFlag (lo hi : Z) (r : TextAnalysis.t) : Prop :=
  lo * Z.of_nat (length (TextAnalysis.flags r)) <= TextAnalysis.score r
  <= hi * Z.of_nat (length (TextAnalysis.flags r)).

Lemma textPerFlag_check lo hi (c : bool) points flag r :
  (c = true -> lo <= points <= hi) -> textPerFlag lo hi r ->
  textPerFlag lo hi (TextAnalysis.check c points flag r).
Proof.
  intros Hp Hr. unfold TextAnalysis.check. destruct c; [|assumption].
  specialize (Hp eq_refl). revert Hr.
  unfold textPerFlag, TextAnalysis.hit.
  cbn [TextAnalysis.score TextAnalysis.flags]. rewrite length_app. cbn [length]. nia.
Qed.

Lemma textPerFlag_keywordCheck lo hi matches each cap flag r :
  0 <= each -> lo <= each -> lo <= cap <= hi -> textPerFlag lo hi r ->
  textPerFlag lo hi (keywordCheck matches each cap flag r).
Proof.
  intros H0 He Hc Hr. unfold keywordCheck. apply textPerFlag_check; [|assumption].
  intros Hm. apply Nat.ltb_lt in Hm.
  assert (each <= Z.of_nat (length matches) * each) by nia. lia.
Qed.

Section TextAccounting.
Context {P : Platform} {X : Extensions}.
Variable phishingModel : option LayersModel.

Lemma analyzeText_perFlag (body subject senderDomain : jsstring) :
  let r := analyzeText phishingModel body subject senderDomain in
  let n := Z.of_nat (length (TextAnalysis.flags r)) in
  Z.min 100 (8 * n) <= TextAnalysis.score r <= 30 * n.
Proof.
  cbv zeta. unfold analyzeText.
  destruct (trim _); [simpl; lia|].
  rewrite nlp_never_fires. cbv zeta.
  cbn [TextAnalysis.score TextAnalysis.flags].
  match goal with |- context [Z.min (TextAnalysis.score ?r) 100] =>
    assert (textPerFlag 8 30 r) as H end.
  { destruct (_findKeywordMatches _ BRAND_KEYWORDS); [|destruct senderDomain];
      repeat first [ apply textPerFlag_check; [intros _; lia|]
                   | apply textPerFlag_keywordCheck; [lia|lia|lia|] ];
      unfold textPerFlag; simpl; lia. }
  unfold textPerFlag in H. lia.
Qed.

(** X8.  In [analyzeText] every flag stands for between 8 and 30 points:
    the text score is at least 8 per flag, up to the cap of 100, and at most
    30 per flag.  So the text score is 0 exactly when no check fired. *)
Theorem analyzeText_points_per_flag (body subject senderDomain : jsstring) :
  let r := analyzeText phishingModel body subject senderDomain in
  let n := Z.of_nat (length (TextAnalysis.flags r)) in
  Z.min 100 (8 * n) <= TextAnalysis.score r <= 30 * n /\
  (TextAnalysis.score r = 0 <-> TextAnalysis.flags r = []).
Proof.
  cbv zeta. pose proof (analyzeText_perFlag body subject senderDomain) as H.
  cbv zeta in H. split; [exact H|].
  destruct (TextAnalysis.flags (analyzeText phishingModel body subject senderDomain))
    as [|f fs]; cbn [length] in H; split; intros E;
    try discriminate; try reflexivity; lia.
Qed.

End TextAccounting.

(** ** A scan that raises no flag *)

Definition safeSummary : jsstring := utf16 "✅ SAFE: No scam indicators detected.".

Definition quietEmail : EmailData.t := {|
  EmailData.body := utf16 "Lunch on Friday at noon? I will book a table for four.";
  EmailData.subject := Some (utf16 "Lunch");
  EmailData.sender := Some (utf16 "maria@example.org");
  EmailData.displayName := Some (utf16 "Maria");
  EmailData.urls := Some [utf16 "https://example.org/menu"];
  EmailData.tenantId := None
|}.

(** X9.  When neither the text, nor a URL, nor the sender raised a flag,
    [analyze] under the repository's configuration reports the score 0, the
    level Safe in green, the SAFE summary and no detail. *)
Theorem unflagged_scan_is_safe (P : Platform) (X : Extensions)
        (phishingModel : option LayersModel)
        (emailData : EmailData.t) (w : Effect.World) :
  repositoryConfiguration X ->
  let r := Effect.run (analyze phishingModel emailData) w in
  ScanResult.textFlags (ScanResult.details r) = [] ->
  ScanResult.urlFlags (ScanResult.details r) = [] ->
  ScanResult.senderFlags (ScanResult.details r) = [] ->
  ScanResult.score r = 0 /\
  ScanResult.riskLevel r = utf16 "Safe" /\
  ScanResult.color r = utf16 "#22c55e" /\
  Explanation.summary (ScanResult.explanation r) = safeSummary /\
  Explanation.details (ScanResult.explanation r) = [].
Proof.
  intros Hconf r Ht Hu Hs.
  change (TextAnalysis.flags (textResultOf phishingModel emailData) = []) in Ht.
  change (UrlReport.flags (urlResultOf emailData) = []) in Hu.
  change (Analysis.flags (senderResultOf emailData) = []) in Hs.
  assert (ScanResult.score r = 0) as Hscore.
  { unfold r. rewrite analyze_score, (finalScoreOf_default _ _ _ _ Hconf).
    pose proof (analyzeText_perFlag phishingModel (EmailData.body emailData)
      (match truthy (EmailData.subject emailData) with
       | Some subject => subject | None => [] end)
      (match truthy (EmailData.sender emailData) with
       | Some sender =>
         match nth_error (split 64 sender) 1 with
         | Some domain => domain | None => [] end
       | None => [] end)) as Htext.
    cbv zeta in Htext. fold (textResultOf phishingModel emailData) in Htext.
    rewrite Ht in Htext. cbn [length] in Htext.
    pose proof (analyzeSender_perFlag (EmailData.sender emailData)
                  (EmailData.displayName emailData)) as Hsender.
    cbv zeta in Hsender. fold (senderResultOf emailData) in Hsender.
    rewrite Hs in Hsender. cbn [length] in Hsender.
    pose proof (analyzeAllURLs_unflagged (EmailData.urls emailData) Hu) as Hurl.
    fold (urlResultOf emailData) in Hurl.
    replace (TextAnalysis.score (textResultOf phishingModel emailData)) with 0 by lia.
    replace (Analysis.score (senderResultOf emailData)) with 0 by lia.
    rewrite Hurl. vm_compute. reflexivity. }
  split; [exact Hscore|].
  assert (ScanResult.riskLevel r = label (fst (formatRiskResult (ScanResult.score r)))
          /\ ScanResult.color r = color (fst (formatRiskResult (ScanResult.score r))))
    as [Hl Hc] by (split; reflexivity).
  rewrite Hl, Hc, Hscore.
  split; [reflexivity|]. split; [reflexivity|].
  assert (ScanResult.explanation r
          = _generateExplanation (textResultOf phishingModel emailData)
              (urlResultOf emailData) (senderResultOf emailData)
              (categoryOf phishingModel emailData)) as He by reflexivity.
  rewrite He. unfold _generateExplanation, safeSummary. rewrite Ht, Hu, Hs.
  split; reflexivity.
Qed.

Lemma unflagged_scan_is_safe_witness :
  let r := Effect.run (@analyze Reference.platform runner None quietEmail)
                      (Reference.world 1700000000000) in
  ScanResult.score r = 0 /\
  ScanResult.riskLevel r = utf16 "Safe" /\
  ScanResult.color r = utf16 "#22c55e" /\
  Explanation.summary (ScanResult.explanation r) = safeSummary /\
  Explanation.details (ScanResult.explanation r) = [].
Proof.
  apply (@unflagged_scan_is_safe Reference.platform runner None quietEmail
           (Reference.world 1700000000000) runner_repositoryConfiguration);
    vm_compute; reflexivity.
Defined.

(** ** Risk bands, badge and popup *)

Lemma formatRiskResult_cases (score : Z) :
  (score <= 29 /\ fst (formatRiskResult score) = RISK_LEVELS.SAFE) \/
  (30 <= score <= 69 /\ fst (formatRiskResult score) = RISK_LEVELS.CAUTION) \/
  (70 <= score /\ fst (formatRiskResult score) = RISK_LEVELS.DANGER).
Proof.
  unfold formatRiskResult.
  change (max RISK_LEVELS.SAFE) with 29. change (max RISK_LEVELS.CAUTION) with 69.
  destruct (Z.leb_spec score 29); [left; split; [lia|reflexivity]|].
  destruct (Z.leb_spec score 69); [right; left|right; right];
    (split; [lia|reflexivity]).
Qed.

(** X10.  [formatRiskResult] puts every integer score from 0 to 100 in the
    band that contains it, returns the score unchanged, and never gives a
    higher score a lower band. *)
Theorem formatRiskResult_band (score score' : Z) :
  inRange score -> score <= score' ->
  let level := fst (formatRiskResult score) in
  min level <= score <= max level /\
  snd (formatRiskResult score) = score /\
  min level <= min (fst (formatRiskResult score')).
Proof.
  intros [Hlo Hhi] Hle level. unfold level.
  assert (snd (formatRiskResult score) = score) as Hs
      by (unfold formatRiskResult;
          destruct (score <=? max RISK_LEVELS.SAFE);
          [|destruct (score <=? max RISK_LEVELS.CAUTION)]; reflexivity).
  destruct (formatRiskResult_cases score) as [[H ->]|[[H ->]|[H ->]]];
    destruct (formatRiskResult_cases score') as [[H' ->]|[[H' ->]|[H' ->]]];
    cbn [min max RISK_LEVELS.SAFE RISK_LEVELS.CAUTION RISK_LEVELS.DANGER];
    repeat split; try exact Hs; lia.
Qed.

Lemma formatRiskResult_band_witness :
  let level := fst (formatRiskResult 42) in
  min level <= 42 <= max level /\
  snd (formatRiskResult 42) = 42 /\
  min level <= min (fst (formatRiskResult 85)).
Proof.
  apply (@formatRiskResult_band 42 85); [unfold inRange; lia | lia].
Defined.

Section Verdict.
Context {P : Platform} {X : Extensions}.
Variable phishingModel : option LayersModel.

Lemma analyze_riskLevel emailData w :
  let r := Effect.run (analyze phishingModel emailData) w in
  ScanResult.riskLevel r = label (fst (formatRiskResult (ScanResult.score r))) /\
  ScanResult.color r = color (fst (formatRiskResult (ScanResult.score r))).
Proof. split; reflexivity. Qed.

(** The weighted sum of the message is a finite Number: its final score is
    then the integer [Math.round] returns, neither [NaN] nor an infinity. *)
Definition finiteScore (emailData : EmailData.t) : Prop :=
  is_finite (weightedScoreOf (EmailData.tenantId emailData)
               (TextAnalysis.score (textResultOf phishingModel emailData))
               (UrlReport.score (urlResultOf emailData))
               (Analysis.score (senderResultOf emailData))) = true.

(** It is, whatever the message, when the calibration keeps normalised
    scores between 0 and 1 and the weights are not negative and do not
    overflow, as under the configuration the repository runs with. *)
Lemma finiteScore_bounded (emailData : EmailData.t) :
  nonnegativeWeights X -> unitCalibration X -> finiteWeights X ->
  finiteScore emailData.
Proof.
  intros Hnn Hunit Hfin. unfold finiteScore.
  apply weightedScoreOf_finite; try assumption;
    [apply analyzeText_inRange | apply analyzeAllURLs_inRange
     | apply analyzeSender_inRange].
Qed.

(** X11.  When the weighted sum of the message is a finite Number, the level
    [analyze] reports is read off the final score alone: High Risk exactly
    from 70, Caution exactly from 30 to 69, Safe exactly up to 29. *)
Theorem riskLevel_follows_score (emailData : EmailData.t) (w : Effect.World) :
  finiteScore emailData ->
  let r := Effect.run (analyze phishingModel emailData) w in
  (ScanResult.riskLevel r = utf16 "High Risk" <-> 70 <= ScanResult.score r) /\
  (ScanResult.riskLevel r = utf16 "Caution" <-> 30 <= ScanResult.score r <= 69) /\
  (ScanResult.riskLevel r = utf16 "Safe" <-> ScanResult.score r <= 29).
Proof.
  intros _. cbv zeta. destruct (analyze_riskLevel emailData w) as [-> _].
  destruct (formatRiskResult_cases
              (ScanResult.score (Effect.run (analyze phishingModel emailData) w)))
    as [[H ->]|[[H ->]|[H ->]]];
    cbn [label RISK_LEVELS.SAFE RISK_LEVELS.CAUTION RISK_LEVELS.DANGER];
    (split; [|split]);
    (split; intros E;
     [first [lia | vm_compute in E; discriminate] | first [reflexivity | lia]]).
Qed.

(** X12.  When the weighted sum of the message is a finite Number, the
    toolbar badge and the popup colour the result of [analyze] as the engine
    did: for a tab with an identifier, [handleScanComplete] sets the
    background colour the result carries, with the mark [!] exactly for High
    Risk, and [loadLastScan] picks that colour too. *)
Theorem badge_matches_risk_level (emailData : EmailData.t) (w : Effect.World)
        (tabId : Z) :
  finiteScore emailData -> tabId <> 0 ->
  let r := Effect.run (analyze phishingModel emailData) w in
  exists badge,
    Background.handleScanComplete r (Some {| Background.id := Some tabId |})
    = Some badge /\
    Background.tabId badge = tabId /\
    Background.backgroundColor badge = ScanResult.color r /\
    (Background.text badge = utf16 "!"
     <-> ScanResult.riskLevel r = utf16 "High Risk") /\
    Popup.scoreColor r = ScanResult.color r.
Proof.
  intros _ Hid. cbv zeta. destruct (analyze_riskLevel emailData w) as [-> ->].
  unfold Background.handleScanComplete, Popup.scoreColor.
  cbn [Background.id].
  destruct tabId as [|tabId|tabId]; [congruence| |];
  (destruct (formatRiskResult_cases
              (ScanResult.score (Effect.run (analyze phishingModel emailData) w)))
    as [[H ->]|[[H ->]|[H ->]]];
    cbn [label color RISK_LEVELS.SAFE RISK_LEVELS.CAUTION RISK_LEVELS.DANGER];
    [ rewrite (proj2 (Z.leb_gt _ _)) by lia; rewrite (proj2 (Z.leb_gt _ _)) by lia
    | rewrite (proj2 (Z.leb_gt _ _)) by lia; rewrite (proj2 (Z.leb_le _ _)) by lia
    | rewrite (proj2 (Z.leb_le _ _)) by lia ];
    eexists; (split; [reflexivity|]);
    cbn [Background.tabId Background.backgroundColor Background.text];
    (split; [reflexivity|]); (split; [reflexivity|]); (split; [|reflexivity]);
    (split; intros E; first [reflexivity | vm_compute in E; discriminate])).
Qed.

End Verdict.

Lemma riskLevel_follows_score_witness :
  @finiteScore Reference.platform runner None sampleEmail /\
  let r := Effect.run (@analyze Reference.platform runner None sampleEmail)
                      (Reference.world 1700000000000) in
  (ScanResult.riskLevel r = utf16 "High Risk" <-> 70 <= ScanResult.score r) /\
  (ScanResult.riskLevel r = utf16 "Caution" <-> 30 <= ScanResult.score r <= 69) /\
  (ScanResult.riskLevel r = utf16 "Safe" <-> ScanResult.score r <= 29).
Proof.
  split; [vm_compute; reflexivity|].
  apply (@riskLevel_follows_score Reference.platform runner None sampleEmail
           (Reference.world 1700000000000)).
  vm_compute. reflexivity.
Defined.

Lemma badge_matches_risk_level_witness :
  @finiteScore Reference.platform runner None sampleEmail /\
  let r := Effect.run (@analyze Reference.platform runner None sampleEmail)
                      (Reference.world 1700000000000) in
  exists badge,
    Background.handleScanComplete r (Some {| Background.id := Some 7 |})
    = Some badge /\
    Background.tabId badge = 7 /\
    Background.backgroundColor badge = ScanResult.color r /\
    (Background.text badge = utf16 "!"
     <-> ScanResult.riskLevel r = utf16 "High Risk") /\
    Popup.scoreColor r = ScanResult.color r.
Proof.
  split; [vm_compute; reflexivity|].
  apply (@badge_matches_risk_level Reference.platform runner None sampleEmail
           (Reference.world 1700000000000) 7).
  - vm_compute. reflexivity.
  - discriminate.
Defined.

Import Storage.

(** ** Stored results *)

(** [data.scanHistory || []] and [data.stats || { ... }], with the
    self-healing of [categoryCounts] applied. *)
Definition historyOf (data : Storage.t) : list ScanResult.t :=
  match scanHistory data with Some h => h | None => [] end.

Definition statsOf (data : Storage.t) : Stats :=
  match stats data with
  | Some s => s
  | None => {| totalScans := 0; scamsDetected := 0; safeEmails := 0;
               categoryCounts := Some []; installDate := None |}
  end.

Definition countsOf (data : Storage.t) : list (jsstring * Z) :=
  match categoryCounts (statsOf data) with Some c => c | None => [] end.

(** [counts[key] || 0] *)
Fixpoint countOf (key : jsstring) (counts : list (jsstring * Z)) : Z :=
  match counts with
  | [] => 0
  | (k, n) :: counts' => if eqb k key then n else countOf key counts'
  end.

(** One call of [saveResultToStorage] reads the clock once. *)
Lemma saveResultToStorage_run result data w :
  Effect.run (Background.saveResultToStorage result data) w
  = fst (Background.saveResultToStorage result data w 0%nat).
Proof. reflexivity. Qed.

Lemma removelast_cons_firstn {A : Type} (x : A) (l : list A) :
  removelast (x :: l) = firstn (length l) (x :: l).
Proof.
  rewrite removelast_firstn_len. reflexivity.
Qed.

(** X13.  [saveResultToStorage] puts the result, stamped with the time of
    saving, in front of the history and keeps the 100 most recent entries:
    a history of at most 100 entries stays so. *)
Theorem saved_history_is_recent (result : ScanResult.t) (data : Storage.t)
        (w : Effect.World) :
  (length (historyOf data) <= 100)%nat ->
  let data' := Effect.run (Background.saveResultToStorage result data) w in
  scanHistory data'
  = Some (firstn 100 (Background.stamped result (Effect.clock_ms (w 0%nat))
                      :: historyOf data)) /\
  (length (historyOf data') <= 100)%nat /\
  hd_error (historyOf data')
  = Some (Background.stamped result (Effect.clock_ms (w 0%nat))).
Proof.
  intros Hlen. cbv zeta.
  assert (scanHistory (Effect.run (Background.saveResultToStorage result data) w)
          = Some (firstn 100 (Background.stamped result (Effect.clock_ms (w 0%nat))
                              :: historyOf data))) as E.
  { unfold Background.saveResultToStorage, Effect.run, Effect.bind,
      Effect.Date_now, Effect.observe, Effect.ret. cbn [fst scanHistory].
    fold (historyOf data). f_equal.
    destruct (Nat.ltb_spec 100
                (length (Background.stamped result (Effect.clock_ms (w 0%nat))
                         :: historyOf data))) as [H|H].
    - rewrite removelast_cons_firstn.
      cbn [length] in H. replace (length (historyOf data)) with 100%nat by lia.
      reflexivity.
    - symmetry. apply firstn_all2. exact H. }
  split; [exact E|].
  assert (historyOf (Effect.run (Background.saveResultToStorage result data) w)
          = firstn 100 (Background.stamped result (Effect.clock_ms (w 0%nat))
                        :: historyOf data)) as E'
      by (unfold historyOf at 1; rewrite E; reflexivity).
  rewrite E'. split.
  - rewrite length_firstn. lia.
  - reflexivity.
Qed.

Lemma saved_history_is_recent_witness :
  let result := Effect.run (@analyze Reference.platform runner None sampleEmail)
                           (Reference.world 1700000000000) in
  let w := Reference.world 1700000000500 in
  let data := Background.installed 1600000000000 in
  let data' := Effect.run (Background.saveResultToStorage result data) w in
  scanHistory data'
  = Some (firstn 100 (Background.stamped result (Effect.clock_ms (w 0%nat))
                      :: historyOf data)) /\
  (length (historyOf data') <= 100)%nat /\
  hd_error (historyOf data')
  = Some (Background.stamped result (Effect.clock_ms (w 0%nat))).
Proof.
  apply (@saved_history_is_recent
           (Effect.run (@analyze Reference.platform runner None sampleEmail)
                       (Reference.world 1700000000000))
           (Background.installed 1600000000000)
           (Reference.world 1700000000500)).
  simpl. lia.
Defined.

Section Counting.
Context {P : Platform} {X : Extensions}.
Variable phishingModel : option LayersModel.

(** X14.  When the weighted sum of the message is a finite Number, the
    result of [analyze] is counted among the scams exactly when the engine
    labelled it High Risk, and among the safe e-mails otherwise; either way
    the number of scans grows by one. *)
Theorem scam_count_follows_risk_level (emailData : EmailData.t)
        (w w' : Effect.World) (data : Storage.t) :
  finiteScore phishingModel emailData ->
  let r := Effect.run (analyze phishingModel emailData) w in
  let data' := Effect.run (Background.saveResultToStorage r data) w' in
  totalScans (statsOf data') = totalScans (statsOf data) + 1 /\
  (scamsDetected (statsOf data') = scamsDetected (statsOf data) + 1
   <-> ScanResult.riskLevel r = utf16 "High Risk") /\
  (safeEmails (statsOf data') = safeEmails (statsOf data) + 1
   <-> ScanResult.riskLevel r <> utf16 "High Risk") /\
  scamsDetected (statsOf data') + safeEmails (statsOf data')
  = scamsDetected (statsOf data) + safeEmails (statsOf data) + 1.
Proof.
  intros _. cbv zeta. destruct (analyze_riskLevel phishingModel emailData w) as [-> _].
  set (r := Effect.run (analyze phishingModel emailData) w).
  unfold Background.saveResultToStorage, Effect.run, Effect.bind,
    Effect.Date_now, Effect.observe, Effect.ret.
  cbn [fst stats statsOf totalScans scamsDetected safeEmails].
  fold (statsOf data).
  destruct (formatRiskResult_cases (ScanResult.score r)) as [[H ->]|[[H ->]|[H ->]]];
    cbn [label RISK_LEVELS.SAFE RISK_LEVELS.CAUTION RISK_LEVELS.DANGER];
    [ rewrite (proj2 (Z.leb_gt _ _)) by lia
    | rewrite (proj2 (Z.leb_gt _ _)) by lia
    | rewrite (proj2 (Z.leb_le _ _)) by lia ];
    (split; [reflexivity|]); (split; [|split; [|lia]]);
    (split; intros E;
     first [ lia | reflexivity | vm_compute in E; discriminate
           | intros E'; vm_compute in E'; discriminate
           | exfalso; apply E; reflexivity ]).
Qed.

End Counting.

Lemma scam_count_follows_risk_level_witness :
  @finiteScore Reference.platform runner None sampleEmail /\
  let r := Effect.run (@analyze Reference.platform runner None sampleEmail)
                      (Reference.world 1700000000000) in
  let data := Background.installed 1600000000000 in
  let data' := Effect.run (Background.saveResultToStorage r data)
                          (Reference.world 1700000000500) in
  totalScans (statsOf data') = totalScans (statsOf data) + 1 /\
  (scamsDetected (statsOf data') = scamsDetected (statsOf data) + 1
   <-> ScanResult.riskLevel r = utf16 "High Risk") /\
  (safeEmails (statsOf data') = safeEmails (statsOf data) + 1
   <-> ScanResult.riskLevel r <> utf16 "High Risk") /\
  scamsDetected (statsOf data') + safeEmails (statsOf data')
  = scamsDetected (statsOf data) + safeEmails (statsOf data) + 1.
Proof.
  split; [vm_compute; reflexivity|].
  apply (@scam_count_follows_risk_level Reference.platform runner None sampleEmail
           (Reference.world 1700000000000) (Reference.world 1700000000500)
           (Background.installed 1600000000000)).
  vm_compute. reflexivity.
Defined.

(** Saving several results, one call after the other. *)
Fixpoint saveAll (results : list ScanResult.t) (data : Storage.t)
  : Effect.Eff Storage.t :=
  match results with
  | [] => Effect.ret data
  | result :: results' =>
    data' <- Background.saveResultToStorage result data ;;
    saveAll results' data'
  end.

(** The results as they are stored: the [i]-th stamped with the [i]-th
    reading of the clock, counted from reading [n]. *)
Fixpoint stampAll (results : list ScanResult.t) (w : Effect.World) (n : nat)
  : list ScanResult.t :=
  match results with
  | [] => []
  | result :: results' =>
    Background.stamped result (Effect.clock_ms (w n)) :: stampAll results' w (S n)
  end.

Definition isScam (r : ScanResult.t) : bool := 70 <=? ScanResult.score r.

(** The number of [results] filed under [key]; a result without category is
    filed nowhere. *)
Definition filedUnder (key : jsstring) (results : list ScanResult.t) : Z :=
  match key with
  | [] => 0
  | _ => Z.of_nat (length (filter (fun r => eqb (ScanResult.category r) key) results))
  end.

Lemma countOf_increment (key category : jsstring) (counts : list (jsstring * Z)) :
  countOf key (Background.increment category counts)
  = countOf key counts + (if eqb category key then 1 else 0).
Proof.
  induction counts as [|[k n] counts IH]; cbn [Background.increment countOf].
  - destruct (eqb category key); lia.
  - destruct (eqb k category) eqn:Ekc; cbn [countOf].
    + apply eqb_eq in Ekc. subst k. destruct (eqb category key); lia.
    + destruct (eqb k key) eqn:Ekk; [|exact IH].
      apply eqb_eq in Ekk. subst k.
      destruct (eqb category key) eqn:Eck; [|lia].
      apply eqb_eq in Eck. subst category. rewrite eqb_refl in Ekc. discriminate.
Qed.

Lemma firstn_app_firstn {A : Type} (k : nat) (a b : list A) :
  firstn k (a ++ firstn k b) = firstn k (a ++ b).
Proof. rewrite !firstn_app, firstn_firstn. f_equal. f_equal. lia. Qed.

(** What one call changes. *)
Lemma saveResultToStorage_step (result : ScanResult.t) (data : Storage.t)
      (w : Effect.World) (n : nat) :
  (length (historyOf data) <= 100)%nat ->
  exists data',
    Background.saveResultToStorage result data w n = (data', S n) /\
    historyOf data'
    = firstn 100 (Background.stamped result (Effect.clock_ms (w n)) :: historyOf data) /\
    totalScans (statsOf data') = totalScans (statsOf data) + 1 /\
    scamsDetected (statsOf data')
    = scamsDetected (statsOf data) + (if isScam result then 1 else 0) /\
    safeEmails (statsOf data')
    = safeEmails (statsOf data) + (if isScam result then 0 else 1) /\
    (forall key, countOf key (countsOf data')
                 = countOf key (countsOf data) + filedUnder key [result]) /\
    installDate (statsOf data') = installDate (statsOf data).
Proof.
  intros Hlen. exists (fst (Background.saveResultToStorage result data w n)).
  split; [reflexivity|].
  unfold Background.saveResultToStorage, Effect.bind, Effect.Date_now,
    Effect.observe, Effect.ret.
  cbn [fst historyOf scanHistory statsOf stats countsOf totalScans scamsDetected
       safeEmails categoryCounts installDate].
  fold (historyOf data). fold (statsOf data). fold (countsOf data).
  fold (isScam result). repeat split.
  - destruct (Nat.ltb_spec 100
                (length (Background.stamped result (Effect.clock_ms (w n))
                         :: historyOf data))) as [H|H].
    + rewrite removelast_cons_firstn.
      cbn [length] in H. replace (length (historyOf data)) with 100%nat by lia.
      reflexivity.
    + symmetry. apply firstn_all2. exact H.
  - destruct (isScam result); lia.
  - destruct (isScam result); lia.
  - intros key. unfold filedUnder.
    destruct (ScanResult.category result) as [|c category] eqn:Ec.
    + cbn [filter]. rewrite Ec. destruct key; [lia|]. cbn [eqb length]. lia.
    + rewrite countOf_increment. cbn [filter]. rewrite Ec.
      destruct key as [|k key]; [reflexivity|].
      destruct (eqb (c :: category) (k :: key)); reflexivity.
Qed.

Lemma filedUnder_cons (key : jsstring) (r : ScanResult.t) (rs : list ScanResult.t) :
  filedUnder key (r :: rs) = filedUnder key [r] + filedUnder key rs.
Proof.
  unfold filedUnder. destruct key; [reflexivity|]. cbn [filter].
  destruct (eqb (ScanResult.category r) (n :: key)); cbn [length]; lia.
Qed.

Lemma saveAll_from (results : list ScanResult.t) (data : Storage.t)
      (w : Effect.World) (n : nat) :
  (length (historyOf data) <= 100)%nat ->
  let data' := fst (saveAll results data w n) in
  historyOf data' = firstn 100 (rev (stampAll results w n) ++ historyOf data) /\
  totalScans (statsOf data')
  = totalScans (statsOf data) + Z.of_nat (length results) /\
  scamsDetected (statsOf data')
  = scamsDetected (statsOf data) + Z.of_nat (length (filter isScam results)) /\
  safeEmails (statsOf data')
  = safeEmails (statsOf data)
    + Z.of_nat (length (filter (fun r => negb (isScam r)) results)) /\
  (forall key, countOf key (countsOf data')
               = countOf key (countsOf data) + filedUnder key results) /\
  installDate (statsOf data') = installDate (statsOf data).
Proof.
  revert data n. induction results as [|r results IH]; intros data n Hlen; cbv zeta.
  - cbn [saveAll Effect.ret fst stampAll rev app length filter].
    rewrite firstn_all2 by exact Hlen.
    repeat split; try lia. intros key. unfold filedUnder. destruct key; simpl; lia.
  - destruct (saveResultToStorage_step r data w n Hlen)
      as (data1 & Hrun & Hh & Ht & Hsc & Hsa & Hc & Hi).
    cbn [saveAll]. unfold Effect.bind. rewrite Hrun.
    assert (length (historyOf data1) <= 100)%nat as Hlen1
        by (rewrite Hh, length_firstn; lia).
    specialize (IH data1 (S n) Hlen1). cbv zeta in IH.
    destruct IH as (IHh & IHt & IHsc & IHsa & IHc & IHi).
    rewrite IHh, IHt, IHsc, IHsa, IHi, Hh, Ht, Hsc, Hsa, Hi.
    cbn [stampAll rev length filter]. repeat split.
    + rewrite <- app_assoc. cbn [app]. apply firstn_app_firstn.
    + lia.
    + destruct (isScam r); cbn [length]; lia.
    + destruct (isScam r); cbn [negb length]; lia.
    + intros key. rewrite IHc, Hc, (filedUnder_cons key r results). lia.
Qed.

(** No category [analyze] gives is the name of an inherited member: it is
    the label of an entry of [SCAM_CATEGORIES], or [General]. *)
Lemma analyze_category_own (P : Platform) (X : Extensions)
      (phishingModel : option LayersModel) (emailData : EmailData.t)
      (w : Effect.World) :
  Background.inherited
    (ScanResult.category (Effect.run (analyze phishingModel emailData) w)) = false.
Proof.
  destruct (analyze_category phishingModel emailData w) as [-> _].
  destruct (categoryOf phishingModel emailData) as [c|] eqn:Ec;
    [|vm_compute; reflexivity].
  assert (exists key, In (key, CategoryMatch.cat (CategoryMatch.best c))
                         SCAM_CATEGORIES) as (key & Hin).
  { unfold categoryOf, _detectCategory in Ec.
    destruct (EmailData.body emailData) as [|ch body]; [discriminate|].
    set (lowerText := toLowerCase (ch :: body)) in *.
    assert (bestSoFar lowerText SCAM_CATEGORIES ([] ++ SCAM_CATEGORIES)
              (fold_left (consider lowerText) SCAM_CATEGORIES (None, 0))) as Hbest.
    { apply fold_consider_bestSoFar; [auto|].
      unfold bestSoFar. cbn [fst snd]. repeat split; [lia|]. intros e []. }
    destruct (fold_left (consider lowerText) SCAM_CATEGORIES (None, 0))
      as [[b|] score]; [|discriminate].
    destruct Hbest as (_ & _ & _ & Hmem & _). cbn [fst] in Hmem.
    match type of Ec with
    | (if ?cond then _ else _) = _ => destruct cond; [|discriminate]
    end.
    injection Ec as <-. exact Hmem. }
  assert (forallb (fun e => negb (Background.inherited (cat_label (snd e))))
                  SCAM_CATEGORIES = true) as Hall by (vm_compute; reflexivity).
  rewrite forallb_forall in Hall. specialize (Hall _ Hin).
  now apply negb_true_iff in Hall.
Qed.

(** X15.  After any number of results saved one after the other, none of
    them under a category that is the name of a member every object inherits
    (as no category of [analyze] is), starting from a history of at most 100
    entries: the history holds the 100 most recent entries, newest first,
    each stamped with the time of its saving; the number of scans has grown
    by the number of results, the scams by those scoring 70 or more and the
    safe e-mails by the others; every category's count has grown by the
    number of results filed under it; and the installation date is kept. *)
Theorem saved_results_are_counted (results : list ScanResult.t)
        (data : Storage.t) (w : Effect.World) :
  Forall (fun r => Background.inherited (ScanResult.category r) = false) results ->
  (length (historyOf data) <= 100)%nat ->
  let data' := Effect.run (saveAll results data) w in
  historyOf data' = firstn 100 (rev (stampAll results w 0) ++ historyOf data) /\
  totalScans (statsOf data')
  = totalScans (statsOf data) + Z.of_nat (length results) /\
  scamsDetected (statsOf data')
  = scamsDetected (statsOf data) + Z.of_nat (length (filter isScam results)) /\
  safeEmails (statsOf data')
  = safeEmails (statsOf data)
    + Z.of_nat (length (filter (fun r => negb (isScam r)) results)) /\
  (forall key, countOf key (countsOf data')
               = countOf key (countsOf data) + filedUnder key results) /\
  installDate (statsOf data') = installDate (statsOf data).
Proof. intros _ Hlen. exact (saveAll_from results data w 0 Hlen). Qed.

Lemma saved_results_are_counted_witness :
  let result := Effect.run (@analyze Reference.platform runner None sampleEmail)
                           (Reference.world 1700000000000) in
  let results := [result; result; result] in
  let data := Background.installed 1600000000000 in
  let w := Reference.world 1700000000500 in
  let data' := Effect.run (saveAll results data) w in
  Forall (fun r => Background.inherited (ScanResult.category r) = false) results /\
  historyOf data' = firstn 100 (rev (stampAll results w 0) ++ historyOf data) /\
  totalScans (statsOf data')
  = totalScans (statsOf data) + Z.of_nat (length results) /\
  scamsDetected (statsOf data')
  = scamsDetected (statsOf data) + Z.of_nat (length (filter isScam results)) /\
  safeEmails (statsOf data')
  = safeEmails (statsOf data)
    + Z.of_nat (length (filter (fun r => negb (isScam r)) results)) /\
  (forall key, countOf key (countsOf data')
               = countOf key (countsOf data) + filedUnder key results) /\
  installDate (statsOf data') = installDate (statsOf data).
Proof.
  cbv zeta. split; [repeat constructor; apply analyze_category_own|].
  apply (@saved_results_are_counted
           [Effect.run (@analyze Reference.platform runner None sampleEmail)
                       (Reference.world 1700000000000);
            Effect.run (@analyze Reference.platform runner None sampleEmail)
                       (Reference.world 1700000000000);
            Effect.run (@analyze Reference.platform runner None sampleEmail)
                       (Reference.world 1700000000000)]
           (Background.installed 1600000000000)
           (Reference.world 1700000000500)).
  - repeat constructor; apply analyze_category_own.
  - simpl. lia.
Defined.

(** ** Tips and summary of the explanation *)

Abbreviation hoverTip :=
  (utf16 "Hover over links to check the real domain before clicking.") (only parsing).
Abbreviation mismatchTip :=
  (utf16 "Sender address doesn’t match display name — a common impersonation trick.") (only parsing).
Abbreviation urgencyTip :=
  (utf16 "Scammers often pressure you with urgency. Pause and verify before acting.") (only parsing).
Abbreviation threatTip :=
  (utf16 "Threatening language is a scare tactic. Legitimate organizations don’t threaten arrest or fines via email.") (only parsing).
Abbreviation verifyTip :=
  (utf16 "Always verify unexpected requests through official channels.") (only parsing).
Abbreviation contactTip :=
  (utf16 "When in doubt, contact the organization directly using their official website or phone number.") (only parsing).

Lemma tip_differs (a b : jsstring) : eqb a b = false -> Some a <> Some b.
Proof. intros H E. injection E as E. revert E. now apply differs. Qed.

(** A scanner flag is a plain string: it has no [code]. *)
Lemma hasCode_plain (wanted : string) (flags : list jsstring) :
  existsb (hasCode wanted) (map inr flags) = false.
Proof. induction flags as [|f flags IH]; [reflexivity|exact IH]. Qed.

(** Every key of the category table has a tip of its own. *)
Lemma educationalTipsMap_defined (key : jsstring) :
  In key (map fst SCAM_CATEGORIES) ->
  exists t, educationalTipsMap key = Some t /\
            eqb t hoverTip = false /\ eqb t mismatchTip = false.
Proof.
  intros H. unfold SCAM_CATEGORIES in H. cbn [map fst In] in H.
  repeat (destruct H as [<-|H];
          [eexists; split; [vm_compute; reflexivity|split; vm_compute; reflexivity]|]).
  contradiction.
Qed.

Section Tips.
Context {P : Platform} {X : Extensions}.

(** The tips [_generateExplanation] can give. *)
Inductive tipsShape : list (option jsstring) -> Prop :=
| tips_verify : tipsShape [Some verifyTip]
| tips_contact : tipsShape [Some contactTip]
| tips_category key t :
    In key (map fst SCAM_CATEGORIES) -> educationalTipsMap key = Some t ->
    tipsShape [Some t]
| tips_flags (urgency threat : bool) :
    urgency || threat = true ->
    tipsShape (map Some ((if urgency then [urgencyTip] else [])
                         ++ (if threat then [threatTip] else []))).

Lemma generateExplanation_tips textResult urlResult senderResult category :
  tipsShape (Explanation.educationalTips
               (_generateExplanation textResult urlResult senderResult category)).
Proof.
  unfold _generateExplanation.
  destruct (map inl (TextAnalysis.flags textResult)
            ++ map inr (UrlReport.flags urlResult)
            ++ map inr (Analysis.flags senderResult)) as [|f fs];
    cbn [Explanation.educationalTips]; [apply tips_verify|].
  rewrite !hasCode_plain. unfold tip at 3 4. rewrite !app_nil_r.
  destruct (existsb (hasCode "URGENCY") (map inl (TextAnalysis.flags textResult)))
    eqn:Eu;
  destruct (existsb (hasCode "THREAT") (map inl (TextAnalysis.flags textResult)))
    eqn:Et; unfold tip; cbn [app].
  - apply (tips_flags true true). reflexivity.
  - apply (tips_flags true false). reflexivity.
  - apply (tips_flags false true). reflexivity.
  - destruct category as [c|]; cbn [truthy]; [|apply tips_contact].
    destruct (find _ SCAM_CATEGORIES) as [[key cat]|] eqn:Ef;
      cbn [option_map fst truthy]; [|apply tips_contact].
    apply find_some in Ef as [Hin _].
    assert (In key (map fst SCAM_CATEGORIES)) as Hk
        by (apply in_map_iff; exists (key, cat); split; [reflexivity|exact Hin]).
    destruct (educationalTipsMap_defined Hk) as (t & Ht & _).
    destruct key as [|k key]; [|rewrite Ht; apply (tips_category Hk Ht)].
    exfalso. revert Hk. clear. unfold SCAM_CATEGORIES. cbn [map fst In].
    intros H. repeat (destruct H as [H|H]; [vm_compute in H; discriminate|]).
    exact H.
Qed.

(** X16.  [_generateExplanation] always gives at least one tip, and every
    tip is a text: when no flag tip applies, the key found for the category
    has an entry in the table of tips. *)
Theorem explanation_tips_defined (textResult : TextAnalysis.t)
        (urlResult : UrlReport.t) (senderResult : Analysis.t)
        (category : option CategoryMatch.t) :
  let tips :=
    Explanation.educationalTips
      (_generateExplanation textResult urlResult senderResult category) in
  tips <> [] /\ Forall (fun t => t <> None) tips.
Proof.
  cbv zeta.
  destruct (generateExplanation_tips textResult urlResult senderResult category)
    as [| |key t Hk Ht|[|] [|] H];
    try discriminate H; cbn [map app]; split; try discriminate;
    repeat constructor; discriminate.
Qed.

(** X17.  The tips about hovering over links and about a sender that does
    not match its display name are never given: they wait for a URL or
    sender flag with a [code], and the scanner's flags are plain strings. *)
Theorem link_and_sender_tips_never_given (textResult : TextAnalysis.t)
        (urlResult : UrlReport.t) (senderResult : Analysis.t)
        (category : option CategoryMatch.t) :
  let tips :=
    Explanation.educationalTips
      (_generateExplanation textResult urlResult senderResult category) in
  ~ In (Some hoverTip) tips /\ ~ In (Some mismatchTip) tips.
Proof.
  cbv zeta.
  destruct (generateExplanation_tips textResult urlResult senderResult category)
    as [| |key t Hk Ht|[|] [|] H];
    try discriminate H; cbn [map app In].
  - split; intros [E|[]]; revert E; apply tip_differs;
      vm_compute; reflexivity.
  - split; intros [E|[]]; revert E; apply tip_differs;
      vm_compute; reflexivity.
  - destruct (educationalTipsMap_defined Hk) as (t' & Ht' & Hh & Hm).
    assert (t' = t) as -> by congruence.
    split; intros [E|[]]; revert E; apply tip_differs; assumption.
  - split; intros [E|[E|[]]]; revert E; apply tip_differs;
      vm_compute; reflexivity.
  - split; intros [E|[]]; revert E; apply tip_differs;
      vm_compute; reflexivity.
  - split; intros [E|[]]; revert E; apply tip_differs;
      vm_compute; reflexivity.
Qed.

End Tips.

Section Summary.
Context {P : Platform} {X : Extensions}.

(** X18.  The SAFE summary, and an empty list of details, are given exactly
    when neither the text, nor the URLs, nor the sender raised a flag. *)
Theorem safe_summary_iff_unflagged (textResult : TextAnalysis.t)
        (urlResult : UrlReport.t) (senderResult : Analysis.t)
        (category : option CategoryMatch.t) :
  let e := _generateExplanation textResult urlResult senderResult category in
  let unflagged :=
    TextAnalysis.flags textResult = [] /\ UrlReport.flags urlResult = []
    /\ Analysis.flags senderResult = [] in
  (Explanation.summary e = safeSummary <-> unflagged) /\
  (Explanation.details e = [] <-> unflagged).
Proof.
  cbv zeta. unfold _generateExplanation, safeSummary.
  destruct (map inl (TextAnalysis.flags textResult)
            ++ map inr (UrlReport.flags urlResult)
            ++ map inr (Analysis.flags senderResult)) as [|f fs] eqn:E;
    cbn [Explanation.summary Explanation.details].
  - apply app_eq_nil in E as [Et E]. apply app_eq_nil in E as [Eu Es].
    apply map_eq_nil in Et, Eu, Es. tauto.
  - assert (~ (TextAnalysis.flags textResult = [] /\ UrlReport.flags urlResult = []
               /\ Analysis.flags senderResult = [])) as Hflag
        by (intros (Et & Eu & Es); rewrite Et, Eu, Es in E; discriminate).
    split; (split; [intros H; exfalso|tauto]).
    + destruct (70 <=? _); [destruct (_ && _)|destruct (30 <=? _)];
        revert H; apply differs; vm_compute; reflexivity.
    + discriminate.
Qed.

End Summary.

(** ** Which category wins *)

Lemma SCAM_CATEGORIES_severity key cat :
  In (key, cat) SCAM_CATEGORIES -> severity cat = None.
Proof.
  intros H. unfold SCAM_CATEGORIES in H. cbn [In] in H.
  repeat (destruct H as [H|H]; [injection H as _ <-; reflexivity|]).
  contradiction.
Qed.

Section FirstBest.
Context {P : Platform} {X : Extensions}.

(** What the loop over a table without severities maintains: the best
    category so far is the first of the visited entries with the highest
    match score, and that score is positive. *)
Definition firstBest (lowerText : jsstring) (visited : list (jsstring * Category))
           (acc : option CategoryMatch.best_t * Z) : Prop :=
  match fst acc with
  | None =>
    snd acc = 0 /\
    forall e, In e visited -> matchScoreOf lowerText (snd e) <= 0
  | Some b =>
    0 < snd acc /\
    severity (CategoryMatch.cat b) = None /\
    exists before key after,
      visited = before ++ (key, CategoryMatch.cat b) :: after /\
      (forall e, In e before -> matchScoreOf lowerText (snd e) < snd acc) /\
      matchScoreOf lowerText (CategoryMatch.cat b) = snd acc /\
      (forall e, In e after -> matchScoreOf lowerText (snd e) <= snd acc)
  end.

Lemma consider_firstBest lowerText visited acc entry :
  severity (snd entry) = None ->
  firstBest lowerText visited acc ->
  firstBest lowerText (visited ++ [entry]) (consider lowerText acc entry).
Proof.
  intros Hsev H. destruct acc as [best score]. destruct entry as [key cat].
  unfold consider. cbn [snd fst] in *.
  assert (severityOf cat = 0) as Hs0 by (unfold severityOf; now rewrite Hsev).
  assert ((match best with
           | Some b => severityOf (CategoryMatch.cat b)
           | None => 0
           end <? severityOf cat) = false) as Htie.
  { rewrite Hs0. apply Z.ltb_ge. destruct best as [b|]; [|lia].
    destruct H as (_ & Hb & _). unfold firstBest in Hb. cbn [fst] in Hb.
    unfold severityOf. rewrite Hb. lia. }
  rewrite Htie, andb_false_r, orb_false_r.
  destruct (Z.ltb_spec score (matchScoreOf lowerText cat)) as [Hlt|Hge];
    unfold firstBest in *; cbn [fst snd CategoryMatch.cat] in *.
  - assert (0 <= score /\ forall e, In e visited ->
              matchScoreOf lowerText (snd e) <= score) as [Hpos Hall].
    { destruct best as [b|].
      - destruct H as (Hpos & _ & before & k & after & -> & Hb & Hm & Ha).
        split; [lia|]. intros e He. apply in_app_iff in He as [He|[<-|He]].
        + specialize (Hb e He). lia.
        + cbn [snd]. lia.
        + exact (Ha e He).
      - destruct H as [-> Hall]. split; [lia|exact Hall]. }
    split; [lia|]. split; [exact Hsev|].
    exists visited, key, []. repeat split.
    + intros e He. specialize (Hall e He). lia.
    + intros e [].
  - destruct best as [b|].
    + destruct H as (Hpos & Hb0 & before & k & after & -> & Hb & Hm & Ha).
      split; [exact Hpos|]. split; [exact Hb0|].
      exists before, k, (after ++ [(key, cat)]). repeat split.
      * now rewrite <- app_assoc.
      * exact Hb.
      * exact Hm.
      * intros e He. apply in_app_iff in He as [He|[<-|[]]];
          [exact (Ha e He)|cbn [snd]; lia].
    + destruct H as [-> Hall]. split; [reflexivity|].
      intros e He. apply in_app_iff in He as [He|[<-|[]]];
        [exact (Hall e He)|cbn [snd]; lia].
Qed.

Lemma fold_consider_firstBest lowerText entries visited acc :
  (forall e, In e entries -> severity (snd e) = None) ->
  firstBest lowerText visited acc ->
  firstBest lowerText (visited ++ entries)
            (fold_left (consider lowerText) entries acc).
Proof.
  revert visited acc. induction entries as [|e entries IH]; intros visited acc Hsev H.
  - now rewrite app_nil_r.
  - simpl. replace (visited ++ e :: entries) with ((visited ++ [e]) ++ entries)
      by (now rewrite <- app_assoc).
    apply IH.
    + intros e' He'. apply Hsev. now right.
    + apply consider_firstBest; [apply Hsev; now left | assumption].
Qed.

(** X19.  Among the categories of the table, [_detectCategory] picks the
    first one, in the table's order, whose match score is the highest: every
    entry before it scores strictly less and no entry after it scores more.
    A category without a single matching keyword is never returned, and no
    severity boost ever comes with the category, the table having no
    severities. *)
Theorem first_best_category_wins (text : jsstring) (textResult : TextAnalysis.t)
        (urlResult : UrlReport.t) (senderResult : Analysis.t)
        (c : CategoryMatch.t) :
  _detectCategory text textResult urlResult senderResult = Some c ->
  let best := CategoryMatch.best c in
  (exists before key after,
     SCAM_CATEGORIES = before ++ (key, CategoryMatch.cat best) :: after /\
     (forall e, In e before ->
        matchScoreOf (toLowerCase text) (snd e) < CategoryMatch.matchScore best) /\
     (forall e, In e after ->
        matchScoreOf (toLowerCase text) (snd e) <= CategoryMatch.matchScore best)) /\
  1 <= CategoryMatch.matchScore best /\
  severityBoost (Some c) = 0.
Proof.
  intros H. cbv zeta. unfold _detectCategory in H.
  destruct text as [|t text]; [discriminate|].
  set (lowerText := toLowerCase (t :: text)) in *.
  assert (firstBest lowerText ([] ++ SCAM_CATEGORIES)
            (fold_left (consider lowerText) SCAM_CATEGORIES (None, 0))) as Hinv.
  { apply fold_consider_firstBest.
    - intros [key cat] He. exact (SCAM_CATEGORIES_severity He).
    - unfold firstBest. cbn [fst snd]. split; [reflexivity|]. intros e []. }
  assert (bestSoFar lowerText SCAM_CATEGORIES ([] ++ SCAM_CATEGORIES)
            (fold_left (consider lowerText) SCAM_CATEGORIES (None, 0))) as Hinv'.
  { apply fold_consider_bestSoFar; [auto|].
    unfold bestSoFar. cbn [fst snd]. repeat split; [lia|]. intros e []. }
  destruct (fold_left (consider lowerText) SCAM_CATEGORIES (None, 0))
    as [[best|] score]; [|discriminate].
  unfold firstBest in Hinv. cbn [fst snd app] in Hinv.
  destruct Hinv as (Hpos & Hsev & before & key & after & Htable & Hb & Hm & Ha).
  destruct Hinv' as (_ & _ & Hscore & _). cbn [fst snd] in Hscore.
  assert (CategoryMatch.best c = best) as Hc.
  { destruct (_ || _) in H; [|discriminate]. injection H as <-. reflexivity. }
  unfold severityBoost, severityOf. rewrite Hc, <- Hscore, Hsev.
  split; [|split; [lia|reflexivity]].
  exists before, key, after. split; [exact Htable|]. split; assumption.
Qed.

End FirstBest.

Definition mixedText : jsstring :=
  utf16 "Move the bitcoin in your wallet to a bank account today.".

Lemma first_best_category_wins_witness :
  exists c,
    @_detectCategory Reference.platform runner mixedText
      {| TextAnalysis.score := 0; TextAnalysis.flags := [];
         TextAnalysis.confidence := 0 |}
      {| UrlReport.score := 0; UrlReport.flags := []; UrlReport.urlCount := 0;
         UrlReport.flaggedURLs := None |}
      {| Analysis.score := 0; Analysis.flags := [] |} = Some c /\
    cat_label (CategoryMatch.cat (CategoryMatch.best c))
    = utf16 "Banking/Financial Scam" /\
    CategoryMatch.matchScore (CategoryMatch.best c) = 2 /\
    @matchScoreOf runner (@toLowerCase Reference.platform mixedText)
      (category "Cryptocurrency Scam" "🪙"
         ["bitcoin"; "ethereum"; "crypto"; "blockchain"; "nft"; "token";
          "wallet"; "mining"]%string) = 2 /\
    1 <= CategoryMatch.matchScore (CategoryMatch.best c) /\
    @severityBoost (Some c) = 0.
Proof.
  destruct (@_detectCategory Reference.platform runner mixedText
      {| TextAnalysis.score := 0; TextAnalysis.flags := [];
         TextAnalysis.confidence := 0 |}
      {| UrlReport.score := 0; UrlReport.flags := []; UrlReport.urlCount := 0;
         UrlReport.flaggedURLs := None |}
      {| Analysis.score := 0; Analysis.flags := [] |}) as [c|] eqn:E;
    [|vm_compute in E; discriminate E].
  exists c. split; [reflexivity|].
  pose proof (@first_best_category_wins Reference.platform runner _ _ _ _ _ E)
    as (_ & H1 & H0).
  split; [|split; [|split; [|split; [exact H1|exact H0]]]];
    try (vm_compute in E; injection E as <-); vm_compute; reflexivity.
Defined.

(** ** Replacing the characters of a class *)

Definition pieces (replacement : jsstring -> jsstring)
           (found : list (jsstring * jsstring * jsstring) * jsstring) : jsstring :=
  flat_map (fun x => let '(skipped, _, g) := x in skipped ++ replacement g) (fst found)
  ++ snd found.

Lemma replace_pieces (m : RegExp.Matcher) (replacement : jsstring -> jsstring)
      (s : jsstring) :
  RegExp.replace m replacement s = pieces replacement (RegExp.matches m s).
Proof.
  unfold RegExp.replace, pieces. destruct (RegExp.matches m s). reflexivity.
Qed.

Lemma matches_from_cls (ok : N -> bool) (s : jsstring) :
  forall (fuel : nat) (b : option N) (skipped : jsstring),
    (length s < fuel)%nat ->
    pieces (fun _ => []) (RegExp.matches_from fuel (RegExp.cls ok) b s skipped)
    = skipped ++ filter (fun c => negb (ok c)) s.
Proof.
  induction s as [|c s IH]; intros fuel b skipped Hfuel;
    (destruct fuel as [|fuel]; [inversion Hfuel|]).
  - unfold pieces. simpl. now rewrite app_nil_r.
  - cbn [length] in Hfuel. assert (length s < fuel)%nat as Hf by lia.
    cbn [RegExp.matches_from]. unfold RegExp.matchAt, RegExp.cls at 1.
    cbn [RegExp.rest filter]. destruct (ok c) eqn:Eok; cbn [hd_error negb].
    + cbn [RegExp.rest RegExp.before RegExp.group1 length].
      replace (S (length s) - length s)%nat with 1%nat by lia.
      cbn [firstn]. specialize (IH fuel (Some c) [] Hf).
      destruct (RegExp.matches_from fuel (RegExp.cls ok) (Some c) s []) as [ms tail].
      unfold pieces in *. cbn [fst snd flat_map] in *.
      rewrite !app_nil_r, <- app_assoc. f_equal. exact IH.
    + rewrite (IH fuel (Some c) (skipped ++ [c]) Hf), <- app_assoc. reflexivity.
Qed.

(** Replacing every character of a class by nothing keeps the others. *)
Lemma replace_cls (ok : N -> bool) (s : jsstring) :
  RegExp.replace (RegExp.cls ok) (fun _ => []) s = filter (fun c => negb (ok c)) s.
Proof.
  rewrite replace_pieces. unfold RegExp.matches.
  rewrite matches_from_cls by lia. reflexivity.
Qed.

Lemma filter_filter {A : Type} (f g : A -> bool) (l : list A) :
  filter f (filter g l) = filter (fun x => g x && f x) l.
Proof.
  induction l as [|x l IH]; [reflexivity|]. cbn [filter].
  destruct (g x); cbn [filter andb]; [destruct (f x)|]; now rewrite IH.
Qed.

Lemma filter_length_le {A : Type} (f g : A -> bool) (l : list A) :
  (forall x, f x = true -> g x = true) ->
  (length (filter f l) <= length (filter g l) <= length l)%nat.
Proof.
  intros H. induction l as [|x l IH]; [simpl; lia|]. cbn [filter].
  destruct (f x) eqn:Ef; [rewrite (H x Ef)|destruct (g x)]; cbn [length]; lia.
Qed.

(** X20.  [_calculateCapsRatio] counts, in a text of five characters or
    more, the ASCII letters and the capitals among them, and reports no
    letter at all in a shorter text; capitals never outnumber letters, nor
    letters the characters of the text. *)
Theorem calculateCapsRatio_counts (text : jsstring) :
  let info := _calculateCapsRatio text in
  totalLetters info
  = (if (length text <? 5)%nat then 0 else length (filter isLetter text))%nat /\
  totalCaps info
  = (if (length text <? 5)%nat then 0 else length (filter isUpper text))%nat /\
  (totalCaps info <= totalLetters info <= length text)%nat.
Proof.
  cbv zeta.
  assert (forall l, filter (fun c => negb (negb (isLetter c))) l = filter isLetter l)
    as Hl by (intros l; apply filter_ext; intros c; apply negb_involutive).
  assert (forall l, filter (fun c => negb (negb (isUpper c))) (filter isLetter l)
                    = filter isUpper l) as Hu.
  { intros l. rewrite filter_filter. apply filter_ext. intros c.
    unfold isLetter. rewrite negb_involutive.
    destruct (isUpper c), (isLower c); reflexivity. }
  pose proof (@filter_length_le N isUpper isLetter text) as Hle.
  assert (forall x, isUpper x = true -> isLetter x = true) as Hsub
      by (intros x Hx; unfold isLetter; now rewrite Hx).
  specialize (Hle Hsub).
  unfold _calculateCapsRatio. destruct (length text <? 5)%nat.
  - cbn [totalLetters totalCaps]. lia.
  - rewrite !replace_cls, Hl.
    destruct (filter isLetter text) as [|c letters] eqn:E.
    + cbn [totalLetters totalCaps length] in *. lia.
    + cbn [totalLetters totalCaps]. rewrite <- E in Hle |- *. rewrite Hu. lia.
Qed.

(** ** What the matchers consume *)

Section Matchers.
Import RegExp.

(** A position with the same context as [p], reading [s]. *)
Definition reading (p : Pos) (s : jsstring) : Pos :=
  {| before := before p; rest := s; group1 := group1 p |}.

(** Every result of the matcher leaves a suffix of the input. *)
Definition Consuming (m : Matcher) : Prop :=
  forall p q, In q (m p) -> exists w, rest p = w ++ rest q.

(** Every result consumes at least one character. *)
Definition Shrinking (m : Matcher) : Prop :=
  forall p q, In q (m p) -> exists c w, rest p = c :: w ++ rest q.

(** The matcher reads characters of one class only and never looks around:
    what it consumes before one continuation it consumes before any other,
    in any context. *)
Definition Regular (ok : N -> bool) (m : Matcher) : Prop :=
  forall p q, In q (m p) ->
    exists w, rest p = w ++ rest q /\ forallb ok w = true /\
              forall p' s, exists q', In q' (m (reading p' (w ++ s))) /\ rest q' = s.

Lemma Regular_Consuming ok m : Regular ok m -> Consuming m.
Proof. intros H p q Hq. destruct (H p q Hq) as (w & E & _). now exists w. Qed.

Lemma Consuming_eps : Consuming eps.
Proof. intros p q [<-|[]]. now exists []. Qed.

Lemma Consuming_cls ok : Consuming (cls ok).
Proof.
  intros p q. unfold cls. destruct (rest p) as [|c r] eqn:E; [intros []|].
  destruct (ok c); [|intros []]. intros [<-|[]]. now exists [c].
Qed.

Lemma Consuming_seq a b : Consuming a -> Consuming b -> Consuming (seq a b).
Proof.
  intros Ha Hb p q Hq. apply in_flat_map in Hq as (r & Hr & Hq).
  destruct (Ha p r Hr) as (w1 & E1). destruct (Hb r q Hq) as (w2 & E2).
  exists (w1 ++ w2). now rewrite E1, E2, app_assoc.
Qed.

Lemma Consuming_alt a b : Consuming a -> Consuming b -> Consuming (alt a b).
Proof.
  intros Ha Hb p q Hq. apply in_app_iff in Hq as [Hq|Hq]; [exact (Ha p q Hq)|exact (Hb p q Hq)].
Qed.

Lemma Consuming_opt a : Consuming a -> Consuming (opt a).
Proof. intros Ha. apply Consuming_alt; [exact Ha|exact Consuming_eps]. Qed.

Lemma Consuming_seqs ms : Forall Consuming ms -> Consuming (seqs ms).
Proof.
  induction 1 as [|m ms Hm _ IH]; [exact Consuming_eps|].
  now apply Consuming_seq.
Qed.

Lemma Consuming_alts ms : Forall Consuming ms -> Consuming (alts ms).
Proof.
  induction 1 as [|m ms Hm _ IH]; [intros p q []|].
  now apply Consuming_alt.
Qed.

Lemma Consuming_lit s : Consuming (lit s).
Proof.
  induction s as [|c s IH]; [exact Consuming_eps|].
  apply Consuming_seq; [apply Consuming_cls|exact IH].
Qed.

Lemma Consuming_lit_i s : Consuming (lit_i s).
Proof.
  induction s as [|c s IH]; [exact Consuming_eps|].
  apply Consuming_seq; [apply Consuming_cls|exact IH].
Qed.

(** What a greedy repetition returns: every admissible number of
    characters of the class. *)
Lemma rep_from_sound ok s :
  forall lo hi b g q,
    In q (rep_from ok lo hi b s g) ->
    exists w, s = w ++ rest q /\ forallb ok w = true /\ (lo <= length w)%nat /\
              (forall h, hi = Some h -> (length w <= h)%nat) /\ group1 q = g.
Proof.
  induction s as [|c r IH]; intros lo hi b g q Hq; cbn [rep_from] in Hq.
  - destruct lo; [|destruct Hq]. destruct Hq as [<-|[]].
    exists []. cbn. repeat split; try lia.
  - assert (In q (match lo with
                  | O => [{| before := b; rest := c :: r; group1 := g |}]
                  | S _ => []
                  end) ->
            exists w, c :: r = w ++ rest q /\ forallb ok w = true /\
                      (lo <= length w)%nat /\
                      (forall h, hi = Some h -> (length w <= h)%nat) /\ group1 q = g)
      as Hstop.
    { destruct lo; [|intros []]. intros [<-|[]].
      exists []. cbn. repeat split; try lia. }
    destruct (match hi with Some O => false | _ => ok c end) eqn:Emore;
      [|exact (Hstop Hq)].
    apply in_app_iff in Hq as [Hq|Hq]; [|exact (Hstop Hq)].
    destruct (IH _ _ _ _ _ Hq) as (w & E & Hw & Hlo & Hhi & Hg).
    assert (ok c = true) as Hc by (destruct hi as [[|h]|]; congruence).
    exists (c :: w). cbn [app forallb length]. rewrite Hc, Hw, <- E.
    repeat split; try lia; try assumption.
    intros h Eh. subst hi. destruct h as [|h]; [discriminate|].
    specialize (Hhi h eq_refl). lia.
Qed.

Lemma rep_from_complete ok w :
  forall s lo hi b g,
    forallb ok w = true -> (lo <= length w)%nat ->
    (forall h, hi = Some h -> (length w <= h)%nat) ->
    exists q, In q (rep_from ok lo hi b (w ++ s) g) /\ rest q = s.
Proof.
  induction w as [|c w IH]; intros s lo hi b g Hw Hlo Hhi.
  - cbn [length] in Hlo. assert (lo = 0%nat) as -> by lia. cbn [app].
    exists {| before := b; rest := s; group1 := g |}. split; [|reflexivity].
    destruct s as [|c r]; cbn [rep_from]; [now left|].
    destruct (match hi with Some O => false | _ => ok c end);
      [apply in_or_app; right|]; now left.
  - cbn [forallb] in Hw. apply andb_true_iff in Hw as [Hc Hw].
    cbn [app rep_from length] in *.
    assert (match hi with Some O => false | _ => ok c end = true) as ->.
    { destruct hi as [[|h]|]; try assumption. specialize (Hhi 0%nat eq_refl). lia. }
    destruct (IH s (Nat.pred lo) (option_map Nat.pred hi) (Some c) g Hw) as (q & Hq & E).
    + lia.
    + intros h Eh. destruct hi as [h'|]; [|discriminate]. injection Eh as <-.
      specialize (Hhi h' eq_refl). lia.
    + exists q. split; [apply in_or_app; now left|exact E].
Qed.

Lemma Consuming_rep ok lo hi : Consuming (rep ok lo hi).
Proof.
  intros p q Hq. destruct (rep_from_sound _ _ _ _ _ _ _ Hq) as (w & E & _).
  now exists w.
Qed.

Lemma Consuming_group a : Consuming a -> Consuming (group a).
Proof.
  intros Ha p q Hq. unfold group in Hq. apply in_map_iff in Hq as (r & <- & Hr).
  exact (Ha p r Hr).
Qed.

Lemma Consuming_wordBoundary : Consuming wordBoundary.
Proof.
  intros p q. unfold wordBoundary. destruct (xorb _ _); [|intros []].
  intros [<-|[]]. now exists [].
Qed.

Lemma Shrinking_seq a b : Shrinking a -> Consuming b -> Shrinking (seq a b).
Proof.
  intros Ha Hb p q Hq. apply in_flat_map in Hq as (r & Hr & Hq).
  destruct (Ha p r Hr) as (c & w1 & E1). destruct (Hb r q Hq) as (w2 & E2).
  exists c, (w1 ++ w2). now rewrite E1, E2, app_assoc.
Qed.

Lemma Shrinking_rep ok lo hi : Shrinking (rep ok (S lo) hi).
Proof.
  intros p q Hq.
  destruct (rep_from_sound _ _ _ _ _ _ _ Hq) as (w & E & _ & Hlo & _).
  destruct w as [|c w]; [cbn in Hlo; lia|]. now exists c, w.
Qed.

Lemma Regular_eps ok : Regular ok eps.
Proof.
  intros p q [<-|[]]. exists []. repeat split.
  intros p' s. exists (reading p' s). split; [now left|reflexivity].
Qed.

Lemma Regular_cls (ok cl : N -> bool) :
  (forall c, cl c = true -> ok c = true) -> Regular ok (cls cl).
Proof.
  intros Hsub p q. unfold cls at 1. destruct (rest p) as [|c r] eqn:E; [intros []|].
  destruct (cl c) eqn:Ec; [|intros []]. intros [<-|[]].
  exists [c]. cbn [rest app forallb]. rewrite (Hsub c Ec). repeat split.
  intros p' s. unfold cls, reading. cbn [rest]. rewrite Ec.
  eexists. split; [now left|reflexivity].
Qed.

Lemma Regular_rep (ok cl : N -> bool) lo hi :
  (forall c, cl c = true -> ok c = true) -> Regular ok (rep cl lo hi).
Proof.
  intros Hsub p q Hq.
  destruct (rep_from_sound _ _ _ _ _ _ _ Hq) as (w & E & Hw & Hlo & Hhi & _).
  exists w. split; [exact E|]. split.
  - apply forallb_forall. intros c Hc. apply Hsub.
    exact (proj1 (forallb_forall _ _) Hw c Hc).
  - intros p' s. unfold rep, reading. cbn [before rest group1].
    exact (@rep_from_complete cl w s lo hi (before p') (group1 p') Hw Hlo Hhi).
Qed.

Lemma reading_eta (q : Pos) : reading q (rest q) = q.
Proof. destruct q. reflexivity. Qed.

Lemma Regular_seq ok a b : Regular ok a -> Regular ok b -> Regular ok (seq a b).
Proof.
  intros Ha Hb p q Hq. apply in_flat_map in Hq as (r & Hr & Hq).
  destruct (Ha p r Hr) as (w1 & E1 & H1 & F1).
  destruct (Hb r q Hq) as (w2 & E2 & H2 & F2).
  exists (w1 ++ w2). split; [now rewrite E1, E2, app_assoc|]. split.
  - rewrite forallb_app, H1, H2. reflexivity.
  - intros p' s. destruct (F1 p' (w2 ++ s)) as (r' & Hr' & Er').
    destruct (F2 r' s) as (q' & Hq' & Eq').
    exists q'. split; [|exact Eq'].
    apply in_flat_map. exists r'. split; [now rewrite <- app_assoc|].
    rewrite <- Er', reading_eta in Hq'. exact Hq'.
Qed.

Lemma Regular_seqs ok ms : Forall (Regular ok) ms -> Regular ok (seqs ms).
Proof.
  induction 1 as [|m ms Hm _ IH]; [apply Regular_eps|].
  now apply Regular_seq.
Qed.

Lemma Regular_alt ok a b : Regular ok a -> Regular ok b -> Regular ok (alt a b).
Proof.
  intros Ha Hb p q Hq. apply in_app_iff in Hq as [Hq|Hq].
  - destruct (Ha p q Hq) as (w & E & H & F). exists w. repeat split; try assumption.
    intros p' s. destruct (F p' s) as (q' & Hq' & Eq'). exists q'.
    split; [apply in_or_app; now left|exact Eq'].
  - destruct (Hb p q Hq) as (w & E & H & F). exists w. repeat split; try assumption.
    intros p' s. destruct (F p' s) as (q' & Hq' & Eq'). exists q'.
    split; [apply in_or_app; now right|exact Eq'].
Qed.

Lemma cls_sound (ok : N -> bool) (p q : Pos) :
  In q (cls ok p) -> exists c, rest p = c :: rest q /\ ok c = true.
Proof.
  unfold cls. destruct (rest p) as [|c r] eqn:E; [intros []|].
  destruct (ok c) eqn:Ec; [|intros []]. intros [<-|[]]. now exists c.
Qed.

Lemma lit_sound (s : jsstring) (p q : Pos) :
  In q (lit s p) -> rest p = s ++ rest q.
Proof.
  revert p. induction s as [|c s IH]; intros p H.
  - destruct H as [<-|[]]. reflexivity.
  - cbn [lit] in H. apply in_flat_map in H as (r & Hr & H).
    apply cls_sound in Hr as (d & E & Hd). apply N.eqb_eq in Hd. subst d.
    rewrite E, (IH r H). reflexivity.
Qed.

Lemma lit_i_sound (s : jsstring) (p q : Pos) :
  In q (lit_i s p) ->
  exists w, rest p = w ++ rest q /\ map asciiLower w = map asciiLower s.
Proof.
  revert p. induction s as [|c s IH]; intros p H.
  - destruct H as [<-|[]]. now exists [].
  - cbn [lit_i] in H. apply in_flat_map in H as (r & Hr & H).
    apply cls_sound in Hr as (d & E & Hd). apply N.eqb_eq in Hd.
    destruct (IH r H) as (w & Ew & Hw). exists (d :: w).
    cbn [map app]. now rewrite E, Ew, Hd, Hw.
Qed.

End Matchers.

(** ** Text in which a pattern no longer occurs *)

Section Clean.
Import RegExp.

Variable m0 : Matcher.
Variable ok0 : N -> bool.
Hypothesis m0_regular : Regular ok0 m0.
Hypothesis m0_shrinking : Shrinking m0.

(** [m0] matches at no position of the text. *)
Definition Clean (text : jsstring) : Prop :=
  forall x y p, text = x ++ y -> rest p = y -> m0 p = [].

(** A match is made of a non-empty word of the class, and that word is
    matched wherever it stands. *)
Lemma match_word (p : Pos) :
  m0 p <> [] ->
  exists c w tail,
    rest p = (c :: w) ++ tail /\ forallb ok0 (c :: w) = true /\
    forall p' s, rest p' = (c :: w) ++ s -> m0 p' <> [].
Proof.
  intros H. destruct (m0 p) as [|q qs] eqn:E; [congruence|].
  assert (In q (m0 p)) as Hq by (rewrite E; now left).
  destruct (m0_regular p q Hq) as (w & Ew & Hw & F).
  destruct (m0_shrinking p q Hq) as (c & w' & Ec).
  assert (w = c :: w') as ->.
  { apply (app_inv_tail (rest q)). rewrite <- Ew, Ec. reflexivity. }
  exists c, w', (rest q). split; [exact Ew|]. split; [exact Hw|].
  intros p' s Ep'. destruct (F p' s) as (q' & Hq' & _).
  rewrite <- Ep', reading_eta in Hq'. intros E0. rewrite E0 in Hq'. exact Hq'.
Qed.

Lemma no_match_at_end (p : Pos) : rest p = [] -> m0 p = [].
Proof.
  intros E. destruct (m0 p) as [|q qs] eqn:Eq; [reflexivity|exfalso].
  assert (In q (m0 p)) as Hq by (rewrite Eq; now left).
  destruct (m0_shrinking p q Hq) as (c & w & Ec). congruence.
Qed.

Lemma Clean_nil : Clean [].
Proof.
  intros x y p E Ep. symmetry in E. apply app_eq_nil in E as [_ ->].
  now apply no_match_at_end.
Qed.

Lemma Clean_tail (a b : jsstring) : Clean (a ++ b) -> Clean b.
Proof.
  intros H x y p E Ep. apply (H (a ++ x) y p); [|exact Ep].
  now rewrite E, app_assoc.
Qed.

Lemma Clean_front (a b : jsstring) : Clean (a ++ b) -> Clean a.
Proof.
  intros H x y p E Ep. destruct (m0 p) as [|q qs] eqn:Eq; [reflexivity|exfalso].
  destruct (@match_word p) as (c & w & tail & Ew & _ & F); [congruence|].
  apply (F (reading p (y ++ b)) (tail ++ b)).
  - cbn [reading rest]. rewrite <- Ep, Ew, <- app_assoc. reflexivity.
  - apply (H x (y ++ b)); [now rewrite E, <- app_assoc|reflexivity].
Qed.

(** Where two texts meet, a character outside the class stands on one side. *)
Definition Apart (a b : jsstring) : Prop :=
  forall a' c d b', a = a' ++ [c] -> b = d :: b' -> ok0 c = false \/ ok0 d = false.

Lemma Clean_app (a b : jsstring) : Clean a -> Clean b -> Apart a b -> Clean (a ++ b).
Proof.
  intros Ha Hb Hab x y p E Ep.
  destruct (m0 p) as [|q qs] eqn:Eq; [reflexivity|exfalso].
  destruct (@match_word p) as (c & w & tail & Ew & Hw & F); [congruence|].
  apply app_eq_app in E as [l [[E1 E2]|[E1 E2]]].
  - (* the match starts in [a] *)
    subst a y.
    assert (l ++ b = (c :: w) ++ tail) as E by (rewrite <- Ew; exact (eq_sym Ep)).
    apply app_eq_app in E as [l' [[E1 E2]|[E1 E2]]].
    + (* and ends within it *)
      apply (F (reading p l) l'); [exact E1|].
      apply (Ha x l); reflexivity.
    + (* and goes on to its end or beyond *)
      destruct l' as [|d l'].
      * rewrite app_nil_r in E1.
        apply (F (reading p l) []); [now rewrite app_nil_r, E1|].
        apply (Ha x l); reflexivity.
      * destruct l as [|e l] using rev_ind.
        { cbn [app] in Ep. assert (m0 p = []) as E0
            by (apply (Hb [] b); [reflexivity|exact Ep]).
          congruence. }
        clear IHl.
        assert (forallb ok0 ((l ++ [e]) ++ d :: l') = true) as Hall
            by (rewrite <- E1; exact Hw).
        rewrite !forallb_app in Hall. cbn [forallb] in Hall.
        apply andb_true_iff in Hall as [Hl Hd].
        apply andb_true_iff in Hl as [_ He]. rewrite andb_true_r in He.
        apply andb_true_iff in Hd as [Hd _].
        assert (ok0 e = false \/ ok0 d = false) as [H|H]
            by (apply (Hab (x ++ l) e d (l' ++ tail));
                [now rewrite app_assoc | exact E2]);
          congruence.
  - (* the match starts in [b] *)
    assert (m0 p = []) as E0 by (apply (Hb l y); [exact E2|exact Ep]).
    congruence.
Qed.

(** A replacement text that begins and ends outside the class and holds no
    match itself. *)
Definition Sealed (r : jsstring) : Prop :=
  exists l mid e, r = l :: mid ++ [e] /\ ok0 l = false /\ ok0 e = false /\ Clean r.

Lemma Clean_sealed (a r b : jsstring) :
  Clean a -> Sealed r -> Clean b -> Clean (a ++ r ++ b).
Proof.
  intros Ha (l & mid & e & -> & Hl & He & Hr) Hb.
  apply Clean_app; [exact Ha| |].
  - apply Clean_app; [exact Hr|exact Hb|].
    intros a' c d b' E _. left.
    change (l :: mid ++ [e]) with ((l :: mid) ++ [e]) in E.
    apply app_inj_tail in E as [_ <-]. exact He.
  - intros a' c d b' _ E. right. injection E as <- _. exact Hl.
Qed.

(** The text [matches_from] was given, put together again. *)
Definition original (found : list (jsstring * jsstring * jsstring) * jsstring)
  : jsstring :=
  flat_map (fun x => let '(skipped, matched, _) := x in skipped ++ matched) (fst found)
  ++ snd found.

Lemma firstn_consumed {A : Type} (w r : list A) :
  firstn (length (w ++ r) - length r) (w ++ r) = w.
Proof.
  rewrite length_app. replace (length w + length r - length r)%nat with (length w) by lia.
  rewrite firstn_app, Nat.sub_diag, firstn_all. cbn [firstn]. apply app_nil_r.
Qed.

(** No match of [m0] starts in the part skipped so far. *)
Definition Skipped (skipped s : jsstring) : Prop :=
  forall x y p, skipped = x ++ y -> y <> [] -> rest p = y ++ s -> m0 p = [].

Lemma Skipped_Clean (skipped s : jsstring) : Skipped skipped s -> Clean skipped.
Proof.
  intros H x y p E Ep. destruct y as [|c y]; [now apply no_match_at_end|].
  destruct (m0 p) as [|q qs] eqn:Eq; [reflexivity|exfalso].
  destruct (@match_word p) as (c' & w & tail & Ew & _ & F); [congruence|].
  apply (F (reading p ((c :: y) ++ s)) (tail ++ s)).
  - cbn [reading rest]. rewrite <- Ep, Ew, <- app_assoc. reflexivity.
  - apply (H x (c :: y)); [exact E|discriminate|reflexivity].
Qed.

Lemma Skipped_step (skipped s : jsstring) (c : N) (b : option N) :
  Skipped skipped (c :: s) -> matchAt m0 b (c :: s) = None ->
  Skipped (skipped ++ [c]) s.
Proof.
  intros H Hnone x y p E Hy Ep.
  destruct y as [|d y IHy] using rev_ind; [congruence|]. clear IHy.
  rewrite app_assoc in E. apply app_inj_tail in E as [E <-].
  rewrite <- app_assoc in Ep. cbn [app] in Ep.
  destruct y as [|d' y'].
  - cbn [app] in Ep. destruct (m0 p) as [|q qs] eqn:Eq; [reflexivity|exfalso].
    destruct (@match_word p) as (c' & w & tail & Ew & _ & F); [congruence|].
    unfold matchAt in Hnone.
    apply (F {| before := b; rest := c :: s; group1 := [] |} tail).
    + cbn [rest]. rewrite <- Ew. exact (eq_sym Ep).
    + destruct (m0 _); [reflexivity|discriminate].
  - apply (H x (d' :: y')); [exact E|discriminate|exact Ep].
Qed.

Variable redacted : jsstring.
Hypothesis redacted_sealed : Sealed redacted.

(** Replacing every match of [m0] leaves none. *)
Lemma matches_from_redacted (fuel : nat) :
  forall (b : option N) (s skipped : jsstring),
    (length s < fuel)%nat -> Skipped skipped s ->
    Clean (pieces (fun _ => redacted) (matches_from fuel m0 b s skipped)).
Proof.
  induction fuel as [|fuel IH]; intros b s skipped Hfuel Hsk; [lia|].
  cbn [matches_from].
  destruct (matchAt m0 b s) as [q|] eqn:Em.
  - assert (In q (m0 {| before := b; rest := s; group1 := [] |})) as Hq.
    { unfold matchAt in Em. destruct (m0 _) as [|q' qs]; [discriminate|].
      injection Em as ->. now left. }
    destruct (m0_shrinking _ _ Hq) as (c & w & Es). cbn [rest] in Es.
    change (c :: w ++ rest q) with ((c :: w) ++ rest q) in Es.
    rewrite Es, firstn_consumed.
    assert (length (rest q) < fuel)%nat as Hf
        by (rewrite Es, length_app in Hfuel; cbn [length] in Hfuel; lia).
    assert (Skipped [] (rest q)) as H0
        by (intros x y p E Hy; symmetry in E; apply app_eq_nil in E as [_ ->];
            congruence).
    specialize (IH (before q) (rest q) [] Hf H0).
    destruct (matches_from fuel m0 (before q) (rest q) []) as [ms tail].
    unfold pieces in *. cbn [fst snd flat_map] in *.
    rewrite <- !app_assoc. apply Clean_sealed; [|exact redacted_sealed|exact IH].
    exact (Skipped_Clean Hsk).
  - destruct s as [|c s].
    + unfold pieces. cbn [fst snd flat_map app]. exact (Skipped_Clean Hsk).
    + apply IH; [cbn [length] in Hfuel; lia|].
      exact (@Skipped_step skipped s c b Hsk Em).
Qed.

Lemma replace_redacted (text : jsstring) :
  Clean (replace m0 (fun _ => redacted) text).
Proof.
  rewrite replace_pieces. unfold matches. apply matches_from_redacted; [lia|].
  intros x y p E Hy. symmetry in E. apply app_eq_nil in E as [_ ->]. congruence.
Qed.

(** A text that ends outside the class and holds no match. *)
Definition Closing (r : jsstring) : Prop :=
  exists mid e, r = mid ++ [e] /\ ok0 e = false /\ Clean r.

(** Where [kept] and [r] meet, one of them has a character outside the
    class. *)
Definition Opening (kept r : jsstring) : Prop :=
  (exists l r', r = l :: r' /\ ok0 l = false) \/
  (exists k e, kept = k ++ [e] /\ ok0 e = false).

Lemma Sealed_Closing (r : jsstring) : Sealed r -> Closing r /\ Opening [] r.
Proof.
  intros (l & mid & e & E & Hl & He & Hr). split.
  - exists (l :: mid), e. repeat split; assumption.
  - left. exists l, (mid ++ [e]). split; assumption.
Qed.

Lemma Clean_closing (a kept r b : jsstring) :
  Clean (a ++ kept) -> Closing r -> Opening kept r -> Clean b ->
  Clean ((a ++ kept) ++ r ++ b).
Proof.
  intros Ha (mid & e & Er & He & Hr) Ho Hb. apply Clean_app; [exact Ha| |].
  - apply Clean_app; [exact Hr|exact Hb|].
    intros a' c d b' E _. left. rewrite Er in E.
    apply app_inj_tail in E as [_ <-]. exact He.
  - intros a' c d b' Ea Eb. destruct Ho as [(l & r' & El & Hl)|(k & x & Ek & Hx)].
    + right. rewrite El in Eb. injection Eb as <- _. exact Hl.
    + left. rewrite Ek, app_assoc in Ea. apply app_inj_tail in Ea as [_ <-].
      exact Hx.
Qed.

(** A later replacement: each match is replaced by some first part of
    itself followed by a closing text. *)
Definition Resealing (replacement : jsstring -> jsstring)
           (found : jsstring * jsstring * jsstring) : Prop :=
  let '(_, matched, g) := found in
  exists kept dropped r,
    matched = kept ++ dropped /\ replacement g = kept ++ r /\
    Closing r /\ Opening kept r.

Lemma pieces_clean (replacement : jsstring -> jsstring)
      (ms : list (jsstring * jsstring * jsstring)) (tail : jsstring) :
  Forall (Resealing replacement) ms ->
  Clean (original (ms, tail)) -> Clean (pieces replacement (ms, tail)).
Proof.
  unfold original, pieces. cbn [fst snd].
  induction 1
    as [|[[skipped matched] g] ms (kept & dropped & r & Em & Er & Hr & Ho) _ IH];
    intros H; [exact H|].
  cbn [flat_map] in *. rewrite Er. rewrite Em in H.
  rewrite <- !app_assoc in *.
  replace (skipped ++ kept ++ r ++ flat_map
             (fun x => let '(skipped0, _, g0) := x in skipped0 ++ replacement g0) ms
           ++ tail)
    with ((skipped ++ kept) ++ r ++ flat_map
             (fun x => let '(skipped0, _, g0) := x in skipped0 ++ replacement g0) ms
           ++ tail) by (now rewrite <- app_assoc).
  apply Clean_closing; [|exact Hr|exact Ho|].
  - apply (@Clean_front (skipped ++ kept)
             (dropped ++ flat_map
                (fun x => let '(skipped0, matched0, _) := x in skipped0 ++ matched0) ms
              ++ tail)).
    now rewrite <- app_assoc.
  - apply IH. do 3 apply Clean_tail in H. exact H.
Qed.

Lemma constant_resealing (r : jsstring)
      (ms : list (jsstring * jsstring * jsstring)) :
  Sealed r -> Forall (Resealing (fun _ => r)) ms.
Proof.
  intros Hr. apply Forall_forall. intros [[skipped matched] g] _.
  destruct (Sealed_Closing Hr) as [Hc Ho].
  exists [], matched, r. repeat split; assumption.
Qed.

(** A clean text is searched in vain. *)
Lemma matches_from_clean (s : jsstring) :
  forall (fuel : nat) (b : option N) (skipped : jsstring),
    Clean s -> matches_from fuel m0 b s skipped = ([], skipped ++ s).
Proof.
  induction s as [|c s IH]; intros fuel b skipped H;
    (destruct fuel as [|fuel]; [reflexivity|]); cbn [matches_from].
  - assert (matchAt m0 b [] = None) as ->
        by (unfold matchAt; rewrite (H [] []); reflexivity).
    now rewrite app_nil_r.
  - assert (matchAt m0 b (c :: s) = None) as ->
        by (unfold matchAt; rewrite (H [] (c :: s)); reflexivity).
    rewrite (IH fuel (Some c) (skipped ++ [c])), <- app_assoc; [reflexivity|].
    exact (@Clean_tail [c] s H).
Qed.

Lemma test_from_clean (s : jsstring) :
  forall b, Clean s -> test_from m0 b s = false.
Proof.
  induction s as [|c s IH]; intros b H; cbn [test_from].
  - assert (matchAt m0 b [] = None) as ->
        by (unfold matchAt; rewrite (H [] []); reflexivity).
    reflexivity.
  - assert (matchAt m0 b (c :: s) = None) as ->
        by (unfold matchAt; rewrite (H [] (c :: s)); reflexivity).
    apply IH. exact (@Clean_tail [c] s H).
Qed.

Lemma clean_test (s : jsstring) : test m0 s = false -> Clean s.
Proof.
  unfold test. generalize (@None N) as b.
  induction s as [|c s IH]; intros b Ht; [exact Clean_nil|].
  cbn [test_from] in Ht.
  destruct (matchAt m0 b (c :: s)) eqn:Em; [discriminate|].
  specialize (IH (Some c) Ht).
  intros x y p E Ep. destruct x as [|c' x].
  - cbn [app] in E. subst y.
    destruct (m0 p) as [|q qs] eqn:Eq; [reflexivity|exfalso].
    destruct (@match_word p) as (c' & w & tail & Ew & _ & F); [congruence|].
    unfold matchAt in Em.
    apply (F {| before := b; rest := c :: s; group1 := [] |} tail).
    + cbn [rest]. rewrite <- Ew. exact (eq_sym Ep).
    + destruct (m0 _); [reflexivity|discriminate].
  - injection E as _ E. exact (IH x y p E Ep).
Qed.

End Clean.

(** The text a search went through is the one it was given. *)
Lemma matches_from_original (m : RegExp.Matcher) (fuel : nat) :
  Consuming m ->
  forall (b : option N) (s skipped : jsstring),
    original (RegExp.matches_from fuel m b s skipped) = skipped ++ s.
Proof.
  intros Hm. induction fuel as [|fuel IH]; intros b s skipped; [reflexivity|].
  cbn [RegExp.matches_from].
  destruct (RegExp.matchAt m b s) as [q|] eqn:Em.
  - assert (In q (m {| RegExp.before := b; RegExp.rest := s; RegExp.group1 := [] |}))
      as Hq.
    { unfold RegExp.matchAt in Em. destruct (m _) as [|q' qs]; [discriminate|].
      injection Em as ->. now left. }
    destruct (Hm _ _ Hq) as (w & Es). cbn [RegExp.rest] in Es.
    assert (firstn (length s - length (RegExp.rest q)) s = w) as ->
        by (rewrite Es; apply firstn_consumed).
    destruct w as [|c w].
    + destruct s as [|c s].
      * unfold original. cbn [fst snd flat_map]. now rewrite !app_nil_r.
      * specialize (IH (Some c) s [c]).
        destruct (RegExp.matches_from fuel m (Some c) s [c]) as [ms tail].
        unfold original in *. cbn [fst snd flat_map] in *.
        rewrite <- app_assoc, IH, app_nil_r. reflexivity.
    + specialize (IH (RegExp.before q) (RegExp.rest q) []).
      destruct (RegExp.matches_from fuel m (RegExp.before q) (RegExp.rest q) [])
        as [ms tail].
      unfold original in *. cbn [fst snd flat_map] in *.
      rewrite <- app_assoc, IH, Es. cbn [app]. now rewrite <- app_assoc.
  - destruct s as [|c s].
    + unfold original. cbn [fst snd flat_map app]. now rewrite app_nil_r.
    + rewrite IH, <- app_assoc. reflexivity.
Qed.

(** A later replacement keeps a text free of matches. *)
Lemma replace_clean (m0 : RegExp.Matcher) (ok0 : N -> bool)
      (m : RegExp.Matcher) (replacement : jsstring -> jsstring) (text : jsstring) :
  Regular ok0 m0 -> Shrinking m0 -> Consuming m ->
  Forall (Resealing m0 ok0 replacement) (fst (RegExp.matches m text)) ->
  Clean m0 text -> Clean m0 (RegExp.replace m replacement text).
Proof.
  intros Hreg Hshr Hm Hr Ht. rewrite replace_pieces.
  pose proof (@matches_from_original m (S (length text)) Hm None text []) as Ho.
  fold (RegExp.matches m text) in Ho.
  destruct (RegExp.matches m text) as [ms tail].
  apply (pieces_clean Hreg Hshr); [exact Hr|].
  rewrite Ho. exact Ht.
Qed.

(** ** Nothing redacted survives the redaction *)

Section Redaction.
Import RegExp.

(** The characters an e-mail address is made of, and those of a telephone
    number. *)
Definition emailChar (c : N) : bool :=
  isLetter c || isDigit c || oneOf "._%+-@" c.
Definition phoneChar (c : N) : bool := isDigit c || oneOf "+() -" c.

Lemma oneOf_sub (some all : string) (c : N) :
  (forall d, In d (utf16 some) -> In d (utf16 all)) ->
  oneOf some c = true -> oneOf all c = true.
Proof.
  unfold oneOf. intros Hsub H. apply existsb_exists in H as (d & Hd & E).
  apply existsb_exists. exists d. split; [apply Hsub; exact Hd|exact E].
Qed.

Lemma Regular_opt ok a : Regular ok a -> Regular ok (opt a).
Proof. intros H. apply Regular_alt; [exact H|apply Regular_eps]. Qed.

Lemma Shrinking_seq_r a b : Consuming a -> Shrinking b -> Shrinking (seq a b).
Proof.
  intros Ha Hb p q Hq. apply in_flat_map in Hq as (r & Hr & Hq).
  destruct (Ha p r Hr) as (w1 & E1). destruct (Hb r q Hq) as (c & w2 & E2).
  destruct w1 as [|d w1].
  - exists c, w2. now rewrite E1, E2.
  - exists d, (w1 ++ c :: w2). rewrite E1, E2. cbn [app].
    now rewrite <- app_assoc.
Qed.

Lemma EMAIL_regular : Regular emailChar EMAIL.
Proof.
  unfold EMAIL. apply Regular_seqs. repeat constructor.
  - apply Regular_rep. intros c H. unfold emailChar.
    apply orb_true_iff in H as [H|H]; [now rewrite H|].
    rewrite (@oneOf_sub "._%+-" "._%+-@" c); [apply orb_true_r| |exact H].
    cbn. tauto.
  - apply Regular_cls. intros c H. apply N.eqb_eq in H. subst c. reflexivity.
  - apply Regular_rep. intros c H. unfold emailChar.
    apply orb_true_iff in H as [H|H]; [now rewrite H|].
    rewrite (@oneOf_sub ".-" "._%+-@" c); [apply orb_true_r| |exact H].
    cbn. tauto.
  - apply Regular_cls. intros c H. apply N.eqb_eq in H. subst c. reflexivity.
  - apply Regular_rep. intros c H. unfold emailChar. now rewrite H.
Qed.

Lemma EMAIL_shrinking : Shrinking EMAIL.
Proof.
  unfold EMAIL. cbn [seqs]. apply Shrinking_seq; [apply Shrinking_rep|].
  repeat first [ apply Consuming_seq | apply Consuming_cls | apply Consuming_rep
               | apply Consuming_eps ].
Qed.

Ltac phone_class :=
  let c := fresh "c" in let H := fresh "H" in
  intros c H; unfold phoneChar;
  first [ now rewrite H
        | apply N.eqb_eq in H; subst c; reflexivity
        | rewrite (@oneOf_sub " -" "+() -" c); [apply orb_true_r| |exact H];
          cbn; tauto ].

Lemma PHONE_regular : Regular phoneChar PHONE.
Proof.
  unfold PHONE, digits, spaceOrDash. apply Regular_seqs.
  repeat first [ apply Forall_cons | apply Forall_nil
               | apply Regular_opt | apply Regular_seqs
               | apply Regular_rep; phone_class
               | apply Regular_cls; phone_class ].
Qed.

Lemma PHONE_consuming : Consuming PHONE.
Proof. exact (Regular_Consuming PHONE_regular). Qed.

Lemma PHONE_shrinking : Shrinking PHONE.
Proof.
  unfold PHONE, digits, spaceOrDash. cbn [seqs].
  do 2 (apply Shrinking_seq_r;
        [repeat first [ apply Consuming_seq | apply Consuming_opt
                      | apply Consuming_cls | apply Consuming_rep
                      | apply Consuming_eps ]|]).
  apply Shrinking_seq; [apply Shrinking_rep|].
  repeat first [ apply Consuming_seq | apply Consuming_opt | apply Consuming_cls
               | apply Consuming_rep | apply Consuming_eps ].
Qed.

Lemma CARD_consuming : Consuming CARD.
Proof.
  unfold CARD, digits, spaceOrDash. cbn [seqs].
  repeat first [ apply Consuming_seq | apply Consuming_opt | apply Consuming_cls
               | apply Consuming_rep | apply Consuming_eps
               | apply Consuming_wordBoundary ].
Qed.

(** The word [GREETING] captures, and what follows it. *)
Definition greetingWord : Matcher :=
  alts [lit (utf16 "Hi"); lit (utf16 "Hello"); lit (utf16 "Dear")].

Definition afterGreeting : Matcher :=
  seqs [rep isWhiteSpace 1 None; cls isUpper; rep isLower 1 None].

Definition greetings : list jsstring := [utf16 "Hi"; utf16 "Hello"; utf16 "Dear"].

Lemma greetingWord_sound (p q : Pos) :
  In q (greetingWord p) -> exists w, rest p = w ++ rest q /\ In w greetings.
Proof.
  unfold greetingWord, greetings. cbn [alts]. unfold alt. intros H.
  repeat (apply in_app_iff in H as [H|H];
          [apply lit_sound in H; eexists; split; [exact H|cbn [In]; tauto]|]).
  destruct H.
Qed.

Lemma greetingWord_consuming : Consuming greetingWord.
Proof.
  intros p q H. destruct (greetingWord_sound _ _ H) as (w & E & _). now exists w.
Qed.

Lemma afterGreeting_consuming : Consuming afterGreeting.
Proof.
  unfold afterGreeting. cbn [seqs].
  repeat first [ apply Consuming_seq | apply Consuming_cls | apply Consuming_rep
               | apply Consuming_eps ].
Qed.

Lemma GREETING_consuming : Consuming GREETING.
Proof.
  change GREETING with (seq (group greetingWord) afterGreeting).
  apply Consuming_seq; [apply Consuming_group, greetingWord_consuming|].
  apply afterGreeting_consuming.
Qed.

Lemma afterGreeting_keeps_group (p q : Pos) :
  In q (afterGreeting p) -> group1 q = group1 p.
Proof.
  unfold afterGreeting. cbn [seqs]. intros H.
  apply in_flat_map in H as (q1 & H1 & H).
  apply in_flat_map in H as (q2 & H2 & H).
  apply in_flat_map in H as (q3 & H3 & [<-|[]]).
  destruct (rep_from_sound _ _ _ _ _ _ _ H1) as (_ & _ & _ & _ & _ & E1).
  destruct (rep_from_sound _ _ _ _ _ _ _ H3) as (_ & _ & _ & _ & _ & E3).
  rewrite E3. unfold cls in H2. destruct (rest q1) as [|c r]; [destruct H2|].
  destruct (isUpper c); [|destruct H2]. destruct H2 as [<-|[]]. exact E1.
Qed.

(** The captured word is one of the three greetings and the beginning of
    what was matched. *)
Lemma GREETING_leading (p q : Pos) :
  In q (GREETING p) ->
  exists z, rest p = group1 q ++ z ++ rest q /\ In (group1 q) greetings.
Proof.
  change GREETING with (seq (group greetingWord) afterGreeting).
  intros H. apply in_flat_map in H as (q1 & H1 & H).
  unfold group in H1. apply in_map_iff in H1 as (r & <- & Hr).
  destruct (greetingWord_sound _ _ Hr) as (w1 & E1 & Hw1).
  destruct (afterGreeting_consuming _ _ H) as (w2 & E2).
  rewrite (afterGreeting_keeps_group _ _ H). cbn [group1 rest] in *.
  assert (firstn (length (rest p) - length (rest r)) (rest p) = w1) as ->
      by (rewrite E1; apply firstn_consumed).
  exists w2. split; [now rewrite E1, E2|exact Hw1].
Qed.

Lemma matches_from_leading (m : Matcher) (G : jsstring -> Prop) (fuel : nat) :
  (forall p q, In q (m p) ->
     exists z, rest p = group1 q ++ z ++ rest q /\ G (group1 q)) ->
  forall (b : option N) (s skipped : jsstring),
    Forall (fun found => let '(_, matched, g) := found in
                         exists z, matched = g ++ z /\ G g)
           (fst (matches_from fuel m b s skipped)).
Proof.
  intros Hm. induction fuel as [|fuel IH]; intros b s skipped; [constructor|].
  cbn [matches_from].
  destruct (matchAt m b s) as [q|] eqn:Em.
  - assert (In q (m {| before := b; rest := s; group1 := [] |})) as Hq.
    { unfold matchAt in Em. destruct (m _) as [|q' qs]; [discriminate|].
      injection Em as ->. now left. }
    destruct (Hm _ _ Hq) as (z & Es & Hg). cbn [rest] in Es.
    assert (firstn (length s - length (rest q)) s = group1 q ++ z) as ->
        by (rewrite Es, app_assoc; apply firstn_consumed).
    assert (exists z', group1 q ++ z = group1 q ++ z' /\ G (group1 q)) as Hhere
        by (now exists z).
    destruct (group1 q ++ z) as [|c w] eqn:Ew.
    + destruct s as [|c s].
      * constructor; [exact Hhere|constructor].
      * specialize (IH (Some c) s [c]).
        destruct (matches_from fuel m (Some c) s [c]) as [ms tail].
        constructor; [exact Hhere|exact IH].
    + specialize (IH (before q) (rest q) []).
      destruct (matches_from fuel m (before q) (rest q) []) as [ms tail].
      constructor; [exact Hhere|exact IH].
  - destruct s as [|c s]; [constructor|apply IH].
Qed.

Lemma sealed_by_brackets (m0 : Matcher) (ok0 : N -> bool) (l e : N)
      (mid r : jsstring) :
  Regular ok0 m0 -> Shrinking m0 ->
  r = l :: mid ++ [e] -> ok0 l = false -> ok0 e = false ->
  test m0 r = false -> Sealed m0 ok0 r.
Proof.
  intros Hreg Hshr E Hl He Ht. exists l, mid, e. repeat split; try assumption.
  exact (clean_test Hreg Hshr Ht).
Qed.

(** The name that replaces a greeted name closes a text for a pattern
    whose class has neither the closing bracket nor the last letter of a
    greeting. *)
Lemma greeting_resealing (m0 : Matcher) (ok0 : N -> bool) (text : jsstring) :
  Regular ok0 m0 -> Shrinking m0 ->
  ok0 93%N = false ->
  ok0 32%N = false \/ forallb (fun c => negb (ok0 c)) (utf16 "ior") = true ->
  test m0 (utf16 " [REDACTED_NAME]") = false ->
  Forall (Resealing m0 ok0 (fun g1 => g1 ++ utf16 " [REDACTED_NAME]"))
         (fst (matches GREETING text)).
Proof.
  intros Hreg Hshr Hclose Hlast Htest.
  generalize (@matches_from_leading GREETING (fun g => In g greetings)
                (S (length text)) GREETING_leading None text []).
  unfold matches. apply Forall_impl. intros [[skipped matched] g] (z & -> & Hg).
  exists g, z, (utf16 " [REDACTED_NAME]"). repeat split.
  - exists (utf16 " [REDACTED_NAME"), 93%N. repeat split; try assumption.
    exact (clean_test Hreg Hshr Htest).
  - destruct Hlast as [Hspace|Hlast];
      [left; exists 32%N, (utf16 "[REDACTED_NAME]"); split;
       [reflexivity|exact Hspace]|].
    right. cbn [forallb] in Hlast.
    apply andb_true_iff in Hlast as [Hi Hlast].
    apply andb_true_iff in Hlast as [Ho Hlast].
    apply andb_true_iff in Hlast as [Hr _].
    apply negb_true_iff in Hi, Ho, Hr.
    unfold greetings in Hg. cbn [In] in Hg.
    destruct Hg as [<-|[<-|[<-|[]]]].
    + exists (utf16 "H"), 105%N. split; [reflexivity|exact Hi].
    + exists (utf16 "Hell"), 111%N. split; [reflexivity|exact Ho].
    + exists (utf16 "Dea"), 114%N. split; [reflexivity|exact Hr].
Qed.

Lemma anonymizeText_emailFree (text : option jsstring) :
  Clean EMAIL (anonymizeText text).
Proof.
  assert (Clean EMAIL []) as Hnil by exact (Clean_nil EMAIL_shrinking).
  unfold anonymizeText. destruct text as [[|c text]|]; try exact Hnil.
  apply (replace_clean EMAIL_regular EMAIL_shrinking GREETING_consuming).
  { apply (greeting_resealing _ EMAIL_regular EMAIL_shrinking);
      [|left|]; vm_compute; reflexivity. }
  apply (replace_clean EMAIL_regular EMAIL_shrinking CARD_consuming).
  { apply constant_resealing.
    apply (@sealed_by_brackets EMAIL emailChar 91 93 (utf16 "REDACTED_CARD")
             _ EMAIL_regular EMAIL_shrinking); vm_compute; reflexivity. }
  apply (replace_clean EMAIL_regular EMAIL_shrinking PHONE_consuming).
  { apply constant_resealing.
    apply (@sealed_by_brackets EMAIL emailChar 91 93 (utf16 "REDACTED_PHONE")
             _ EMAIL_regular EMAIL_shrinking); vm_compute; reflexivity. }
  apply (replace_redacted EMAIL_regular EMAIL_shrinking).
  apply (@sealed_by_brackets EMAIL emailChar 91 93 (utf16 "REDACTED_EMAIL")
           _ EMAIL_regular EMAIL_shrinking); vm_compute; reflexivity.
Qed.

Lemma anonymizeText_phoneFree (text : option jsstring) :
  Clean PHONE (anonymizeText text).
Proof.
  assert (Clean PHONE []) as Hnil by exact (Clean_nil PHONE_shrinking).
  unfold anonymizeText. destruct text as [[|c text]|]; try exact Hnil.
  apply (replace_clean PHONE_regular PHONE_shrinking GREETING_consuming).
  { apply (greeting_resealing _ PHONE_regular PHONE_shrinking);
      [|right|]; vm_compute; reflexivity. }
  apply (replace_clean PHONE_regular PHONE_shrinking CARD_consuming).
  { apply constant_resealing.
    apply (@sealed_by_brackets PHONE phoneChar 91 93 (utf16 "REDACTED_CARD")
             _ PHONE_regular PHONE_shrinking); vm_compute; reflexivity. }
  apply (replace_redacted PHONE_regular PHONE_shrinking).
  apply (@sealed_by_brackets PHONE phoneChar 91 93 (utf16 "REDACTED_PHONE")
           _ PHONE_regular PHONE_shrinking); vm_compute; reflexivity.
Qed.

(** X21.  No e-mail address survives [anonymizeText]: in the text it
    returns, the regular expression that [anonymizeText] redacts and
    [extractEmails] searches for matches nowhere, so [extractEmails] finds
    nothing. *)
Theorem anonymizeText_leaves_no_email (text : option jsstring) :
  test EMAIL (anonymizeText text) = false /\
  TextHelpers.extractEmails (anonymizeText text) = [].
Proof.
  pose proof (anonymizeText_emailFree text) as H. split.
  - exact (test_from_clean None H).
  - unfold TextHelpers.extractEmails, TextHelpers.String_match,
      TextHelpers.emailRegex, matches.
    rewrite (matches_from_clean (m0:=EMAIL)); [reflexivity|exact H].
Qed.

(** X22.  No telephone number survives [anonymizeText] either: the
    pattern it redacts as a phone number matches nowhere in the text it
    returns, whatever the later replacements put there. *)
Theorem anonymizeText_leaves_no_phone (text : option jsstring) :
  test PHONE (anonymizeText text) = false /\
  TextHelpers.String_match PHONE (anonymizeText text) = [].
Proof.
  pose proof (anonymizeText_phoneFree text) as H. split.
  - exact (test_from_clean None H).
  - unfold TextHelpers.String_match, matches.
    rewrite (matches_from_clean (m0:=PHONE)); [reflexivity|exact H].
Qed.

End Redaction.

(** ** Text the redaction leaves alone *)

Section Needs.
Import RegExp.

(** Every match of the matcher holds a character of the class. *)
Definition Needs (ok : N -> bool) (m : Matcher) : Prop :=
  forall p q, In q (m p) ->
    exists w, rest p = w ++ rest q /\ existsb ok w = true.

Lemma Needs_cls (ok cl : N -> bool) :
  (forall c, cl c = true -> ok c = true) -> Needs ok (cls cl).
Proof.
  intros Hsub p q. unfold cls. destruct (rest p) as [|c r] eqn:E; [intros []|].
  destruct (cl c) eqn:Ec; [|intros []]. intros [<-|[]].
  exists [c]. cbn [rest app existsb]. now rewrite (Hsub c Ec).
Qed.

Lemma Needs_rep (ok cl : N -> bool) lo hi :
  (forall c, cl c = true -> ok c = true) -> Needs ok (rep cl (S lo) hi).
Proof.
  intros Hsub p q Hq.
  destruct (rep_from_sound _ _ _ _ _ _ _ Hq) as (w & E & Hw & Hlo & _).
  exists w. split; [exact E|].
  destruct w as [|c w]; [cbn in Hlo; lia|].
  cbn [forallb existsb] in *. apply andb_true_iff in Hw as [Hc _].
  now rewrite (Hsub c Hc).
Qed.

Lemma Needs_seq_l ok a b : Needs ok a -> Consuming b -> Needs ok (seq a b).
Proof.
  intros Ha Hb p q Hq. apply in_flat_map in Hq as (r & Hr & Hq).
  destruct (Ha p r Hr) as (w1 & E1 & H1). destruct (Hb r q Hq) as (w2 & E2).
  exists (w1 ++ w2). split; [now rewrite E1, E2, app_assoc|].
  rewrite existsb_app, H1. reflexivity.
Qed.

Lemma Needs_seq_r ok a b : Consuming a -> Needs ok b -> Needs ok (seq a b).
Proof.
  intros Ha Hb p q Hq. apply in_flat_map in Hq as (r & Hr & Hq).
  destruct (Ha p r Hr) as (w1 & E1). destruct (Hb r q Hq) as (w2 & E2 & H2).
  exists (w1 ++ w2). split; [now rewrite E1, E2, app_assoc|].
  rewrite existsb_app, H2. apply orb_true_r.
Qed.

(** A text without a character of the class has no match. *)
Lemma Needs_Clean (ok : N -> bool) (m : Matcher) (text : jsstring) :
  Needs ok m -> existsb ok text = false -> Clean m text.
Proof.
  intros Hm Ht x y p E Ep. destruct (m p) as [|q qs] eqn:Eq; [reflexivity|exfalso].
  assert (In q (m p)) as Hq by (rewrite Eq; now left).
  destruct (Hm p q Hq) as (w & Ew & Hw).
  rewrite E, existsb_app in Ht. apply orb_false_iff in Ht as [_ Ht].
  rewrite <- Ep, Ew, existsb_app, Hw in Ht. discriminate.
Qed.

Lemma replace_Clean (m : Matcher) (replacement : jsstring -> jsstring)
      (text : jsstring) :
  Clean m text -> replace m replacement text = text.
Proof.
  intros H. unfold replace, matches. now rewrite (matches_from_clean (m0:=m)).
Qed.

Lemma EMAIL_needs : Needs (N.eqb 64) EMAIL.
Proof.
  unfold EMAIL. cbn [seqs]. apply Needs_seq_r; [apply Consuming_rep|].
  apply Needs_seq_l; [apply Needs_cls; intros c H; exact H|].
  repeat first [ apply Consuming_seq | apply Consuming_cls | apply Consuming_rep
               | apply Consuming_eps ].
Qed.

Lemma PHONE_needs : Needs isDigit PHONE.
Proof.
  unfold PHONE, digits, spaceOrDash. cbn [seqs].
  do 2 (apply Needs_seq_r;
        [repeat first [ apply Consuming_seq | apply Consuming_opt
                      | apply Consuming_cls | apply Consuming_rep
                      | apply Consuming_eps ]|]).
  apply Needs_seq_l; [apply Needs_rep; intros c H; exact H|].
  repeat first [ apply Consuming_seq | apply Consuming_opt | apply Consuming_cls
               | apply Consuming_rep | apply Consuming_eps ].
Qed.

Lemma CARD_needs : Needs isDigit CARD.
Proof.
  unfold CARD, digits, spaceOrDash. cbn [seqs].
  apply Needs_seq_r; [apply Consuming_wordBoundary|].
  apply Needs_seq_l.
  - apply Needs_seq_l; [apply Needs_rep; intros c H; exact H|].
    apply Consuming_opt, Consuming_cls.
  - repeat first [ apply Consuming_seq | apply Consuming_opt | apply Consuming_cls
                 | apply Consuming_rep | apply Consuming_eps
                 | apply Consuming_wordBoundary ].
Qed.

Lemma GREETING_needs : Needs isUpper GREETING.
Proof.
  unfold GREETING. cbn [seqs].
  apply Needs_seq_r; [apply Consuming_group, greetingWord_consuming|].
  apply Needs_seq_r; [apply Consuming_rep|].
  apply Needs_seq_l; [apply Needs_cls; intros c H; exact H|].
  repeat first [ apply Consuming_seq | apply Consuming_cls | apply Consuming_rep
               | apply Consuming_eps ].
Qed.

(** A character that none of the four patterns of [anonymizeText] needs. *)
Definition plain (c : N) : bool := negb (N.eqb 64 c || isDigit c || isUpper c).

Lemma plain_text (ok : N -> bool) (text : jsstring) :
  (forall c, ok c = true -> plain c = false) ->
  forallb plain text = true -> existsb ok text = false.
Proof.
  intros Hok H. induction text as [|c text IH]; [reflexivity|].
  cbn [forallb existsb] in *. apply andb_true_iff in H as [Hc H].
  rewrite (IH H), orb_false_r. destruct (ok c) eqn:E; [|reflexivity].
  rewrite (Hok c E) in Hc. discriminate.
Qed.

(** X23.  [anonymizeText] returns unchanged a text without the character
    [@], without a digit and without an ASCII capital: none of its four
    patterns can match there. *)
Theorem anonymizeText_keeps_plain_text (text : jsstring) :
  forallb plain text = true -> anonymizeText (Some text) = text.
Proof.
  intros H. unfold anonymizeText. destruct text as [|c text]; [reflexivity|].
  assert (existsb (N.eqb 64) (c :: text) = false) as Hat.
  { apply plain_text; [|exact H]. intros d Hd. unfold plain. now rewrite Hd. }
  assert (existsb isDigit (c :: text) = false) as Hdigit.
  { apply plain_text; [|exact H]. intros d Hd. unfold plain.
    rewrite Hd, orb_true_r. reflexivity. }
  assert (existsb isUpper (c :: text) = false) as Hupper.
  { apply plain_text; [|exact H]. intros d Hd. unfold plain.
    rewrite Hd, !orb_true_r. reflexivity. }
  rewrite (replace_Clean _ (Needs_Clean EMAIL_needs Hat)).
  rewrite (replace_Clean _ (Needs_Clean PHONE_needs Hdigit)).
  rewrite (replace_Clean _ (Needs_Clean CARD_needs Hdigit)).
  apply (replace_Clean _ (Needs_Clean GREETING_needs Hupper)).
Qed.

End Needs.

Lemma anonymizeText_keeps_plain_text_witness :
  anonymizeText (Some (utf16 "your account will be suspended within hours"))
  = utf16 "your account will be suspended within hours".
Proof.
  apply anonymizeText_keeps_plain_text. vm_compute. reflexivity.
Defined.

(** ** What the extraction helpers return *)

Section Found.
Import RegExp.

(** Each string found has the shape every match of the matcher has. *)
Lemma matches_from_shape (m : Matcher) (Shape : jsstring -> Prop) (fuel : nat) :
  (forall p q, In q (m p) -> exists w, rest p = w ++ rest q /\ Shape w) ->
  forall (b : option N) (s skipped : jsstring),
    Forall (fun found => Shape (snd (fst found)))
           (fst (matches_from fuel m b s skipped)).
Proof.
  intros Hm. induction fuel as [|fuel IH]; intros b s skipped; [constructor|].
  cbn [matches_from].
  destruct (matchAt m b s) as [q|] eqn:Em.
  - assert (In q (m {| before := b; rest := s; group1 := [] |})) as Hq.
    { unfold matchAt in Em. destruct (m _) as [|q' qs]; [discriminate|].
      injection Em as ->. now left. }
    destruct (Hm _ _ Hq) as (w & Es & Hw). cbn [rest] in Es.
    assert (firstn (length s - length (rest q)) s = w) as ->
        by (rewrite Es; apply firstn_consumed).
    destruct w as [|c w].
    + destruct s as [|c s].
      * constructor; [exact Hw|constructor].
      * specialize (IH (Some c) s [c]).
        destruct (matches_from fuel m (Some c) s [c]) as [ms tail].
        constructor; [exact Hw|exact IH].
    + specialize (IH (before q) (rest q) []).
      destruct (matches_from fuel m (before q) (rest q) []) as [ms tail].
      constructor; [exact Hw|exact IH].
  - destruct s as [|c s]; [constructor|apply IH].
Qed.

(** Each string found stands in the text. *)
Lemma original_occurs (ms : list (jsstring * jsstring * jsstring))
      (tail : jsstring) (found : jsstring * jsstring * jsstring) :
  In found ms ->
  exists pre post, original (ms, tail) = pre ++ snd (fst found) ++ post.
Proof.
  intros H. apply in_split in H as (l1 & l2 & ->).
  unfold original. cbn [fst snd]. rewrite flat_map_app. cbn [flat_map].
  destruct found as [[skipped matched] g]. cbn [fst snd].
  exists (flat_map (fun x => let '(skipped0, matched0, _) := x in
                             skipped0 ++ matched0) l1 ++ skipped),
         (flat_map (fun x => let '(skipped0, matched0, _) := x in
                             skipped0 ++ matched0) l2 ++ tail).
  rewrite <- !app_assoc. reflexivity.
Qed.

Lemma String_match_sound (m : Matcher) (Shape : jsstring -> Prop)
      (text r : jsstring) :
  (forall p q, In q (m p) -> exists w, rest p = w ++ rest q /\ Shape w) ->
  In r (TextHelpers.String_match m text) ->
  Shape r /\ exists pre post, text = pre ++ r ++ post.
Proof.
  intros Hm H. unfold TextHelpers.String_match in H.
  apply in_map_iff in H as (found & <- & H). split.
  - pose proof (@matches_from_shape m Shape (S (length text)) Hm None text []) as Hs.
    exact (proj1 (Forall_forall _ _) Hs found H).
  - assert (Consuming m) as Hc
        by (intros p q Hq; destruct (Hm p q Hq) as (w & E & _); now exists w).
    pose proof (@matches_from_original m (S (length text)) Hc None text []) as Ho.
    unfold matches in H.
    destruct (matches_from (S (length text)) m None text []) as [ms tail].
    destruct (@original_occurs ms tail found H) as (pre & post & E).
    exists pre, post. rewrite <- E, Ho. reflexivity.
Qed.

(** The local part and the domain of an address, as [emailRegex] reads
    them. *)
Definition localChar (c : N) : bool := isLetter c || isDigit c || oneOf "._%+-" c.
Definition domainChar (c : N) : bool := isLetter c || isDigit c || oneOf ".-" c.

(** [local@domain.tld] *)
Definition emailShape (w : jsstring) : Prop :=
  exists localPart domain tld,
    w = localPart ++ [64%N] ++ domain ++ [46%N] ++ tld /\
    localPart <> [] /\ forallb localChar localPart = true /\
    domain <> [] /\ forallb domainChar domain = true /\
    (2 <= length tld)%nat /\ forallb isLetter tld = true.

Lemma EMAIL_sound (p q : Pos) :
  In q (EMAIL p) -> exists w, rest p = w ++ rest q /\ emailShape w.
Proof.
  unfold EMAIL. cbn [seqs]. intros H.
  apply in_flat_map in H as (q1 & H1 & H).
  apply in_flat_map in H as (q2 & H2 & H).
  apply in_flat_map in H as (q3 & H3 & H).
  apply in_flat_map in H as (q4 & H4 & H).
  apply in_flat_map in H as (q5 & H5 & [<-|[]]).
  destruct (rep_from_sound _ _ _ _ _ _ _ H1) as (w1 & E1 & Hw1 & Hl1 & _).
  apply cls_sound in H2 as (c2 & E2 & Hc2). apply N.eqb_eq in Hc2. subst c2.
  destruct (rep_from_sound _ _ _ _ _ _ _ H3) as (w3 & E3 & Hw3 & Hl3 & _).
  apply cls_sound in H4 as (c4 & E4 & Hc4). apply N.eqb_eq in Hc4. subst c4.
  destruct (rep_from_sound _ _ _ _ _ _ _ H5) as (w5 & E5 & Hw5 & Hl5 & _).
  exists (w1 ++ [64%N] ++ w3 ++ [46%N] ++ w5). split.
  - rewrite E1, E2, E3, E4, E5, <- !app_assoc. reflexivity.
  - exists w1, w3, w5. repeat split; try assumption.
    + intros ->. cbn in Hl1. lia.
    + intros ->. cbn in Hl3. lia.
Qed.

(** [http://rest] or [https://rest], the scheme in either case. *)
Definition urlShape (w : jsstring) : Prop :=
  exists scheme path,
    w = scheme ++ utf16 "://" ++ path /\
    (map asciiLower scheme = utf16 "http" \/ map asciiLower scheme = utf16 "https") /\
    path <> [] /\
    forallb (fun c => negb (TextHelpers.endsURL c)) path = true.

Lemma urlRegex_sound (p q : Pos) :
  In q (TextHelpers.urlRegex p) -> exists w, rest p = w ++ rest q /\ urlShape w.
Proof.
  unfold TextHelpers.urlRegex. cbn [seqs]. intros H.
  apply in_flat_map in H as (q1 & H1 & H).
  apply in_flat_map in H as (q2 & H2 & H).
  apply in_flat_map in H as (q3 & H3 & H).
  apply in_flat_map in H as (q4 & H4 & [<-|[]]).
  apply lit_i_sound in H1 as (w1 & E1 & Hw1).
  apply lit_sound in H3.
  destruct (rep_from_sound _ _ _ _ _ _ _ H4) as (w4 & E4 & Hw4 & Hl4 & _).
  assert (w4 <> []) as Hne by (intros ->; cbn in Hl4; lia).
  unfold opt, alt in H2. apply in_app_iff in H2 as [H2|[<-|[]]].
  - apply cls_sound in H2 as (c & E2 & Hc). apply N.eqb_eq in Hc.
    exists ((w1 ++ [c]) ++ utf16 "://" ++ w4). split.
    + rewrite E1, E2, H3, E4, <- !app_assoc. reflexivity.
    + exists (w1 ++ [c]), w4. repeat split; try assumption.
      right. rewrite map_app, Hw1. cbn [map]. rewrite Hc. reflexivity.
  - exists (w1 ++ utf16 "://" ++ w4). split.
    + rewrite E1, H3, E4, <- !app_assoc. reflexivity.
    + exists w1, w4. repeat split; try assumption. left. exact Hw1.
Qed.

(** X24.  [extractEmails] returns each address once, and every string it
    returns stands in the text and reads [local@domain.tld]: a local part
    and a domain that are not empty, and at least two letters after the
    last dot. *)
Theorem extractEmails_sound (text r : jsstring) :
  In r (TextHelpers.extractEmails text) ->
  emailShape r /\ (exists pre post, text = pre ++ r ++ post) /\
  NoDup (TextHelpers.extractEmails text).
Proof.
  intros H. unfold TextHelpers.extractEmails in *.
  destruct (Set_values_spec (TextHelpers.String_match TextHelpers.emailRegex text))
    as [Hnd Hin].
  apply Hin in H.
  destruct (@String_match_sound _ emailShape text r EMAIL_sound H) as [Hs Ho].
  split; [exact Hs|]. split; [exact Ho|exact Hnd].
Qed.

(** X25.  [extractURLs] returns each URL once, and every string it returns
    stands in the text and reads [http://] or [https://], in either case,
    followed by at least one character, none of which is white space or
    one of the characters that end a URL. *)
Theorem extractURLs_sound (text r : jsstring) :
  In r (TextHelpers.extractURLs text) ->
  urlShape r /\ (exists pre post, text = pre ++ r ++ post) /\
  NoDup (TextHelpers.extractURLs text).
Proof.
  intros H. unfold TextHelpers.extractURLs in *.
  destruct (Set_values_spec (TextHelpers.String_match TextHelpers.urlRegex text))
    as [Hnd Hin].
  apply Hin in H.
  destruct (@String_match_sound _ urlShape text r urlRegex_sound H) as [Hs Ho].
  split; [exact Hs|]. split; [exact Ho|exact Hnd].
Qed.

End Found.

Definition noticeText : jsstring :=
  utf16 "Write to help@example.com (again: help@example.com) or see HTTPS://example.com/a?b=1 today.".

Lemma extractEmails_sound_witness :
  In (utf16 "help@example.com") (TextHelpers.extractEmails noticeText) /\
  emailShape (utf16 "help@example.com") /\
  (exists pre post, noticeText = pre ++ utf16 "help@example.com" ++ post) /\
  NoDup (TextHelpers.extractEmails noticeText).
Proof.
  assert (In (utf16 "help@example.com") (TextHelpers.extractEmails noticeText))
    as H by (vm_compute; left; reflexivity).
  split; [exact H|].
  exact (@extractEmails_sound noticeText (utf16 "help@example.com") H).
Defined.

Lemma extractURLs_sound_witness :
  In (utf16 "HTTPS://example.com/a?b=1") (TextHelpers.extractURLs noticeText) /\
  urlShape (utf16 "HTTPS://example.com/a?b=1") /\
  (exists pre post, noticeText = pre ++ utf16 "HTTPS://example.com/a?b=1" ++ post) /\
  NoDup (TextHelpers.extractURLs noticeText).
Proof.
  assert (In (utf16 "HTTPS://example.com/a?b=1") (TextHelpers.extractURLs noticeText))
    as H by (vm_compute; left; reflexivity).
  split; [exact H|].
  exact (@extractURLs_sound noticeText (utf16 "HTTPS://example.com/a?b=1") H).
Defined.

(** ** High Risk takes more than one component *)

Definition riskyEmail : EmailData.t := {|
  EmailData.body :=
    utf16 "URGENT ACTION REQUIRED: your account will be suspended within 24 hours. Click here to verify your account or face legal action and a penalty. Dear customer, we have detected unusual activity. Wire transfer of your bank account details is needed!!! Act now!!! Why wait???";
  EmailData.subject := Some (utf16 "Account compromised - verify immediately");
  EmailData.sender := Some (utf16 "security@paypa1-login123456.xyz");
  EmailData.displayName := Some (utf16 "PayPal Security");
  EmailData.urls := Some [utf16 "http://192.168.10.5/secure/login@verify.top"];
  EmailData.tenantId := None
|}.

Lemma defaultAggregate_corners :
  defaultAggregate 100 0 0 = 35 /\ defaultAggregate 0 100 0 = 40
  /\ defaultAggregate 0 0 100 = 25.
Proof. repeat split; vm_compute; reflexivity. Qed.

(** X26.  Under the repository's configuration no single component can
    make a message High Risk: alone, the text gives at most 35, the URLs at
    most 40 and the sender at most 25, so a final score of 70 or more has
    at least two components above zero. *)
Theorem high_risk_needs_two_components (P : Platform) (X : Extensions)
        (phishingModel : option LayersModel)
        (emailData : EmailData.t) (w : Effect.World) :
  repositoryConfiguration X ->
  let r := Effect.run (analyze phishingModel emailData) w in
  let text := ScanResult.textScore (ScanResult.details r) in
  let url := ScanResult.urlScore (ScanResult.details r) in
  let sender := ScanResult.senderScore (ScanResult.details r) in
  70 <= ScanResult.score r ->
  (0 < text /\ 0 < url) \/ (0 < text /\ 0 < sender) \/ (0 < url /\ 0 < sender).
Proof.
  intros Hconf. cbv zeta.
  destruct (analyze_details phishingModel emailData w) as (-> & -> & ->).
  rewrite analyze_score, (finalScoreOf_default _ _ _ _ Hconf).
  pose proof (analyzeText_inRange phishingModel (EmailData.body emailData)
    (match truthy (EmailData.subject emailData) with
     | Some subject => subject | None => [] end)
    (match truthy (EmailData.sender emailData) with
     | Some sender =>
       match nth_error (split 64 sender) 1 with
       | Some domain => domain | None => [] end
     | None => [] end)) as Ht.
  fold (textResultOf phishingModel emailData) in Ht.
  pose proof (analyzeAllURLs_inRange (EmailData.urls emailData)) as Hu.
  fold (urlResultOf emailData) in Hu.
  pose proof (analyzeSender_inRange (EmailData.sender emailData)
                (EmailData.displayName emailData)) as Hs.
  fold (senderResultOf emailData) in Hs.
  set (t := TextAnalysis.score (textResultOf phishingModel emailData)) in *.
  set (u := UrlReport.score (urlResultOf emailData)) in *.
  set (s := Analysis.score (senderResultOf emailData)) in *.
  destruct defaultAggregate_corners as (Ct & Cu & Cs).
  assert (inRange 0) as H0 by (unfold inRange; lia).
  assert (inRange 100) as H100 by (unfold inRange; lia).
  intros Hhigh.
  destruct (Z.eq_dec u 0) as [Eu|Nu], (Z.eq_dec s 0) as [Es|Ns],
           (Z.eq_dec t 0) as [Et|Nt];
    unfold inRange in Ht, Hu, Hs; try (left; lia); try (right; left; lia);
    try (right; right; lia); exfalso.
  - rewrite Eu, Es, Et in Hhigh.
    pose proof (@defaultAggregate_monotone 0 0 0 100 0 0 H0 H0 H0 H100 H0 H0).
    lia.
  - rewrite Eu, Es in Hhigh.
    pose proof (@defaultAggregate_monotone t 0 0 100 0 0).
    unfold inRange in *. lia.
  - rewrite Eu, Et in Hhigh.
    pose proof (@defaultAggregate_monotone 0 0 s 0 0 100).
    unfold inRange in *. lia.
  - rewrite Es, Et in Hhigh.
    pose proof (@defaultAggregate_monotone 0 u 0 0 100 0).
    unfold inRange in *. lia.
Qed.

Lemma high_risk_needs_two_components_witness :
  let r := Effect.run (@analyze Reference.platform runner None riskyEmail)
                      (Reference.world 1700000000000) in
  70 <= ScanResult.score r /\
  ((0 < ScanResult.textScore (ScanResult.details r)
    /\ 0 < ScanResult.urlScore (ScanResult.details r))
   \/ (0 < ScanResult.textScore (ScanResult.details r)
       /\ 0 < ScanResult.senderScore (ScanResult.details r))
   \/ (0 < ScanResult.urlScore (ScanResult.details r)
       /\ 0 < ScanResult.senderScore (ScanResult.details r))).
Proof.
  assert (70 <= ScanResult.score
                 (Effect.run (@analyze Reference.platform runner None riskyEmail)
                             (Reference.world 1700000000000))) as H
      by (vm_compute; discriminate).
  split; [exact H|].
  exact (@high_risk_needs_two_components Reference.platform runner None riskyEmail
           (Reference.world 1700000000000) runner_repositoryConfiguration H).
Defined.

(** ** A sender address without [@] *)

Lemma split_without_separator (sep : N) (s : jsstring) :
  ~ In sep s -> split sep s = [s].
Proof.
  induction s as [|c s IH]; intros H; [reflexivity|].
  cbn [split]. destruct (N.eqb_spec c sep) as [->|Hc]; [exfalso; apply H; now left|].
  rewrite IH; [reflexivity|]. intros Hin. apply H. now right.
Qed.

Lemma trimStart_In (s : jsstring) (c : N) : In c (trimStart s) -> In c s.
Proof.
  induction s as [|d s IH]; [intros []|]. cbn [trimStart].
  destruct (isWhiteSpace d); [intros H; right; exact (IH H)|intros H; exact H].
Qed.

Lemma trim_In (s : jsstring) (c : N) : In c (trim s) -> In c s.
Proof.
  unfold trim. intros H. apply in_rev, trimStart_In, in_rev, trimStart_In in H.
  exact H.
Qed.

Lemma asciiLower_at (s : jsstring) : In 64%N (map asciiLower s) -> In 64%N s.
Proof.
  intros H. apply in_map_iff in H as (c & E & Hc).
  unfold asciiLower in E. destruct (isUpper c) eqn:Eu; [|now subst c].
  unfold isUpper in Eu. apply andb_true_iff in Eu as [Hlo _].
  apply N.leb_le in Hlo. lia.
Qed.

Lemma isASCII_checked (s : jsstring) :
  forallb (fun c => (c <? 128)%N) s = true -> isASCII s.
Proof.
  intros H. apply Forall_forall. intros c Hc.
  apply N.ltb_lt. exact (proj1 (forallb_forall _ _) H c Hc).
Qed.

Lemma absent_checked (c : N) (s : jsstring) :
  existsb (N.eqb c) s = false -> ~ In c s.
Proof.
  intros H Hin. assert (existsb (N.eqb c) s = true) as E
      by (apply existsb_exists; exists c; split; [exact Hin|apply N.eqb_refl]).
  congruence.
Qed.

(** X27.  [analyzeSender] of a missing or empty address returns score 0 and
    no flag, and an ASCII address without the character [@] gets score 30
    and the single flag for an invalid address, whatever the display
    name. *)
Theorem analyzeSender_without_at (P : Platform)
        (senderEmail : jsstring) (displayName : option jsstring) :
  senderEmail <> [] -> isASCII senderEmail -> ~ In 64%N senderEmail ->
  analyzeSender None displayName = {| Analysis.score := 0; Analysis.flags := [] |} /\
  analyzeSender (Some []) displayName
  = {| Analysis.score := 0; Analysis.flags := [] |} /\
  analyzeSender (Some senderEmail) displayName
  = {| Analysis.score := 30;
       Analysis.flags := [utf16 "Invalid sender email format"] |}.
Proof.
  intros Hne Hascii Hat. split; [reflexivity|]. split; [reflexivity|].
  unfold analyzeSender. destruct senderEmail as [|c s]; [congruence|].
  cbn [truthy]. rewrite (toLowerCase_ascii Hascii).
  rewrite split_without_separator; [reflexivity|].
  intros H. apply trim_In, asciiLower_at in H. exact (Hat H).
Qed.

Lemma analyzeSender_without_at_witness :
  @analyzeSender Reference.platform (Some (utf16 "Undisclosed recipients"))
                 (Some (utf16 "Bank"))
  = {| Analysis.score := 30;
       Analysis.flags := [utf16 "Invalid sender email format"] |}.
Proof.
  apply (@analyzeSender_without_at Reference.platform
           (utf16 "Undisclosed recipients") (Some (utf16 "Bank"))).
  - discriminate.
  - apply isASCII_checked. vm_compute. reflexivity.
  - apply absent_checked. vm_compute. reflexivity.
Defined.

(** ** The text [cleanText] returns *)

Section CleanText.
Import RegExp.

(** No [<] with a [>] somewhere after it. *)
Fixpoint tagFree (s : jsstring) : bool :=
  match s with
  | [] => true
  | c :: r => (negb (N.eqb 60 c) || negb (existsb (N.eqb 62) r)) && tagFree r
  end.

(** The next character, if any, is not white space. *)
Definition startsPlain (s : jsstring) : bool :=
  match s with
  | c :: _ => negb (isWhiteSpace c)
  | [] => true
  end.

(** Every white-space character is a space followed by a character that
    is not white space. *)
Fixpoint singleSpaced (s : jsstring) : bool :=
  match s with
  | [] => true
  | c :: r =>
    (negb (isWhiteSpace c) || (N.eqb c 32 && startsPlain r)) && singleSpaced r
  end.

(** [b] is [a] with characters left out and spaces put in. *)
Inductive Thinned : jsstring -> jsstring -> Prop :=
| thin_nil : Thinned [] []
| thin_keep c a b : Thinned a b -> Thinned (c :: a) (c :: b)
| thin_drop c a b : Thinned a b -> Thinned (c :: a) b
| thin_space a b : Thinned a b -> Thinned a (32%N :: b).

Lemma Thinned_refl (a : jsstring) : Thinned a a.
Proof. induction a; constructor; assumption. Qed.

Lemma Thinned_nil (a : jsstring) : Thinned a [].
Proof. induction a; constructor; assumption. Qed.

Lemma Thinned_app (a a' b b' : jsstring) :
  Thinned a b -> Thinned a' b' -> Thinned (a ++ a') (b ++ b').
Proof.
  intros H H'. induction H; cbn [app]; try (constructor; assumption). exact H'.
Qed.

Lemma Thinned_gt (a b : jsstring) :
  Thinned a b -> existsb (N.eqb 62) b = true -> existsb (N.eqb 62) a = true.
Proof.
  induction 1 as [|c a b _ IH|c a b _ IH|a b _ IH]; cbn [existsb]; intros H.
  - exact H.
  - apply orb_true_iff in H as [H|H]; [now rewrite H|].
    rewrite (IH H). apply orb_true_r.
  - rewrite (IH H). apply orb_true_r.
  - exact (IH H).
Qed.

Lemma Thinned_tagFree (a b : jsstring) :
  Thinned a b -> tagFree a = true -> tagFree b = true.
Proof.
  induction 1 as [|c a b Hab IH|c a b _ IH|a b _ IH]; cbn [tagFree]; intros H.
  - reflexivity.
  - apply andb_true_iff in H as [Hc Ha]. rewrite (IH Ha), andb_true_r.
    destruct (N.eqb 60 c); [|reflexivity]. cbn [negb orb] in *.
    destruct (existsb (N.eqb 62) b) eqn:E; [|reflexivity].
    rewrite (Thinned_gt Hab E) in Hc. discriminate.
  - apply andb_true_iff in H as [_ Ha]. exact (IH Ha).
  - exact (IH H).
Qed.

Lemma tagFree_app (a b : jsstring) :
  tagFree (a ++ b) = true <->
  tagFree a = true /\ tagFree b = true /\
  (existsb (N.eqb 60) a = false \/ existsb (N.eqb 62) b = false).
Proof.
  induction a as [|c a IH]; cbn [app tagFree existsb].
  - intuition.
  - rewrite andb_true_iff, IH, andb_true_iff, existsb_app.
    destruct (N.eqb 60 c); cbn [negb orb];
      destruct (existsb (N.eqb 62) a), (existsb (N.eqb 62) b),
               (existsb (N.eqb 60) a); cbn [negb orb]; intuition congruence.
Qed.

(** The text put together again is the text searched, thinned. *)
Lemma pieces_thinned (ms : list (jsstring * jsstring * jsstring))
      (tail : jsstring) :
  Thinned (original (ms, tail)) (pieces (fun _ => [32%N]) (ms, tail)).
Proof.
  unfold original, pieces. cbn [fst snd].
  induction ms as [|[[skipped matched] g] ms IH]; [apply Thinned_refl|].
  cbn [flat_map]. rewrite <- !app_assoc.
  apply Thinned_app; [apply Thinned_refl|].
  apply Thinned_app; [apply thin_space, Thinned_nil|exact IH].
Qed.

Lemma matches_thinned (m : Matcher) (fuel : nat) (b : option N)
      (s skipped : jsstring) :
  Consuming m ->
  Thinned (skipped ++ s)
          (pieces (fun _ => [32%N]) (matches_from fuel m b s skipped)).
Proof.
  intros Hm. rewrite <- (@matches_from_original m fuel Hm b s skipped).
  destruct (matches_from fuel m b s skipped) as [ms tail]. apply pieces_thinned.
Qed.

Lemma replace_thinned (m : Matcher) (text : jsstring) :
  Consuming m -> Thinned text (replace m (fun _ => utf16 " ") text).
Proof.
  intros Hm. rewrite replace_pieces.
  exact (@matches_thinned m (S (length text)) None text [] Hm).
Qed.

(** *** Tags *)

Lemma tagRegex_shrinking : Shrinking TextHelpers.tagRegex.
Proof.
  unfold TextHelpers.tagRegex. cbn [seqs]. apply Shrinking_seq.
  - intros p q H. apply cls_sound in H as (c & E & _). exists c, []. exact E.
  - repeat first [ apply Consuming_seq | apply Consuming_cls | apply Consuming_rep
                 | apply Consuming_eps ].
Qed.

Lemma tagRegex_consuming : Consuming TextHelpers.tagRegex.
Proof.
  intros p q H. destruct (tagRegex_shrinking _ _ H) as (c & w & E).
  now exists (c :: w).
Qed.

Lemma first_occurrence (c : N) (s : jsstring) :
  existsb (N.eqb c) s = true ->
  exists w r, s = w ++ c :: r /\ forallb (fun d => negb (N.eqb d c)) w = true.
Proof.
  induction s as [|d s IH]; cbn [existsb]; [discriminate|].
  destruct (N.eqb_spec c d) as [<-|Hd]; cbn [orb]; intros H.
  - now exists [], s.
  - destruct (IH H) as (w & r & -> & Hw). exists (d :: w), r.
    split; [reflexivity|]. cbn [forallb]. rewrite Hw, andb_true_r.
    apply negb_true_iff, N.eqb_neq. congruence.
Qed.

(** A [<] with a [>] after it starts a tag. *)
Lemma tag_found (b : option N) (r : jsstring) :
  existsb (N.eqb 62) r = true -> matchAt TextHelpers.tagRegex b (60%N :: r) <> None.
Proof.
  intros H. destruct (first_occurrence _ _ H) as (w & r' & -> & Hw).
  destruct (@rep_from_complete (fun c => negb (N.eqb c 62)) w (62%N :: r') 0 None
              (Some 60%N) []) as (q & Hq & Eq); [exact Hw|lia|discriminate|].
  assert (In {| before := Some 62%N; rest := r'; group1 := group1 q |}
             (TextHelpers.tagRegex
                {| before := b; rest := 60%N :: w ++ 62%N :: r'; group1 := [] |}))
    as Hin.
  { unfold TextHelpers.tagRegex. cbn [seqs].
    apply in_flat_map.
    exists {| before := Some 60%N; rest := w ++ 62%N :: r'; group1 := [] |}.
    split; [now left|].
    apply in_flat_map. exists q. split; [exact Hq|].
    apply in_flat_map. exists {| before := Some 62%N; rest := r'; group1 := group1 q |}.
    split; [|now left]. unfold chr, cls. rewrite Eq. now left. }
  unfold matchAt. destruct (TextHelpers.tagRegex _); [destruct Hin|discriminate].
Qed.

(** Every [<] skipped so far has no [>] after it, up to the end of the
    text. *)
Definition Unclosed (skipped s : jsstring) : Prop :=
  tagFree skipped = true /\
  (existsb (N.eqb 60) skipped = true -> existsb (N.eqb 62) s = false).

Lemma matches_from_tagFree (fuel : nat) :
  forall (b : option N) (s skipped : jsstring),
    (length s < fuel)%nat -> Unclosed skipped s ->
    tagFree (pieces (fun _ => [32%N])
                    (matches_from fuel TextHelpers.tagRegex b s skipped)) = true.
Proof.
  induction fuel as [|fuel IH]; intros b s skipped Hfuel [Hfree Hopen]; [lia|].
  cbn [matches_from].
  destruct (matchAt TextHelpers.tagRegex b s) as [q|] eqn:Em.
  - assert (In q (TextHelpers.tagRegex {| before := b; rest := s; group1 := [] |}))
      as Hq.
    { unfold matchAt in Em. destruct (TextHelpers.tagRegex _) as [|q' qs];
        [discriminate|]. injection Em as ->. now left. }
    destruct (tagRegex_shrinking _ _ Hq) as (c & w & Es). cbn [rest] in Es.
    change (c :: w ++ rest q) with ((c :: w) ++ rest q) in Es.
    assert (firstn (length s - length (rest q)) s = c :: w) as ->
        by (rewrite Es; apply firstn_consumed).
    assert (length (rest q) < fuel)%nat as Hf
        by (rewrite Es, length_app in Hfuel; cbn [length] in Hfuel; lia).
    assert (Unclosed [] (rest q)) as H0 by (split; [reflexivity|discriminate]).
    pose proof (IH (before q) (rest q) [] Hf H0) as Hrest.
    pose proof (@matches_thinned TextHelpers.tagRegex fuel (before q) (rest q) []
                  tagRegex_consuming) as Hthin.
    destruct (matches_from fuel TextHelpers.tagRegex (before q) (rest q) [])
      as [ms tail].
    set (R := pieces (fun _ => [32%N]) (ms, tail)) in *.
    assert (pieces (fun _ : jsstring => [32%N])
                   ((skipped, c :: w, group1 q) :: ms, tail)
            = skipped ++ 32%N :: R) as ->
        by (unfold R, pieces; cbn [fst snd flat_map]; now rewrite <- !app_assoc).
    apply tagFree_app. split; [exact Hfree|]. split.
    + cbn [tagFree]. rewrite Hrest. reflexivity.
    + destruct (existsb (N.eqb 60) skipped) eqn:El; [right|now left].
      specialize (Hopen eq_refl). cbn [existsb].
      destruct (existsb (N.eqb 62) R) eqn:Eg; [|reflexivity].
      pose proof (Thinned_gt Hthin Eg) as Hg. cbn [app] in Hg.
      rewrite Es, existsb_app, Hg, orb_true_r in Hopen. discriminate.
  - destruct s as [|c s].
    + unfold pieces. cbn [fst snd flat_map app]. exact Hfree.
    + apply IH; [cbn [length] in Hfuel; lia|]. split.
      * apply tagFree_app. split; [exact Hfree|].
        split; [cbn [tagFree existsb negb]; now rewrite orb_true_r|].
        destruct (existsb (N.eqb 60) skipped) eqn:El; [right|now left].
        specialize (Hopen eq_refl). cbn [existsb] in *.
        apply orb_false_iff in Hopen as [Hc _]. now rewrite Hc.
      * rewrite existsb_app. cbn [existsb]. rewrite orb_false_r. intros H.
        apply orb_true_iff in H as [H|H].
        -- specialize (Hopen H). cbn [existsb] in Hopen.
           apply orb_false_iff in Hopen as [_ Hs]. exact Hs.
        -- apply N.eqb_eq in H. subst c.
           destruct (existsb (N.eqb 62) s) eqn:Eg; [|reflexivity].
           exfalso. exact (tag_found b s Eg Em).
Qed.

(** *** White space *)

Lemma spaces_found (b : option N) (c : N) (s : jsstring) :
  matchAt TextHelpers.spacesRegex b (c :: s) = None -> isWhiteSpace c = false.
Proof.
  unfold matchAt, TextHelpers.spacesRegex, rep. cbn [before rest group1].
  destruct (isWhiteSpace c) eqn:E; [|reflexivity]. intros H. exfalso.
  destruct (@rep_from_complete isWhiteSpace [c] s 1 None b [])
    as (q & Hq & _); [cbn; now rewrite E|cbn; lia|discriminate|].
  cbn [app] in Hq. destruct (rep_from isWhiteSpace 1 None b (c :: s) []);
    [destruct Hq|discriminate].
Qed.

(** The first result of a greedy repetition is the longest. *)
Lemma rep_from_greedy (ok : N -> bool) (s : jsstring) :
  forall lo b g q qs,
    rep_from ok lo None b s g = q :: qs ->
    match rest q with c :: _ => ok c = false | [] => True end.
Proof.
  induction s as [|c r IH]; intros lo b g q qs H; cbn [rep_from] in H.
  - destruct lo; [|discriminate]. injection H as <- _. exact I.
  - destruct (ok c) eqn:Ec.
    + cbn [option_map] in H.
      destruct (rep_from ok (Nat.pred lo) None (Some c) r g) as [|q' qs'] eqn:Er.
      * destruct lo as [|lo]; [exfalso|discriminate].
        destruct (@rep_from_complete ok [] r 0 None (Some c) g)
          as (q0 & Hq0 & _); [reflexivity|cbn; lia|discriminate|].
        cbn [app Nat.pred] in *. rewrite Er in Hq0. destruct Hq0.
      * cbn [app] in H. injection H as <- _.
        exact (IH _ _ _ _ _ Er).
    + destruct lo; [|discriminate]. injection H as <- _. cbn [rest]. exact Ec.
Qed.

Definition plainChar (c : N) : bool := negb (isWhiteSpace c).

Lemma singleSpaced_plain (s : jsstring) :
  forallb plainChar s = true -> singleSpaced s = true.
Proof.
  induction s as [|c s IH]; [reflexivity|]. cbn [forallb singleSpaced].
  intros H. apply andb_true_iff in H as [Hc H]. unfold plainChar in Hc.
  now rewrite Hc, (IH H).
Qed.

Lemma singleSpaced_space (skipped r : jsstring) :
  forallb plainChar skipped = true -> singleSpaced r = true ->
  startsPlain r = true -> singleSpaced (skipped ++ 32%N :: r) = true.
Proof.
  intros Hs Hr Hp. induction skipped as [|c skipped IH]; cbn [app singleSpaced].
  - rewrite Hp, Hr. change (32 =? 32)%N with true. cbn [andb]. now rewrite orb_true_r.
  - cbn [forallb] in Hs. apply andb_true_iff in Hs as [Hc Hs].
    unfold plainChar in Hc. now rewrite Hc, (IH Hs).
Qed.

Lemma startsPlain_app (skipped s : jsstring) :
  forallb plainChar skipped = true ->
  startsPlain (skipped ++ s) = true ->
  forall r, (skipped = [] -> startsPlain s = true -> startsPlain r = true) ->
            startsPlain (skipped ++ r) = true.
Proof.
  intros Hs H r Hr. destruct skipped as [|c skipped]; [now apply Hr|].
  cbn [app startsPlain forallb] in *. now apply andb_true_iff in Hs as [Hc _].
Qed.

Lemma matches_from_singleSpaced (fuel : nat) :
  forall (b : option N) (s skipped : jsstring),
    (length s < fuel)%nat -> forallb plainChar skipped = true ->
    let r := pieces (fun _ => [32%N])
                    (matches_from fuel TextHelpers.spacesRegex b s skipped) in
    singleSpaced r = true /\
    (startsPlain (skipped ++ s) = true -> startsPlain r = true).
Proof.
  induction fuel as [|fuel IH]; intros b s skipped Hfuel Hsk; [lia|].
  cbn [matches_from]. cbv zeta.
  destruct (matchAt TextHelpers.spacesRegex b s) as [q|] eqn:Em.
  - assert (exists qs, rep_from isWhiteSpace 1 None b s [] = q :: qs) as (qs & Er).
    { unfold matchAt, TextHelpers.spacesRegex, rep in Em. cbn [before rest group1] in Em.
      destruct (rep_from isWhiteSpace 1 None b s []) as [|q' qs]; [discriminate|].
      injection Em as ->. now exists qs. }
    assert (In q (rep_from isWhiteSpace 1 None b s [])) as Hq by (rewrite Er; now left).
    apply rep_from_sound in Hq as (w & Es & Hw & Hlo & _).
    destruct w as [|c w]; [cbn in Hlo; lia|].
    pose proof Er as Hgreedy. apply rep_from_greedy in Hgreedy.
    assert (startsPlain (rest q) = true) as Hplain.
    { unfold startsPlain. destruct (rest q) as [|d r]; [reflexivity|].
      now rewrite Hgreedy. }
    assert (firstn (length s - length (rest q)) s = c :: w) as ->
        by (rewrite Es; apply firstn_consumed).
    assert (length (rest q) < fuel)%nat as Hf
        by (rewrite Es, length_app in Hfuel; cbn [length] in Hfuel; lia).
    destruct (IH (before q) (rest q) [] Hf eq_refl) as [Hr Hstart].
    cbn [app] in Hstart. specialize (Hstart Hplain).
    destruct (matches_from fuel TextHelpers.spacesRegex (before q) (rest q) [])
      as [ms tail].
    set (R := pieces (fun _ => [32%N]) (ms, tail)) in *.
    assert (pieces (fun _ : jsstring => [32%N])
                   ((skipped, c :: w, group1 q) :: ms, tail)
            = skipped ++ 32%N :: R) as ->
        by (unfold R, pieces; cbn [fst snd flat_map]; now rewrite <- !app_assoc).
    split; [now apply singleSpaced_space|].
    intros H. apply (startsPlain_app _ Hsk H). intros -> Hs.
    rewrite Es in Hs. cbn [app startsPlain forallb] in *.
    apply andb_true_iff in Hw as [Hc _]. rewrite Hc in Hs. discriminate.
  - destruct s as [|c s].
    + unfold pieces. cbn [fst snd flat_map app]. rewrite app_nil_r.
      split; [now apply singleSpaced_plain|]. intros H. exact H.
    + pose proof (spaces_found _ _ _ Em) as Hc.
      assert (forallb plainChar (skipped ++ [c]) = true) as Hsk'
          by (rewrite forallb_app, Hsk; cbn [forallb]; unfold plainChar;
              now rewrite Hc).
      destruct (IH (Some c) s (skipped ++ [c])) as [Hr Hstart];
        [cbn [length] in Hfuel; lia|exact Hsk'|].
      split; [exact Hr|]. intros H. apply Hstart.
      rewrite <- app_assoc. exact H.
Qed.

(** *** Trimming *)

Lemma trimStart_suffix (s : jsstring) : exists a, s = a ++ trimStart s.
Proof.
  induction s as [|c s (a & IH)]; [now exists []|]. cbn [trimStart].
  destruct (isWhiteSpace c); [|now exists []].
  exists (c :: a). cbn [app]. now rewrite <- IH.
Qed.

Lemma trimStart_startsPlain (s : jsstring) : startsPlain (trimStart s) = true.
Proof.
  induction s as [|c s IH]; [reflexivity|]. cbn [trimStart].
  destruct (isWhiteSpace c) eqn:E; [exact IH|]. cbn [startsPlain]. now rewrite E.
Qed.

Lemma trimStart_snoc (l : jsstring) (c : N) :
  isWhiteSpace c = false -> trimStart (l ++ [c]) = trimStart l ++ [c].
Proof.
  intros Hc. induction l as [|d l IH]; cbn [app trimStart].
  - now rewrite Hc.
  - destruct (isWhiteSpace d); [exact IH|reflexivity].
Qed.

Lemma trim_infix (s : jsstring) : exists a b, s = a ++ trim s ++ b.
Proof.
  unfold trim. destruct (trimStart_suffix s) as (a & Ea).
  destruct (trimStart_suffix (rev (trimStart s))) as (b & Eb).
  exists a, (rev b). rewrite <- rev_app_distr, <- Eb, rev_involutive. exact Ea.
Qed.

Lemma trim_startsPlain (s : jsstring) : startsPlain (trim s) = true.
Proof.
  unfold trim. pose proof (trimStart_startsPlain s) as H.
  destruct (trimStart s) as [|c t]; [reflexivity|].
  cbn [startsPlain] in H. apply negb_true_iff in H.
  cbn [rev]. rewrite (trimStart_snoc _ _ H), rev_app_distr. cbn [rev app startsPlain].
  now rewrite H.
Qed.

Lemma trim_endsPlain (s r : jsstring) (c : N) :
  trim s = r ++ [c] -> isWhiteSpace c = false.
Proof.
  unfold trim. intros H. apply (f_equal (@rev N)) in H.
  rewrite rev_involutive, rev_app_distr in H. cbn [rev app] in H.
  pose proof (trimStart_startsPlain (rev (trimStart s))) as Hp.
  rewrite H in Hp. cbn [startsPlain] in Hp. now apply negb_true_iff in Hp.
Qed.

Lemma singleSpaced_tail (a b : jsstring) :
  singleSpaced (a ++ b) = true -> singleSpaced b = true.
Proof.
  induction a as [|c a IH]; [intros H; exact H|]. cbn [app singleSpaced].
  intros H. apply andb_true_iff in H as [_ H]. exact (IH H).
Qed.

Lemma singleSpaced_front (a b : jsstring) :
  singleSpaced (a ++ b) = true -> singleSpaced a = true.
Proof.
  induction a as [|c a IH]; [reflexivity|]. cbn [app singleSpaced].
  intros H. apply andb_true_iff in H as [Hc H]. rewrite (IH H), andb_true_r.
  destruct a as [|d a]; [|exact Hc]. cbn [startsPlain].
  destruct (isWhiteSpace c); [|reflexivity]. cbn [negb orb] in *.
  apply andb_true_iff in Hc as [Hc _]. now rewrite Hc.
Qed.

(** The three facts about [cleanText] that the theorem unfolds. *)
Lemma cleanText_checked (text : jsstring) :
  let out := TextHelpers.cleanText text in
  tagFree out = true /\ singleSpaced out = true /\ startsPlain out = true.
Proof.
  cbv zeta. unfold TextHelpers.cleanText.
  set (t1 := replace TextHelpers.tagRegex (fun _ => utf16 " ") text).
  set (t2 := replace TextHelpers.nbspRegex (fun _ => utf16 " ") t1).
  set (t3 := replace TextHelpers.spacesRegex (fun _ => utf16 " ") t2).
  assert (tagFree t1 = true) as H1.
  { unfold t1. rewrite replace_pieces. unfold matches.
    apply matches_from_tagFree; [lia|]. split; [reflexivity|discriminate]. }
  assert (tagFree t2 = true) as H2.
  { apply (@Thinned_tagFree t1); [|exact H1].
    apply replace_thinned. apply Consuming_lit. }
  assert (tagFree t3 = true) as H3.
  { apply (@Thinned_tagFree t2); [|exact H2].
    apply replace_thinned. apply Consuming_rep. }
  assert (singleSpaced t3 = true) as Hs.
  { unfold t3. rewrite replace_pieces. unfold matches.
    apply (@matches_from_singleSpaced (S (length t2)) None t2 []); [lia|reflexivity]. }
  destruct (trim_infix t3) as (a & b & E). split; [|split].
  - rewrite E in H3. apply tagFree_app in H3 as (_ & H3 & _).
    apply tagFree_app in H3 as (H3 & _). exact H3.
  - rewrite E in Hs. apply singleSpaced_tail, singleSpaced_front in Hs. exact Hs.
  - apply trim_startsPlain.
Qed.

(** X28.  The text [cleanText] returns has no [<] with a [>] anywhere
    after it, so no tag is left; and every white-space character in it is a
    single space that stands between two characters that are not white
    space. *)
Theorem cleanText_normal_form (text : jsstring) :
  let out := TextHelpers.cleanText text in
  (forall a b, out = a ++ 60%N :: b -> ~ In 62%N b) /\
  (forall a c b, out = a ++ c :: b -> isWhiteSpace c = true ->
     c = 32%N /\ a <> [] /\
     exists d b', b = d :: b' /\ isWhiteSpace d = false).
Proof.
  cbv zeta. destruct (cleanText_checked text) as (Htag & Hsp & Hstart).
  cbv zeta in *. split.
  - intros a b E Hin. rewrite E in Htag.
    apply tagFree_app in Htag as (_ & Htag & _). cbn [tagFree N.eqb] in Htag.
    apply andb_true_iff in Htag as [Htag _]. cbn [negb orb] in Htag.
    apply negb_true_iff in Htag.
    assert (existsb (N.eqb 62) b = true) as Hex
        by (apply existsb_exists; exists 62%N; split; [exact Hin|reflexivity]).
    congruence.
  - intros a c b E Hc. rewrite E in Hsp, Hstart.
    apply singleSpaced_tail in Hsp. cbn [singleSpaced] in Hsp.
    apply andb_true_iff in Hsp as [Hsp _]. rewrite Hc in Hsp. cbn [negb orb] in Hsp.
    apply andb_true_iff in Hsp as [H32 Hb]. apply N.eqb_eq in H32.
    split; [exact H32|]. split.
    + intros ->. cbn [app startsPlain] in Hstart. rewrite Hc in Hstart.
      discriminate.
    + destruct b as [|d b'].
      * rewrite (trim_endsPlain _ _ _ E) in Hc. discriminate.
      * exists d, b'. split; [reflexivity|]. cbn [startsPlain] in Hb.
        now apply negb_true_iff in Hb.
Qed.

End CleanText.
